(** * EcNode peer life-cycle simulators: a shallow embedding

    The development follows the Python sources under [peer_lifecycle/]:

    - [peer_lifecycle_simulator_fixed.py]    (module [Fixed]),
    - [distance_based_connections.py]        (module [Static]),
    - [improved_distance_optimization.py]    (module [Prefix]),
    - [peer_lifecycle_simulator_gradient.py] (module [Gradient]).

    Python integers are [Z]; a [dict] is an association list in insertion
    order with one entry per key; the process-wide [random] generator is an
    explicit stream threaded through every function that draws from it;
    a raised exception is the [Raise] case of the result type. *)

From Stdlib Require Import ZArith List Bool Lia Permutation Sorted.
From Stdlib Require Import Floats.PrimFloat Floats.FloatOps Floats.SpecFloat.
From Stdlib Require Import Numbers.Cyclic.Int63.Uint63.
Import ListNotations.
Local Open Scope Z_scope.

(* ================================================================= *)
(** ** Python preliminaries *)

(** [len(l)] *)
Definition len {A : Type} (l : list A) : Z := Z.of_nat (length l).

(** Exceptions the modelled code can raise. *)
Inductive exn : Type :=
| ValueError
| KeyError.

Inductive res (A : Type) : Type :=
| Ok (a : A)
| Raise (e : exn).
Arguments Ok {A} a.
Arguments Raise {A} e.

Definition bind {A B : Type} (c : res A) (k : A -> res B) : res B :=
  match c with
  | Ok a => k a
  | Raise e => Raise e
  end.

Notation "x <- c1 ;; c2" := (bind c1 (fun x => c2))
  (at level 61, c1 at next level, right associativity).
Notation "' pat <- c1 ;; c2" :=
  (bind c1 (fun x => match x with pat => c2 end))
  (at level 61, pat pattern, c1 at next level, right associativity).

(** *** [dict]: insertion-ordered, keyed by integers *)

Definition dict (V : Type) : Type := list (Z * V).

Section Dict.
Context {V : Type}.

(** [d.get(k)] *)
Fixpoint dict_get (d : dict V) (k : Z) : option V :=
  match d with
  | [] => None
  | (k', v) :: d' => if k' =? k then Some v else dict_get d' k
  end.

(** [k in d] *)
Definition dict_mem (d : dict V) (k : Z) : bool :=
  match dict_get d k with
  | Some _ => true
  | None => false
  end.

(** [d[k] = v]: an existing key keeps its position, a new key goes last. *)
Fixpoint dict_set (d : dict V) (k : Z) (v : V) : dict V :=
  match d with
  | [] => [(k, v)]
  | (k', v') :: d' =>
      if k' =? k then (k', v) :: d' else (k', v') :: dict_set d' k v
  end.

(** [del d[k]]: [KeyError] when the key is absent. *)
Fixpoint dict_del (d : dict V) (k : Z) : res (dict V) :=
  match d with
  | [] => Raise KeyError
  | (k', v') :: d' =>
      if k' =? k then Ok d'
      else d'' <- dict_del d' k ;; Ok ((k', v') :: d'')
  end.

(** [if k in d: del d[k]] *)
Fixpoint dict_discard (d : dict V) (k : Z) : dict V :=
  match d with
  | [] => []
  | (k', v') :: d' =>
      if k' =? k then d' else (k', v') :: dict_discard d' k
  end.

Definition dict_keys (d : dict V) : list Z := map fst d.
Definition dict_values (d : dict V) : list V := map snd d.

(** Python dictionaries hold one entry per key. *)
Definition dict_wf (d : dict V) : Prop := NoDup (dict_keys d).

End Dict.

(** [x in l] for a list of integers. *)
Definition mem (x : Z) (l : list Z) : bool := existsb (Z.eqb x) l.

(** [min(l, key=f)]: the first element with the least key; [None] stands
    for the empty sequence (every caller tests for it beforehand). *)
Fixpoint min_by (f : Z -> Z) (l : list Z) : option Z :=
  match l with
  | [] => None
  | x :: l' =>
      match min_by f l' with
      | None => Some x
      | Some y => if f x <=? f y then Some x else Some y
      end
  end.

(** *** The random generator

    [random] is modelled as a stream of raw draws; every function that
    uses the module-level generator takes the stream and returns the rest
    of it.  No claim below depends on the distribution of the draws. *)

Definition Rng : Type := nat -> nat.

Definition rng_next (g : Rng) : nat * Rng := (g 0%nat, fun n => g (S n)).

(** a draw in [range(n)] *)
Definition randbelow (n : nat) (g : Rng) : nat * Rng :=
  let (x, g') := rng_next g in (Nat.modulo x n, g').

(** [random.randint(lo, hi)] for [lo <= hi] *)
Definition randint (lo hi : Z) (g : Rng) : Z * Rng :=
  let (x, g') := randbelow (Z.to_nat (hi - lo + 1)) g in
  (lo + Z.of_nat x, g').

Definition remove_nth {A : Type} (i : nat) (l : list A) : list A :=
  firstn i l ++ skipn (S i) l.

(** [k] draws without replacement: each draw picks a position of what is
    left of the population. *)
Fixpoint sample_draw {A : Type} (k : nat) (pool : list A) (g : Rng)
  : list A * Rng :=
  match k with
  | O => ([], g)
  | S k' =>
      let (i, g1) := randbelow (length pool) g in
      match nth_error pool i with
      | None => ([], g1)
      | Some x =>
          let (xs, g2) := sample_draw k' (remove_nth i pool) g1 in
          (x :: xs, g2)
      end
  end.

(** [random.sample(population, k)]: [ValueError] when [k] is negative or
    larger than the population. *)
Definition sample {A : Type} (population : list A) (k : Z) (g : Rng)
  : res (list A * Rng) :=
  if (k <? 0) || (len population <? k) then Raise ValueError
  else Ok (sample_draw (Z.to_nat k) population g).

(** [random.choice(seq)] on a non-empty sequence; [None] stands for the
    [IndexError] of an empty one. *)
Definition choice {A : Type} (l : list A) (g : Rng) : option A * Rng :=
  let (i, g') := randbelow (length l) g in (nth_error l i, g').

(** [l.sort(key=f)]: a stable sort, as insertion from the right. *)
Fixpoint insert_by (f : Z -> Z) (x : Z) (l : list Z) : list Z :=
  match l with
  | [] => [x]
  | y :: l' => if f x <=? f y then x :: y :: l' else y :: insert_by f x l'
  end.

Fixpoint sort_by (f : Z -> Z) (l : list Z) : list Z :=
  match l with
  | [] => []
  | x :: l' => insert_by f x (sort_by f l')
  end.

(** *** Binary64 arithmetic

    [int((w / total) * budget)] is evaluated by Python in binary64; the
    result can differ from the exact quotient (for instance
    [int((1/49)*49) = 0]), so the expression is kept in floating point.
    The conversions are exact for magnitudes below [2^53]. *)

Definition float_of_Z (z : Z) : float :=
  if z <? 0 then PrimFloat.opp (PrimFloat.of_uint63 (Uint63.of_Z (- z)))
  else PrimFloat.of_uint63 (Uint63.of_Z z).

(** [int(f)]: truncation towards zero. *)
Definition int_of_float (f : float) : Z :=
  match Prim2SF f with
  | S754_finite s m e =>
      let v := if 0 <=? e then Z.pos m * 2 ^ e else Z.pos m / 2 ^ (- e) in
      if s then - v else v
  | _ => 0
  end.

(** [int((w / total) * budget)] *)
Definition float_share (w total budget : Z) : Z :=
  int_of_float
    (PrimFloat.mul (PrimFloat.div (float_of_Z w) (float_of_Z total))
                   (float_of_Z budget)).

(** [int(t * (budget / assigned))] *)
Definition float_rescale (t budget assigned : Z) : Z :=
  int_of_float
    (PrimFloat.mul (float_of_Z t)
                   (PrimFloat.div (float_of_Z budget) (float_of_Z assigned))).

(** Monadic left fold: a [for] loop whose body may raise. *)
Fixpoint foldM {A B : Type} (f : A -> B -> res A) (l : list B) (a : A)
  : res A :=
  match l with
  | [] => Ok a
  | x :: l' => a' <- f a x ;; foldM f l' a'
  end.

(** Truth value of an [Optional[int]]: [None] and [0] are false. *)
Definition truthy (o : option Z) : bool :=
  match o with
  | Some x => negb (x =? 0)
  | None => false
  end.

(** [pid != o] for an [Optional[int]] [o]. *)
Definition differs (pid : Z) (o : option Z) : bool :=
  match o with
  | Some x => negb (pid =? x)
  | None => true
  end.

(* ================================================================= *)
(** ** Data shared by the simulators *)

Inductive PeerState : Type :=
| CONNECTED
| PROSPECT
| PENDING
| IDENTIFIED.

Definition PeerState_eqb (a b : PeerState) : bool :=
  match a, b with
  | CONNECTED, CONNECTED => true
  | PROSPECT, PROSPECT => true
  | PENDING, PENDING => true
  | IDENTIFIED, IDENTIFIED => true
  | _, _ => false
  end.

Record Invite : Type := mkInvite {
  sender_id : Z;
  round_sent : Z
}.

Record SimulationConfig : Type := mkConfig {
  connected_set_size : Z;
  candidate_set_size : Z;
  max_connections_per_peer : Z;
  initial_identified_peers : Z;
  simulation_rounds : Z;
  address_space_bits : Z
}.

(* ================================================================= *)
(** ** [peer_lifecycle_simulator_fixed.py] *)

Module Fixed.

Record PeerInfo : Type := mkPeerInfo {
  state : PeerState;
  last_heard_from : Z
}.

Record Peer : Type := mkPeer {
  id : Z;
  max_connections : Z;
  known_peers : dict PeerInfo;
  pending_invites : list Invite
}.

Definition with_known_peers (p : Peer) (kp : dict PeerInfo) : Peer :=
  mkPeer (id p) (max_connections p) kp (pending_invites p).

Definition with_pending_invites (p : Peer) (q : list Invite) : Peer :=
  mkPeer (id p) (max_connections p) (known_peers p) q.

(** [Peer(peer_id, max_connections)] *)
Definition new_peer (peer_id max_conn : Z) : Peer :=
  mkPeer peer_id max_conn [] [].

Definition add_peer (p : Peer) (peer_id : Z) (st : PeerState) (lh : Z)
  : Peer :=
  with_known_peers p (dict_set (known_peers p) peer_id (mkPeerInfo st lh)).

Definition get_peer_state (p : Peer) (peer_id : Z) : option PeerState :=
  match dict_get (known_peers p) peer_id with
  | Some info => Some (state info)
  | None => None
  end.

Definition set_peer_state (p : Peer) (peer_id : Z) (st : PeerState)
  (round_num : Z) : Peer :=
  match dict_get (known_peers p) peer_id with
  | Some info =>
      with_known_peers p
        (dict_set (known_peers p) peer_id
           (mkPeerInfo st
              (if 0 <=? round_num then round_num else last_heard_from info)))
  | None =>
      with_known_peers p
        (dict_set (known_peers p) peer_id (mkPeerInfo st round_num))
  end.

Definition update_last_heard_from (p : Peer) (peer_id round_num : Z)
  : Peer :=
  match dict_get (known_peers p) peer_id with
  | Some info =>
      with_known_peers p
        (dict_set (known_peers p) peer_id (mkPeerInfo (state info) round_num))
  | None => p
  end.

Definition get_peers_by_state (p : Peer) (st : PeerState) : list Z :=
  map fst
    (filter (fun e => PeerState_eqb (state (snd e)) st) (known_peers p)).

Definition get_connected_peers (p : Peer) : list Z :=
  get_peers_by_state p CONNECTED.

Definition get_all_known_peers (p : Peer) : list Z :=
  dict_keys (known_peers p).

Definition _xor_distance (peer1_id peer2_id : Z) : Z :=
  Z.lxor peer1_id peer2_id.

Definition find_closest_peer_to_target (p : Peer) (target_id : Z)
  (exclude_states : list PeerState) : option Z :=
  let candidates :=
    map fst
      (filter
         (fun e =>
            negb (existsb (PeerState_eqb (state (snd e))) exclude_states))
         (known_peers p)) in
  min_by (fun pid => _xor_distance pid target_id) candidates.

Definition get_random_known_peer (p : Peer) (g : Rng) : option Z * Rng :=
  match known_peers p with
  | [] => (None, g)
  | _ => choice (dict_keys (known_peers p)) g
  end.

Definition receive_invite (p : Peer) (invite : Invite) : Peer :=
  with_pending_invites p (pending_invites p ++ [invite]).

(** The body of the loop of [process_invites], for one queued invite. *)
Definition process_invite (round_num : Z)
  (acc : Peer * list (Z * PeerState)) (invite : Invite)
  : Peer * list (Z * PeerState) :=
  let (p, state_changes) := acc in
  let s := sender_id invite in
  match get_peer_state p s with
  | Some PENDING =>
      (set_peer_state p s CONNECTED round_num,
       state_changes ++ [(s, CONNECTED)])
  | Some IDENTIFIED =>
      (set_peer_state p s PROSPECT round_num,
       state_changes ++ [(s, PROSPECT)])
  | Some CONNECTED =>
      (update_last_heard_from p s round_num,
       state_changes ++ [(s, CONNECTED)])
  | None =>
      (set_peer_state p s PROSPECT round_num,
       state_changes ++ [(s, PROSPECT)])
  | Some PROSPECT => (p, state_changes)
  end.

Definition process_invites (p : Peer) (round_num : Z)
  : Peer * list (Z * PeerState) :=
  let (p', state_changes) :=
    fold_left (process_invite round_num) (pending_invites p) (p, []) in
  (with_pending_invites p' [], state_changes).

(** [for peer_id in to_remove: del self.known_peers[peer_id]] *)
Definition delete_all (kp : dict PeerInfo) (to_remove : list Z)
  : res (dict PeerInfo) :=
  foldM dict_del to_remove kp.

Definition remove_excess_connections (p : Peer) (g : Rng)
  : res (Peer * list Z * Rng) :=
  let connected := get_connected_peers p in
  if len connected <=? max_connections p then Ok (p, [], g)
  else
    let excess_count := len connected - max_connections p in
    '(to_remove, g') <- sample connected excess_count g ;;
    kp <- delete_all (known_peers p) to_remove ;;
    Ok (with_known_peers p kp, to_remove, g').

(** *** NetworkSimulator

    The metrics collector only reads the peers; it is left out. *)

Record NetworkSimulator : Type := mkSim {
  config : SimulationConfig;
  peers : dict Peer;
  connected_set : list Z;
  candidate_set : list Z;
  round_number : Z
}.

Definition with_peers (sim : NetworkSimulator) (ps : dict Peer)
  : NetworkSimulator :=
  mkSim (config sim) ps (connected_set sim) (candidate_set sim)
        (round_number sim).

(** [_generate_peer_ids]: the [while] loop draws until [count] fresh ids
    are collected; [fuel] bounds the number of draws, [None] is a loop
    that has not finished within it.  [generated] is a Python set, kept
    here in the order of insertion; [list(generated)] lists it in an order
    of Python's choosing, the function [list_of_set] of the insertions. *)
Fixpoint generate_loop (fuel : nat) (max_id count : Z) (exclude : list Z)
  (generated : list Z) (g : Rng) : option (list Z * Rng) :=
  if len generated <? count then
    match fuel with
    | O => None
    | S fuel' =>
        let (peer_id, g') := randint 0 max_id g in
        if negb (mem peer_id exclude) && negb (mem peer_id generated)
        then generate_loop fuel' max_id count exclude
               (generated ++ [peer_id]) g'
        else generate_loop fuel' max_id count exclude generated g'
    end
  else Some (generated, g).

Definition _generate_peer_ids (list_of_set : list Z -> list Z)
  (cfg : SimulationConfig) (fuel : nat)
  (count : Z) (exclude : list Z) (g : Rng) : option (list Z * Rng) :=
  let max_id := Z.shiftl 1 (address_space_bits cfg) - 1 in
  match generate_loop fuel max_id count exclude [] g with
  | Some (generated, g') => Some (list_of_set generated, g')
  | None => None
  end.

(** The established members: every peer knows every other one as
    Connected, heard from in round 0. *)
Definition connected_member (cfg : SimulationConfig) (connected_ids : list Z)
  (peer_id : Z) : Peer :=
  fold_left
    (fun peer other_id =>
       if negb (other_id =? peer_id) then add_peer peer other_id CONNECTED 0
       else peer)
    connected_ids
    (new_peer peer_id (max_connections_per_peer cfg)).

(** A joining member: a sample of the established ones, Identified. *)
Definition candidate_member (cfg : SimulationConfig) (connected_ids : list Z)
  (peer_id : Z) (g : Rng) : res (Peer * Rng) :=
  let num_identified :=
    Z.min (initial_identified_peers cfg) (len connected_ids) in
  '(identified_peers, g') <- sample connected_ids num_identified g ;;
  Ok (fold_left (fun peer identified_id =>
                   add_peer peer identified_id IDENTIFIED (-1))
                identified_peers
                (new_peer peer_id (max_connections_per_peer cfg)),
      g').

Definition _initialize_network (list_of_set : list Z -> list Z)
  (cfg : SimulationConfig) (fuel : nat)
  (g : Rng) : option (res (NetworkSimulator * Rng)) :=
  match _generate_peer_ids list_of_set cfg fuel (connected_set_size cfg) []
          g with
  | None => None
  | Some (connected_ids, g1) =>
      let ps1 :=
        fold_left
          (fun ps peer_id =>
             dict_set ps peer_id (connected_member cfg connected_ids peer_id))
          connected_ids [] in
      match _generate_peer_ids list_of_set cfg fuel (candidate_set_size cfg)
              connected_ids g1 with
      | None => None
      | Some (candidate_ids, g2) =>
          Some
            ('(ps2, g3) <-
               foldM
                 (fun (acc : dict Peer * Rng) peer_id =>
                    let (ps, g') := acc in
                    '(peer, g'') <-
                      candidate_member cfg connected_ids peer_id g' ;;
                    Ok (dict_set ps peer_id peer, g''))
                 candidate_ids (ps1, g2) ;;
             Ok (mkSim cfg ps2 connected_ids candidate_ids 0, g3))
      end
  end.

(** [_recursive_search_with_hop_limit]; the recursion is on the hop
    budget, [max_hops <= 0] being the exhausted budget. *)
Fixpoint search (ps : dict Peer) (hops : nat) (start_peer_id target_id : Z)
  : Z :=
  match hops with
  | O => start_peer_id
  | S hops' =>
      match dict_get ps start_peer_id with
      | None => start_peer_id
      | Some current_peer =>
          let connected_peers := get_connected_peers current_peer in
          match min_by (fun pid => _xor_distance pid target_id)
                  connected_peers with
          | None => start_peer_id
          | Some closest_connected =>
              let current_distance :=
                _xor_distance start_peer_id target_id in
              let closest_distance :=
                _xor_distance closest_connected target_id in
              if current_distance <=? closest_distance then start_peer_id
              else search ps hops' closest_connected target_id
          end
      end
  end.

Definition _recursive_search_with_hop_limit (sim : NetworkSimulator)
  (start_peer_id target_id max_hops : Z) : Z :=
  search (peers sim) (Z.to_nat max_hops) start_peer_id target_id.

(** The starting points of a lookup. *)
Definition starting_points (sim : NetworkSimulator) (peer : Peer)
  (target_id : Z) (g : Rng) : res (list Z * Rng) :=
  let closest_peer_id := find_closest_peer_to_target peer target_id [] in
  let first :=
    match closest_peer_id with
    | Some c =>
        if truthy closest_peer_id && dict_mem (peers sim) c then [c] else []
    | None => []
    end in
  let all_known := get_all_known_peers peer in
  let available_randoms :=
    filter (fun pid => differs pid closest_peer_id && dict_mem (peers sim) pid)
           all_known in
  let num_random := Z.min 2 (len available_randoms) in
  if 0 <? num_random then
    '(random_starts, g') <- sample available_randoms num_random g ;;
    Ok (first ++ random_starts, g')
  else Ok (first, g).

(** The responses of the walks, one per starting point; a response is
    kept only when [if response:] holds. *)
Definition walk_responses (sim : NetworkSimulator) (target_id : Z)
  (starts : list Z) : list Z :=
  fold_left
    (fun responses start_id =>
       let response :=
         _recursive_search_with_hop_limit sim start_id target_id 10 in
       if truthy (Some response) then responses ++ [response]
       else responses)
    starts [].

Definition simulate_mapping_request (sim : NetworkSimulator) (peer : Peer)
  (g : Rng) : res (option Z * Rng) :=
  let max_id := Z.shiftl 1 (address_space_bits (config sim)) - 1 in
  let (target_id, g1) := randint 0 max_id g in
  '(starts, g2) <- starting_points sim peer target_id g1 ;;
  match starts with
  | [] => Ok (None, g2)
  | _ =>
      let responses := walk_responses sim target_id starts in
      Ok (min_by (fun pid => _xor_distance pid target_id) responses, g2)
  end.

(** The self-initiated transition of phase 1 on the result of a lookup:
    the peer after it, and the invites it queues. *)
Definition handle_discovery (sim : NetworkSimulator) (peer : Peer)
  (discovered_peer_id : option Z) : Peer * list (Z * Z) :=
  match discovered_peer_id with
  | Some d =>
      if truthy discovered_peer_id && negb (d =? id peer) &&
         dict_mem (peers sim) d
      then
        match get_peer_state peer d with
        | None =>
            (set_peer_state peer d PENDING (round_number sim),
             [(id peer, d)])
        | Some IDENTIFIED =>
            (set_peer_state peer d PENDING (round_number sim),
             [(id peer, d)])
        | Some PROSPECT =>
            (set_peer_state peer d CONNECTED (round_number sim),
             [(id peer, d)])
        | Some CONNECTED =>
            (update_last_heard_from peer d (round_number sim),
             [(id peer, d)])
        | Some PENDING => (peer, [])
        end
      else (peer, [])
  | None => (peer, [])
  end.

(** Phase 1, for the peer stored under [key]. *)
Definition phase1_step
  (acc : NetworkSimulator * list (Z * Z) * Rng) (key : Z)
  : res (NetworkSimulator * list (Z * Z) * Rng) :=
  let '(sim, invites_to_send, g) := acc in
  match dict_get (peers sim) key with
  | None => Ok acc
  | Some peer =>
      '(discovered_peer_id, g') <- simulate_mapping_request sim peer g ;;
      let (peer', sent) := handle_discovery sim peer discovered_peer_id in
      Ok (with_peers sim (dict_set (peers sim) key peer'),
          invites_to_send ++ sent, g')
  end.

(** Phase 2: delivery of the invites queued in phase 1. *)
Definition deliver (sim : NetworkSimulator) (sender receiver : Z)
  : NetworkSimulator :=
  match dict_get (peers sim) receiver with
  | Some target =>
      with_peers sim
        (dict_set (peers sim) receiver
           (receive_invite target (mkInvite sender (round_number sim))))
  | None => sim
  end.

Definition phase2 (sim : NetworkSimulator) (invites_to_send : list (Z * Z))
  : NetworkSimulator :=
  fold_left (fun s sr => deliver s (fst sr) (snd sr)) invites_to_send sim.

(** The maintenance invites of one peer in phase 3. *)
Definition maintenance (sim : NetworkSimulator) (peer : Peer) (g : Rng)
  : res (NetworkSimulator * list Z * Rng) :=
  let connected_peers := get_connected_peers peer in
  if 2 <=? len connected_peers then
    '(selected_peers, g') <- sample connected_peers 2 g ;;
    Ok (fold_left (fun s target_id => deliver s (id peer) target_id)
                  selected_peers sim,
        selected_peers, g')
  else Ok (sim, [], g).

(** Phase 3, for the peer stored under [key].  The log records, for
    this call of [process_invites], the queue it drained. *)
Definition phase3_step
  (acc : NetworkSimulator * list (Z * list Invite) * Rng) (key : Z)
  : res (NetworkSimulator * list (Z * list Invite) * Rng) :=
  let '(sim, log, g) := acc in
  match dict_get (peers sim) key with
  | None => Ok acc
  | Some peer =>
      let drained := pending_invites peer in
      let (peer1, _) := process_invites peer (round_number sim) in
      let sim1 := with_peers sim (dict_set (peers sim) key peer1) in
      '(sim2, _, g1) <- maintenance sim1 peer1 g ;;
      match dict_get (peers sim2) key with
      | None => Ok (sim2, log ++ [(key, drained)], g1)
      | Some peer2 =>
          '(peer3, _, g2) <- remove_excess_connections peer2 g1 ;;
          Ok (with_peers sim2 (dict_set (peers sim2) key peer3),
              log ++ [(key, drained)], g2)
      end
  end.

Definition phase1 (sim : NetworkSimulator) (g : Rng)
  : res (NetworkSimulator * list (Z * Z) * Rng) :=
  foldM phase1_step (dict_keys (peers sim)) (sim, [], g).

Definition phase3 (sim : NetworkSimulator) (g : Rng)
  : res (NetworkSimulator * list (Z * list Invite) * Rng) :=
  foldM phase3_step (dict_keys (peers sim)) (sim, [], g).

Definition simulate_round (sim : NetworkSimulator) (g : Rng)
  : res (NetworkSimulator * Rng) :=
  '(sim1, invites_to_send, g1) <- phase1 sim g ;;
  let sim2 := phase2 sim1 invites_to_send in
  '(sim3, _, g2) <- phase3 sim2 g1 ;;
  Ok (mkSim (config sim3) (peers sim3) (connected_set sim3)
            (candidate_set sim3) (round_number sim3 + 1),
      g2).

(** [run_simulation]: [n] rounds in a row. *)
Fixpoint run_rounds (n : nat) (sim : NetworkSimulator) (g : Rng)
  : res (NetworkSimulator * Rng) :=
  match n with
  | O => Ok (sim, g)
  | S n' => '(sim', g') <- simulate_round sim g ;; run_rounds n' sim' g'
  end.

End Fixed.

(* ================================================================= *)
(** ** Bucketed eviction: what the two bucketed policies share *)

(** [range(n)] *)
Definition range (n : Z) : list Z := map Z.of_nat (seq 0 (Z.to_nat n)).

(** [p not in to_remove] over a list: [[p for p in l if p not in r]]. *)
Definition without (l r : list Z) : list Z :=
  filter (fun p => negb (mem p r)) l.

(** The body of the loop over the bucket targets, the same in both files:
    a bucket holding more Connected peers than its target gives up its
    furthest ones, read from the end of the list sorted by distance. *)
Definition bucket_excess (dist : Z -> Z) (current_peers : list Z)
  (target_count : Z) : list Z :=
  let current_count := len current_peers in
  if target_count <? current_count then
    let excess_count := current_count - target_count in
    let sorted := sort_by dist current_peers in
    firstn (Z.to_nat (Z.min excess_count (len sorted))) (rev sorted)
  else [].

(** [for peer_id in to_remove: if peer_id in known_peers: del ...] *)
Definition discard_all {V : Type} (kp : dict V) (to_remove : list Z)
  : dict V :=
  fold_left dict_discard to_remove kp.

(* ================================================================= *)
(** ** [distance_based_connections.py] *)

Module Static.
Import Fixed.

(** [DistanceOptimizedPeer] extends [Peer] with two attributes computed
    once, in [__init__], from [max_connections]. *)
Definition connection_slack (p : Peer) : Z :=
  Z.max 2 (max_connections p / 4).

Definition soft_max_connections (p : Peer) : Z :=
  max_connections p + connection_slack p.

Definition get_distance_to_peer (p : Peer) (peer_id : Z) : Z :=
  _xor_distance (id p) peer_id.

(** [int(max_distance * (2 ** e))] for [e <= 0]; the product is exact in
    binary64 for [max_distance < 2^53]. *)
Definition scale_pow2 (max_distance e : Z) : Z :=
  Z.shiftr max_distance (- e).

Definition bucket_range (max_distance num_buckets i : Z) : Z * Z :=
  (if i =? 0 then 0 else scale_pow2 max_distance (i - num_buckets + 1),
   if i =? num_buckets - 1 then max_distance
   else scale_pow2 max_distance (i - num_buckets + 2)).

(** The first bucket whose range holds the distance. *)
Fixpoint bucket_index (bucket_ranges : list (Z * Z)) (distance : Z)
  : option nat :=
  match bucket_ranges with
  | [] => None
  | (bucket_min, bucket_max) :: rest =>
      if (bucket_min <=? distance) && (distance <=? bucket_max) then Some O
      else option_map S (bucket_index rest distance)
  end.

Definition in_bucket (p : Peer) (bucket_ranges : list (Z * Z)) (i : nat)
  (peer_id : Z) : bool :=
  match bucket_index bucket_ranges (get_distance_to_peer p peer_id) with
  | Some j => Nat.eqb i j
  | None => false
  end.

(** [(bucket_targets, buckets, bucket_ranges)]; [None] is the empty
    dictionary returned for an empty [all_peers], which the caller
    fails to unpack.  The dictionaries keyed ["bucket_i"] are lists
    indexed by [i]. *)
Definition calculate_optimal_distribution (p : Peer) (all_peers : list Z)
  : option (list Z * list (list Z) * list (Z * Z)) :=
  match all_peers with
  | [] => None
  | _ =>
      let distances :=
        sort_by (get_distance_to_peer p)
                (filter (fun pid => negb (pid =? id p)) all_peers) in
      let max_distance :=
        match map (get_distance_to_peer p) distances with
        | [] => 1
        | d :: ds => fold_left Z.max ds d
        end in
      let num_buckets := Z.min 8 (len distances) in
      let bucket_ranges :=
        map (bucket_range max_distance num_buckets) (range num_buckets) in
      let buckets :=
        map (fun i => filter (in_bucket p bucket_ranges (Z.to_nat i))
                             distances)
            (range num_buckets) in
      let total_budget := max_connections p in
      let weights :=
        map (fun i => 2 ^ (num_buckets - i - 1)) (range num_buckets) in
      let total_weight := fold_right Z.add 0 weights in
      let bucket_targets :=
        map (fun w => Z.max 1 (float_share w total_weight total_budget))
            weights in
      Some (bucket_targets, buckets, bucket_ranges)
  end.

(** The loop over [bucket_targets.items()]. *)
Definition bucket_removals (p : Peer) (bucket_targets : list Z)
  (bucket_ranges : list (Z * Z)) (current_connected : list Z) : list Z :=
  flat_map
    (fun it : nat * Z =>
       bucket_excess (get_distance_to_peer p)
         (filter (in_bucket p bucket_ranges (fst it)) current_connected)
         (snd it))
    (combine (seq 0 (length bucket_targets)) bucket_targets).

Definition optimize_connections (p : Peer) (all_peers : list Z) (g : Rng)
  : res (list Z * Rng) :=
  if len all_peers <=? 1 then Ok ([], g)
  else
    let current_connected := get_connected_peers p in
    if len current_connected <=? max_connections p then Ok ([], g)
    else
      match calculate_optimal_distribution p all_peers with
      | None =>
          let excess := len current_connected - max_connections p in
          sample current_connected excess g
      | Some (bucket_targets, _, bucket_ranges) =>
          let to_remove :=
            bucket_removals p bucket_targets bucket_ranges
                            current_connected in
          let remaining_excess :=
            len current_connected - max_connections p - len to_remove in
          let cut :=
            firstn (Z.to_nat (len current_connected - max_connections p)) in
          if 0 <? remaining_excess then
            let remaining_connected := without current_connected to_remove in
            '(additional_removals, g') <-
              sample remaining_connected
                     (Z.min remaining_excess (len remaining_connected)) g ;;
            Ok (cut (to_remove ++ additional_removals), g')
          else Ok (cut to_remove, g)
      end.

Definition remove_excess_connections (p : Peer)
  (all_peers : option (list Z)) (g : Rng) : res (Peer * list Z * Rng) :=
  let connected := get_connected_peers p in
  if len connected <=? soft_max_connections p then Ok (p, [], g)
  else
    '(to_remove, g') <-
      match all_peers with
      | None =>
          let excess_count := len connected - max_connections p in
          sample connected (Z.min excess_count (len connected)) g
      | Some ap => optimize_connections p ap g
      end ;;
    Ok (with_known_peers p (discard_all (known_peers p) to_remove),
        to_remove, g').

End Static.

(* ================================================================= *)
(** ** [improved_distance_optimization.py] *)

Module Prefix.
Import Fixed.

Definition connection_slack (p : Peer) : Z :=
  Z.max 2 (max_connections p / 3).

Definition soft_max_connections (p : Peer) : Z :=
  max_connections p + connection_slack p.

Definition get_distance_to_peer (p : Peer) (peer_id : Z) : Z :=
  _xor_distance (id p) peer_id.

(** The loop of [_count_leading_zeros] over bits [n-1] down to [0]. *)
Fixpoint clz_from (n : nat) (value : Z) : Z :=
  match n with
  | O => 0
  | S n' =>
      if negb (Z.land value (Z.shiftl 1 (Z.of_nat n')) =? 0) then 0
      else 1 + clz_from n' value
  end.

Definition _count_leading_zeros (value : Z) : Z :=
  if value =? 0 then 32 else clz_from 32 value.

(** [min(self._count_leading_zeros(distance), 31)] *)
Definition prefix_len (p : Peer) (peer_id : Z) : Z :=
  Z.min (_count_leading_zeros (get_distance_to_peer p peer_id)) 31.

(** Membership of a peer in the bucket of a prefix length; a peer at
    distance [0] is skipped. *)
Definition in_bucket (p : Peer) (bucket_id : Z) (peer_id : Z) : bool :=
  negb (get_distance_to_peer p peer_id =? 0) &&
  (prefix_len p peer_id =? bucket_id).

Definition tier_weight (bucket_id : Z) : Z :=
  if 24 <=? bucket_id then 4
  else if 16 <=? bucket_id then 3
  else if 8 <=? bucket_id then 2
  else 1.

(** [(target_distribution, buckets)]; [None] is the empty dictionary
    of the early returns, which the caller fails to unpack. *)
Definition calculate_routing_distribution (p : Peer) (all_peers : list Z)
  : option (dict Z * dict (list Z)) :=
  match all_peers with
  | [] => None
  | _ =>
      let other_peers := filter (fun pid => negb (pid =? id p)) all_peers in
      match other_peers with
      | [] => None
      | _ =>
          let max_bits := 32 in
          let buckets :=
            map (fun k => (k, filter (in_bucket p k) other_peers))
                (range max_bits) in
          let total_budget := max_connections p in
          let non_empty_buckets :=
            map fst
              (filter (fun kv => negb (len (snd kv) =? 0)) buckets) in
          match non_empty_buckets with
          | [] => None
          | _ =>
              let weights :=
                map (fun b => (b, tier_weight b)) non_empty_buckets in
              let total_weight := fold_right Z.add 0 (map snd weights) in
              if total_weight =? 0 then None
              else
                let target_distribution :=
                  map (fun bw =>
                         (fst bw,
                          Z.max 1 (float_share (snd bw) total_weight
                                               total_budget)))
                      weights in
                let total_assigned :=
                  fold_right Z.add 0 (map snd target_distribution) in
                if total_budget <? total_assigned then
                  Some
                    (map (fun bt =>
                            (fst bt,
                             Z.max 1 (float_rescale (snd bt) total_budget
                                                    total_assigned)))
                         target_distribution,
                     buckets)
                else Some (target_distribution, buckets)
          end
      end
  end.

(** The loop over [target_distribution.items()]. *)
Definition bucket_removals (p : Peer) (target_distribution : dict Z)
  (current_connected : list Z) : list Z :=
  flat_map
    (fun bt : Z * Z =>
       bucket_excess (get_distance_to_peer p)
         (filter (in_bucket p (fst bt)) current_connected)
         (snd bt))
    target_distribution.

Definition optimize_connections_improved (p : Peer) (all_peers : list Z)
  (g : Rng) : res (list Z * Rng) :=
  let current_connected := get_connected_peers p in
  if len current_connected <=? max_connections p then Ok ([], g)
  else
    let fallback :=
      let excess := len current_connected - max_connections p in
      sample current_connected (Z.min excess (len current_connected)) g in
    match calculate_routing_distribution p all_peers with
    | None => fallback
    | Some ([], _) => fallback
    | Some (target_distribution, _) =>
        let to_remove :=
          bucket_removals p target_distribution current_connected in
        let current_after_removal := without current_connected to_remove in
        let additional_needed :=
          len current_after_removal - max_connections p in
        if 0 <? additional_needed then
          '(additional_removals, g') <-
            sample current_after_removal
                   (Z.min additional_needed (len current_after_removal)) g ;;
          Ok (to_remove ++ additional_removals, g')
        else Ok (to_remove, g)
    end.

Definition remove_excess_connections (p : Peer)
  (all_peers : option (list Z)) (g : Rng) : res (Peer * list Z * Rng) :=
  let connected := get_connected_peers p in
  if len connected <=? soft_max_connections p then Ok (p, [], g)
  else
    '(to_remove, g') <-
      match all_peers with
      | None =>
          let excess_count := len connected - max_connections p in
          sample connected (Z.min excess_count (len connected)) g
      | Some ap => optimize_connections_improved p ap g
      end ;;
    Ok (with_known_peers p (discard_all (known_peers p) to_remove),
        to_remove, g').

End Prefix.

(* ================================================================= *)
(** ** [peer_lifecycle_simulator_gradient.py]

    The file declares the same [PeerState] and [Invite] as the fixed
    simulator; its [PeerInfo] carries a distance class. *)

Module Gradient.

Record PeerInfo : Type := mkPeerInfo {
  state : PeerState;
  last_heard_from : Z;
  distance_class : Z
}.

Record GradientPeer : Type := mkPeer {
  id : Z;
  max_connections : Z;
  address_space_bits : Z;
  known_peers : dict PeerInfo;
  pending_invites : list Invite;
  distance_classes : dict (list Z)
}.

(** Attributes assigned once, in [__init__]. *)
Definition address_space_size (p : GradientPeer) : Z :=
  Z.shiftl 1 (address_space_bits p).

(** [int(math.log2(x))].  [math.log2] raises [ValueError] unless [x] is
    positive.  For a positive [x] below [2^47], and for a power of two,
    the float logarithm truncates to the integer logarithm; from there on
    its rounding can reach the next integer, and [round_up] says for
    which [x] it does. *)
Definition int_log2 (round_up : Z -> bool) (x : Z) : res Z :=
  if x <=? 0 then Raise ValueError
  else if (x <? 2 ^ 47) || (x =? 2 ^ Z.log2 x) || negb (round_up x)
       then Ok (Z.log2 x)
       else Ok (Z.log2 x + 1).

(** [int(math.log2(self.address_space_size)) + 1], assigned once in
    [__init__]: the argument is the power of two [1 << address_space_bits],
    whose logarithm is exact. *)
Definition max_distance_classes (p : GradientPeer) : Z :=
  Z.log2 (address_space_size p) + 1.

(** The loop of [_calculate_distance_budgets], with its [break]. *)
Fixpoint budgets_loop (classes : list Z) (remaining_budget : Z)
  (budgets : dict Z) : dict Z :=
  match classes with
  | [] => budgets
  | c :: rest =>
      let allocation :=
        if c =? 0 then Z.max 1 (remaining_budget / 3)
        else Z.max 1 (remaining_budget / 2 ^ c) in
      let budgets' := dict_set budgets c (Z.min allocation remaining_budget) in
      let remaining' := Z.max 0 (remaining_budget - allocation) in
      if remaining' =? 0 then budgets'
      else budgets_loop rest remaining' budgets'
  end.

Definition _calculate_distance_budgets (p : GradientPeer) : dict Z :=
  budgets_loop (range (max_distance_classes p)) (max_connections p * 5) [].

Definition distance_class_budgets (p : GradientPeer) : dict Z :=
  _calculate_distance_budgets p.

Definition _arithmetic_distance (peer1_id peer2_id : Z) : Z :=
  Z.abs (peer1_id - peer2_id).

Definition _ring_distance (p : GradientPeer) (peer1_id peer2_id : Z) : Z :=
  let direct_distance := Z.abs (peer1_id - peer2_id) in
  let wrap_distance := address_space_size p - direct_distance in
  Z.min direct_distance wrap_distance.

Definition _get_distance_class (round_up : Z -> bool) (p : GradientPeer)
  (distance : Z) : res Z :=
  if distance =? 0 then Ok 0
  else
    l <- int_log2 round_up distance ;;
    Ok (Z.min (l + 1) (max_distance_classes p - 1)).

(** [d[c].append(pid)] on a [defaultdict(list)] *)
Definition group_add (d : dict (list Z)) (c pid : Z) : dict (list Z) :=
  match dict_get d c with
  | Some l => dict_set d c (l ++ [pid])
  | None => dict_set d c [pid]
  end.

Definition with_known_peers (p : GradientPeer) (kp : dict PeerInfo)
  : GradientPeer :=
  mkPeer (id p) (max_connections p) (address_space_bits p) kp
         (pending_invites p) (distance_classes p).

Definition with_pending_invites (p : GradientPeer) (q : list Invite)
  : GradientPeer :=
  mkPeer (id p) (max_connections p) (address_space_bits p) (known_peers p)
         q (distance_classes p).

Definition _update_distance_class_membership (p : GradientPeer)
  : GradientPeer :=
  mkPeer (id p) (max_connections p) (address_space_bits p) (known_peers p)
         (pending_invites p)
         (fold_left
            (fun d e =>
               if PeerState_eqb (state (snd e)) CONNECTED
               then group_add d (distance_class (snd e)) (fst e)
               else d)
            (known_peers p) []).

(** [GradientPeer(peer_id, max_connections, address_space_bits)] *)
Definition new_peer (peer_id max_conn bits : Z) : GradientPeer :=
  mkPeer peer_id max_conn bits [] [] [].

Definition add_peer (round_up : Z -> bool) (p : GradientPeer) (peer_id : Z)
  (st : PeerState) (lh : Z) : res GradientPeer :=
  let distance := _ring_distance p (id p) peer_id in
  dc <- _get_distance_class round_up p distance ;;
  Ok (_update_distance_class_membership
        (with_known_peers p
           (dict_set (known_peers p) peer_id (mkPeerInfo st lh dc)))).

Definition get_peer_state (p : GradientPeer) (peer_id : Z)
  : option PeerState :=
  match dict_get (known_peers p) peer_id with
  | Some info => Some (state info)
  | None => None
  end.

Definition set_peer_state (round_up : Z -> bool) (p : GradientPeer)
  (peer_id : Z) (st : PeerState) (round_num : Z) : res GradientPeer :=
  let distance := _ring_distance p (id p) peer_id in
  dc <- _get_distance_class round_up p distance ;;
  Ok (_update_distance_class_membership
        (match dict_get (known_peers p) peer_id with
         | Some info =>
             with_known_peers p
               (dict_set (known_peers p) peer_id
                  (mkPeerInfo st
                     (if 0 <=? round_num then round_num
                      else last_heard_from info)
                     dc))
         | None =>
             with_known_peers p
               (dict_set (known_peers p) peer_id
                  (mkPeerInfo st round_num dc))
         end)).

Definition update_last_heard_from (p : GradientPeer) (peer_id round_num : Z)
  : GradientPeer :=
  match dict_get (known_peers p) peer_id with
  | Some info =>
      with_known_peers p
        (dict_set (known_peers p) peer_id
           (mkPeerInfo (state info) round_num (distance_class info)))
  | None => p
  end.

Definition get_peers_by_state (p : GradientPeer) (st : PeerState) : list Z :=
  map fst
    (filter (fun e => PeerState_eqb (state (snd e)) st) (known_peers p)).

Definition get_connected_peers (p : GradientPeer) : list Z :=
  get_peers_by_state p CONNECTED.

Definition receive_invite (p : GradientPeer) (invite : Invite)
  : GradientPeer :=
  with_pending_invites p (pending_invites p ++ [invite]).

(** The body of the loop of [process_invites], for one queued invite. *)
Definition process_invite (round_up : Z -> bool) (round_num : Z)
  (acc : GradientPeer * list (Z * PeerState)) (invite : Invite)
  : res (GradientPeer * list (Z * PeerState)) :=
  let (p, state_changes) := acc in
  let s := sender_id invite in
  match get_peer_state p s with
  | Some PENDING =>
      p' <- set_peer_state round_up p s CONNECTED round_num ;;
      Ok (p', state_changes ++ [(s, CONNECTED)])
  | Some IDENTIFIED =>
      p' <- set_peer_state round_up p s PROSPECT round_num ;;
      Ok (p', state_changes ++ [(s, PROSPECT)])
  | Some CONNECTED =>
      Ok (update_last_heard_from p s round_num,
          state_changes ++ [(s, CONNECTED)])
  | None =>
      p' <- set_peer_state round_up p s PROSPECT round_num ;;
      Ok (p', state_changes ++ [(s, PROSPECT)])
  | Some PROSPECT => Ok (p, state_changes)
  end.

Definition process_invites (round_up : Z -> bool) (p : GradientPeer)
  (round_num : Z) : res (GradientPeer * list (Z * PeerState)) :=
  '(p', state_changes) <-
    foldM (process_invite round_up round_num) (pending_invites p) (p, []) ;;
  Ok (with_pending_invites p' [], state_changes).

(** The distance class recorded for a known peer
    ([self.known_peers[peer_id].distance_class]). *)
Definition class_of (p : GradientPeer) (peer_id : Z) : res Z :=
  match dict_get (known_peers p) peer_id with
  | Some info => Ok (distance_class info)
  | None => Raise KeyError
  end.

(** [class_groups]: the Connected peers grouped by recorded class. *)
Definition class_groups (p : GradientPeer) (connected : list Z)
  : res (dict (list Z)) :=
  foldM (fun d peer_id => c <- class_of p peer_id ;; Ok (group_add d c peer_id))
        connected [].

(** [self.distance_class_budgets.get(distance_class, 1)] *)
Definition budget_for (p : GradientPeer) (dc : Z) : Z :=
  match dict_get (distance_class_budgets p) dc with
  | Some b => b
  | None => 1
  end.

(** The loop over the classes, furthest first; it stops collecting
    once the excess is used up. *)
Definition evict_class (p : GradientPeer) (groups : dict (list Z))
  (acc : list Z * Z * Rng) (dc : Z) : res (list Z * Z * Rng) :=
  let '(to_remove, excess_count, g) := acc in
  if excess_count <=? 0 then Ok acc
  else
    match dict_get groups dc with
    | None => Raise KeyError
    | Some peers_in_class =>
        let budget_for_class := budget_for p dc in
        if budget_for_class <? len peers_in_class then
          let excess_in_class := len peers_in_class - budget_for_class in
          let remove_count := Z.min excess_in_class excess_count in
          '(chosen, g') <- sample peers_in_class remove_count g ;;
          Ok (to_remove ++ chosen, excess_count - remove_count, g')
        else Ok acc
    end.

Definition delete_all (kp : dict PeerInfo) (to_remove : list Z)
  : res (dict PeerInfo) :=
  foldM dict_del to_remove kp.

Definition remove_excess_connections (p : GradientPeer) (g : Rng)
  : res (GradientPeer * list Z * Rng) :=
  let connected := get_connected_peers p in
  if len connected <=? max_connections p then Ok (p, [], g)
  else
    groups <- class_groups p connected ;;
    let excess_count := len connected - max_connections p in
    let order := rev (sort_by (fun c => c) (dict_keys groups)) in
    '(to_remove, _, g') <-
      foldM (evict_class p groups) order ([], excess_count, g) ;;
    kp <- delete_all (known_peers p) to_remove ;;
    Ok (_update_distance_class_membership (with_known_peers p kp),
        to_remove, g').

(** [_gradient_recursive_search], by recursion on the hop budget. *)
Fixpoint search (ps : dict GradientPeer) (hops : nat)
  (start_peer_id target_id : Z) : Z :=
  match hops with
  | O => start_peer_id
  | S hops' =>
      match dict_get ps start_peer_id with
      | None => start_peer_id
      | Some current_peer =>
          let connected_peers := get_connected_peers current_peer in
          match min_by (fun pid => _ring_distance current_peer pid target_id)
                  connected_peers with
          | None => start_peer_id
          | Some closest_connected =>
              let current_distance :=
                _ring_distance current_peer start_peer_id target_id in
              let closest_distance :=
                _ring_distance current_peer closest_connected target_id in
              if current_distance <=? closest_distance then start_peer_id
              else search ps hops' closest_connected target_id
          end
      end
  end.

Definition _gradient_recursive_search (ps : dict GradientPeer)
  (start_peer_id target_id max_hops : Z) : Z :=
  search ps (Z.to_nat max_hops) start_peer_id target_id.

End Gradient.

(* ================================================================= *)
(** * Vocabulary of the statements *)

(** Hops and walks of the XOR search. *)
Module FixedWalk.
Import Fixed.

(** One hop of the walk towards [target]: from node [a] to a peer [b]
    that [a] holds as Connected and that is strictly closer. *)
Definition hop (ps : dict Peer) (target a b : Z) : Prop :=
  exists cur,
    dict_get ps a = Some cur /\
    In b (get_connected_peers cur) /\
    _xor_distance b target < _xor_distance a target.

(** A walk of [n] hops. *)
Inductive walk (ps : dict Peer) (target : Z) : nat -> Z -> Z -> Prop :=
| walk_stop : forall a, walk ps target O a a
| walk_hop : forall n a b c,
    hop ps target a b -> walk ps target n b c -> walk ps target (S n) a c.

End FixedWalk.

(** Hops and walks of the gradient search. *)
Module GradientWalk.
Import Gradient.

(** One hop of the gradient walk; distances are the ring distances the
    current node computes. *)
Definition hop (ps : dict GradientPeer) (target a b : Z) : Prop :=
  exists cur,
    dict_get ps a = Some cur /\
    In b (get_connected_peers cur) /\
    _ring_distance cur b target < _ring_distance cur a target.

Inductive walk (ps : dict GradientPeer) (target : Z)
  : nat -> Z -> Z -> Prop :=
| walk_stop : forall a, walk ps target O a a
| walk_hop : forall n a b c,
    hop ps target a b -> walk ps target n b c -> walk ps target (S n) a c.

(** Every registered peer was built for the address space of [q]. *)
Definition same_address_space (ps : dict GradientPeer) (q : GradientPeer)
  : Prop :=
  forall k p, dict_get ps k = Some p ->
              address_space_bits p = address_space_bits q.

End GradientWalk.

(** The registry of the simulator and the queues of its peers. *)
Module FixedRegistry.
Import Fixed.

(** The queue of the peer registered under [k]. *)
Definition inbox (sim : NetworkSimulator) (k : Z) : list Invite :=
  match dict_get (peers sim) k with
  | Some p => pending_invites p
  | None => []
  end.

(** What holds of every registered peer: it is stored under its own
    identifier, it does not know itself, and no queued invite is its
    own. *)
Definition registered_ok (k : Z) (p : Peer) : Prop :=
  id p = k /\
  ~ In k (dict_keys (known_peers p)) /\
  Forall (fun inv => sender_id inv <> k) (pending_invites p).

Definition registry_ok (ps : dict Peer) : Prop :=
  forall k p, dict_get ps k = Some p -> registered_ok k p.

(** What the three phases keep unchanged of the simulator. *)
Definition same_frame (sim sim' : NetworkSimulator) : Prop :=
  config sim' = config sim /\
  round_number sim' = round_number sim /\
  dict_keys (peers sim') = dict_keys (peers sim).

(** An invite sent by [a] in round [r]. *)
Definition sent_by (a r : Z) (inv : Invite) : Prop :=
  sender_id inv = a /\ round_sent inv = r.

(** An invite sent in round [r] by one of [senders]. *)
Definition sent_from (senders : list Z) (r : Z) (inv : Invite) : Prop :=
  In (sender_id inv) senders /\ round_sent inv = r.

(** The invites of round [r] that maintenance places in the queue of the
    registered peer [b], given the peers each sender selected, sender by
    sender in the order of [sels]: one invite for every time [b] is
    selected. *)
Definition maintenance_invites (r b : Z) (sels : list (Z * list Z))
  : list Invite :=
  flat_map
    (fun ks => map (fun _ => mkInvite (fst ks) r)
                   (filter (Z.eqb b) (snd ks)))
    sels.

(** The peer [p], registered under [k], once the sender [s] has
    delivered its invites of round [r] to the peers of [sel]. *)
Definition received (s r k : Z) (sel : list Z) (p : Peer) : Peer :=
  with_pending_invites p
    (pending_invites p
     ++ map (fun _ => mkInvite s r) (filter (Z.eqb k) sel)).

(** The peer [p], registered under [k], once the senders of [sels] have
    delivered theirs, one after the other. *)
Definition received_all (r k : Z) (sels : list (Z * list Z)) (p : Peer)
  : Peer :=
  with_pending_invites p (pending_invites p ++ maintenance_invites r k sels).

(** Every registered peer holds one record per key. *)
Definition records_wf (ps : dict Peer) : Prop :=
  forall k p, dict_get ps k = Some p -> dict_wf (known_peers p).

(** What eviction looks at: the records and the bound of a peer. *)
Definition record (sim : NetworkSimulator) (k : Z)
  : option (dict PeerInfo * Z) :=
  match dict_get (peers sim) k with
  | Some p => Some (known_peers p, max_connections p)
  | None => None
  end.

Definition within_bound (p : Peer) : Prop :=
  len (get_connected_peers p) <= max_connections p.

End FixedRegistry.

(** A decidable form of [registry_ok], for concrete registries. *)
Definition peer_okb (k : Z) (p : Fixed.Peer) : bool :=
  (Fixed.id p =? k) &&
  negb (mem k (dict_keys (Fixed.known_peers p))) &&
  forallb (fun inv => negb (sender_id inv =? k)) (Fixed.pending_invites p).

Definition registry_okb (ps : dict Fixed.Peer) : bool :=
  forallb (fun e => peer_okb (fst e) (snd e)) ps.

(** The buckets of the static policy. *)
Module StaticBuckets.
Import Fixed Static.

(** The bucket a peer falls in. *)
Definition bucket_of (p : Peer) (bucket_ranges : list (Z * Z)) (x : Z)
  : option nat :=
  bucket_index bucket_ranges (get_distance_to_peer p x).

Definition segment (p : Peer) (br : list (Z * Z)) (c : list Z)
  (it : nat * Z) : list Z :=
  bucket_excess (get_distance_to_peer p)
                (filter (in_bucket p br (fst it)) c) (snd it).

End StaticBuckets.

(** The distance classes of a gradient peer. *)
Module GradientClasses.
Import Gradient.

(** The class recorded for a peer ([0] stands for an unknown peer, which
    the callers never ask about). *)
Definition cls (p : GradientPeer) (x : Z) : Z :=
  match dict_get (known_peers p) x with
  | Some info => distance_class info
  | None => 0
  end.

(** The Connected peers recorded in class [c]. *)
Definition class_members (p : GradientPeer) (c : Z) : list Z :=
  map fst
    (filter (fun e => PeerState_eqb (state (snd e)) CONNECTED &&
                      (distance_class (snd e) =? c))
            (known_peers p)).

(** What [class_groups] holds after the peers [l]: each class that
    occurs maps to its peers, in order. *)
Definition grouped (p : GradientPeer) (l : list Z) (d : dict (list Z))
  : Prop :=
  dict_wf d /\
  forall c,
    dict_get d c =
    match filter (fun x => cls p x =? c) l with
    | [] => None
    | g => Some g
    end.

End GradientClasses.

(* ================================================================= *)
(** * Concrete peers and simulators *)

(** Gradient peer 7 with bound 4 in an 8-bit ring. *)
(** A float logarithm that never rounds up to the next integer. *)
Definition never_up : Z -> bool := fun _ => false.

Definition sample_gradient_peer : Gradient.GradientPeer :=
  Gradient.new_peer 7 4 8.

(** A small run: four established peers, two joining peers, bound 2,
    two initially identified peers, a 4-bit address space. *)
Definition demo_cfg : SimulationConfig := mkConfig 4 2 2 2 10 4.

(** The stream of raw draws the run consumes. *)
Definition demo_rng : Rng := fun n => (7 * n + 3)%nat.

(** A set listed in the order of its insertions. *)
Definition insertion_order (l : list Z) : list Z := l.

(** The simulator after [_initialize_network], then after three rounds,
    and the joining peer registered under 15 at that point. *)
Definition demo_boot : Fixed.NetworkSimulator * Rng :=
  match Fixed._initialize_network insertion_order demo_cfg 40 demo_rng with
  | Some (Ok x) => x
  | _ => (Fixed.mkSim demo_cfg [] [] [] 0, demo_rng)
  end.

Definition demo_run : Fixed.NetworkSimulator * Rng :=
  match Fixed.run_rounds 3 (fst demo_boot) (snd demo_boot) with
  | Ok x => x
  | Raise _ => demo_boot
  end.

Definition demo_joiner : Fixed.Peer :=
  match dict_get (Fixed.peers (fst demo_run)) 15 with
  | Some p => p
  | None => Fixed.new_peer 15 2
  end.

(** A peer with a single Connected relationship. *)
Definition lone_peer : Fixed.Peer :=
  Fixed.mkPeer 1 4 [(2, Fixed.mkPeerInfo CONNECTED 0)] [].

Definition lone_sim : Fixed.NetworkSimulator :=
  Fixed.mkSim demo_cfg
    [(1, lone_peer);
     (2, Fixed.mkPeer 2 4 [(1, Fixed.mkPeerInfo CONNECTED 0)] [])]
    [1; 2] [] 3.

(** Three established peers, each Connected to the other two, with empty
    queues at the start of phase 3 of round 7. *)
Definition trio_member (k a b : Z) : Fixed.Peer :=
  Fixed.mkPeer k 5
    [(a, Fixed.mkPeerInfo CONNECTED 0); (b, Fixed.mkPeerInfo CONNECTED 0)] [].

Definition trio_sim : Fixed.NetworkSimulator :=
  Fixed.mkSim demo_cfg
    [(1, trio_member 1 2 3); (2, trio_member 2 1 3); (3, trio_member 3 1 2)]
    [1; 2; 3] [] 7.

(** Every draw is 0. *)
Definition zero_rng : Rng := fun _ => O.

(** Phase 3 of round 7 on the trio. *)
Definition trio_phase3
  : Fixed.NetworkSimulator * list (Z * list Invite) * Rng :=
  match Fixed.phase3 trio_sim zero_rng with
  | Ok x => x
  | Raise _ => (trio_sim, [], zero_rng)
  end.

(** Records that hold every identifier of [ids] as Connected. *)
Definition connected_to (ids : list Z) : dict Fixed.PeerInfo :=
  map (fun k => (k, Fixed.mkPeerInfo CONNECTED 0)) ids.

(** Peer 0 with bound 4 and five Connected relationships: over the
    bound, within the soft maximum of both bucketed policies. *)
Definition slack_peer : Fixed.Peer :=
  Fixed.mkPeer 0 4 (connected_to [1; 2; 3; 5; 9]) [].

(** Peer 0 with bound 4 and seven Connected relationships, spread over
    the distance buckets, among ten known identifiers. *)
Definition spread_peer : Fixed.Peer :=
  Fixed.mkPeer 0 4 (connected_to [1; 2; 3; 5; 9; 17; 33]) [].

Definition spread_all : list Z := [0; 1; 2; 3; 5; 9; 17; 33; 65; 128].

(** The first draw is 0, every later draw is 1. *)
Definition pick_rng : Rng := fun n => match n with O => O | _ => 1%nat end.

(** Gradient peer 10 with bound 2 in an 8-bit ring, Connected to 9, 11
    (class 1) and 12 (class 2). *)
Definition ring_peer : Gradient.GradientPeer :=
  match
    p1 <- Gradient.add_peer never_up (Gradient.new_peer 10 2 8)
                            9 CONNECTED 0 ;;
    p2 <- Gradient.add_peer never_up p1 11 CONNECTED 0 ;;
    Gradient.add_peer never_up p2 12 CONNECTED 0
  with
  | Ok p => p
  | Raise _ => Gradient.new_peer 10 2 8
  end.

(** The gradient peer [ring_peer] with two queued invites of round 3,
    from the Connected peer 9 and from the unknown peer 20. *)
Definition ring_peer_queued : Gradient.GradientPeer :=
  Gradient.with_pending_invites ring_peer [mkInvite 9 3; mkInvite 20 3].

(** The same peer with one queued invite from 300, an identifier
    outside its 8-bit address space. *)
Definition ring_peer_stray : Gradient.GradientPeer :=
  Gradient.with_pending_invites ring_peer [mkInvite 300 3].

(* ================================================================= *)
(** * Vocabulary of the further properties *)

(** How a record may change while invites are processed: it keeps its
    state, or goes from Pending to Connected, or from Identified to
    Prospect. *)
Definition advanced (st st' : PeerState) : Prop :=
  st' = st \/ (st = PENDING /\ st' = CONNECTED) \/
  (st = IDENTIFIED /\ st' = PROSPECT).

(* ================================================================= *)
(** * Reports and metrics of the fixed simulator *)

(** [for state in PeerState]: the members in the order of definition. *)
Definition all_states : list PeerState :=
  [CONNECTED; PROSPECT; PENDING; IDENTIFIED].

Module FixedReport.
Import Fixed.

(** The ['type'] of a peer in the report. *)
Inductive PeerType : Type :=
| connected
| candidate.

(** One entry of [state['peer_states']]. *)
Record PeerReport : Type := mkReport {
  type : PeerType;
  connected_count : Z;
  total_known : Z;
  state_breakdown : list (PeerState * Z)
}.

Record NetworkState : Type := mkState {
  round : Z;
  connected_set_size : Z;
  candidate_set_size : Z;
  peer_states : dict PeerReport
}.

Definition peer_report (sim : NetworkSimulator) (peer_id : Z) (peer : Peer)
  : PeerReport :=
  mkReport
    (if mem peer_id (connected_set sim) then connected else candidate)
    (len (get_connected_peers peer))
    (len (known_peers peer))
    (map (fun st => (st, len (get_peers_by_state peer st))) all_states).

(** [NetworkSimulator.get_network_state] *)
Definition get_network_state (sim : NetworkSimulator) : NetworkState :=
  mkState
    (round_number sim)
    (len (Fixed.connected_set sim))
    (len (Fixed.candidate_set sim))
    (fold_left
       (fun states e => dict_set states (fst e) (peer_report sim (fst e) (snd e)))
       (peers sim) []).

End FixedReport.

(* ================================================================= *)
(** * What a round keeps of the fixed simulator *)

(** The identifier and the bound of the peer registered under [k]. *)
Definition identity (sim : Fixed.NetworkSimulator) (k : Z) : option (Z * Z) :=
  option_map (fun p => (Fixed.id p, Fixed.max_connections p))
             (dict_get (Fixed.peers sim) k).

(** Every registered peer has a non-negative bound. *)
Definition bounds_nonneg (ps : dict Fixed.Peer) : Prop :=
  forall k p, dict_get ps k = Some p -> 0 <= Fixed.max_connections p.

(** What no phase changes of the simulator itself: the configuration,
    the two sets of identifiers, the round counter within a round, and
    the registered identifiers in their order. *)
Definition frame (sim : Fixed.NetworkSimulator)
  : SimulationConfig * list Z * list Z * Z * list Z :=
  (Fixed.config sim, Fixed.connected_set sim, Fixed.candidate_set sim,
   Fixed.round_number sim, dict_keys (Fixed.peers sim)).

(* ================================================================= *)
(** * The class lists of a gradient peer *)

(** [distance_classes] lists the Connected peers class by class, as
    their records have them, and lists no class without a peer. *)
Definition classes_consistent (p : Gradient.GradientPeer) : Prop :=
  forall c,
    dict_get (Gradient.distance_classes p) c =
    match GradientClasses.class_members p c with
    | [] => None
    | l => Some l
    end.

(** A dictionary of lists that holds, key by key, the lists given by
    [f], with no key for an empty list. *)
Definition lists_of (f : Z -> list Z) (d : dict (list Z)) : Prop :=
  forall c, dict_get d c = match f c with [] => None | l => Some l end.

(* ================================================================= *)
(** * What an eviction forgets *)

(** The records [kp'] are the records [kp] without the peers of [R],
    every one of which was listed in [connected]. *)
Definition forgets {V : Type} (kp kp' : dict V) (connected R : list Z)
  : Prop :=
  (forall x, In x R -> In x connected /\ dict_get kp' x = None) /\
  (forall k, ~ In k R -> dict_get kp' k = dict_get kp k).

(* ================================================================= *)
(** * [SimulationMetrics] of the fixed simulator *)

Module FixedMetrics.
Import Fixed.

(** What [statistics.mean] returns on integers: the exact mean when it
    is an integer, else a float. *)
Inductive number : Type :=
| Int (z : Z)
| Float (f : float).

(** [statistics.mean(data)] on a non-empty list of integers: the exact
    sum divided by the length; the quotient of the two conversions is the
    correctly rounded mean for sums below [2^53]. *)
Definition mean (data : list Z) : number :=
  let total := fold_right Z.add 0 data in
  let n := len data in
  if total mod n =? 0 then Int (total / n)
  else Float (PrimFloat.div (float_of_Z total) (float_of_Z n)).

(** The dictionary [round_metrics]; [state_counts] is keyed by the four
    states, in the order of the enumeration. *)
Record RoundMetrics : Type := mkRound {
  round : Z;
  total_connections : Z;
  avg_connections : number;
  connection_distribution : list Z;
  state_counts : list (PeerState * Z);
  candidates_connected : Z
}.

Record SimulationMetrics : Type := mkMetrics {
  round_data : list RoundMetrics;
  peer_connection_history : dict (list Z);
  entry_times : dict Z;
  connection_changes : list (Z * Z * Z * Z);
  candidate_ids : list Z
}.

(** [SimulationMetrics()] *)
Definition new_metrics : SimulationMetrics := mkMetrics [] [] [] [] [].

Definition set_candidate_ids (m : SimulationMetrics) (ids : list Z)
  : SimulationMetrics :=
  mkMetrics (round_data m) (peer_connection_history m) (entry_times m)
            (connection_changes m) ids.

(** [state_counts[st.value] += 1] *)
Definition bump (counts : list (PeerState * Z)) (st : PeerState)
  : list (PeerState * Z) :=
  map (fun e => if PeerState_eqb (fst e) st then (fst e, snd e + 1) else e)
      counts.

(** [state_counts[st.value]] *)
Definition count_of (counts : list (PeerState * Z)) (st : PeerState) : Z :=
  match find (fun e => PeerState_eqb (fst e) st) counts with
  | Some e => snd e
  | None => 0
  end.

(** What the loop of [record_round] over the peers carries along. *)
Record RoundAcc : Type := mkAcc {
  connection_counts : list Z;
  acc_total : Z;
  acc_state_counts : list (PeerState * Z);
  acc_candidates : Z;
  acc_history : dict (list Z);
  acc_entry_times : dict Z
}.

(** The body of the loop of [record_round], for one peer. *)
Definition record_peer (round_num : Z) (candidates : list Z) (a : RoundAcc)
  (peer : Peer) : RoundAcc :=
  let connected_count := len (get_connected_peers peer) in
  let history :=
    match dict_get (acc_history a) (id peer) with
    | None => dict_set (acc_history a) (id peer) [connected_count]
    | Some l => dict_set (acc_history a) (id peer) (l ++ [connected_count])
    end in
  let counts :=
    fold_left (fun sc e => bump sc (state (snd e))) (known_peers peer)
              (acc_state_counts a) in
  let has_entered := mem (id peer) candidates && (0 <? connected_count) in
  mkAcc (connection_counts a ++ [connected_count])
        (acc_total a + connected_count)
        counts
        (if has_entered then acc_candidates a + 1 else acc_candidates a)
        history
        (if has_entered && negb (dict_mem (acc_entry_times a) (id peer))
         then dict_set (acc_entry_times a) (id peer) round_num
         else acc_entry_times a).

Definition record_round (m : SimulationMetrics) (round_num : Z)
  (peers : dict Peer) : SimulationMetrics :=
  let a :=
    fold_left (record_peer round_num (candidate_ids m)) (map snd peers)
      (mkAcc [] 0 (map (fun st => (st, 0)) all_states) 0
             (peer_connection_history m) (entry_times m)) in
  let round_metrics :=
    match connection_counts a with
    | [] =>
        mkRound round_num (acc_total a) (Int 0) [] (acc_state_counts a)
                (acc_candidates a)
    | _ =>
        mkRound round_num (acc_total a) (mean (connection_counts a))
                (connection_counts a) (acc_state_counts a)
                (acc_candidates a)
    end in
  mkMetrics (round_data m ++ [round_metrics]) (acc_history a)
            (acc_entry_times a) (connection_changes m) (candidate_ids m).

Definition record_entry (m : SimulationMetrics) (candidate_id round_num : Z)
  : SimulationMetrics :=
  if dict_mem (entry_times m) candidate_id then m
  else mkMetrics (round_data m) (peer_connection_history m)
                 (dict_set (entry_times m) candidate_id round_num)
                 (connection_changes m) (candidate_ids m).

(** [simulate_round] with its last two statements: the round is recorded
    under the number it had, then the number goes up. *)
Definition simulate_round (sim : NetworkSimulator) (m : SimulationMetrics)
  (g : Rng) : res (NetworkSimulator * SimulationMetrics * Rng) :=
  '(sim', g') <- Fixed.simulate_round sim g ;;
  Ok (sim', record_round m (round_number sim' - 1) (peers sim'), g').

Fixpoint run_rounds (n : nat) (sim : NetworkSimulator)
  (m : SimulationMetrics) (g : Rng)
  : res (NetworkSimulator * SimulationMetrics * Rng) :=
  match n with
  | O => Ok (sim, m, g)
  | S n' =>
      '(sim', m', g') <- simulate_round sim m g ;; run_rounds n' sim' m' g'
  end.

(** [run_simulation]: [simulation_rounds] rounds, then the metrics. *)
Definition run_simulation (sim : NetworkSimulator) (m : SimulationMetrics)
  (g : Rng) : res (NetworkSimulator * SimulationMetrics * Rng) :=
  run_rounds (Z.to_nat (simulation_rounds (config sim))) sim m g.

(** A sequence of calls of [record_round]. *)
Definition record_all (m : SimulationMetrics)
  (calls : list (Z * dict Peer)) : SimulationMetrics :=
  fold_left (fun m0 call => record_round m0 (fst call) (snd call)) calls m.

(** Some peer of the registry with identifier [c] has a Connected
    peer. *)
Definition has_connection (c : Z) (peers : dict Peer) : bool :=
  existsb (fun e => (id (snd e) =? c) &&
                    (0 <? len (get_connected_peers (snd e)))) peers.

End FixedMetrics.

(* ================================================================= *)
(** * The rounds of the two bucketed simulators *)

(** [DistanceOptimizedSimulator.simulate_round] and
    [ImprovedDistanceSimulator.simulate_round] repeat phases 1 and 2 of
    the fixed simulator, and differ from each other only in the class of
    their peers, that is in the eviction [evict] that ends phase 3.  The
    recording of the round in the metrics is left to [record_round]. *)
Module Bucketed.
Import Fixed.

(** The maintenance invites of one peer in phase 3. *)
Definition maintenance (sim : NetworkSimulator) (peer : Peer) (g : Rng)
  : res (NetworkSimulator * list Z * Rng) :=
  let connected_peers := get_connected_peers peer in
  if 2 <=? len connected_peers then
    '(selected_peers, g') <-
      sample connected_peers (Z.min 2 (len connected_peers)) g ;;
    Ok (fold_left (fun s target_id => deliver s (id peer) target_id)
                  selected_peers sim,
        selected_peers, g')
  else Ok (sim, [], g).

(** Phase 3, for the peer stored under [key]. *)
Definition phase3_step
  (evict : Peer -> option (list Z) -> Rng -> res (Peer * list Z * Rng))
  (all_peer_ids : list Z) (acc : NetworkSimulator * Rng) (key : Z)
  : res (NetworkSimulator * Rng) :=
  let '(sim, g) := acc in
  match dict_get (peers sim) key with
  | None => Ok acc
  | Some peer =>
      let (peer1, _) := process_invites peer (round_number sim) in
      let sim1 := with_peers sim (dict_set (peers sim) key peer1) in
      '(sim2, _, g1) <- maintenance sim1 peer1 g ;;
      match dict_get (peers sim2) key with
      | None => Ok (sim2, g1)
      | Some peer2 =>
          '(peer3, _, g2) <- evict peer2 (Some all_peer_ids) g1 ;;
          Ok (with_peers sim2 (dict_set (peers sim2) key peer3), g2)
      end
  end.

Definition simulate_round
  (evict : Peer -> option (list Z) -> Rng -> res (Peer * list Z * Rng))
  (sim : NetworkSimulator) (g : Rng) : res (NetworkSimulator * Rng) :=
  let all_peer_ids := dict_keys (peers sim) in
  '(sim1, invites_to_send, g1) <- phase1 sim g ;;
  let sim2 := phase2 sim1 invites_to_send in
  '(sim3, g2) <-
    foldM (phase3_step evict all_peer_ids) (dict_keys (peers sim2))
          (sim2, g1) ;;
  Ok (mkSim (config sim3) (peers sim3) (connected_set sim3)
            (candidate_set sim3) (round_number sim3 + 1),
      g2).

End Bucketed.

(** [DistanceOptimizedSimulator.simulate_round] *)
Definition static_simulate_round :=
  Bucketed.simulate_round Static.remove_excess_connections.

(** [ImprovedDistanceSimulator.simulate_round] *)
Definition prefix_simulate_round :=
  Bucketed.simulate_round Prefix.remove_excess_connections.

(** Every registered peer holds at most [soft p] Connected peers. *)
Definition all_within (soft : Fixed.Peer -> Z) (ps : dict Fixed.Peer)
  : Prop :=
  forall k p, dict_get ps k = Some p ->
              len (Fixed.get_connected_peers p) <= soft p.

(* ================================================================= *)
(** * The choices of a gradient peer *)

Module GradientChoice.
Import Gradient.

(** [peer_info.state not in exclude_states] *)
Definition allowed (exclude_states : list PeerState) (info : PeerInfo)
  : bool :=
  negb (existsb (PeerState_eqb (state info)) exclude_states).

(** The loop over [known_peers.items()] that collects the peers of one
    distance class. *)
Definition class_candidates (p : GradientPeer)
  (exclude_states : list PeerState) (c : Z) : list Z :=
  map fst
    (filter (fun e => allowed exclude_states (snd e) &&
                      (distance_class (snd e) =? c))
            (known_peers p)).

(** The loop over the offsets, with its [break]: the first adjacent
    class, within the range of the classes, that holds a candidate. *)
Fixpoint adjacent_candidates (p : GradientPeer)
  (exclude_states : list PeerState) (target_distance_class : Z)
  (offsets : list Z) : list Z :=
  match offsets with
  | [] => []
  | offset :: rest =>
      let check_class := target_distance_class + offset in
      if (0 <=? check_class) && (check_class <? max_distance_classes p)
      then
        match class_candidates p exclude_states check_class with
        | [] =>
            adjacent_candidates p exclude_states target_distance_class rest
        | candidates => candidates
        end
      else adjacent_candidates p exclude_states target_distance_class rest
  end.

Definition find_closest_peer_to_target (round_up : Z -> bool)
  (p : GradientPeer) (target_id : Z) (exclude_states : list PeerState)
  : res (option Z) :=
  let target_distance := _ring_distance p (id p) target_id in
  target_distance_class <- _get_distance_class round_up p target_distance ;;
  let candidates :=
    class_candidates p exclude_states target_distance_class in
  let candidates :=
    match candidates with
    | [] =>
        adjacent_candidates p exclude_states target_distance_class
                            [1; -1; 2; -2]
    | _ => candidates
    end in
  let candidates :=
    match candidates with
    | [] =>
        map fst
          (filter (fun e => allowed exclude_states (snd e)) (known_peers p))
    | _ => candidates
    end in
  Ok (min_by (fun pid => _ring_distance p pid target_id) candidates).

End GradientChoice.

(* ================================================================= *)
(** * The maintenance targets of a gradient peer *)

(** The selection in phase 3 of [GradientNetworkSimulator.simulate_round]:
    peers of different distance classes first, then a random fill. *)
Module GradientMaintenance.
Import Gradient.

(** How the selection can fail: a [KeyError] of [known_peers[peer_id]],
    or the [IndexError] of [random.choice] on an empty list. *)
Inductive failure : Type :=
| Exn (e : exn)
| IndexError.

(** The body of the first loop, for one Connected peer. *)
Definition pick_diverse (p : GradientPeer) (acc : list Z * list Z)
  (peer_id : Z) : res (list Z * list Z) :=
  let (selected_peers, used_classes) := acc in
  match dict_get (known_peers p) peer_id with
  | None => Raise KeyError
  | Some peer_info =>
      if negb (mem (distance_class peer_info) used_classes) &&
         (len selected_peers <? 2)
      then Ok (selected_peers ++ [peer_id],
               used_classes ++ [distance_class peer_info])
      else Ok acc
  end.

(** The [while] loop that fills the remaining slots; [fuel] bounds its
    turns, [None] is a loop that has not finished within it. *)
Fixpoint fill (fuel : nat) (connected_peers selected_peers : list Z)
  (g : Rng) : option (list Z * Rng + failure) :=
  if (len selected_peers <? 2) &&
     (len selected_peers <? len connected_peers)
  then
    match fuel with
    | O => None
    | S fuel' =>
        let remaining :=
          filter (fun x => negb (mem x selected_peers)) connected_peers in
        match choice remaining g with
        | (Some x, g') =>
            fill fuel' connected_peers (selected_peers ++ [x]) g'
        | (None, _) => Some (inr IndexError)
        end
    end
  else Some (inl (selected_peers, g)).

Definition maintenance_targets (fuel : nat) (p : GradientPeer) (g : Rng)
  : option (list Z * Rng + failure) :=
  let connected_peers := get_connected_peers p in
  if 2 <=? len connected_peers then
    match foldM (pick_diverse p) connected_peers ([], []) with
    | Raise e => Some (inr (Exn e))
    | Ok (selected_peers, _) => fill fuel connected_peers selected_peers g
    end
  else Some (inl ([], g)).

End GradientMaintenance.

(* ================================================================= *)
(** * The peers the gradient simulator starts with *)

(** The bodies of the two loops of
    [GradientNetworkSimulator._initialize_network]. *)
Module GradientBootstrap.

(** [GradientPeer(peer_id, config.max_connections_per_peer,
    config.address_space_bits)] *)
Definition fresh_member (cfg : SimulationConfig) (peer_id : Z)
  : Gradient.GradientPeer :=
  Gradient.new_peer peer_id (max_connections_per_peer cfg)
                    (address_space_bits cfg).

(** An established member: every other established peer, Connected and
    heard from in round 0. *)
Definition connected_member (round_up : Z -> bool) (cfg : SimulationConfig)
  (connected_ids : list Z) (peer_id : Z) : res Gradient.GradientPeer :=
  foldM
    (fun peer other_id =>
       if negb (other_id =? peer_id)
       then Gradient.add_peer round_up peer other_id CONNECTED 0
       else Ok peer)
    connected_ids (fresh_member cfg peer_id).

(** A joining member: the nearest established peers on the ring and a
    sample of the others, Identified. *)
Definition candidate_member (round_up : Z -> bool) (cfg : SimulationConfig)
  (connected_ids : list Z) (peer_id : Z) (g : Rng)
  : res (Gradient.GradientPeer * Rng) :=
  let peer := fresh_member cfg peer_id in
  let num_identified :=
    Z.min (initial_identified_peers cfg) (len connected_ids) in
  let connected_by_distance :=
    sort_by (fun cid => Gradient._ring_distance peer peer_id cid)
            connected_ids in
  let close_count := Z.max 1 (num_identified * 2 / 3) in
  let distant_count := num_identified - close_count in
  let distant_pool := skipn (Z.to_nat close_count) connected_by_distance in
  '(distant, g') <-
    sample distant_pool (Z.min distant_count (len distant_pool)) g ;;
  let identified_peers :=
    firstn (Z.to_nat close_count) connected_by_distance ++ distant in
  peer' <-
    foldM (fun peer identified_id =>
             Gradient.add_peer round_up peer identified_id IDENTIFIED (-1))
          identified_peers peer ;;
  Ok (peer', g').

End GradientBootstrap.

(* ================================================================= *)
(** * The lookup of the gradient simulator *)

Module GradientLookup.

(** [(1 << self.config.address_space_bits) - 1] *)
Definition max_id (cfg : SimulationConfig) : Z :=
  Z.shiftl 1 (address_space_bits cfg) - 1.

Import Gradient GradientChoice.

(** The loop over the offsets [0, 1, -1], with its [break]: up to two
    registered peers of the first class list that offers any. *)
Fixpoint class_starts (ps : dict GradientPeer) (peer : GradientPeer)
  (closest_peer_id : option Z) (target_distance_class : Z)
  (offsets : list Z) (g : Rng) : res (list Z * Rng) :=
  match offsets with
  | [] => Ok ([], g)
  | offset :: rest =>
      let check_class := target_distance_class + offset in
      match dict_get (distance_classes peer) check_class with
      | None =>
          class_starts ps peer closest_peer_id target_distance_class rest g
      | Some members =>
          let available_peers :=
            filter (fun pid => differs pid closest_peer_id &&
                               dict_mem ps pid) members in
          let num_to_add := Z.min 2 (len available_peers) in
          if 0 <? num_to_add then sample available_peers num_to_add g
          else
            class_starts ps peer closest_peer_id target_distance_class
                         rest g
      end
  end.

(** The starting points of a lookup for [target_id]. *)
Definition starting_points (round_up : Z -> bool) (ps : dict GradientPeer)
  (peer : GradientPeer) (target_id : Z) (g : Rng) : res (list Z * Rng) :=
  closest_peer_id <- find_closest_peer_to_target round_up peer target_id [] ;;
  let first :=
    match closest_peer_id with
    | Some c => if truthy closest_peer_id && dict_mem ps c then [c] else []
    | None => []
    end in
  let target_distance := _ring_distance peer (id peer) target_id in
  target_distance_class <-
    _get_distance_class round_up peer target_distance ;;
  '(starts, g') <-
    class_starts ps peer closest_peer_id target_distance_class [0; 1; -1] g ;;
  Ok (first ++ starts, g').

(** The responses of the walks; a response is kept only when
    [if response:] holds. *)
Definition walk_responses (ps : dict GradientPeer) (target_id : Z)
  (starts : list Z) : list Z :=
  fold_left
    (fun responses start_id =>
       let response := _gradient_recursive_search ps start_id target_id 10 in
       if truthy (Some response) then responses ++ [response]
       else responses)
    starts [].

Definition simulate_mapping_request (round_up : Z -> bool)
  (ps : dict GradientPeer) (cfg : SimulationConfig) (peer : GradientPeer)
  (g : Rng) : res (option Z * Rng) :=
  let (target_id, g1) := randint 0 (max_id cfg) g in
  '(starts, g2) <- starting_points round_up ps peer target_id g1 ;;
  match starts with
  | [] => Ok (None, g2)
  | _ =>
      match walk_responses ps target_id starts with
      | [] => Ok (None, g2)
      | responses =>
          match dict_get ps (id peer) with
          | None => Raise KeyError
          | Some self_peer =>
              Ok (min_by (fun pid => _ring_distance self_peer pid target_id)
                         responses, g2)
          end
      end
  end.

End GradientLookup.

(* ================================================================= *)
(** ** Facts about the preliminaries *)

Arguments randbelow : simpl never.
Arguments randint : simpl never.
Arguments sample : simpl never.

Section DictFacts.
Context {V : Type}.
Implicit Types (d : dict V) (k : Z) (v : V).

Lemma dict_get_set_same d k v : dict_get (dict_set d k v) k = Some v.
Proof.
  induction d as [|[k' v'] d IH]; simpl.
  - now rewrite Z.eqb_refl.
  - destruct (k' =? k) eqn:E; simpl; rewrite E; auto.
Qed.

Lemma dict_get_set_other d k k' v :
  k <> k' -> dict_get (dict_set d k v) k' = dict_get d k'.
Proof.
  intros Hne. induction d as [|[k0 v0] d IH]; simpl.
  - destruct (k =? k') eqn:E; auto. apply Z.eqb_eq in E. contradiction.
  - destruct (k0 =? k) eqn:E; simpl.
    + apply Z.eqb_eq in E. subst k0.
      destruct (k =? k') eqn:E'; auto. apply Z.eqb_eq in E'. contradiction.
    + destruct (k0 =? k'); auto.
Qed.

Lemma dict_get_In_keys d k v :
  dict_get d k = Some v -> In k (dict_keys d).
Proof.
  induction d as [|[k' v'] d IH]; simpl; [discriminate|].
  destruct (k' =? k) eqn:E; intros H.
  - left. now apply Z.eqb_eq.
  - right. auto.
Qed.

Lemma dict_get_In d k v : dict_get d k = Some v -> In (k, v) d.
Proof.
  induction d as [|[k' v'] d IH]; simpl; [discriminate|].
  destruct (k' =? k) eqn:E; intros H.
  - apply Z.eqb_eq in E. injection H as ->. subst. now left.
  - right. auto.
Qed.

Lemma dict_get_None_keys d k :
  dict_get d k = None <-> ~ In k (dict_keys d).
Proof.
  induction d as [|[k' v'] d IH]; simpl.
  - tauto.
  - destruct (k' =? k) eqn:E.
    + apply Z.eqb_eq in E. split; [discriminate | intros H; exfalso; auto].
    + apply Z.eqb_neq in E. rewrite IH. tauto.
Qed.

Lemma dict_mem_keys d k : dict_mem d k = true <-> In k (dict_keys d).
Proof.
  unfold dict_mem. destruct (dict_get d k) eqn:E.
  - split; auto. intros _. eapply dict_get_In_keys; eauto.
  - apply dict_get_None_keys in E. split; [discriminate | contradiction].
Qed.

Lemma dict_keys_set_present d k v :
  In k (dict_keys d) -> dict_keys (dict_set d k v) = dict_keys d.
Proof.
  induction d as [|[k' v'] d IH]; simpl; [tauto|].
  intros H. destruct (k' =? k) eqn:E; simpl; auto.
  apply Z.eqb_neq in E. f_equal. apply IH. tauto.
Qed.

Lemma dict_keys_set_absent d k v :
  ~ In k (dict_keys d) -> dict_keys (dict_set d k v) = dict_keys d ++ [k].
Proof.
  induction d as [|[k' v'] d IH]; simpl; auto.
  intros H. destruct (k' =? k) eqn:E; simpl.
  - apply Z.eqb_eq in E. tauto.
  - f_equal. apply IH. tauto.
Qed.

Lemma dict_keys_set_In d k v x :
  In x (dict_keys (dict_set d k v)) <-> x = k \/ In x (dict_keys d).
Proof.
  induction d as [|[k' v'] d IH]; simpl.
  - intuition.
  - destruct (k' =? k) eqn:E; simpl.
    + apply Z.eqb_eq in E. subst. intuition.
    + rewrite IH. intuition.
Qed.

Lemma dict_set_wf d k v : dict_wf d -> dict_wf (dict_set d k v).
Proof.
  unfold dict_wf. intros H.
  destruct (in_dec Z.eq_dec k (dict_keys d)) as [Hin|Hout].
  - now rewrite dict_keys_set_present.
  - rewrite dict_keys_set_absent by assumption.
    apply NoDup_app; auto.
    + constructor; [intros []|constructor].
    + intros x Hx [<-|[]]. contradiction.
Qed.

Lemma dict_discard_keys d k :
  dict_wf d -> dict_keys (dict_discard d k) = remove Z.eq_dec k (dict_keys d).
Proof.
  unfold dict_wf. induction d as [|[k' v'] d IH]; simpl; auto.
  intros H. inversion H as [|? ? Hnin Hnd]; subst.
  destruct (k' =? k) eqn:E.
  - apply Z.eqb_eq in E. subst k'.
    destruct (Z.eq_dec k k); [|contradiction].
    symmetry. apply notin_remove. assumption.
  - apply Z.eqb_neq in E.
    destruct (Z.eq_dec k k'); [congruence|].
    simpl. f_equal. auto.
Qed.

Lemma dict_discard_In d k e :
  In e (dict_discard d k) -> In e d.
Proof.
  induction d as [|[k' v'] d IH]; simpl; auto.
  destruct (k' =? k); simpl; intuition.
Qed.

Lemma dict_discard_absent d k :
  ~ In k (dict_keys d) -> dict_discard d k = d.
Proof.
  induction d as [|[k' v'] d IH]; simpl; auto.
  intros H. destruct (k' =? k) eqn:E.
  - apply Z.eqb_eq in E. tauto.
  - f_equal. apply IH. tauto.
Qed.

Lemma dict_del_discard d k d' :
  dict_del d k = Ok d' -> d' = dict_discard d k.
Proof.
  revert d'. induction d as [|[k' v'] d IH]; simpl; intros d' H.
  - discriminate.
  - destruct (k' =? k); [congruence|].
    destruct (dict_del d k); simpl in H; [|discriminate].
    injection H as <-. f_equal. auto.
Qed.

Lemma dict_del_present d k :
  In k (dict_keys d) -> dict_del d k = Ok (dict_discard d k).
Proof.
  induction d as [|[k' v'] d IH]; simpl; [tauto|].
  intros H. destruct (k' =? k) eqn:E; auto.
  apply Z.eqb_neq in E. rewrite IH by tauto. reflexivity.
Qed.

End DictFacts.

Lemma mem_In x l : mem x l = true <-> In x l.
Proof.
  unfold mem. rewrite existsb_exists. split.
  - intros [y [Hy E]]. apply Z.eqb_eq in E. now subst.
  - intros H. exists x. split; auto. apply Z.eqb_refl.
Qed.

Lemma mem_false x l : mem x l = false <-> ~ In x l.
Proof.
  rewrite <- mem_In. destruct (mem x l); split; congruence.
Qed.

Lemma min_by_In f l x : min_by f l = Some x -> In x l.
Proof.
  revert x. induction l as [|y l IH]; simpl; intros x H; [discriminate|].
  destruct (min_by f l) as [z|] eqn:E.
  - destruct (f y <=? f z); injection H as <-; auto.
  - injection H as <-. auto.
Qed.

Lemma min_by_least f l x :
  min_by f l = Some x -> forall y, In y l -> f x <= f y.
Proof.
  revert x. induction l as [|z l IH]; simpl; intros x H y Hy; [tauto|].
  destruct (min_by f l) as [m|] eqn:E.
  - specialize (IH m eq_refl).
    destruct (f z <=? f m) eqn:C; injection H as <-.
    + apply Z.leb_le in C. destruct Hy as [<-|Hy]; [lia|].
      specialize (IH y Hy). lia.
    + apply Z.leb_gt in C. destruct Hy as [<-|Hy]; [lia|]. auto.
  - injection H as <-. destruct l; [|simpl in E; destruct (min_by f l);
      [destruct (f z0 <=? f z1)|]; discriminate].
    destruct Hy as [<-|[]]. lia.
Qed.

Lemma min_by_None f l : min_by f l = None -> l = [].
Proof.
  destruct l as [|x l]; simpl; auto.
  destruct (min_by f l) as [y|]; [destruct (f x <=? f y)|]; discriminate.
Qed.

(* ================================================================= *)
(** ** Distance metrics *)

Lemma address_space_size_pow (p : Gradient.GradientPeer) :
  0 <= Gradient.address_space_bits p ->
  Gradient.address_space_size p = 2 ^ Gradient.address_space_bits p.
Proof.
  intros H. unfold Gradient.address_space_size.
  rewrite Z.shiftl_1_l. reflexivity.
Qed.

Lemma ring_distance_sym (p : Gradient.GradientPeer) a b :
  Gradient._ring_distance p a b = Gradient._ring_distance p b a.
Proof.
  unfold Gradient._ring_distance.
  replace (Z.abs (b - a)) with (Z.abs (a - b)) by lia. reflexivity.
Qed.

(** C9.  Both metrics are symmetric and vanish exactly on equal
    identifiers: the XOR metric of the fixed simulator on all integers,
    the ring metric of the gradient simulator on the identifiers of its
    address space [0, 2^address_space_bits). *)
Theorem distance_symmetric_zero_iff_equal :
  forall (p : Gradient.GradientPeer) (a b : Z),
    0 <= Gradient.address_space_bits p ->
    0 <= a < 2 ^ Gradient.address_space_bits p ->
    0 <= b < 2 ^ Gradient.address_space_bits p ->
    Fixed._xor_distance a b = Fixed._xor_distance b a /\
    (Fixed._xor_distance a b = 0 <-> a = b) /\
    Fixed._xor_distance a a = 0 /\
    Gradient._ring_distance p a b = Gradient._ring_distance p b a /\
    (Gradient._ring_distance p a b = 0 <-> a = b) /\
    Gradient._ring_distance p a a = 0.
Proof.
  intros p a b Hbits Ha Hb.
  pose proof (address_space_size_pow p Hbits) as Hsz.
  unfold Fixed._xor_distance.
  split; [apply Z.lxor_comm|].
  split; [apply Z.lxor_eq_0_iff|].
  split; [apply Z.lxor_nilpotent|].
  split; [apply ring_distance_sym|].
  unfold Gradient._ring_distance. rewrite Hsz.
  split; [split; intros H|]; lia.
Qed.

Lemma distance_symmetric_zero_iff_equal_witness :
  Fixed._xor_distance 3 200 = Fixed._xor_distance 200 3 /\
  (Fixed._xor_distance 3 200 = 0 <-> 3 = 200) /\
  Fixed._xor_distance 3 3 = 0 /\
  Gradient._ring_distance sample_gradient_peer 3 200 =
    Gradient._ring_distance sample_gradient_peer 200 3 /\
  (Gradient._ring_distance sample_gradient_peer 3 200 = 0 <-> 3 = 200) /\
  Gradient._ring_distance sample_gradient_peer 3 3 = 0.
Proof.
  apply (distance_symmetric_zero_iff_equal sample_gradient_peer 3 200);
    simpl; lia.
Defined.

(* ================================================================= *)
(** ** The reactive transition: [process_invites] *)

Module FixedInvites.
Import Fixed.

Lemma fixed_get_peer_state_set p s st r :
  get_peer_state (set_peer_state p s st r) s = Some st.
Proof.
  unfold get_peer_state, set_peer_state.
  destruct (dict_get (known_peers p) s); simpl;
    rewrite dict_get_set_same; reflexivity.
Qed.

Lemma fixed_get_peer_state_update p s r :
  get_peer_state (update_last_heard_from p s r) s = get_peer_state p s.
Proof.
  unfold get_peer_state, update_last_heard_from.
  destruct (dict_get (known_peers p) s) eqn:E; simpl.
  - rewrite dict_get_set_same. reflexivity.
  - rewrite E. reflexivity.
Qed.

(** The peer that results from the queue does not depend on the list
    of state changes collected so far. *)
Lemma fixed_fold_process_invite_peer r q :
  forall p sc sc',
    fst (fold_left (process_invite r) q (p, sc)) =
    fst (fold_left (process_invite r) q (p, sc')).
Proof.
  induction q as [|inv q IH]; intros p sc sc'; simpl; auto.
  destruct (get_peer_state p (sender_id inv)) as [[]|]; apply IH.
Qed.

Lemma fixed_process_invites_fst p r :
  fst (process_invites p r) =
  with_pending_invites
    (fst (fold_left (process_invite r) (pending_invites p) (p, []))) [].
Proof.
  unfold process_invites.
  destruct (fold_left (process_invite r) (pending_invites p) (p, [])).
  reflexivity.
Qed.

(** Nor does it depend on the queue held by the peer while the loop
    runs, which only [process_invites] itself replaces at the end. *)
Lemma fixed_fold_process_invite_queue r q :
  forall q0 a sc,
    fst (fold_left (process_invite r) q (with_pending_invites a q0, sc)) =
    with_pending_invites (fst (fold_left (process_invite r) q (a, sc))) q0.
Proof.
  induction q as [|i q IH]; intros q0 a sc; simpl; auto.
  unfold get_peer_state. simpl known_peers.
  destruct (dict_get (known_peers a) (sender_id i)) as [[[] lh]|] eqn:E;
    simpl; unfold set_peer_state, update_last_heard_from;
    simpl known_peers; rewrite ?E;
    try match goal with
        | |- context [with_known_peers (with_pending_invites ?a ?q) ?kp] =>
            change (with_known_peers (with_pending_invites a q) kp)
              with (with_pending_invites (with_known_peers a kp) q)
        end;
    apply IH.
Qed.

Lemma fixed_process_invites_cons p r inv q :
  pending_invites p = inv :: q ->
  fst (process_invites p r) =
  fst (process_invites
         (with_pending_invites (fst (process_invite r (p, []) inv)) q) r).
Proof.
  intros Hq. rewrite !fixed_process_invites_fst. rewrite Hq.
  change (fold_left (process_invite r) (inv :: q) (p, []))
    with (fold_left (process_invite r) q (process_invite r (p, []) inv)).
  destruct (process_invite r (p, []) inv) as [p1 sc1].
  cbn [fst]. change (pending_invites (with_pending_invites p1 q)) with q.
  rewrite fixed_fold_process_invite_queue.
  rewrite (fixed_fold_process_invite_peer r q p1 sc1 []).
  reflexivity.
Qed.

(** One queued invite follows the table and touches no other record. *)
Lemma fixed_process_invite_table r p sc inv :
  let p1 := fst (process_invite r (p, sc) inv) in
  (get_peer_state p (sender_id inv) = Some PENDING ->
   get_peer_state p1 (sender_id inv) = Some CONNECTED) /\
  (get_peer_state p (sender_id inv) = Some IDENTIFIED ->
   get_peer_state p1 (sender_id inv) = Some PROSPECT) /\
  (get_peer_state p (sender_id inv) = Some CONNECTED ->
   exists info,
     dict_get (known_peers p1) (sender_id inv) = Some info /\
     state info = CONNECTED /\ last_heard_from info = r) /\
  (get_peer_state p (sender_id inv) = None ->
   get_peer_state p1 (sender_id inv) = Some PROSPECT /\
   dict_keys (known_peers p1)
   = dict_keys (known_peers p) ++ [sender_id inv]) /\
  (get_peer_state p (sender_id inv) = Some PROSPECT ->
   known_peers p1 = known_peers p) /\
  (forall k, k <> sender_id inv ->
             dict_get (known_peers p1) k = dict_get (known_peers p) k) /\
  id p1 = id p /\
  max_connections p1 = max_connections p.
Proof.
  cbv zeta. unfold process_invite, get_peer_state, set_peer_state,
    update_last_heard_from.
  destruct (dict_get (known_peers p) (sender_id inv)) as [[[] lh]|] eqn:E;
    cbn [state fst known_peers with_known_peers id max_connections];
    repeat match goal with |- _ /\ _ => split end;
    try discriminate; try reflexivity;
    try (intros _; rewrite dict_get_set_same; eauto);
    try (intros k Hk; now rewrite dict_get_set_other by congruence).
  split; [reflexivity|].
  apply dict_keys_set_absent. now apply dict_get_None_keys.
Qed.

End FixedInvites.

Module GradientInvites.
Import Gradient.

Lemma get_distance_class_Ok round_up p d :
  0 <= d -> exists c, _get_distance_class round_up p d = Ok c.
Proof.
  intros Hd. unfold _get_distance_class, int_log2.
  destruct (d =? 0) eqn:E0; [eauto|]. apply Z.eqb_neq in E0.
  destruct (d <=? 0) eqn:E; [apply Z.leb_le in E; lia|].
  destruct ((d <? 2 ^ 47) || (d =? 2 ^ Z.log2 d) || negb (round_up d));
    cbn [bind]; eauto.
Qed.

Lemma get_distance_class_negative round_up p d :
  d < 0 -> _get_distance_class round_up p d = Raise ValueError.
Proof.
  intros Hd. unfold _get_distance_class, int_log2.
  destruct (d =? 0) eqn:E0; [apply Z.eqb_eq in E0; lia|].
  destruct (d <=? 0) eqn:E; [reflexivity|apply Z.leb_gt in E; lia].
Qed.

(** [set_peer_state] returns exactly when the ring distance of the peer
    is not negative, and then writes one record. *)
Lemma set_peer_state_Ok round_up p s st r :
  0 <= _ring_distance p (id p) s ->
  exists c p1,
    _get_distance_class round_up p (_ring_distance p (id p) s) = Ok c /\
    set_peer_state round_up p s st r = Ok p1 /\
    known_peers p1
    = dict_set (known_peers p) s
        (mkPeerInfo st
           (match dict_get (known_peers p) s with
            | Some info =>
                if 0 <=? r then r else last_heard_from info
            | None => r
            end) c) /\
    id p1 = id p /\
    max_connections p1 = max_connections p /\
    address_space_bits p1 = address_space_bits p /\
    pending_invites p1 = pending_invites p.
Proof.
  intros Hd. destruct (get_distance_class_Ok round_up p _ Hd) as [c Hc].
  unfold set_peer_state. rewrite Hc. cbn [bind].
  eexists _, _. split; [reflexivity|]. split; [reflexivity|].
  destruct (dict_get (known_peers p) s); repeat split; reflexivity.
Qed.

Lemma set_peer_state_negative round_up p s st r :
  _ring_distance p (id p) s < 0 ->
  set_peer_state round_up p s st r = Raise ValueError.
Proof.
  intros Hd. unfold set_peer_state.
  now rewrite (get_distance_class_negative round_up p _ Hd).
Qed.

(** One queued invite: the step returns when the ring distance of the
    sender is not negative, and follows the table. *)
Lemma process_invite_table round_up r p sc inv :
  0 <= _ring_distance p (id p) (sender_id inv) ->
  exists p1 sc1,
    process_invite round_up r (p, sc) inv = Ok (p1, sc1) /\
    (get_peer_state p (sender_id inv) = Some PENDING ->
     get_peer_state p1 (sender_id inv) = Some CONNECTED) /\
    (get_peer_state p (sender_id inv) = Some IDENTIFIED ->
     get_peer_state p1 (sender_id inv) = Some PROSPECT) /\
    (get_peer_state p (sender_id inv) = Some CONNECTED ->
     exists info,
       dict_get (known_peers p1) (sender_id inv) = Some info /\
       state info = CONNECTED /\ last_heard_from info = r) /\
    (get_peer_state p (sender_id inv) = None ->
     get_peer_state p1 (sender_id inv) = Some PROSPECT /\
     dict_keys (known_peers p1)
     = dict_keys (known_peers p) ++ [sender_id inv]) /\
    (get_peer_state p (sender_id inv) = Some PROSPECT ->
     known_peers p1 = known_peers p) /\
    (forall k, k <> sender_id inv ->
               dict_get (known_peers p1) k = dict_get (known_peers p) k) /\
    id p1 = id p /\
    max_connections p1 = max_connections p /\
    address_space_bits p1 = address_space_bits p /\
    pending_invites p1 = pending_invites p.
Proof.
  intros Hd. set (s := sender_id inv) in *.
  unfold process_invite. fold s.
  destruct (set_peer_state_Ok round_up p s CONNECTED r Hd)
    as (c & pc & _ & Hc & Hkc & Hidc & Hmc & Hbc & Hqc).
  destruct (set_peer_state_Ok round_up p s PROSPECT r Hd)
    as (c' & pp & _ & Hp & Hkp & Hidp & Hmp & Hbp & Hqp).
  unfold get_peer_state.
  destruct (dict_get (known_peers p) s) as [[[] lh dc]|] eqn:E;
    cbn [state]; rewrite ?Hc, ?Hp; cbn [bind];
    eexists _, _; (split; [reflexivity|]);
    repeat match goal with |- _ /\ _ => split end;
    try discriminate; try reflexivity; auto.
  - (* Connected *)
    intros _. unfold update_last_heard_from. rewrite E.
    cbn [known_peers with_known_peers]. rewrite dict_get_set_same.
    eexists. repeat split.
  - intros k Hk. unfold update_last_heard_from. rewrite E.
    cbn [known_peers with_known_peers].
    now rewrite dict_get_set_other by congruence.
  - unfold update_last_heard_from. now rewrite E.
  - unfold update_last_heard_from. now rewrite E.
  - unfold update_last_heard_from. now rewrite E.
  - unfold update_last_heard_from. now rewrite E.
  - (* Pending *)
    intros _. rewrite Hkc, dict_get_set_same. reflexivity.
  - intros k Hk. rewrite Hkc.
    now rewrite dict_get_set_other by congruence.
  - (* Identified *)
    intros _. rewrite Hkp, dict_get_set_same. reflexivity.
  - intros k Hk. rewrite Hkp.
    now rewrite dict_get_set_other by congruence.
  - (* unknown *)
    intros _. rewrite Hkp, dict_get_set_same. split; [reflexivity|].
    apply dict_keys_set_absent. now apply dict_get_None_keys.
  - intros k Hk. rewrite Hkp.
    now rewrite dict_get_set_other by congruence.
Qed.

Lemma process_invite_negative round_up r p sc inv :
  _ring_distance p (id p) (sender_id inv) < 0 ->
  get_peer_state p (sender_id inv) <> Some CONNECTED ->
  get_peer_state p (sender_id inv) <> Some PROSPECT ->
  process_invite round_up r (p, sc) inv = Raise ValueError.
Proof.
  intros Hd Hc Hp. unfold process_invite.
  destruct (get_peer_state p (sender_id inv)) as [[]|]; try congruence;
    now rewrite set_peer_state_negative.
Qed.

(** The step does not read the queue of the peer, nor the list of state
    changes collected so far. *)
Lemma process_invite_queue round_up r a sc sc' q0 inv :
  match process_invite round_up r (a, sc) inv with
  | Ok (a1, _) =>
      exists sc1,
        process_invite round_up r (with_pending_invites a q0, sc') inv
        = Ok (with_pending_invites a1 q0, sc1)
  | Raise e =>
      process_invite round_up r (with_pending_invites a q0, sc') inv
      = Raise e
  end.
Proof.
  unfold process_invite.
  change (get_peer_state (with_pending_invites a q0) (sender_id inv))
    with (get_peer_state a (sender_id inv)).
  assert (Hset : forall st,
             set_peer_state round_up (with_pending_invites a q0)
                            (sender_id inv) st r
             = (p1 <- set_peer_state round_up a (sender_id inv) st r ;;
                Ok (with_pending_invites p1 q0))).
  { intros st. unfold set_peer_state.
    change (_ring_distance (with_pending_invites a q0)
                           (id (with_pending_invites a q0)) (sender_id inv))
      with (_ring_distance a (id a) (sender_id inv)).
    change (_get_distance_class round_up (with_pending_invites a q0))
      with (_get_distance_class round_up a).
    destruct (_get_distance_class round_up a
                (_ring_distance a (id a) (sender_id inv))) as [c|e];
      cbn [bind]; [|reflexivity].
    cbn [known_peers with_pending_invites].
    destruct (dict_get (known_peers a) (sender_id inv)); reflexivity. }
  destruct (get_peer_state a (sender_id inv)) as [[]|]; rewrite ?Hset.
  - eexists. unfold update_last_heard_from.
    cbn [known_peers with_pending_invites].
    destruct (dict_get (known_peers a) (sender_id inv)); reflexivity.
  - eexists. reflexivity.
  - destruct (set_peer_state round_up a (sender_id inv) CONNECTED r);
      cbn [bind]; eauto.
  - destruct (set_peer_state round_up a (sender_id inv) PROSPECT r);
      cbn [bind]; eauto.
  - destruct (set_peer_state round_up a (sender_id inv) PROSPECT r);
      cbn [bind]; eauto.
Qed.

Lemma process_loop_queue round_up r q :
  forall a sc sc' q0,
    match foldM (process_invite round_up r) q (a, sc) with
    | Ok (a1, _) =>
        exists sc1,
          foldM (process_invite round_up r) q (with_pending_invites a q0, sc')
          = Ok (with_pending_invites a1 q0, sc1)
    | Raise e =>
        foldM (process_invite round_up r) q (with_pending_invites a q0, sc')
        = Raise e
    end.
Proof.
  induction q as [|inv q IH]; intros a sc sc' q0; cbn [foldM].
  - eauto.
  - pose proof (process_invite_queue round_up r a sc sc' q0 inv) as H.
    destruct (process_invite round_up r (a, sc) inv) as [[a1 sc1]|e];
      cbn [bind].
    + destruct H as [sc2 ->]. cbn [bind]. apply IH.
    + rewrite H. reflexivity.
Qed.

Lemma gradient_with_pending_same (p : GradientPeer) :
  with_pending_invites p (pending_invites p) = p.
Proof. now destruct p. Qed.

End GradientInvites.

(** C2.  The reactive transition, in the fixed and in the gradient peer.
    [process_invites] leaves the queue empty and, on an empty queue,
    the peer as it is.  On a queue [inv :: q] from sender [s] it ends as
    it does on the queue [q] of the peer [p1] that follows the table:
    a Pending [s] has become Connected, an Identified one Prospect, a
    Connected one is Connected with its last-heard round set to the
    current round, an unknown one has a new record in state Prospect, a
    Prospect one is as it was; no other record, and neither identifier
    nor bound, has changed.  So the transition is applied to the queued
    invites one after the other.  The gradient peer does so whenever no
    sender lies at a negative ring distance; a first sender that does,
    and is neither Connected nor Prospect, makes it raise
    [ValueError]. *)
Theorem reactive_transition_table :
  forall (p : Fixed.Peer) (gp : Gradient.GradientPeer)
         (round_up : Z -> bool) (r : Z),
    (Fixed.pending_invites (fst (Fixed.process_invites p r)) = [] /\
     (Fixed.pending_invites p = [] -> fst (Fixed.process_invites p r) = p) /\
     (forall inv q,
         Fixed.pending_invites p = inv :: q ->
         exists p1,
           (Fixed.get_peer_state p (sender_id inv) = Some PENDING ->
            Fixed.get_peer_state p1 (sender_id inv) = Some CONNECTED) /\
           (Fixed.get_peer_state p (sender_id inv) = Some IDENTIFIED ->
            Fixed.get_peer_state p1 (sender_id inv) = Some PROSPECT) /\
           (Fixed.get_peer_state p (sender_id inv) = Some CONNECTED ->
            exists info,
              dict_get (Fixed.known_peers p1) (sender_id inv) = Some info /\
              Fixed.state info = CONNECTED /\
              Fixed.last_heard_from info = r) /\
           (Fixed.get_peer_state p (sender_id inv) = None ->
            Fixed.get_peer_state p1 (sender_id inv) = Some PROSPECT /\
            dict_keys (Fixed.known_peers p1)
            = dict_keys (Fixed.known_peers p) ++ [sender_id inv]) /\
           (Fixed.get_peer_state p (sender_id inv) = Some PROSPECT ->
            Fixed.known_peers p1 = Fixed.known_peers p) /\
           (forall k, k <> sender_id inv ->
                      dict_get (Fixed.known_peers p1) k
                      = dict_get (Fixed.known_peers p) k) /\
           Fixed.id p1 = Fixed.id p /\
           Fixed.max_connections p1 = Fixed.max_connections p /\
           Fixed.pending_invites p1 = q /\
           fst (Fixed.process_invites p r)
           = fst (Fixed.process_invites p1 r))) /\
    (((forall inv, In inv (Gradient.pending_invites gp) ->
                   0 <= Gradient._ring_distance gp (Gradient.id gp)
                          (sender_id inv)) ->
      exists gp' sc,
        Gradient.process_invites round_up gp r = Ok (gp', sc) /\
        Gradient.pending_invites gp' = [] /\
        (Gradient.pending_invites gp = [] -> gp' = gp) /\
        (forall inv q,
            Gradient.pending_invites gp = inv :: q ->
            exists gp1 sc1,
              (Gradient.get_peer_state gp (sender_id inv) = Some PENDING ->
               Gradient.get_peer_state gp1 (sender_id inv)
               = Some CONNECTED) /\
              (Gradient.get_peer_state gp (sender_id inv)
               = Some IDENTIFIED ->
               Gradient.get_peer_state gp1 (sender_id inv)
               = Some PROSPECT) /\
              (Gradient.get_peer_state gp (sender_id inv)
               = Some CONNECTED ->
               exists info,
                 dict_get (Gradient.known_peers gp1) (sender_id inv)
                 = Some info /\
                 Gradient.state info = CONNECTED /\
                 Gradient.last_heard_from info = r) /\
              (Gradient.get_peer_state gp (sender_id inv) = None ->
               Gradient.get_peer_state gp1 (sender_id inv)
               = Some PROSPECT /\
               dict_keys (Gradient.known_peers gp1)
               = dict_keys (Gradient.known_peers gp) ++ [sender_id inv]) /\
              (Gradient.get_peer_state gp (sender_id inv)
               = Some PROSPECT ->
               Gradient.known_peers gp1 = Gradient.known_peers gp) /\
              (forall k, k <> sender_id inv ->
                         dict_get (Gradient.known_peers gp1) k
                         = dict_get (Gradient.known_peers gp) k) /\
              Gradient.id gp1 = Gradient.id gp /\
              Gradient.max_connections gp1 = Gradient.max_connections gp /\
              Gradient.address_space_bits gp1
              = Gradient.address_space_bits gp /\
              Gradient.pending_invites gp1 = q /\
              Gradient.process_invites round_up gp1 r = Ok (gp', sc1))) /\
     (forall inv q,
         Gradient.pending_invites gp = inv :: q ->
         Gradient._ring_distance gp (Gradient.id gp) (sender_id inv) < 0 ->
         Gradient.get_peer_state gp (sender_id inv) <> Some CONNECTED ->
         Gradient.get_peer_state gp (sender_id inv) <> Some PROSPECT ->
         Gradient.process_invites round_up gp r = Raise ValueError)).
Proof.
  intros p gp round_up r. split.
  - split; [rewrite FixedInvites.fixed_process_invites_fst; reflexivity|].
    split.
    { intros Hq. rewrite FixedInvites.fixed_process_invites_fst, Hq.
      cbn [fold_left fst]. destruct p. simpl in *. now subst. }
    intros inv q Hq.
    exists (Fixed.with_pending_invites
              (fst (Fixed.process_invite r (p, []) inv)) q).
    destruct (FixedInvites.fixed_process_invite_table r p [] inv)
      as (T1 & T2 & T3 & T4 & T5 & T6 & T7 & T8).
    cbv zeta in *.
    split; [exact T1|]. split; [exact T2|]. split; [exact T3|].
    split; [exact T4|]. split; [exact T5|]. split; [exact T6|].
    split; [exact T7|]. split; [exact T8|]. split; [reflexivity|].
    now apply FixedInvites.fixed_process_invites_cons.
  - split.
    + intros Hd. unfold Gradient.process_invites.
      destruct (Gradient.pending_invites gp) as [|inv q] eqn:Hq.
      * cbn [foldM bind]. eexists _, _. split; [reflexivity|].
        split; [reflexivity|]. split; [|discriminate].
        intros _. rewrite <- Hq. apply GradientInvites.gradient_with_pending_same.
      * cbn [foldM].
        destruct (GradientInvites.process_invite_table round_up r gp [] inv)
          as (g1 & sc1 & Hstep & T).
        { apply Hd. now left. }
        rewrite Hstep. cbn [bind].
        destruct T as (T1 & T2 & T3 & T4 & T5 & T6 & Tid & Tmax & Tbits & Tq).
        assert (Hloop : exists a' sc',
                   foldM (Gradient.process_invite round_up r) q (g1, sc1)
                   = Ok (a', sc')).
        { assert (G : forall l a sc,
                     Gradient.id a = Gradient.id gp ->
                     Gradient.address_space_bits a
                     = Gradient.address_space_bits gp ->
                     (forall i, In i l ->
                                0 <= Gradient._ring_distance gp
                                       (Gradient.id gp) (sender_id i)) ->
                     exists a' sc',
                       foldM (Gradient.process_invite round_up r) l (a, sc)
                       = Ok (a', sc')).
          { induction l as [|i l IH]; intros a sc Hid Hbits Hl;
              cbn [foldM]; [eauto|].
            destruct (GradientInvites.process_invite_table round_up r a sc i)
              as (a1 & sc2 & Hs & _ & _ & _ & _ & _ & _ & Hi & _ & Hb & _).
            { unfold Gradient._ring_distance, Gradient.address_space_size.
              rewrite Hid, Hbits.
              apply (Hl i). now left. }
            rewrite Hs. cbn [bind]. apply IH; try congruence.
            intros i0 Hi0. apply Hl. now right. }
          apply G; auto. intros i Hi. apply Hd. now right. }
        destruct Hloop as (a' & sc' & Hloop). rewrite Hloop. cbn [bind].
        eexists _, _. split; [reflexivity|]. split; [reflexivity|].
        split; [discriminate|].
        intros inv0 q0 Heq. injection Heq as <- <-.
        pose proof (GradientInvites.process_loop_queue round_up r q g1 sc1
                      [] q) as Hq1.
        rewrite Hloop in Hq1. destruct Hq1 as [sc2 Hq1].
        exists (Gradient.with_pending_invites g1 q), sc2.
        split; [exact T1|]. split; [exact T2|]. split; [exact T3|].
        split; [exact T4|]. split; [exact T5|]. split; [exact T6|].
        split; [exact Tid|]. split; [exact Tmax|]. split; [exact Tbits|].
        split; [reflexivity|].
        cbn [Gradient.pending_invites Gradient.with_pending_invites].
        rewrite Hq1. reflexivity.
    + intros inv q Hq Hd Hc Hp. unfold Gradient.process_invites.
      rewrite Hq. cbn [foldM].
      now rewrite (GradientInvites.process_invite_negative
                     round_up r gp [] inv Hd Hc Hp).
Qed.

Lemma reactive_transition_table_witness :
  (exists gp' sc,
      Gradient.process_invites never_up ring_peer_queued 3 = Ok (gp', sc) /\
      Gradient.pending_invites gp' = []) /\
  Gradient.process_invites never_up ring_peer_stray 3 = Raise ValueError.
Proof.
  split.
  - destruct (reactive_transition_table
                (Fixed.new_peer 1 4) ring_peer_queued never_up 3)
      as (_ & H & _).
    destruct H as (gp' & sc & Hp & Hq & _).
    + intros inv Hin. simpl in Hin.
      destruct Hin as [<-|[<-|[]]]; vm_compute; discriminate.
    + exists gp', sc. split; [exact Hp|exact Hq].
  - destruct (reactive_transition_table
                (Fixed.new_peer 1 4) ring_peer_stray never_up 3)
      as (_ & _ & H).
    apply (H (mkInvite 300 3) []).
    + reflexivity.
    + vm_compute. reflexivity.
    + vm_compute. discriminate.
    + vm_compute. discriminate.
Defined.

(* ================================================================= *)
(** ** The greedy discovery walk *)

Module FixedSearch.
Import Fixed FixedWalk.

Lemma xor_walk_distance ps target n a c :
  walk ps target n a c -> _xor_distance c target <= _xor_distance a target.
Proof.
  induction 1 as [a|n a b c [cur [_ [_ Hlt]]] _ IH]; lia.
Qed.

Lemma xor_search_walk ps target hops :
  forall start,
    exists n, (n <= hops)%nat /\
              walk ps target n start (search ps hops start target).
Proof.
  induction hops as [|hops IH]; intros start; simpl.
  - exists O. split; [lia | constructor].
  - destruct (dict_get ps start) as [cur|] eqn:Hcur;
      [|exists O; split; [lia | constructor]].
    destruct (min_by (fun pid => _xor_distance pid target)
                (get_connected_peers cur)) as [c|] eqn:Hmin;
      [|exists O; split; [lia | constructor]].
    destruct (_xor_distance start target <=? _xor_distance c target) eqn:Hle;
      [exists O; split; [lia | constructor]|].
    apply Z.leb_gt in Hle.
    destruct (IH c) as [n [Hn Hw]].
    exists (S n). split; [lia|].
    eapply walk_hop; [|exact Hw].
    exists cur. repeat split; auto.
    eapply min_by_In; eauto.
Qed.

End FixedSearch.

Module GradientSearch.
Import Gradient GradientWalk.

Lemma ring_distance_bits p q a b :
  address_space_bits p = address_space_bits q ->
  _ring_distance p a b = _ring_distance q a b.
Proof.
  intros H. unfold _ring_distance, address_space_size. now rewrite H.
Qed.

Lemma ring_walk_distance ps q target n a c :
  same_address_space ps q ->
  walk ps target n a c ->
  _ring_distance q c target <= _ring_distance q a target.
Proof.
  intros Hq. induction 1 as [a|n a b c [cur [Hcur [_ Hlt]]] _ IH]; [lia|].
  rewrite !(ring_distance_bits cur q) in Hlt by (eapply Hq; eauto). lia.
Qed.

Lemma ring_search_walk ps target hops :
  forall start,
    exists n, (n <= hops)%nat /\
              walk ps target n start (search ps hops start target).
Proof.
  induction hops as [|hops IH]; intros start; simpl.
  - exists O. split; [lia | constructor].
  - destruct (dict_get ps start) as [cur|] eqn:Hcur;
      [|exists O; split; [lia | constructor]].
    destruct (min_by (fun pid => _ring_distance cur pid target)
                (get_connected_peers cur)) as [c|] eqn:Hmin;
      [|exists O; split; [lia | constructor]].
    destruct (_ring_distance cur start target <=?
              _ring_distance cur c target) eqn:Hle;
      [exists O; split; [lia | constructor]|].
    apply Z.leb_gt in Hle.
    destruct (IH c) as [n [Hn Hw]].
    exists (S n). split; [lia|].
    eapply walk_hop; [|exact Hw].
    exists cur. repeat split; auto.
    eapply min_by_In; eauto.
Qed.

End GradientSearch.

(** C4.  The result of the greedy lookup is reached from the start node
    by a chain of at most [max_hops] hops, each one to a peer the
    current node holds as Connected and that is strictly closer to the
    target than the current node; so the distance never grows along the
    walk and the terminal node is at most as far from the target as the
    start node.  For the gradient simulator the distances of a hop are
    the ring distances of the current node, and the comparison of the two
    ends is in the address space all registered peers share. *)
Theorem greedy_walk_moves_closer :
  forall (sim : Fixed.NetworkSimulator) (gps : dict Gradient.GradientPeer)
         (start target max_hops : Z),
    ((exists n,
        (n <= Z.to_nat max_hops)%nat /\
        FixedWalk.walk (Fixed.peers sim) target n start
          (Fixed._recursive_search_with_hop_limit sim start target max_hops)) /\
     Fixed._xor_distance
       (Fixed._recursive_search_with_hop_limit sim start target max_hops)
       target
     <= Fixed._xor_distance start target) /\
    ((exists n,
        (n <= Z.to_nat max_hops)%nat /\
        GradientWalk.walk gps target n start
          (Gradient._gradient_recursive_search gps start target max_hops)) /\
     (forall q,
        GradientWalk.same_address_space gps q ->
        Gradient._ring_distance q
          (Gradient._gradient_recursive_search gps start target max_hops)
          target
        <= Gradient._ring_distance q start target)).
Proof.
  intros sim gps start target max_hops.
  unfold Fixed._recursive_search_with_hop_limit,
    Gradient._gradient_recursive_search.
  destruct (FixedSearch.xor_search_walk (Fixed.peers sim) target
              (Z.to_nat max_hops) start) as [n [Hn Hw]].
  destruct (GradientSearch.ring_search_walk gps target
              (Z.to_nat max_hops) start) as [m [Hm Hv]].
  split; split.
  - exists n. auto.
  - eapply FixedSearch.xor_walk_distance; eauto.
  - exists m. auto.
  - intros q Hq. eapply GradientSearch.ring_walk_distance; eauto.
Qed.

(* ================================================================= *)
(** ** Facts about sampling *)

Section SampleFacts.
Context {A : Type}.
Implicit Types (l pool population xs : list A) (g : Rng).

Lemma remove_nth_perm pool i x :
  nth_error pool i = Some x -> Permutation (x :: remove_nth i pool) pool.
Proof.
  revert i. induction pool as [|y pool IH]; intros [|i] H; simpl in H;
    try discriminate.
  - injection H as ->. reflexivity.
  - unfold remove_nth in *. simpl.
    eapply perm_trans; [apply perm_swap|]. apply perm_skip. apply IH.
    exact H.
Qed.

(** What [sample_draw] returns is, together with what it leaves, a
    rearrangement of the population. *)
Lemma sample_draw_perm k :
  forall pool g,
    exists rest, Permutation (fst (sample_draw k pool g) ++ rest) pool.
Proof.
  induction k as [|k IH]; intros pool g; cbn [sample_draw].
  - exists pool. reflexivity.
  - destruct (randbelow (length pool) g) as [i g1].
    destruct (nth_error pool i) as [x|] eqn:E.
    + destruct (IH (remove_nth i pool) g1) as [rest Hrest].
      destruct (sample_draw k (remove_nth i pool) g1) as [xs g2].
      exists rest. simpl in *.
      eapply perm_trans;
        [apply perm_skip; exact Hrest | apply remove_nth_perm; exact E].
    + exists pool. reflexivity.
Qed.

Lemma randbelow_lt n g : (0 < n)%nat -> (fst (randbelow n g) < n)%nat.
Proof.
  intros H. unfold randbelow, rng_next. simpl.
  apply Nat.mod_upper_bound. lia.
Qed.

Lemma sample_draw_length k :
  forall pool g,
    (k <= length pool)%nat -> length (fst (sample_draw k pool g)) = k.
Proof.
  induction k as [|k IH]; intros pool g Hk; cbn [sample_draw]; auto.
  pose proof (randbelow_lt (length pool) g ltac:(lia)) as Hlt.
  destruct (randbelow (length pool) g) as [i g1]. simpl in Hlt.
  destruct (nth_error pool i) as [x|] eqn:E.
  - pose proof (remove_nth_perm pool i x E) as Hp.
    apply Permutation_length in Hp. simpl in Hp.
    specialize (IH (remove_nth i pool) g1 ltac:(lia)).
    destruct (sample_draw k (remove_nth i pool) g1) as [xs g2].
    simpl in *. lia.
  - apply nth_error_None in E. lia.
Qed.

Lemma sample_draw_In k pool g x :
  In x (fst (sample_draw k pool g)) -> In x pool.
Proof.
  intros H. destruct (sample_draw_perm k pool g) as [rest Hp].
  eapply Permutation_in; [exact Hp|]. apply in_or_app. now left.
Qed.

Lemma sample_draw_NoDup k pool g :
  NoDup pool -> NoDup (fst (sample_draw k pool g)).
Proof.
  intros H. destruct (sample_draw_perm k pool g) as [rest Hp].
  apply Permutation_sym in Hp.
  pose proof (Permutation_NoDup Hp H) as Hnd.
  now apply NoDup_app_remove_r in Hnd.
Qed.

Lemma sample_Ok population k g :
  0 <= k <= len population ->
  sample population k g = Ok (sample_draw (Z.to_nat k) population g).
Proof.
  intros [H0 H1]. unfold sample.
  destruct (k <? 0) eqn:E0; [apply Z.ltb_lt in E0; lia|].
  destruct (len population <? k) eqn:E1; [apply Z.ltb_lt in E1; lia|].
  reflexivity.
Qed.

Lemma sample_inv population k g xs g' :
  sample population k g = Ok (xs, g') ->
  0 <= k <= len population /\
  xs = fst (sample_draw (Z.to_nat k) population g) /\
  len xs = k /\
  (forall x, In x xs -> In x population) /\
  (NoDup population -> NoDup xs).
Proof.
  unfold sample. intros H.
  destruct (k <? 0) eqn:E0; [discriminate|].
  destruct (len population <? k) eqn:E1; [discriminate|].
  apply Z.ltb_ge in E0, E1. simpl in H. injection H as H.
  assert (Hxs : xs = fst (sample_draw (Z.to_nat k) population g))
    by (rewrite H; reflexivity).
  split; [lia|]. split; [exact Hxs|]. subst xs.
  split; [|split].
  - unfold len in *. rewrite sample_draw_length; lia.
  - intros x. apply sample_draw_In.
  - apply sample_draw_NoDup.
Qed.

End SampleFacts.

(* ================================================================= *)
(** ** The lookup and the identifier 0 *)

Module FixedLookup.
Import Fixed.

Lemma walk_responses_nonzero sim target starts :
  ~ In 0 (walk_responses sim target starts).
Proof.
  unfold walk_responses.
  assert (H : forall acc, ~ In 0 acc ->
            ~ In 0 (fold_left
                      (fun responses start_id =>
                         let response :=
                           _recursive_search_with_hop_limit sim start_id
                             target 10 in
                         if truthy (Some response)
                         then responses ++ [response] else responses)
                      starts acc)).
  { induction starts as [|s starts IH]; intros acc Hacc; simpl; auto.
    apply IH.
    destruct (_recursive_search_with_hop_limit sim s target 10 =? 0) eqn:E;
      simpl; auto.
    apply Z.eqb_neq in E. intros Hin. apply in_app_or in Hin.
    destruct Hin as [Hin|[Hin|[]]]; [contradiction | congruence]. }
  apply H. intros [].
Qed.

Lemma starting_points_Ok sim peer target g :
  exists starts g', starting_points sim peer target g = Ok (starts, g').
Proof.
  unfold starting_points.
  match goal with
  | |- context [Z.min 2 (len ?l)] => set (avail := l)
  end.
  destruct (0 <? Z.min 2 (len avail)) eqn:E; [|eauto].
  apply Z.ltb_lt in E.
  rewrite sample_Ok by lia.
  destruct (sample_draw (Z.to_nat (Z.min 2 (len avail))) avail g).
  simpl. eauto.
Qed.

Lemma starting_points_skip_zero sim peer target g starts g' :
  find_closest_peer_to_target peer target [] = Some 0 ->
  starting_points sim peer target g = Ok (starts, g') ->
  ~ In 0 starts.
Proof.
  unfold starting_points. intros ->. simpl truthy. cbn [andb app].
  match goal with
  | |- context [Z.min 2 (len ?l)] => set (avail := l)
  end.
  assert (Havail : ~ In 0 avail).
  { subst avail. rewrite filter_In. intros [_ H]. simpl in H. discriminate. }
  destruct (0 <? Z.min 2 (len avail)).
  - destruct (sample avail (Z.min 2 (len avail)) g) as [[xs g1]|] eqn:E;
      simpl; [|discriminate].
    intros H. injection H as <- <-.
    apply sample_inv in E. destruct E as (_ & _ & _ & Hin & _).
    intros H0. apply Havail. auto.
  - intros H. injection H as <- <-. intros [].
Qed.

Lemma simulate_mapping_request_nonzero sim peer g :
  exists r g',
    simulate_mapping_request sim peer g = Ok (r, g') /\ r <> Some 0.
Proof.
  unfold simulate_mapping_request.
  destruct (randint 0 (Z.shiftl 1 (address_space_bits (config sim)) - 1) g)
    as [target g1].
  destruct (starting_points_Ok sim peer target g1) as (starts & g2 & ->).
  simpl. destruct starts as [|s starts].
  - eexists _, _. split; [reflexivity | discriminate].
  - eexists _, _. split; [reflexivity|].
    intros H. apply min_by_In in H.
    exact (walk_responses_nonzero sim target (s :: starts) H).
Qed.

Lemma handle_discovery_receivers sim peer d peer' sent :
  handle_discovery sim peer d = (peer', sent) ->
  forall s t, In (s, t) sent -> t <> 0 /\ t <> id peer /\ s = id peer /\
                                d = Some t.
Proof.
  unfold handle_discovery. destruct d as [d|].
  - destruct (truthy (Some d) && negb (d =? id peer) &&
              dict_mem (peers sim) d) eqn:E.
    + apply andb_prop in E. destruct E as [E _].
      apply andb_prop in E. destruct E as [E1 E2].
      simpl in E1. apply negb_true_iff in E1, E2.
      apply Z.eqb_neq in E1, E2.
      destruct (get_peer_state peer d) as [[]|]; intros H;
        injection H as <- <-; intros s t Hin;
        first [ destruct Hin as [Hin|[]]; injection Hin as <- <-; auto
              | destruct Hin ].
    + intros H. injection H as <- <-. intros s t [].
  - intros H. injection H as <- <-. intros s t [].
Qed.

End FixedLookup.

(** C10.  A lookup of the fixed simulator always returns, and never
    returns the identifier 0: a closest known peer with identifier 0 is
    not a starting point, no walk response is 0, and a discovery result
    of 0 changes nothing and queues no invite; phase 1 never queues an
    invite whose receiver is 0. *)
Theorem lookup_never_returns_peer_zero :
  forall (sim : Fixed.NetworkSimulator) (peer : Fixed.Peer) (g : Rng)
         (target : Z),
    (exists r g',
       Fixed.simulate_mapping_request sim peer g = Ok (r, g') /\
       r <> Some 0) /\
    (forall starts g',
       Fixed.find_closest_peer_to_target peer target [] = Some 0 ->
       Fixed.starting_points sim peer target g = Ok (starts, g') ->
       ~ In 0 starts) /\
    (forall starts, ~ In 0 (Fixed.walk_responses sim target starts)) /\
    Fixed.handle_discovery sim peer (Some 0) = (peer, []) /\
    (forall invites key sim' invites' g',
       Fixed.phase1_step (sim, invites, g) key = Ok (sim', invites', g') ->
       forall s, In (s, 0) invites' -> In (s, 0) invites).
Proof.
  intros sim peer g target.
  split; [apply FixedLookup.simulate_mapping_request_nonzero|].
  split; [intros starts g'; apply FixedLookup.starting_points_skip_zero|].
  split; [apply FixedLookup.walk_responses_nonzero|].
  split; [reflexivity|].
  intros invites key sim' invites' g' H s Hin.
  unfold Fixed.phase1_step in H.
  destruct (dict_get (Fixed.peers sim) key) as [pr|].
  - destruct (Fixed.simulate_mapping_request sim pr g) as [[d g1]|];
      simpl in H; [|discriminate].
    destruct (Fixed.handle_discovery sim pr d) as [pr' sent] eqn:Hd.
    injection H as <- <- <-.
    apply in_app_or in Hin. destruct Hin as [Hin|Hin]; auto.
    destruct (FixedLookup.handle_discovery_receivers _ _ _ _ _ Hd _ _ Hin)
      as [H0 _].
    congruence.
  - injection H as <- <- <-. exact Hin.
Qed.

(* ================================================================= *)
(** ** Facts about the fixed peer *)

Module FixedFacts.
Import Fixed.

Lemma set_peer_state_keys p d st r x :
  In x (dict_keys (known_peers (set_peer_state p d st r))) <->
  x = d \/ In x (dict_keys (known_peers p)).
Proof.
  unfold set_peer_state.
  destruct (dict_get (known_peers p) d); simpl; apply dict_keys_set_In.
Qed.

Lemma set_peer_state_id p d st r : id (set_peer_state p d st r) = id p.
Proof.
  unfold set_peer_state. destruct (dict_get (known_peers p) d); reflexivity.
Qed.

Lemma set_peer_state_pending p d st r :
  pending_invites (set_peer_state p d st r) = pending_invites p.
Proof.
  unfold set_peer_state. destruct (dict_get (known_peers p) d); reflexivity.
Qed.

Lemma set_peer_state_max p d st r :
  max_connections (set_peer_state p d st r) = max_connections p.
Proof.
  unfold set_peer_state. destruct (dict_get (known_peers p) d); reflexivity.
Qed.

Lemma update_last_heard_from_keys p d r :
  dict_keys (known_peers (update_last_heard_from p d r)) =
  dict_keys (known_peers p).
Proof.
  unfold update_last_heard_from.
  destruct (dict_get (known_peers p) d) eqn:E; simpl; auto.
  apply dict_keys_set_present. eapply dict_get_In_keys; eauto.
Qed.

Lemma update_last_heard_from_id p d r :
  id (update_last_heard_from p d r) = id p.
Proof.
  unfold update_last_heard_from.
  destruct (dict_get (known_peers p) d); reflexivity.
Qed.

Lemma update_last_heard_from_pending p d r :
  pending_invites (update_last_heard_from p d r) = pending_invites p.
Proof.
  unfold update_last_heard_from.
  destruct (dict_get (known_peers p) d); reflexivity.
Qed.

Lemma update_last_heard_from_max p d r :
  max_connections (update_last_heard_from p d r) = max_connections p.
Proof.
  unfold update_last_heard_from.
  destruct (dict_get (known_peers p) d); reflexivity.
Qed.

Lemma add_peer_keys p d st lh x :
  In x (dict_keys (known_peers (add_peer p d st lh))) <->
  x = d \/ In x (dict_keys (known_peers p)).
Proof. unfold add_peer. simpl. apply dict_keys_set_In. Qed.

Lemma get_peers_by_state_keys p st x :
  In x (get_peers_by_state p st) -> In x (dict_keys (known_peers p)).
Proof.
  unfold get_peers_by_state, dict_keys. rewrite !in_map_iff.
  intros [e [He Hin]]. apply filter_In in Hin. exists e. tauto.
Qed.

Lemma NoDup_map_filter {A B : Type} (f : A -> B) (c : A -> bool) l :
  NoDup (map f l) -> NoDup (map f (filter c l)).
Proof.
  induction l as [|a l IH]; simpl; intros H; [constructor|].
  inversion H as [|? ? Hnin Hnd]; subst.
  destruct (c a); simpl; auto.
  constructor; auto.
  intros Hin. apply Hnin. apply in_map_iff in Hin.
  destruct Hin as [e [He Hin]]. apply filter_In in Hin.
  apply in_map_iff. exists e. tauto.
Qed.

Lemma get_peers_by_state_NoDup p st :
  dict_wf (known_peers p) -> NoDup (get_peers_by_state p st).
Proof. apply NoDup_map_filter. Qed.

Lemma process_invite_spec r p sc inv :
  let p1 := fst (process_invite r (p, sc) inv) in
  id p1 = id p /\
  max_connections p1 = max_connections p /\
  pending_invites p1 = pending_invites p /\
  (forall x, In x (dict_keys (known_peers p1)) ->
             x = sender_id inv \/ In x (dict_keys (known_peers p))).
Proof.
  unfold process_invite.
  destruct (get_peer_state p (sender_id inv)) as [[]|]; cbn [fst];
    rewrite ?set_peer_state_id, ?update_last_heard_from_id,
      ?set_peer_state_max, ?update_last_heard_from_max,
      ?set_peer_state_pending, ?update_last_heard_from_pending,
      ?update_last_heard_from_keys;
    repeat split; auto; intros x Hx;
    try apply set_peer_state_keys in Hx; auto.
Qed.

(** The queue adds to the known peers only senders of its invites. *)
Lemma fold_process_invite_spec r q :
  forall p sc,
    let p' := fst (fold_left (process_invite r) q (p, sc)) in
    id p' = id p /\
    max_connections p' = max_connections p /\
    pending_invites p' = pending_invites p /\
    (forall x, In x (dict_keys (known_peers p')) ->
               In x (dict_keys (known_peers p)) \/
               exists inv, In inv q /\ sender_id inv = x).
Proof.
  induction q as [|inv q IH]; intros p sc.
  - simpl. repeat split; auto.
  - cbn [fold_left].
    pose proof (process_invite_spec r p sc inv) as Hstep.
    destruct (process_invite r (p, sc) inv) as [p1 sc1].
    cbn [fst] in Hstep. destruct Hstep as (Hid1 & Hmax1 & Hpend1 & Hkeys1).
    destruct (IH p1 sc1) as (Hid & Hmax & Hpend & Hkeys).
    cbv zeta. rewrite Hid, Hmax, Hpend.
    repeat split; auto.
    intros x Hx. destruct (Hkeys x Hx) as [Hk|[i [Hi Hs]]].
    + destruct (Hkeys1 x Hk) as [->|Hk1]; auto.
      right. exists inv. split; [now left | reflexivity].
    + right. exists i. split; [now right | exact Hs].
Qed.

Lemma process_invites_spec p r :
  let p' := fst (process_invites p r) in
  id p' = id p /\
  max_connections p' = max_connections p /\
  pending_invites p' = [] /\
  (forall x, In x (dict_keys (known_peers p')) ->
             In x (dict_keys (known_peers p)) \/
             exists inv, In inv (pending_invites p) /\ sender_id inv = x).
Proof.
  simpl. rewrite FixedInvites.fixed_process_invites_fst.
  destruct (fold_process_invite_spec r (pending_invites p) p [])
    as (Hid & Hmax & _ & Hkeys).
  simpl. auto.
Qed.

Lemma discard_all_keys (kp : dict PeerInfo) l x :
  In x (dict_keys (discard_all kp l)) -> In x (dict_keys kp).
Proof.
  revert kp. induction l as [|k l IH]; intros kp; simpl; auto.
  intros H. apply IH in H. unfold dict_keys in *.
  apply in_map_iff in H. destruct H as [e [He Hin]].
  apply dict_discard_In in Hin. apply in_map_iff. eauto.
Qed.

Lemma delete_all_discard (kp kp' : dict PeerInfo) l :
  delete_all kp l = Ok kp' -> kp' = discard_all kp l.
Proof.
  unfold delete_all, discard_all. revert kp.
  induction l as [|k l IH]; intros kp; simpl.
  - congruence.
  - destruct (dict_del kp k) as [d|] eqn:E; simpl; [|discriminate].
    apply dict_del_discard in E. subst d. apply IH.
Qed.

Lemma remove_excess_connections_spec p g p' removed g' :
  remove_excess_connections p g = Ok (p', removed, g') ->
  id p' = id p /\
  max_connections p' = max_connections p /\
  pending_invites p' = pending_invites p /\
  known_peers p' = discard_all (known_peers p) removed /\
  (forall x, In x (dict_keys (known_peers p')) ->
             In x (dict_keys (known_peers p))).
Proof.
  unfold remove_excess_connections.
  destruct (len (get_connected_peers p) <=? max_connections p).
  - intros H. injection H as <- <- <-. repeat split; auto.
  - destruct (sample _ _ g) as [[to_remove g1]|]; simpl; [|discriminate].
    destruct (delete_all (known_peers p) to_remove) as [kp|] eqn:E; simpl;
      [|discriminate].
    intros H. injection H as <- <- <-. simpl.
    apply delete_all_discard in E. subst kp.
    repeat split; auto. intros x. apply discard_all_keys.
Qed.

End FixedFacts.

(* ================================================================= *)
(** ** Facts about the rounds of the fixed simulator *)

Lemma foldM_invariant {A B : Type} (P : A -> Prop) (f : A -> B -> res A) l :
  (forall a x a', P a -> In x l -> f a x = Ok a' -> P a') ->
  forall a a', P a -> foldM f l a = Ok a' -> P a'.
Proof.
  induction l as [|x l IH]; intros Hstep a a' Ha; simpl.
  - intros H. injection H as <-. exact Ha.
  - destruct (f a x) as [a1|] eqn:E; simpl; [|discriminate].
    apply IH.
    + intros b y b' Hb Hy. apply Hstep; auto. now right.
    + eapply Hstep; eauto. now left.
Qed.

Lemma fold_left_invariant {A B : Type} (P : A -> Prop) (f : A -> B -> A) l :
  (forall a x, P a -> In x l -> P (f a x)) ->
  forall a, P a -> P (fold_left f l a).
Proof.
  induction l as [|x l IH]; intros Hstep a Ha; simpl; auto.
  apply IH.
  - intros b y Hb Hy. apply Hstep; auto. now right.
  - apply Hstep; auto. now left.
Qed.

Module FixedRounds.
Import Fixed FixedRegistry.

Lemma registry_ok_set ps k p :
  registry_ok ps -> registered_ok k p -> registry_ok (dict_set ps k p).
Proof.
  intros Hps Hp k' p'. destruct (Z.eq_dec k k') as [<-|Hne].
  - rewrite dict_get_set_same. intros H. injection H as <-. exact Hp.
  - rewrite dict_get_set_other by assumption. apply Hps.
Qed.

Lemma deliver_config sim s t : config (deliver sim s t) = config sim.
Proof. unfold deliver. destruct (dict_get (peers sim) t); reflexivity. Qed.

Lemma deliver_round sim s t :
  round_number (deliver sim s t) = round_number sim.
Proof. unfold deliver. destruct (dict_get (peers sim) t); reflexivity. Qed.

Lemma deliver_keys sim s t :
  dict_keys (peers (deliver sim s t)) = dict_keys (peers sim).
Proof.
  unfold deliver. destruct (dict_get (peers sim) t) eqn:E; simpl; auto.
  apply dict_keys_set_present. eapply dict_get_In_keys; eauto.
Qed.

Lemma deliver_get_same sim s t tp :
  dict_get (peers sim) t = Some tp ->
  dict_get (peers (deliver sim s t)) t =
  Some (receive_invite tp (mkInvite s (round_number sim))).
Proof.
  intros H. unfold deliver. rewrite H. simpl. apply dict_get_set_same.
Qed.

Lemma deliver_get_other sim s t k :
  t <> k -> dict_get (peers (deliver sim s t)) k = dict_get (peers sim) k.
Proof.
  intros H. unfold deliver. destruct (dict_get (peers sim) t); simpl; auto.
  now apply dict_get_set_other.
Qed.

Lemma deliver_registry_ok sim s t :
  s <> t -> registry_ok (peers sim) -> registry_ok (peers (deliver sim s t)).
Proof.
  intros Hne Hok. unfold deliver.
  destruct (dict_get (peers sim) t) as [tp|] eqn:E; simpl; auto.
  apply registry_ok_set; auto.
  destruct (Hok t tp E) as (Hid & Hself & Hq).
  unfold registered_ok, receive_invite. simpl.
  repeat split; auto.
  apply Forall_app. split; auto.
Qed.

Lemma handle_discovery_spec sim peer d peer' sent :
  handle_discovery sim peer d = (peer', sent) ->
  id peer' = id peer /\
  pending_invites peer' = pending_invites peer /\
  (forall x, In x (dict_keys (known_peers peer')) ->
             x <> id peer \/ In x (dict_keys (known_peers peer))) /\
  Forall (fun sr => fst sr <> snd sr) sent.
Proof.
  intros H.
  pose proof (FixedLookup.handle_discovery_receivers _ _ _ _ _ H) as Hsent.
  assert (Hf : Forall (fun sr : Z * Z => fst sr <> snd sr) sent).
  { apply Forall_forall. intros [s t] Hin.
    destruct (Hsent s t Hin) as (_ & Hne & -> & _). simpl. congruence. }
  unfold handle_discovery in H. destruct d as [d|].
  - destruct (truthy (Some d) && negb (d =? id peer) &&
              dict_mem (peers sim) d) eqn:E.
    + apply andb_prop in E. destruct E as [E _].
      apply andb_prop in E. destruct E as [_ E2].
      apply negb_true_iff in E2. apply Z.eqb_neq in E2.
      destruct (get_peer_state peer d) as [[]|];
        injection H as <- <-;
        rewrite ?FixedFacts.set_peer_state_id,
          ?FixedFacts.update_last_heard_from_id,
          ?FixedFacts.set_peer_state_pending,
          ?FixedFacts.update_last_heard_from_pending,
          ?FixedFacts.update_last_heard_from_keys;
        repeat split; auto; intros x Hx;
        try apply FixedFacts.set_peer_state_keys in Hx; auto;
        destruct Hx as [->|Hx]; auto.
    + injection H as <- <-. repeat split; auto.
  - injection H as <- <-. repeat split; auto.
Qed.

Lemma same_frame_refl sim : same_frame sim sim.
Proof. repeat split. Qed.

Lemma same_frame_trans a b c :
  same_frame a b -> same_frame b c -> same_frame a c.
Proof.
  intros (H1 & H2 & H3) (H4 & H5 & H6). repeat split; congruence.
Qed.

Lemma with_peers_set_frame sim k p p' :
  dict_get (peers sim) k = Some p ->
  same_frame sim (with_peers sim (dict_set (peers sim) k p')).
Proof.
  intros H. repeat split. simpl.
  apply dict_keys_set_present. eapply dict_get_In_keys; eauto.
Qed.

Lemma deliver_frame sim s t : same_frame sim (deliver sim s t).
Proof.
  repeat split;
    [apply deliver_config | apply deliver_round | apply deliver_keys].
Qed.

Lemma phase1_step_ok sim invites g key sim' invites' g' :
  phase1_step (sim, invites, g) key = Ok (sim', invites', g') ->
  registry_ok (peers sim) ->
  Forall (fun sr => fst sr <> snd sr) invites ->
  registry_ok (peers sim') /\
  Forall (fun sr => fst sr <> snd sr) invites' /\
  same_frame sim sim'.
Proof.
  unfold phase1_step. intros H Hok Hinv.
  destruct (dict_get (peers sim) key) as [peer|] eqn:Hget.
  - destruct (simulate_mapping_request sim peer g) as [[d g1]|];
      simpl in H; [|discriminate].
    destruct (handle_discovery sim peer d) as [peer' sent] eqn:Hd.
    injection H as <- <- <-.
    destruct (handle_discovery_spec _ _ _ _ _ Hd)
      as (Hid & Hpend & Hkeys & Hsent).
    destruct (Hok key peer Hget) as (Hk & Hself & Hq).
    split; [|split].
    + apply registry_ok_set; auto.
      unfold registered_ok. rewrite Hid, Hpend.
      repeat split; auto.
      intros Hin. destruct (Hkeys key Hin) as [Hne|Hin']; auto.
    + apply Forall_app. auto.
    + eapply with_peers_set_frame; eauto.
  - injection H as <- <- <-. auto using same_frame_refl.
Qed.

Lemma phase1_ok sim g sim' invites g' :
  phase1 sim g = Ok (sim', invites, g') ->
  registry_ok (peers sim) ->
  registry_ok (peers sim') /\
  Forall (fun sr => fst sr <> snd sr) invites /\
  same_frame sim sim'.
Proof.
  unfold phase1. intros H Hok.
  pose (P := fun acc : NetworkSimulator * list (Z * Z) * Rng =>
               registry_ok (peers (fst (fst acc))) /\
               Forall (fun sr => fst sr <> snd sr) (snd (fst acc)) /\
               same_frame sim (fst (fst acc))).
  change (P (sim', invites, g')).
  eapply (foldM_invariant P phase1_step); [| |exact H].
  - intros [[s i] g0] x [[s' i'] g0'] (H1 & H2 & H3) _ Hstep.
    destruct (phase1_step_ok _ _ _ _ _ _ _ Hstep H1 H2) as (H4 & H5 & H6).
    unfold P. simpl in *. eauto using same_frame_trans.
  - unfold P. simpl. auto using same_frame_refl.
Qed.

Lemma phase2_ok sim invites :
  registry_ok (peers sim) ->
  Forall (fun sr => fst sr <> snd sr) invites ->
  registry_ok (peers (phase2 sim invites)) /\
  same_frame sim (phase2 sim invites).
Proof.
  intros Hok Hinv. unfold phase2.
  apply (fold_left_invariant
           (fun s => registry_ok (peers s) /\ same_frame sim s)).
  - intros s [a b] [H1 H2] Hin. rewrite Forall_forall in Hinv.
    specialize (Hinv _ Hin). simpl in *. split.
    + now apply deliver_registry_ok.
    + eapply same_frame_trans; [exact H2 | apply deliver_frame].
  - auto using same_frame_refl.
Qed.

Lemma maintenance_ok sim peer g sim' selected g' k :
  maintenance sim peer g = Ok (sim', selected, g') ->
  registry_ok (peers sim) ->
  registered_ok k peer ->
  registry_ok (peers sim') /\ same_frame sim sim'.
Proof.
  unfold maintenance. intros H Hok (Hid & Hself & _).
  destruct (2 <=? len (get_connected_peers peer)).
  - destruct (sample (get_connected_peers peer) 2 g) as [[sel g1]|] eqn:E;
      simpl in H; [|discriminate].
    injection H as <- <- <-.
    apply sample_inv in E. destruct E as (_ & _ & _ & Hin & _).
    apply (fold_left_invariant
             (fun s => registry_ok (peers s) /\ same_frame sim s)).
    + intros s t [H1 H2] Ht. split.
      * apply deliver_registry_ok; auto.
        rewrite Hid. intros <-. apply Hself.
        apply FixedFacts.get_peers_by_state_keys with (st := CONNECTED).
        apply Hin. exact Ht.
      * eapply same_frame_trans; [exact H2 | apply deliver_frame].
    + auto using same_frame_refl.
  - injection H as <- <- <-. auto using same_frame_refl.
Qed.

Lemma phase3_step_ok sim log g key sim' log' g' :
  phase3_step (sim, log, g) key = Ok (sim', log', g') ->
  registry_ok (peers sim) ->
  registry_ok (peers sim') /\ same_frame sim sim'.
Proof.
  unfold phase3_step. intros H Hok.
  destruct (dict_get (peers sim) key) as [peer|] eqn:Hget;
    [|injection H as <- <- <-; auto using same_frame_refl].
  destruct (process_invites peer (round_number sim)) as [peer1 sc] eqn:Hp.
  pose proof (FixedFacts.process_invites_spec peer (round_number sim)) as Hs.
  rewrite Hp in Hs. cbn [fst] in Hs. destruct Hs as (Hid & _ & Hq & Hkeys).
  destruct (Hok key peer Hget) as (Hk & Hself & Hsenders).
  assert (Hpeer1 : registered_ok key peer1).
  { unfold registered_ok. rewrite Hid, Hq. repeat split; auto.
    intros Hin. destruct (Hkeys key Hin) as [Hin'|[inv [Hinv Hs]]]; auto.
    rewrite Forall_forall in Hsenders. exact (Hsenders inv Hinv Hs). }
  set (sim1 := with_peers sim (dict_set (peers sim) key peer1)) in *.
  assert (Hok1 : registry_ok (peers sim1))
    by (apply registry_ok_set; auto).
  assert (Hf1 : same_frame sim sim1)
    by (eapply with_peers_set_frame; eauto).
  destruct (maintenance sim1 peer1 g) as [[[sim2 sel] g1]|] eqn:Hm;
    simpl in H; [|discriminate].
  destruct (maintenance_ok _ _ _ _ _ _ _ Hm Hok1 Hpeer1) as [Hok2 Hf2].
  destruct (dict_get (peers sim2) key) as [peer2|] eqn:Hget2.
  - destruct (remove_excess_connections peer2 g1) as [[[peer3 rem] g2]|]
      eqn:Hr; simpl in H; [|discriminate].
    injection H as <- <- <-.
    destruct (FixedFacts.remove_excess_connections_spec _ _ _ _ _ Hr)
      as (Hid3 & _ & Hq3 & _ & Hkeys3).
    destruct (Hok2 key peer2 Hget2) as (Hk2 & Hself2 & Hsenders2).
    split.
    + apply registry_ok_set; auto.
      unfold registered_ok. rewrite Hid3, Hq3. repeat split; auto.
    + eapply same_frame_trans; [exact Hf1|].
      eapply same_frame_trans; [exact Hf2|].
      eapply with_peers_set_frame; eauto.
  - injection H as <- <- <-. eauto using same_frame_trans.
Qed.

Lemma phase3_ok sim g sim' log g' :
  phase3 sim g = Ok (sim', log, g') ->
  registry_ok (peers sim) ->
  registry_ok (peers sim') /\ same_frame sim sim'.
Proof.
  unfold phase3. intros H Hok.
  pose (P := fun acc : NetworkSimulator * list (Z * list Invite) * Rng =>
               registry_ok (peers (fst (fst acc))) /\
               same_frame sim (fst (fst acc))).
  change (P (sim', log, g')).
  eapply (foldM_invariant P phase3_step); [| |exact H].
  - intros [[s i] g0] x [[s' i'] g0'] (H1 & H2) _ Hstep.
    destruct (phase3_step_ok _ _ _ _ _ _ _ Hstep H1) as (H4 & H5).
    unfold P. simpl in *. eauto using same_frame_trans.
  - unfold P. simpl. auto using same_frame_refl.
Qed.

Lemma simulate_round_ok sim g sim' g' :
  simulate_round sim g = Ok (sim', g') ->
  registry_ok (peers sim) -> registry_ok (peers sim').
Proof.
  unfold simulate_round. intros H Hok.
  destruct (phase1 sim g) as [[[sim1 invites] g1]|] eqn:H1; simpl in H;
    [|discriminate].
  destruct (phase1_ok _ _ _ _ _ H1 Hok) as (Hok1 & Hinv & _).
  destruct (phase2_ok sim1 invites Hok1 Hinv) as (Hok2 & _).
  destruct (phase3 (phase2 sim1 invites) g1) as [[[sim3 log] g2]|] eqn:H3;
    simpl in H; [|discriminate].
  injection H as <- <-. simpl.
  destruct (phase3_ok _ _ _ _ _ H3 Hok2) as (Hok3 & _). exact Hok3.
Qed.

Lemma run_rounds_ok n :
  forall sim g sim' g',
    run_rounds n sim g = Ok (sim', g') ->
    registry_ok (peers sim) -> registry_ok (peers sim').
Proof.
  induction n as [|n IH]; intros sim g sim' g'; simpl.
  - intros H. injection H as <- <-. auto.
  - destruct (simulate_round sim g) as [[sim1 g1]|] eqn:E; simpl;
      [|discriminate].
    intros H Hok. eapply IH; eauto. eapply simulate_round_ok; eauto.
Qed.

End FixedRounds.

Module FixedBootstrap.
Import Fixed FixedRegistry FixedRounds.

Lemma generate_loop_fresh fuel max_id count exclude :
  forall generated g l g',
    generate_loop fuel max_id count exclude generated g = Some (l, g') ->
    forall x, In x l -> In x generated \/ ~ In x exclude.
Proof.
  induction fuel as [|fuel IH]; intros generated g l g';
    cbn [generate_loop].
  - destruct (len generated <? count); [discriminate|].
    intros H. injection H as <- <-. auto.
  - destruct (len generated <? count).
    + destruct (randint 0 max_id g) as [peer_id g1].
      destruct (negb (mem peer_id exclude) && negb (mem peer_id generated))
        eqn:E.
      * intros H x Hx. destruct (IH _ _ _ _ H x Hx) as [Hin|Hout]; auto.
        apply in_app_or in Hin. destruct Hin as [Hin|[<-|[]]]; auto.
        apply andb_prop in E. destruct E as [E _].
        apply negb_true_iff in E. apply mem_false in E. auto.
      * apply IH.
    + intros H. injection H as <- <-. auto.
Qed.

Lemma connected_member_ok cfg connected_ids k :
  registered_ok k (connected_member cfg connected_ids k).
Proof.
  unfold connected_member.
  pose (P := fun p : Peer =>
               id p = k /\ pending_invites p = [] /\
               ~ In k (dict_keys (known_peers p))).
  assert (H : P (fold_left
                   (fun peer other_id =>
                      if negb (other_id =? k)
                      then add_peer peer other_id CONNECTED 0 else peer)
                   connected_ids
                   (new_peer k (max_connections_per_peer cfg)))).
  { apply fold_left_invariant.
    - intros p x (H1 & H2 & H3) _.
      destruct (x =? k) eqn:E; simpl; [repeat split; assumption|].
      apply Z.eqb_neq in E. repeat split; auto.
      rewrite FixedFacts.add_peer_keys. intros [->|H]; auto.
    - repeat split; auto. }
  destruct H as (H1 & H2 & H3).
  unfold registered_ok. rewrite H2. auto.
Qed.

Lemma candidate_member_ok cfg connected_ids k g p g' :
  candidate_member cfg connected_ids k g = Ok (p, g') ->
  ~ In k connected_ids ->
  registered_ok k p.
Proof.
  unfold candidate_member. intros H Hk.
  destruct (sample connected_ids _ g) as [[ids g1]|] eqn:E; simpl in H;
    [|discriminate].
  injection H as <- <-.
  apply sample_inv in E. destruct E as (_ & _ & _ & Hin & _).
  assert (Hfold :
            forall l p0,
              (forall x, In x l -> In x connected_ids) ->
              id p0 = k /\ pending_invites p0 = [] /\
              ~ In k (dict_keys (known_peers p0)) ->
              let p1 := fold_left
                          (fun peer identified_id =>
                             add_peer peer identified_id IDENTIFIED (-1))
                          l p0 in
              id p1 = k /\ pending_invites p1 = [] /\
              ~ In k (dict_keys (known_peers p1))).
  { induction l as [|x l IH]; intros p0 Hl Hp0; simpl; auto.
    apply IH; [intros y Hy; apply Hl; now right|].
    destruct Hp0 as (H1 & H2 & H3). repeat split; auto.
    rewrite FixedFacts.add_peer_keys. intros [->|H]; auto.
    apply Hk. apply Hl. now left. }
  destruct (Hfold ids (new_peer k (max_connections_per_peer cfg)) Hin)
    as (H1 & H2 & H3); [simpl; auto|].
  unfold registered_ok. rewrite H2. auto.
Qed.

Lemma initialize_network_ok list_of_set cfg fuel g sim g' :
  (forall l, Permutation (list_of_set l) l) ->
  _initialize_network list_of_set cfg fuel g = Some (Ok (sim, g')) ->
  registry_ok (peers sim).
Proof.
  intros Hlist. unfold _initialize_network, _generate_peer_ids.
  destruct (generate_loop fuel _ (connected_set_size cfg) [] [] g)
    as [[connected_set g1]|]; [|discriminate].
  generalize (list_of_set connected_set). intros connected_ids.
  destruct (generate_loop fuel _ (candidate_set_size cfg) connected_ids []
              g1) as [[candidate_set g2]|] eqn:Hgen; [|discriminate].
  pose proof (Hlist candidate_set) as Hperm.
  revert Hperm. generalize (list_of_set candidate_set).
  intros candidate_ids Hperm.
  intros H. injection H as H.
  match type of H with
  | bind (foldM ?f ?l (?ps1, g2)) _ = _ =>
      destruct (foldM f l (ps1, g2)) as [[ps2 g3]|] eqn:Hfold;
      simpl in H; [|discriminate];
      assert (Hps1 : registry_ok ps1)
  end.
  { apply (fold_left_invariant registry_ok).
    - intros ps x Hps _. apply registry_ok_set; auto.
      apply connected_member_ok.
    - intros k p Hget. discriminate. }
  injection H as <- <-. simpl.
  pose (P := fun acc : dict Peer * Rng => registry_ok (fst acc)).
  change (P (ps2, g3)).
  eapply (foldM_invariant P); [| |exact Hfold]; [|exact Hps1].
  intros [ps g0] x [ps' g0'] Hps Hx Hstep. unfold P in *. simpl in *.
  destruct (candidate_member cfg connected_ids x g0) as [[peer g4]|] eqn:Hc;
    simpl in Hstep; [|discriminate].
  injection Hstep as <- <-.
  apply registry_ok_set; auto.
  eapply candidate_member_ok; eauto.
  apply (Permutation_in _ Hperm) in Hx.
  destruct (generate_loop_fresh _ _ _ _ _ _ _ _ Hgen x Hx) as [[]|Hout].
  exact Hout.
Qed.

End FixedBootstrap.

(** C8.  In every state the fixed simulation reaches at the end of the
    bootstrap, at the end of any number of rounds, and at the end of each
    phase of the round that follows, no peer has its own identifier among
    its relationships; this in whatever order Python lists the sets of
    generated identifiers. *)
Theorem relationships_never_contain_self :
  forall (list_of_set : list Z -> list Z)
         (cfg : SimulationConfig) (fuel : nat) (g : Rng)
         (sim0 : Fixed.NetworkSimulator) (g0 : Rng) (n : nat)
         (sim : Fixed.NetworkSimulator) (g1 : Rng),
    (forall l, Permutation (list_of_set l) l) ->
    Fixed._initialize_network list_of_set cfg fuel g = Some (Ok (sim0, g0)) ->
    Fixed.run_rounds n sim0 g0 = Ok (sim, g1) ->
    let self_free (s : Fixed.NetworkSimulator) :=
      forall k p,
        dict_get (Fixed.peers s) k = Some p ->
        Fixed.id p = k /\
        ~ In (Fixed.id p) (dict_keys (Fixed.known_peers p)) in
    self_free sim /\
    (forall sim1 invites g2,
       Fixed.phase1 sim g1 = Ok (sim1, invites, g2) ->
       self_free sim1 /\
       self_free (Fixed.phase2 sim1 invites) /\
       (forall sim3 log g3,
          Fixed.phase3 (Fixed.phase2 sim1 invites) g2 = Ok (sim3, log, g3) ->
          self_free sim3)).
Proof.
  intros list_of_set cfg fuel g sim0 g0 n sim g1 Hlist Hinit Hrun self_free.
  assert (Hsf : forall s, FixedRegistry.registry_ok (Fixed.peers s) ->
                          self_free s).
  { intros s Hs k p Hget. destruct (Hs k p Hget) as (Hid & Hself & _).
    rewrite Hid. auto. }
  assert (Hok : FixedRegistry.registry_ok (Fixed.peers sim)).
  { eapply FixedRounds.run_rounds_ok; eauto.
    eapply FixedBootstrap.initialize_network_ok; eauto. }
  split; [auto|].
  intros sim1 invites g2 H1.
  destruct (FixedRounds.phase1_ok _ _ _ _ _ H1 Hok) as (Hok1 & Hinv & _).
  destruct (FixedRounds.phase2_ok sim1 invites Hok1 Hinv) as (Hok2 & _).
  split; [auto|]. split; [auto|].
  intros sim3 log g3 H3.
  destruct (FixedRounds.phase3_ok _ _ _ _ _ H3 Hok2) as (Hok3 & _). auto.
Qed.

Lemma relationships_never_contain_self_witness :
  dict_get (Fixed.peers (fst demo_run)) 15 = Some demo_joiner /\
  Fixed.id demo_joiner = 15 /\
  ~ In (Fixed.id demo_joiner) (dict_keys (Fixed.known_peers demo_joiner)).
Proof.
  split; [vm_compute; reflexivity|].
  refine (proj1 (relationships_never_contain_self insertion_order
                   demo_cfg 40 demo_rng
                   (fst demo_boot) (snd demo_boot) 3
                   (fst demo_run) (snd demo_run) _ _ _) 15 demo_joiner _);
    vm_compute; reflexivity.
Defined.

(* ================================================================= *)
(** ** Maintenance invites *)

Module FixedMaintenance.
Import Fixed FixedRegistry FixedRounds.

Lemma deliver_inbox_same sim s t :
  dict_mem (peers sim) t = true ->
  inbox (deliver sim s t) t = inbox sim t ++ [mkInvite s (round_number sim)].
Proof.
  unfold dict_mem, inbox. destruct (dict_get (peers sim) t) as [tp|] eqn:E;
    [|discriminate].
  intros _. rewrite (deliver_get_same _ _ _ _ E). reflexivity.
Qed.

Lemma deliver_inbox_other sim s t k :
  t <> k -> inbox (deliver sim s t) k = inbox sim k.
Proof.
  intros H. unfold inbox. now rewrite deliver_get_other.
Qed.

Lemma deliver_inbox sim s t k :
  exists extra,
    inbox (deliver sim s t) k = inbox sim k ++ extra /\
    Forall (sent_by s (round_number sim)) extra /\
    (t <> k -> extra = []).
Proof.
  destruct (Z.eq_dec t k) as [<-|Hne].
  - destruct (dict_mem (peers sim) t) eqn:E.
    + exists [mkInvite s (round_number sim)].
      rewrite deliver_inbox_same by assumption.
      split; [reflexivity|].
      split; [repeat constructor | intros Hne; contradiction].
    + exists []. unfold deliver, dict_mem in *.
      destruct (dict_get (peers sim) t); [discriminate|].
      rewrite app_nil_r. repeat split; auto.
  - exists []. rewrite deliver_inbox_other by assumption.
    rewrite app_nil_r. repeat split; auto.
Qed.

Lemma fold_deliver_inbox s k sel :
  forall sim,
    let sim' := fold_left (fun s0 t => deliver s0 s t) sel sim in
    exists extra,
      inbox sim' k = inbox sim k ++ extra /\
      Forall (sent_by s (round_number sim)) extra /\
      (~ In k sel -> extra = []).
Proof.
  induction sel as [|t sel IH]; intros sim; simpl.
  - exists []. rewrite app_nil_r. auto.
  - destruct (deliver_inbox sim s t k) as (e1 & H1 & F1 & N1).
    destruct (IH (deliver sim s t)) as (e2 & H2 & F2 & N2).
    rewrite deliver_round in F2.
    exists (e1 ++ e2). rewrite H2, H1, app_assoc.
    repeat split; auto.
    + apply Forall_app. auto.
    + intros Hk. rewrite N1, N2; auto.
Qed.

Lemma fold_deliver_received s sel :
  forall sim t,
    In t sel -> dict_mem (peers sim) t = true ->
    In (mkInvite s (round_number sim))
       (inbox (fold_left (fun s0 t0 => deliver s0 s t0) sel sim) t).
Proof.
  induction sel as [|t0 sel IH]; intros sim t Hin Hmem; simpl; [destruct Hin|].
  destruct (fold_deliver_inbox s t sel (deliver sim s t0))
    as (extra & Hextra & _ & _).
  destruct (in_dec Z.eq_dec t sel) as [Hsel|Hnot].
  - rewrite <- (deliver_round sim s t0). apply IH; auto.
    apply dict_mem_keys. rewrite deliver_keys. now apply dict_mem_keys.
  - destruct Hin as [->|Hin]; [|contradiction].
    simpl in Hextra. rewrite Hextra.
    rewrite deliver_inbox_same by assumption.
    apply in_or_app. left. apply in_or_app. right. now left.
Qed.

End FixedMaintenance.

(** C7 as stated fails: peer 1 has exactly one Connected relationship,
    peer 2, which is registered; its maintenance step leaves the
    simulator as it is, and after the whole of phase 3 no queue holds an
    invite. *)
Lemma maintenance_single_connection_counterexample :
  Fixed.get_connected_peers lone_peer = [2] /\
  dict_get (Fixed.peers lone_sim) 1 = Some lone_peer /\
  dict_mem (Fixed.peers lone_sim) 2 = true /\
  (forall g, Fixed.maintenance lone_sim lone_peer g = Ok (lone_sim, [], g)) /\
  (forall g, exists sim' log,
      Fixed.phase3 lone_sim g = Ok (sim', log, g) /\
      FixedRegistry.inbox sim' 1 = [] /\ FixedRegistry.inbox sim' 2 = []).
Proof.
  repeat split.
  intros g. eexists _, _. vm_compute. repeat split.
Qed.

(** C7, amended.  The maintenance step of a peer with at least two
    Connected relationships selects two of them (distinct ones, the
    dictionary having one entry per key) and every selected peer that is
    registered receives an invite of the sender for the current round; a
    peer with fewer than two Connected relationships, one included,
    sends no maintenance invite. *)
Theorem maintenance_needs_two_connections :
  forall (sim : Fixed.NetworkSimulator) (peer : Fixed.Peer) (g : Rng),
    (2 <= len (Fixed.get_connected_peers peer) ->
     exists sim' selected g',
       Fixed.maintenance sim peer g = Ok (sim', selected, g') /\
       len selected = 2 /\
       (forall t, In t selected -> In t (Fixed.get_connected_peers peer)) /\
       (dict_wf (Fixed.known_peers peer) -> NoDup selected) /\
       (forall t,
          In t selected -> dict_mem (Fixed.peers sim) t = true ->
          In (mkInvite (Fixed.id peer) (Fixed.round_number sim))
             (FixedRegistry.inbox sim' t)) /\
       (forall t,
          ~ In t selected ->
          FixedRegistry.inbox sim' t = FixedRegistry.inbox sim t)) /\
    (len (Fixed.get_connected_peers peer) < 2 ->
     Fixed.maintenance sim peer g = Ok (sim, [], g)).
Proof.
  intros sim peer g. unfold Fixed.maintenance. split; intros H.
  - apply Z.leb_le in H. rewrite H.
    apply Z.leb_le in H.
    destruct (sample (Fixed.get_connected_peers peer) 2 g)
      as [[sel g1]|] eqn:E.
    + pose proof (sample_inv _ _ _ _ _ E) as (_ & _ & Hlen & Hin & Hnd).
      simpl. eexists _, _, _. split; [reflexivity|].
      split; [exact Hlen|]. split; [exact Hin|].
      split; [intros Hwf; apply Hnd;
              now apply FixedFacts.get_peers_by_state_NoDup|].
      split.
      * intros t Ht Hmem. now apply FixedMaintenance.fold_deliver_received.
      * intros t Ht.
        destruct (FixedMaintenance.fold_deliver_inbox (Fixed.id peer) t sel
                    sim) as (extra & Hextra & _ & Hnil).
        simpl in Hextra. rewrite Hextra, (Hnil Ht), app_nil_r. reflexivity.
    + rewrite sample_Ok in E by lia. discriminate.
  - apply Z.leb_gt in H. rewrite H. reflexivity.
Qed.

(* ================================================================= *)
(** ** Which invites a peer drains in phase 3 *)

Module FixedPhase3.
Import Fixed FixedRegistry FixedRounds FixedMaintenance.

Lemma inbox_set_same sim k p :
  inbox (with_peers sim (dict_set (peers sim) k p)) k = pending_invites p.
Proof. unfold inbox. simpl. now rewrite dict_get_set_same. Qed.

Lemma inbox_set_other sim k p k' :
  k <> k' ->
  inbox (with_peers sim (dict_set (peers sim) k p)) k' = inbox sim k'.
Proof. intros H. unfold inbox. simpl. now rewrite dict_get_set_other. Qed.

(** One step of phase 3, for a registered key: the step logs the queue
    the peer held, leaves the peer with an empty queue, and adds to the
    queues of the others only invites of this peer for this round. *)
Lemma phase3_step_inboxes sim log g key sim' log' g' :
  phase3_step (sim, log, g) key = Ok (sim', log', g') ->
  registry_ok (peers sim) ->
  In key (dict_keys (peers sim)) ->
  log' = log ++ [(key, inbox sim key)] /\
  inbox sim' key = [] /\
  (forall k, k <> key ->
             exists extra,
               inbox sim' k = inbox sim k ++ extra /\
               Forall (sent_by key (round_number sim)) extra).
Proof.
  unfold phase3_step. intros H Hok Hkey.
  destruct (dict_get (peers sim) key) as [peer|] eqn:Hget;
    [|apply dict_get_None_keys in Hget; contradiction].
  assert (Hinbox : inbox sim key = pending_invites peer)
    by (unfold inbox; now rewrite Hget).
  destruct (process_invites peer (round_number sim)) as [peer1 sc] eqn:Hp.
  pose proof (FixedFacts.process_invites_spec peer (round_number sim)) as Hs.
  rewrite Hp in Hs. cbn [fst] in Hs. destruct Hs as (Hid & _ & Hq & Hkeys).
  destruct (Hok key peer Hget) as (Hk & Hself & Hsenders).
  assert (Hself1 : ~ In key (dict_keys (known_peers peer1))).
  { intros Hin. destruct (Hkeys key Hin) as [Hin'|[inv [Hinv Hs]]]; auto.
    rewrite Forall_forall in Hsenders. exact (Hsenders inv Hinv Hs). }
  set (sim1 := with_peers sim (dict_set (peers sim) key peer1)) in *.
  assert (Hround1 : round_number sim1 = round_number sim) by reflexivity.
  destruct (maintenance sim1 peer1 g) as [[[sim2 sel] g1]|] eqn:Hm;
    simpl in H; [|discriminate].
  assert (Hsim2 :
            forall k, exists extra,
              inbox sim2 k = inbox sim1 k ++ extra /\
              Forall (sent_by key (round_number sim)) extra /\
              (k = key -> extra = [])).
  { intros k. unfold maintenance in Hm.
    destruct (2 <=? len (get_connected_peers peer1)).
    - destruct (sample (get_connected_peers peer1) 2 g) as [[sel' g1']|]
        eqn:E; simpl in Hm; [|discriminate].
      injection Hm as <- <- <-.
      apply sample_inv in E. destruct E as (_ & _ & _ & Hin & _).
      destruct (fold_deliver_inbox (id peer1) k sel' sim1)
        as (extra & He & Hf & Hn).
      exists extra. rewrite Hid, Hk, Hround1 in Hf.
      repeat split; auto.
      intros ->. apply Hn. intros Hsel. apply Hself1.
      apply FixedFacts.get_peers_by_state_keys with (st := CONNECTED). auto.
    - injection Hm as <- <- <-. exists []. rewrite app_nil_r. auto. }
  assert (Hfinal : forall k, inbox sim' k = inbox sim2 k /\ log' =
                                log ++ [(key, pending_invites peer)]).
  { intros k. destruct (dict_get (peers sim2) key) as [peer2|] eqn:Hget2.
    - destruct (remove_excess_connections peer2 g1) as [[[peer3 rem] g2]|]
        eqn:Hr; simpl in H; [|discriminate].
      injection H as <- <- <-. split; auto.
      destruct (FixedFacts.remove_excess_connections_spec _ _ _ _ _ Hr)
        as (_ & _ & Hq3 & _).
      destruct (Z.eq_dec key k) as [<-|Hne].
      + rewrite inbox_set_same. unfold inbox. now rewrite Hget2.
      + now apply inbox_set_other.
    - injection H as <- <- <-. auto. }
  split; [rewrite Hinbox; apply (Hfinal key)|].
  split.
  - destruct (Hfinal key) as [-> _].
    destruct (Hsim2 key) as (extra & He & _ & Hn).
    rewrite He, (Hn eq_refl), app_nil_r.
    subst sim1. rewrite inbox_set_same. exact Hq.
  - intros k Hne. destruct (Hfinal k) as [-> _].
    destruct (Hsim2 k) as (extra & He & Hf & _).
    exists extra. split; auto.
    rewrite He. subst sim1. rewrite inbox_set_other by auto. reflexivity.
Qed.

Lemma sent_by_from a l r inv : In a l -> sent_by a r inv -> sent_from l r inv.
Proof. intros H [<- <-]. split; auto. Qed.

Lemma sent_from_incl l l' r inv :
  incl l l' -> sent_from l r inv -> sent_from l' r inv.
Proof. intros H [H1 H2]. split; auto. Qed.

(** The loop of phase 3 over the keys [l]. *)
Lemma phase3_loop_inboxes l :
  forall sim log g sim' log' g',
    foldM phase3_step l (sim, log, g) = Ok (sim', log', g') ->
    registry_ok (peers sim) ->
    NoDup l ->
    incl l (dict_keys (peers sim)) ->
    exists entries,
      log' = log ++ entries /\
      map fst entries = l /\
      (forall k, ~ In k l ->
                 exists extra,
                   inbox sim' k = inbox sim k ++ extra /\
                   Forall (sent_from l (round_number sim)) extra) /\
      (forall before b after,
          l = before ++ b :: after ->
          exists extra,
            In (b, inbox sim b ++ extra) entries /\
            Forall (sent_from before (round_number sim)) extra /\
            Forall (sent_from after (round_number sim)) (inbox sim' b)).
Proof.
  induction l as [|a l IH]; intros sim log g sim' log' g' H Hok Hnd Hincl.
  - simpl in H. injection H as <- <- <-. exists []. rewrite app_nil_r.
    repeat split; auto.
    + intros k _. exists []. rewrite app_nil_r. auto.
    + intros [|] ? ? Habs; discriminate.
  - cbn [foldM] in H.
    destruct (phase3_step (sim, log, g) a) as [[[sim1 log1] g1]|] eqn:Hstep;
      simpl in H; [|discriminate].
    destruct (phase3_step_ok _ _ _ _ _ _ _ Hstep Hok)
      as (Hok1 & _ & Hround & Hkeys).
    destruct (phase3_step_inboxes _ _ _ _ _ _ _ Hstep Hok
                (Hincl a (or_introl eq_refl)))
      as (Hlog1 & Ha1 & Hothers).
    inversion Hnd as [|? ? Hnotin Hnd']; subst.
    destruct (IH _ _ _ _ _ _ H Hok1 Hnd') as (entries & Hlog & Hfst & Hout & Hin).
    { rewrite Hkeys. intros x Hx. apply Hincl. now right. }
    rewrite Hround in Hout, Hin.
    exists ((a, inbox sim a) :: entries).
    split; [rewrite Hlog, <- app_assoc; reflexivity|].
    split; [simpl; now rewrite Hfst|].
    split.
    + intros k Hk.
      assert (Hka : k <> a) by (intros ->; apply Hk; now left).
      destruct (Hothers k Hka) as (e1 & He1 & Hf1).
      destruct (Hout k) as (e2 & He2 & Hf2);
        [intros Hkl; apply Hk; now right|].
      exists (e1 ++ e2). rewrite He2, He1, app_assoc. split; auto.
      apply Forall_app. split.
      * eapply Forall_impl; [|exact Hf1].
        intros inv. apply sent_by_from. now left.
      * eapply Forall_impl; [|exact Hf2].
        intros inv. apply sent_from_incl. intros x Hx. now right.
    + intros before b after Hsplit. destruct before as [|a' before].
      * simpl in Hsplit. injection Hsplit as <- <-.
        exists []. rewrite app_nil_r.
        split; [now left|]. split; [constructor|].
        destruct (Hout a Hnotin) as (e2 & He2 & Hf2).
        rewrite He2, Ha1. exact Hf2.
      * simpl in Hsplit. injection Hsplit as <- ->.
        destruct (Hin before b after eq_refl) as (e2 & Hentry & Hf2 & Hrest).
        assert (Hba : b <> a).
        { intros ->. apply Hnotin. apply in_or_app. right. now left. }
        destruct (Hothers b Hba) as (e1 & He1 & Hf1).
        exists (e1 ++ e2).
        split; [|split; auto].
        -- right. rewrite app_assoc, <- He1. exact Hentry.
        -- apply Forall_app. split.
           ++ eapply Forall_impl; [|exact Hf1].
              intros inv. apply sent_by_from. now left.
           ++ eapply Forall_impl; [|exact Hf2].
              intros inv. apply sent_from_incl. intros x Hx. now right.
Qed.

End FixedPhase3.

(* ================================================================= *)
(** ** The queue a peer drains in phase 3, exactly *)

Module FixedDrained.
Import Fixed FixedRegistry FixedRounds FixedMaintenance.

Lemma fixed_with_pending_same (p : Peer) :
  with_pending_invites p (pending_invites p) = p.
Proof. now destruct p. Qed.

Lemma received_nil s r k p : received s r k [] p = p.
Proof.
  unfold received. cbn [filter map]. rewrite app_nil_r.
  apply fixed_with_pending_same.
Qed.

Lemma fold_deliver_get s sel :
  forall sim k,
    dict_get (peers (fold_left (fun s0 t => deliver s0 s t) sel sim)) k
    = option_map (received s (round_number sim) k sel)
                 (dict_get (peers sim) k).
Proof.
  induction sel as [|t sel IH]; intros sim k; cbn [fold_left].
  - destruct (dict_get (peers sim) k) as [p|]; cbn [option_map];
      [now rewrite received_nil|reflexivity].
  - rewrite IH, deliver_round.
    destruct (Z.eq_dec t k) as [->|Hne].
    + destruct (dict_get (peers sim) k) as [p|] eqn:E.
      * rewrite (deliver_get_same _ _ _ _ E). cbn [option_map].
        unfold received, receive_invite. cbn [filter].
        rewrite Z.eqb_refl. cbn [map pending_invites with_pending_invites].
        rewrite <- app_assoc. reflexivity.
      * unfold deliver. rewrite E, E. reflexivity.
    + rewrite deliver_get_other by assumption.
      destruct (dict_get (peers sim) k) as [p|]; [|reflexivity].
      cbn [option_map]. unfold received. cbn [filter].
      destruct (k =? t) eqn:Ek;
        [apply Z.eqb_eq in Ek; congruence|reflexivity].
Qed.

(** One step of phase 3, for a registered key: what it logs, and what it
    sends to whom. *)
Lemma phase3_step_exact sim log g key sim' log' g' :
  phase3_step (sim, log, g) key = Ok (sim', log', g') ->
  registry_ok (peers sim) ->
  In key (dict_keys (peers sim)) ->
  exists peer s,
    dict_get (peers sim) key = Some peer /\
    log' = log ++ [(key, pending_invites peer)] /\
    inbox sim' key = [] /\
    (forall k, k <> key ->
               dict_get (peers sim') k
               = option_map (received key (round_number sim) k s)
                            (dict_get (peers sim) k)) /\
    ~ In key s /\
    (len (get_connected_peers (fst (process_invites peer (round_number sim))))
     < 2 -> s = []) /\
    (2 <= len (get_connected_peers
                 (fst (process_invites peer (round_number sim)))) ->
     exists g0 g1,
       sample (get_connected_peers
                 (fst (process_invites peer (round_number sim)))) 2 g0
       = Ok (s, g1)).
Proof.
  intros H Hok Hkey.
  destruct (FixedPhase3.phase3_step_inboxes _ _ _ _ _ _ _ H Hok Hkey)
    as (Hlog & Hempty & _).
  unfold phase3_step in H.
  destruct (dict_get (peers sim) key) as [peer|] eqn:Hget;
    [|apply dict_get_None_keys in Hget; contradiction].
  assert (Hinbox : inbox sim key = pending_invites peer)
    by (unfold inbox; now rewrite Hget).
  pose proof (FixedFacts.process_invites_spec peer (round_number sim)) as Hs.
  destruct (process_invites peer (round_number sim)) as [peer1 sc] eqn:Hp.
  cbn [fst] in *. destruct Hs as (Hid & _ & Hq & Hkeys).
  destruct (Hok key peer Hget) as (Hk & Hself & Hsenders).
  assert (Hself1 : ~ In key (dict_keys (known_peers peer1))).
  { intros Hin. destruct (Hkeys key Hin) as [Hin'|[inv [Hinv Hs]]]; auto.
    rewrite Forall_forall in Hsenders. exact (Hsenders inv Hinv Hs). }
  set (sim1 := with_peers sim (dict_set (peers sim) key peer1)) in *.
  destruct (maintenance sim1 peer1 g) as [[[sim2 sel] g1]|] eqn:Hm;
    cbn [bind] in H; [|discriminate].
  exists peer, sel. rewrite Hp. cbn [fst]. split; [reflexivity|].
  split; [now rewrite <- Hinbox|]. split; [exact Hempty|].
  assert (Hsim2 : forall k,
             k <> key ->
             dict_get (peers sim2) k
             = option_map (received key (round_number sim) k sel)
                          (dict_get (peers sim) k)).
  { intros k Hne. unfold maintenance in Hm.
    destruct (2 <=? len (get_connected_peers peer1)).
    - destruct (sample (get_connected_peers peer1) 2 g) as [[sel' g1']|];
        cbn [bind] in Hm; [|discriminate].
      injection Hm as <- <- <-.
      rewrite fold_deliver_get, Hid, Hk.
      subst sim1. cbn [peers with_peers round_number].
      now rewrite dict_get_set_other by congruence.
    - injection Hm as <- <- <-. subst sim1. cbn [peers with_peers].
      rewrite dict_get_set_other by congruence.
      destruct (dict_get (peers sim) k); cbn [option_map];
        [now rewrite received_nil|reflexivity]. }
  split.
  { intros k Hne. rewrite <- (Hsim2 k Hne).
    destruct (dict_get (peers sim2) key) as [peer2|].
    - destruct (remove_excess_connections peer2 g1) as [[[peer3 rem] g2]|];
        cbn [bind] in H; [|discriminate].
      injection H as <- <- <-. cbn [peers with_peers].
      now rewrite dict_get_set_other by congruence.
    - injection H as <- <- <-. reflexivity. }
  unfold maintenance in Hm.
  destruct (2 <=? len (get_connected_peers peer1)) eqn:E2.
  - apply Z.leb_le in E2.
    destruct (sample (get_connected_peers peer1) 2 g) as [[sel' g1']|] eqn:Es;
      cbn [bind] in Hm; [|discriminate].
    injection Hm as <- <- <-.
    split.
    { intros Hsel. apply Hself1.
      apply sample_inv in Es. destruct Es as (_ & _ & _ & Hin & _).
      apply FixedFacts.get_peers_by_state_keys with (st := CONNECTED).
      now apply Hin. }
    split; [intros; lia|]. intros _. eauto.
  - apply Z.leb_gt in E2. injection Hm as <- <- <-.
    split; [intros []|]. split; [intros _; reflexivity|intros; lia].
Qed.

Lemma maintenance_invites_cons r b a s sels :
  maintenance_invites r b ((a, s) :: sels)
  = map (fun _ => mkInvite a r) (filter (Z.eqb b) s)
    ++ maintenance_invites r b sels.
Proof. reflexivity. Qed.

Lemma maintenance_invites_sent_from r b sels :
  Forall (sent_from (map fst sels) r) (maintenance_invites r b sels).
Proof.
  induction sels as [|[a s] sels IH]; [constructor|].
  rewrite maintenance_invites_cons. apply Forall_app. split.
  - apply Forall_forall. intros inv Hin. apply in_map_iff in Hin.
    destruct Hin as [x [<- _]]. split; [now left|reflexivity].
  - eapply Forall_impl; [|exact IH].
    intros inv [H1 H2]. split; [now right|exact H2].
Qed.

(** The loop of phase 3 over the keys [l]. *)
Lemma phase3_loop_exact l :
  forall sim log g sim' log' g',
    foldM phase3_step l (sim, log, g) = Ok (sim', log', g') ->
    registry_ok (peers sim) ->
    NoDup l ->
    incl l (dict_keys (peers sim)) ->
    exists sels entries,
      log' = log ++ entries /\
      map fst sels = l /\
      (forall k, ~ In k l ->
                 dict_get (peers sim') k
                 = option_map (received_all (round_number sim) k sels)
                              (dict_get (peers sim) k)) /\
      (forall before b after,
          l = before ++ b :: after ->
          exists sb s sa pb,
            sels = sb ++ (b, s) :: sa /\
            map fst sb = before /\
            dict_get (peers sim) b = Some pb /\
            In (b, pending_invites pb
                   ++ maintenance_invites (round_number sim) b sb) entries /\
            inbox sim' b = maintenance_invites (round_number sim) b sa /\
            ~ In b s /\
            (len (get_connected_peers
                    (fst (process_invites
                            (received_all (round_number sim) b sb pb)
                            (round_number sim)))) < 2 -> s = []) /\
            (2 <= len (get_connected_peers
                         (fst (process_invites
                                 (received_all (round_number sim) b sb pb)
                                 (round_number sim)))) ->
             exists g0 g1,
               sample (get_connected_peers
                         (fst (process_invites
                                 (received_all (round_number sim) b sb pb)
                                 (round_number sim)))) 2 g0
               = Ok (s, g1))).
Proof.
  induction l as [|a l IH]; intros sim log g sim' log' g' H Hok Hnd Hincl.
  - cbn [foldM] in H. injection H as <- <- <-. exists [], [].
    rewrite app_nil_r. split; [reflexivity|]. split; [reflexivity|]. split.
    + intros k _. destruct (dict_get (peers sim) k) as [p|];
        cbn [option_map]; [|reflexivity].
      unfold received_all. cbn [maintenance_invites flat_map].
      now rewrite app_nil_r, fixed_with_pending_same.
    + intros [|] ? ? Habs; discriminate.
  - cbn [foldM] in H.
    destruct (phase3_step (sim, log, g) a) as [[[sim1 log1] g1]|] eqn:Hstep;
      cbn [bind] in H; [|discriminate].
    destruct (phase3_step_ok _ _ _ _ _ _ _ Hstep Hok)
      as (Hok1 & _ & Hround & Hkeys).
    destruct (phase3_step_exact _ _ _ _ _ _ _ Hstep Hok
                (Hincl a (or_introl eq_refl)))
      as (pa & sa0 & Hga & Hlog1 & Ha1 & Hothers & Hnself & Hfew & Hmany).
    inversion Hnd as [|? ? Hnotin Hnd']; subst.
    destruct (IH _ _ _ _ _ _ H Hok1 Hnd')
      as (sels & entries & Hlog & Hfst & Hout & Hin).
    { rewrite Hkeys. intros x Hx. apply Hincl. now right. }
    rewrite Hround in Hout, Hin.
    exists ((a, sa0) :: sels), ((a, pending_invites pa) :: entries).
    split; [rewrite Hlog, <- app_assoc; reflexivity|].
    split; [cbn [map fst]; now rewrite Hfst|].
    assert (Hcompose : forall ss k p,
               received_all (round_number sim) k ss
                 (received a (round_number sim) k sa0 p)
               = received_all (round_number sim) k ((a, sa0) :: ss) p).
    { intros ss k p. unfold received_all, received.
      rewrite maintenance_invites_cons.
      cbn [pending_invites with_pending_invites id max_connections
           known_peers].
      now rewrite <- app_assoc. }
    split.
    + intros k Hk.
      assert (Hka : k <> a) by (intros ->; apply Hk; now left).
      rewrite (Hout k) by (intros Hkl; apply Hk; now right).
      rewrite (Hothers k Hka).
      destruct (dict_get (peers sim) k) as [p|]; cbn [option_map];
        [now rewrite Hcompose|reflexivity].
    + intros before b after Hsplit. destruct before as [|a' before].
      * cbn [app] in Hsplit. injection Hsplit as <- <-.
        exists [], sa0, sels, pa.
        split; [reflexivity|]. split; [reflexivity|]. split; [exact Hga|].
        split.
        { left. cbn [maintenance_invites flat_map].
          now rewrite app_nil_r. }
        assert (Hsame : received_all (round_number sim) a [] pa = pa).
        { unfold received_all. cbn [maintenance_invites flat_map].
          now rewrite app_nil_r, fixed_with_pending_same. }
        rewrite Hsame.
        split; [|split; [exact Hnself|split; [exact Hfew|exact Hmany]]].
        unfold inbox in Ha1 |- *. rewrite (Hout a Hnotin).
        destruct (dict_get (peers sim1) a) as [p1|] eqn:E1.
        -- cbn [option_map]. unfold received_all.
           cbn [pending_invites with_pending_invites]. now rewrite Ha1.
        -- exfalso. apply dict_get_None_keys in E1. apply E1.
           rewrite Hkeys. apply Hincl. now left.
      * cbn [app] in Hsplit. injection Hsplit as <- ->.
        destruct (Hin before b after eq_refl)
          as (sb & s & sa & pb1 & Hsels & Hsb & Hgb & Hentry & Hend & Hns
              & Hf & Hm).
        assert (Hba : b <> a).
        { intros ->. apply Hnotin. apply in_or_app. right. now left. }
        rewrite (Hothers b Hba) in Hgb.
        destruct (dict_get (peers sim) b) as [pb|] eqn:Egb;
          cbn [option_map] in Hgb; [|discriminate].
        injection Hgb as <-.
        rewrite Hcompose in Hf, Hm.
        exists ((a, sa0) :: sb), s, sa, pb.
        split; [now rewrite Hsels|]. split; [cbn [map fst]; now rewrite Hsb|].
        split; [reflexivity|]. split.
        { right. rewrite maintenance_invites_cons, app_assoc.
          exact Hentry. }
        split; [exact Hend|]. split; [exact Hns|]. split; assumption.
Qed.

End FixedDrained.

Lemma registry_okb_sound ps :
  registry_okb ps = true -> FixedRegistry.registry_ok ps.
Proof.
  unfold registry_okb. rewrite forallb_forall. intros H k p Hget.
  apply dict_get_In in Hget. specialize (H _ Hget). simpl in H.
  unfold peer_okb in H.
  apply andb_prop in H. destruct H as [H H3].
  apply andb_prop in H. destruct H as [H1 H2].
  apply Z.eqb_eq in H1. apply negb_true_iff in H2. apply mem_false in H2.
  repeat split; auto.
  apply Forall_forall. intros inv Hinv.
  rewrite forallb_forall in H3. specialize (H3 _ Hinv).
  apply negb_true_iff in H3. now apply Z.eqb_neq in H3.
Qed.

(** C3 as stated fails: every queue is empty when phase 3 of round 7
    starts; peer 1 comes first and sends its maintenance invites; the
    call of [process_invites] of peer 2 in the same phase drains the
    invite peer 1 has just placed, and refreshes its record of peer 1 to
    round 7. *)
Lemma maintenance_invite_consumed_same_round_counterexample :
  FixedRegistry.inbox trio_sim 2 = [] /\
  Fixed.round_number trio_sim = 7 /\
  exists sim' log g' p2 info,
    Fixed.phase3 trio_sim zero_rng = Ok (sim', log, g') /\
    In (2, [mkInvite 1 7]) log /\
    dict_get (Fixed.peers sim') 2 = Some p2 /\
    dict_get (Fixed.known_peers p2) 1 = Some info /\
    Fixed.last_heard_from info = 7.
Proof.
  split; [reflexivity|]. split; [reflexivity|].
  eexists _, _, _, _, _. vm_compute.
  split; [reflexivity|]. split; [right; left; reflexivity|].
  split; [reflexivity|]. split; reflexivity.
Qed.

(** C3, amended.  In phase 3 of a round every registered peer has its
    queue drained exactly once, in the order of the registry.  Every
    peer selects the targets of its maintenance invites, [sels] in the
    order of the registry: none when fewer than two of its
    relationships are Connected once its queue is processed, and
    otherwise a sample of two of these, never itself.  The queue peer
    [b] drains is exactly the one it held when the phase started,
    followed by the maintenance invites of this round that the peers
    before [b] in that order sent to [b], sender by sender; the
    maintenance invites that the peers after [b] sent to [b] are not
    drained in this round: they are exactly what the queue of [b] holds
    when the phase ends. *)
Theorem maintenance_visible_to_later_peers_only :
  forall (sim : Fixed.NetworkSimulator) (g : Rng)
         (sim' : Fixed.NetworkSimulator) (log : list (Z * list Invite))
         (g' : Rng),
    FixedRegistry.registry_ok (Fixed.peers sim) ->
    dict_wf (Fixed.peers sim) ->
    Fixed.phase3 sim g = Ok (sim', log, g') ->
    map fst log = dict_keys (Fixed.peers sim) /\
    exists sels : list (Z * list Z),
      map fst sels = dict_keys (Fixed.peers sim) /\
      forall before b after,
        dict_keys (Fixed.peers sim) = before ++ b :: after ->
        exists sb s sa pb,
          let r := Fixed.round_number sim in
          let drained :=
            FixedRegistry.inbox sim b
            ++ FixedRegistry.maintenance_invites r b sb in
          let connected :=
            Fixed.get_connected_peers
              (fst (Fixed.process_invites
                      (Fixed.with_pending_invites pb drained) r)) in
          sels = sb ++ (b, s) :: sa /\
          map fst sb = before /\
          map fst sa = after /\
          dict_get (Fixed.peers sim) b = Some pb /\
          In (b, drained) log /\
          FixedRegistry.inbox sim' b
          = FixedRegistry.maintenance_invites r b sa /\
          Forall (FixedRegistry.sent_from before r)
                 (FixedRegistry.maintenance_invites r b sb) /\
          Forall (FixedRegistry.sent_from after r)
                 (FixedRegistry.inbox sim' b) /\
          ~ In b s /\
          (len connected < 2 -> s = []) /\
          (2 <= len connected ->
           len s = 2 /\
           (forall t, In t s -> In t connected) /\
           exists g0 g1, sample connected 2 g0 = Ok (s, g1)).
Proof.
  intros sim g sim' log g' Hok Hwf H.
  destruct (FixedDrained.phase3_loop_exact _ _ _ _ _ _ _ H Hok Hwf
              (incl_refl _))
    as (sels & entries & Hlog & Hfst & _ & Hin).
  cbn [app] in Hlog. subst log.
  assert (Hkeys : map fst entries = dict_keys (Fixed.peers sim)).
  { destruct (FixedPhase3.phase3_loop_inboxes _ _ _ _ _ _ _ H Hok Hwf
                (incl_refl _)) as (entries' & Hlog' & Hfst' & _).
    cbn [app] in Hlog'. now subst entries'. }
  split; [exact Hkeys|].
  exists sels. split; [exact Hfst|].
  intros before b after Hsplit.
  destruct (Hin before b after Hsplit)
    as (sb & s & sa & pb & Hsels & Hsb & Hgb & Hentry & Hend & Hns & Hf & Hm).
  exists sb, s, sa, pb. cbv zeta.
  assert (Hinbox : FixedRegistry.inbox sim b = Fixed.pending_invites pb)
    by (unfold FixedRegistry.inbox; now rewrite Hgb).
  assert (Hsa : map fst sa = after).
  { rewrite Hsels, map_app, Hsb, Hsplit in Hfst. cbn [map fst] in Hfst.
    apply app_inv_head in Hfst. now injection Hfst. }
  rewrite Hinbox.
  split; [exact Hsels|]. split; [exact Hsb|]. split; [exact Hsa|].
  split; [exact Hgb|]. split; [exact Hentry|]. split; [exact Hend|].
  split.
  { rewrite <- Hsb. apply FixedDrained.maintenance_invites_sent_from. }
  split.
  { rewrite Hend, <- Hsa.
    apply FixedDrained.maintenance_invites_sent_from. }
  split; [exact Hns|]. split; [exact Hf|].
  intros H2. destruct (Hm H2) as (g0 & g1 & Hs).
  pose proof (sample_inv _ _ _ _ _ Hs) as (_ & _ & Hlen & Hsub & _).
  split; [exact Hlen|]. split; [exact Hsub|]. eauto.
Qed.

Lemma maintenance_visible_to_later_peers_only_witness :
  In (2, [mkInvite 1 7]) (snd (fst trio_phase3)) /\
  exists s3,
    FixedRegistry.inbox (fst (fst trio_phase3)) 2
    = FixedRegistry.maintenance_invites 7 2 [(3, s3)].
Proof.
  destruct (maintenance_visible_to_later_peers_only
              trio_sim zero_rng (fst (fst trio_phase3))
              (snd (fst trio_phase3)) (snd trio_phase3))
    as (_ & sels & Hfst & Hsplit).
  - apply registry_okb_sound. vm_compute. reflexivity.
  - unfold dict_wf. simpl. repeat constructor; simpl; lia.
  - vm_compute. reflexivity.
  - destruct (Hsplit [] 1 [2; 3] eq_refl)
      as (sb1 & s1 & sa1 & p1 & Hs1 & Hb1 & _ & Hg1 & _ & _ & _ & _ & _ & _
          & Hm1).
    destruct sb1; [|discriminate]. cbn [app] in Hs1.
    vm_compute in Hg1. injection Hg1 as <-.
    match type of Hm1 with
    | ?A -> _ => assert (H2 : A) by (vm_compute; discriminate)
    end.
    destruct (Hm1 H2) as (_ & _ & g0 & g1 & Hsample).
    apply sample_inv in Hsample.
    destruct Hsample as (_ & _ & Hlen & Hsub & Hnd).
    assert (Hto2 : FixedRegistry.maintenance_invites 7 2 [(1, s1)]
                   = [mkInvite 1 7]).
    { assert (Hnd1 : NoDup s1).
      { apply Hnd. vm_compute. repeat constructor; simpl; intuition lia. }
      destruct s1 as [|x [|y [|z s1]]];
        try (exfalso; unfold len in Hlen; cbn [length] in Hlen; lia).
      assert (Hx : x = 2 \/ x = 3).
      { specialize (Hsub x (or_introl eq_refl)). vm_compute in Hsub.
        intuition. }
      assert (Hy : y = 2 \/ y = 3).
      { specialize (Hsub y (or_intror (or_introl eq_refl))).
        vm_compute in Hsub. intuition. }
      inversion Hnd1 as [|? ? Hnin _]; subst.
      destruct Hx as [-> | ->]; destruct Hy as [-> | ->];
        try reflexivity; exfalso; apply Hnin; now left. }
    destruct (Hsplit [1] 2 [3] eq_refl)
      as (sb2 & s2 & sa2 & p2 & Hs2 & Hb2 & Ha2 & _ & Hlog2 & Hend2 & _).
    rewrite Hs1 in Hs2.
    destruct sb2 as [|[k2 x2] [|? ?]]; try discriminate.
    cbn [map fst app] in Hb2, Hs2. injection Hb2 as ->.
    injection Hs2 as <- ->.
    destruct sa2 as [|[k5 x5] [|? ?]]; try discriminate.
    cbn [map fst] in Ha2. injection Ha2 as ->.
    split.
    + change (Fixed.round_number trio_sim) with 7 in Hlog2.
      rewrite Hto2 in Hlog2. exact Hlog2.
    + exists x5. exact Hend2.
Defined.

(* ================================================================= *)
(** ** Facts about eviction *)

Lemma len_nonneg {A : Type} (l : list A) : 0 <= len l.
Proof. unfold len. lia. Qed.

Lemma len_app {A : Type} (l1 l2 : list A) : len (l1 ++ l2) = len l1 + len l2.
Proof. unfold len. rewrite length_app. lia. Qed.

Lemma without_In l r x : In x (without l r) <-> In x l /\ ~ In x r.
Proof.
  unfold without. rewrite filter_In, negb_true_iff, mem_false. reflexivity.
Qed.

Lemma without_nil l : without l [] = l.
Proof.
  unfold without, mem. induction l as [|x l IH]; simpl; auto.
  f_equal. exact IH.
Qed.

Lemma without_NoDup l r : NoDup l -> NoDup (without l r).
Proof. apply NoDup_filter. Qed.

Lemma without_app l a b : without l (a ++ b) = without (without l a) b.
Proof.
  unfold without. induction l as [|x l IH]; simpl; auto.
  unfold mem in *. rewrite existsb_app.
  destruct (existsb (Z.eqb x) a); simpl; auto.
  destruct (existsb (Z.eqb x) b); simpl; auto. now rewrite IH.
Qed.

Lemma filter_partition_length {A : Type} (c : A -> bool) l :
  (length (filter c l) + length (filter (fun x => negb (c x)) l) = length l)%nat.
Proof.
  induction l as [|x l IH]; simpl; auto.
  destruct (c x); simpl; lia.
Qed.

(** Removing a duplicate-free sub-list shortens a duplicate-free list by
    the length of the sub-list. *)
Lemma without_len l r :
  NoDup l -> NoDup r -> incl r l -> len (without l r) = len l - len r.
Proof.
  intros Hl Hr Hincl.
  assert (Hp : Permutation (filter (fun x => mem x r) l) r).
  { apply NoDup_Permutation; auto using NoDup_filter.
    intros x. rewrite filter_In, mem_In. split; [tauto|]. auto. }
  apply Permutation_length in Hp.
  pose proof (filter_partition_length (fun x => mem x r) l) as Hsum.
  unfold without, len in *. lia.
Qed.

Section DiscardFacts.
Context {V : Type}.
Implicit Types (kp : dict V).

Lemma dict_discard_wf kp k : dict_wf kp -> dict_wf (dict_discard kp k).
Proof.
  intros H. unfold dict_wf. rewrite dict_discard_keys by assumption.
  unfold dict_wf in H. clear -H.
  induction (dict_keys kp) as [|x l IH]; simpl; [constructor|].
  inversion H as [|? ? Hn Hd]; subst.
  destruct (Z.eq_dec k x); auto.
  constructor; auto. intros Hin. apply in_remove in Hin. tauto.
Qed.

Lemma discard_all_wf kp l : dict_wf kp -> dict_wf (discard_all kp l).
Proof.
  revert kp. induction l as [|k l IH]; intros kp H; simpl; auto.
  apply IH. now apply dict_discard_wf.
Qed.

Lemma filter_discard (c : Z * V -> bool) kp k :
  dict_wf kp ->
  map fst (filter c (dict_discard kp k)) =
  filter (fun x => negb (x =? k)) (map fst (filter c kp)).
Proof.
  unfold dict_wf. induction kp as [|[k' v] kp IH]; simpl; auto.
  intros H. inversion H as [|? ? Hn Hd]; subst.
  destruct (k' =? k) eqn:E.
  - apply Z.eqb_eq in E. subst k'.
    assert (Hrest : map fst (filter c kp) =
                    filter (fun x => negb (x =? k)) (map fst (filter c kp))).
    { symmetry. apply forallb_filter_id. apply forallb_forall.
      intros x Hx. apply negb_true_iff. apply Z.eqb_neq. intros ->.
      apply Hn. apply in_map_iff in Hx. destruct Hx as [e [He Hin]].
      apply filter_In in Hin. apply in_map_iff. exists e. tauto. }
    destruct (c (k, v)); simpl; auto.
    now rewrite Z.eqb_refl.
  - simpl. destruct (c (k', v)); simpl; rewrite ?E; simpl;
      rewrite IH by assumption; reflexivity.
Qed.

Lemma filter_discard_all (c : Z * V -> bool) l :
  forall kp,
    dict_wf kp ->
    map fst (filter c (discard_all kp l)) =
    without (map fst (filter c kp)) l.
Proof.
  induction l as [|k l IH]; intros kp H; simpl.
  - now rewrite without_nil.
  - rewrite IH by now apply dict_discard_wf.
    rewrite filter_discard by assumption.
    change (k :: l) with ([k] ++ l). rewrite without_app. f_equal.
    unfold without, mem. simpl. apply filter_ext.
    intros x. now rewrite orb_false_r.
Qed.

(** A deletion loop over keys that are present, each listed once, does
    not raise. *)
Lemma foldM_dict_del_Ok kp l :
  dict_wf kp -> NoDup l -> incl l (dict_keys kp) ->
  foldM dict_del l kp = Ok (discard_all kp l).
Proof.
  unfold discard_all. revert kp.
  induction l as [|k l IH]; intros kp Hwf Hnd Hincl; simpl; auto.
  inversion Hnd as [|? ? Hn Hd]; subst.
  rewrite dict_del_present by (apply Hincl; now left). simpl.
  apply IH; auto using dict_discard_wf.
  intros x Hx. rewrite dict_discard_keys by assumption.
  apply in_in_remove; [intros ->; contradiction|].
  apply Hincl. now right.
Qed.

Lemma foldM_dict_del_discard kp kp' l :
  foldM dict_del l kp = Ok kp' -> kp' = discard_all kp l.
Proof.
  unfold discard_all. revert kp.
  induction l as [|k l IH]; intros kp; simpl.
  - congruence.
  - destruct (dict_del kp k) as [d|] eqn:E; simpl; [|discriminate].
    apply dict_del_discard in E. subst d. apply IH.
Qed.

End DiscardFacts.

Module EvictionFacts.
Import Fixed.

(** The Connected peers after the deletion loop. *)
Lemma connected_after_discard p l :
  dict_wf (known_peers p) ->
  get_connected_peers (with_known_peers p (discard_all (known_peers p) l)) =
  without (get_connected_peers p) l.
Proof.
  intros H. unfold get_connected_peers, get_peers_by_state. simpl.
  now apply filter_discard_all.
Qed.

Lemma fixed_connected_NoDup p :
  dict_wf (known_peers p) -> NoDup (get_connected_peers p).
Proof. apply FixedFacts.get_peers_by_state_NoDup. Qed.

Lemma delete_all_Ok (kp : dict PeerInfo) l :
  dict_wf kp -> NoDup l -> incl l (dict_keys kp) ->
  delete_all kp l = Ok (discard_all kp l).
Proof. apply foldM_dict_del_Ok. Qed.

(** The eviction step of the fixed peer. *)
Lemma fixed_remove_excess_count p g p' R g' :
  remove_excess_connections p g = Ok (p', R, g') ->
  dict_wf (known_peers p) ->
  len (get_connected_peers p') <= max_connections p.
Proof.
  unfold remove_excess_connections. intros H Hwf.
  pose proof (fixed_connected_NoDup p Hwf) as Hnd.
  destruct (len (get_connected_peers p) <=? max_connections p) eqn:E.
  { injection H as <- <- <-. now apply Z.leb_le. }
  apply Z.leb_gt in E.
  destruct (sample (get_connected_peers p) _ g) as [[R0 g0]|] eqn:Hs;
    simpl in H; [|discriminate].
  destruct (delete_all (known_peers p) R0) as [kp|] eqn:Hd; simpl in H;
    [|discriminate].
  injection H as <- <- <-.
  apply FixedFacts.delete_all_discard in Hd. subst kp.
  rewrite connected_after_discard by assumption.
  apply sample_inv in Hs. destruct Hs as (_ & _ & Hlen & Hin & Hnd').
  rewrite without_len; auto. lia.
Qed.

Lemma fixed_remove_excess_total p g :
  dict_wf (known_peers p) ->
  0 <= max_connections p ->
  exists p' R g', remove_excess_connections p g = Ok (p', R, g').
Proof.
  unfold remove_excess_connections. intros Hwf Hmax.
  pose proof (fixed_connected_NoDup p Hwf) as Hnd.
  destruct (len (get_connected_peers p) <=? max_connections p) eqn:E;
    [eauto|].
  apply Z.leb_gt in E.
  destruct (sample (get_connected_peers p)
              (len (get_connected_peers p) - max_connections p) g)
    as [[R g1]|] eqn:Hs;
    [|rewrite sample_Ok in Hs by lia; discriminate].
  apply sample_inv in Hs. destruct Hs as (_ & _ & Hlen & Hin & Hnd').
  simpl. rewrite delete_all_Ok; auto.
  - simpl. eauto.
  - intros x Hx.
    apply FixedFacts.get_peers_by_state_keys with (st := CONNECTED). auto.
Qed.

End EvictionFacts.

Lemma firstn_incl {A : Type} n (l : list A) x :
  In x (firstn n l) -> In x l.
Proof.
  intros H. rewrite <- (firstn_skipn n l). apply in_or_app. now left.
Qed.

Section SortedFacts.
Context {A : Type}.
Implicit Types (R : A -> A -> Prop) (l : list A).

Lemma StronglySorted_app R l1 l2 :
  StronglySorted R l1 -> StronglySorted R l2 ->
  (forall a b, In a l1 -> In b l2 -> R a b) ->
  StronglySorted R (l1 ++ l2).
Proof.
  induction l1 as [|x l1 IH]; simpl; intros H1 H2 H12; auto.
  inversion H1 as [|? ? Hs Hf]; subst. constructor.
  - apply IH; auto.
  - apply Forall_app. split; auto.
    apply Forall_forall. intros b Hb. apply H12; auto.
Qed.

Lemma StronglySorted_split R l1 l2 a b :
  StronglySorted R (l1 ++ l2) -> In a l1 -> In b l2 -> R a b.
Proof.
  induction l1 as [|x l1 IH]; simpl; intros H Ha Hb; [destruct Ha|].
  inversion H as [|? ? Hs Hf]; subst.
  destruct Ha as [->|Ha]; auto.
  rewrite Forall_forall in Hf. apply Hf. apply in_or_app. now right.
Qed.

Lemma StronglySorted_rev R l :
  StronglySorted R l -> StronglySorted (fun a b => R b a) (rev l).
Proof.
  induction 1 as [|x l Hs IH Hf]; simpl; [constructor|].
  apply StronglySorted_app; auto.
  - repeat constructor.
  - intros a b Ha [<-|[]]. rewrite Forall_forall in Hf.
    apply Hf. now apply in_rev.
Qed.

Lemma StronglySorted_firstn R n l :
  StronglySorted R l -> StronglySorted R (firstn n l).
Proof.
  intros H. rewrite <- (firstn_skipn n l) in H.
  revert H. generalize (firstn n l) as l1. clear.
  induction l1 as [|x l1 IH]; simpl; intros H; [constructor|].
  inversion H as [|? ? Hs Hf]; subst. constructor; auto.
  apply Forall_app in Hf. tauto.
Qed.

Lemma StronglySorted_weaken R (R' : A -> A -> Prop) l :
  (forall a b, R a b -> R' a b) ->
  StronglySorted R l -> StronglySorted R' l.
Proof.
  intros Himp. induction 1 as [|x l Hs IH Hf]; constructor; auto.
  eapply Forall_impl; [|exact Hf]. auto.
Qed.

End SortedFacts.

Section SortByFacts.
Variable f : Z -> Z.

Lemma insert_by_perm x l : Permutation (insert_by f x l) (x :: l).
Proof.
  induction l as [|y l IH]; simpl; auto.
  destruct (f x <=? f y); auto.
  eapply perm_trans; [apply perm_skip; exact IH | apply perm_swap].
Qed.

Lemma sort_by_perm l : Permutation (sort_by f l) l.
Proof.
  induction l as [|x l IH]; simpl; auto.
  eapply perm_trans; [apply insert_by_perm | now apply perm_skip].
Qed.

Lemma insert_by_sorted x l :
  StronglySorted (fun a b => f a <= f b) l ->
  StronglySorted (fun a b => f a <= f b) (insert_by f x l).
Proof.
  induction 1 as [|y l Hs IH Hf]; simpl.
  - repeat constructor.
  - destruct (f x <=? f y) eqn:E.
    + apply Z.leb_le in E. constructor; [constructor; auto|].
      constructor; auto.
      eapply Forall_impl; [|exact Hf]. simpl. intros; lia.
    + apply Z.leb_gt in E. constructor; auto.
      eapply Permutation_Forall;
        [apply Permutation_sym, insert_by_perm|].
      constructor; auto. lia.
Qed.

Lemma sort_by_sorted l :
  StronglySorted (fun a b => f a <= f b) (sort_by f l).
Proof.
  induction l as [|x l IH]; simpl; [constructor|].
  now apply insert_by_sorted.
Qed.

(** What [bucket_excess] takes from a bucket. *)
Lemma bucket_excess_firstn current target :
  exists n, bucket_excess f current target =
            firstn n (rev (sort_by f current)).
Proof.
  unfold bucket_excess. destruct (target <? len current).
  - eexists. reflexivity.
  - exists O. reflexivity.
Qed.

Lemma bucket_excess_incl current target x :
  In x (bucket_excess f current target) -> In x current.
Proof.
  destruct (bucket_excess_firstn current target) as [n ->].
  intros H. apply firstn_incl in H. apply in_rev in H.
  eapply Permutation_in; [apply sort_by_perm | exact H].
Qed.

Lemma rev_sort_NoDup current : NoDup current -> NoDup (rev (sort_by f current)).
Proof.
  intros H. eapply Permutation_NoDup; [|exact H].
  eapply perm_trans; [apply Permutation_sym, sort_by_perm|].
  apply Permutation_rev.
Qed.

Lemma firstn_NoDup {A : Type} n (l : list A) : NoDup l -> NoDup (firstn n l).
Proof.
  intros H. rewrite <- (firstn_skipn n l) in H.
  now apply NoDup_app_remove_r in H.
Qed.

Lemma bucket_excess_NoDup current target :
  NoDup current -> NoDup (bucket_excess f current target).
Proof.
  destruct (bucket_excess_firstn current target) as [n ->].
  intros H. apply firstn_NoDup. now apply rev_sort_NoDup.
Qed.

Lemma bucket_excess_descending current target :
  StronglySorted (fun e r => f r <= f e) (bucket_excess f current target).
Proof.
  destruct (bucket_excess_firstn current target) as [n ->].
  apply StronglySorted_firstn.
  apply (StronglySorted_rev (fun a b => f a <= f b)).
  apply sort_by_sorted.
Qed.

(** A peer left in the bucket is at least as close as every peer the
    bucket gives up. *)
Lemma bucket_excess_keeps_closest current target e r :
  In e (bucket_excess f current target) ->
  In r current ->
  ~ In r (bucket_excess f current target) ->
  f r <= f e.
Proof.
  destruct (bucket_excess_firstn current target) as [n ->].
  intros He Hr Hnot.
  assert (Hr' : In r (rev (sort_by f current))).
  { apply in_rev. rewrite rev_involutive.
    eapply Permutation_in; [apply Permutation_sym, sort_by_perm | exact Hr]. }
  rewrite <- (firstn_skipn n (rev (sort_by f current))) in Hr'.
  apply in_app_or in Hr'. destruct Hr' as [Hr'|Hr']; [contradiction|].
  eapply (StronglySorted_split (fun a b => f b <= f a)
            (firstn n (rev (sort_by f current)))
            (skipn n (rev (sort_by f current)))); eauto.
  rewrite firstn_skipn.
  apply (StronglySorted_rev (fun a b => f a <= f b)).
  apply sort_by_sorted.
Qed.

End SortByFacts.

(** Segments of a concatenation whose elements carry the key of their
    segment. *)
Section TaggedSegments.
Context {A K : Type}.
Variables (key : A -> K) (tag : Z -> K) (seg : A -> list Z).

Lemma flat_map_tagged_NoDup (l : list A) :
  (forall a x, In a l -> In x (seg a) -> tag x = key a) ->
  NoDup (map key l) ->
  (forall a, In a l -> NoDup (seg a)) ->
  NoDup (flat_map seg l).
Proof.
  induction l as [|a l IH]; simpl; intros Htag Hk Hseg; [constructor|].
  inversion Hk as [|? ? Hn Hd]; subst.
  apply NoDup_app; auto.
  - intros x Hx Hx'. apply in_flat_map in Hx'.
    destruct Hx' as [b [Hb Hxb]]. apply Hn.
    rewrite <- (Htag a x) by auto. rewrite (Htag b x) by auto.
    now apply in_map.
Qed.

Lemma flat_map_tagged_sorted (R : Z -> Z -> Prop) (l : list A) :
  (forall a x, In a l -> In x (seg a) -> tag x = key a) ->
  NoDup (map key l) ->
  (forall a, In a l -> StronglySorted R (seg a)) ->
  StronglySorted (fun e r => tag e = tag r -> R e r) (flat_map seg l).
Proof.
  induction l as [|a l IH]; simpl; intros Htag Hk Hseg; [constructor|].
  inversion Hk as [|? ? Hn Hd]; subst.
  apply StronglySorted_app; auto.
  - eapply StronglySorted_weaken; [|apply Hseg; now left]. auto.
  - intros x y Hx Hy Heq. exfalso. apply in_flat_map in Hy.
    destruct Hy as [b [Hb Hyb]]. apply Hn.
    rewrite <- (Htag a x) by auto. rewrite Heq, (Htag b y) by auto.
    now apply in_map.
Qed.

End TaggedSegments.

(** The residual random step of both bucketed policies never raises:
    it asks for at most what is left. *)
Lemma sample_min_Ok {A : Type} (l : list A) (x : Z) (g : Rng) :
  0 < x ->
  sample l (Z.min x (len l)) g =
  Ok (sample_draw (Z.to_nat (Z.min x (len l))) l g).
Proof.
  intros H. apply sample_Ok. pose proof (len_nonneg l). lia.
Qed.

Module PrefixFacts.
Import Fixed Prefix.

Lemma in_bucket_prefix p b x :
  in_bucket p b x = true -> prefix_len p x = b.
Proof.
  unfold in_bucket. intros H. apply andb_prop in H.
  destruct H as [_ H]. now apply Z.eqb_eq.
Qed.

Lemma prefix_bucket_removals_incl p td c x :
  In x (bucket_removals p td c) -> In x c.
Proof.
  unfold bucket_removals. intros H. apply in_flat_map in H.
  destruct H as [bt [_ H]]. apply bucket_excess_incl in H.
  apply filter_In in H. tauto.
Qed.

(** [optimize_connections_improved] never raises. *)
Lemma prefix_optimize_total p ap g :
  exists R g', optimize_connections_improved p ap g = Ok (R, g').
Proof.
  unfold optimize_connections_improved.
  destruct (len (get_connected_peers p) <=? max_connections p) eqn:E;
    [eauto|].
  apply Z.leb_gt in E.
  assert (Hfb : exists R g',
             sample (get_connected_peers p)
               (Z.min (len (get_connected_peers p) - max_connections p)
                      (len (get_connected_peers p))) g = Ok (R, g')).
  { rewrite sample_min_Ok by lia.
    destruct (sample_draw _ (get_connected_peers p) g). eauto. }
  destruct (calculate_routing_distribution p ap) as [[[|bt td] bk]|]; auto.
  set (L := bucket_removals p (bt :: td) (get_connected_peers p)).
  destruct (0 <? len (without (get_connected_peers p) L) - max_connections p)
    eqn:E2; [|eauto].
  apply Z.ltb_lt in E2. rewrite sample_min_Ok by lia.
  destruct (sample_draw _ (without (get_connected_peers p) L) g).
  simpl. eauto.
Qed.

(** After the removal of what [optimize_connections_improved] returns,
    at most [max_connections] Connected peers are left. *)
Lemma prefix_optimize_count p ap g R g' :
  optimize_connections_improved p ap g = Ok (R, g') ->
  dict_wf (known_peers p) ->
  0 <= max_connections p ->
  len (without (get_connected_peers p) R) <= max_connections p.
Proof.
  unfold optimize_connections_improved. intros H Hwf Hmax.
  pose proof (EvictionFacts.fixed_connected_NoDup p Hwf) as Hnd.
  set (c := get_connected_peers p) in *.
  destruct (len c <=? max_connections p) eqn:E.
  { injection H as <- <-. rewrite without_nil. now apply Z.leb_le. }
  apply Z.leb_gt in E.
  assert (Hfb : sample c (Z.min (len c - max_connections p) (len c)) g =
                Ok (R, g') -> len (without c R) <= max_connections p).
  { intros Hs. apply sample_inv in Hs.
    destruct Hs as (_ & _ & Hlen & Hin & Hnd').
    rewrite without_len; auto. lia. }
  destruct (calculate_routing_distribution p ap) as [[[|bt td] bk]|]; auto.
  set (L := bucket_removals p (bt :: td) c) in *.
  destruct (0 <? len (without c L) - max_connections p) eqn:E2.
  - apply Z.ltb_lt in E2.
    destruct (sample (without c L) _ g) as [[add g1]|] eqn:Hs; simpl in H;
      [|discriminate].
    injection H as <- <-. apply sample_inv in Hs.
    destruct Hs as (_ & _ & Hlen & Hin & Hnd').
    rewrite without_app. rewrite without_len; auto using without_NoDup.
    lia.
  - apply Z.ltb_ge in E2. injection H as <- <-. lia.
Qed.

(** Every peer the per-bucket loop evicts is at least as far as every
    peer of its bucket that stays Connected. *)
Lemma prefix_bucket_removals_keep_closest p td c e r b :
  In e (bucket_removals p td c) ->
  In r c ->
  ~ In r (bucket_removals p td c) ->
  in_bucket p b e = true ->
  in_bucket p b r = true ->
  get_distance_to_peer p r <= get_distance_to_peer p e.
Proof.
  unfold bucket_removals. intros He Hr HrL Hbe Hbr.
  apply in_flat_map in He. destruct He as [bt [Hbt He]].
  pose proof (bucket_excess_incl _ _ _ _ He) as Hin.
  apply filter_In in Hin. destruct Hin as [_ Hin].
  apply in_bucket_prefix in Hin. apply in_bucket_prefix in Hbe as Hpe.
  assert (Hb : fst bt = b) by congruence.
  eapply bucket_excess_keeps_closest; [exact He| |].
  - apply filter_In. rewrite Hb. auto.
  - intros Hr'. apply HrL. apply in_flat_map. exists bt. auto.
Qed.

Lemma prefix_optimize_keeps_closest p ap g R g' td bk e r b :
  optimize_connections_improved p ap g = Ok (R, g') ->
  calculate_routing_distribution p ap = Some (td, bk) ->
  In e R ->
  In e (bucket_removals p td (get_connected_peers p)) ->
  In r (without (get_connected_peers p) R) ->
  in_bucket p b e = true ->
  in_bucket p b r = true ->
  get_distance_to_peer p r <= get_distance_to_peer p e.
Proof.
  unfold optimize_connections_improved. intros H Hcalc HeR He Hr Hbe Hbr.
  rewrite Hcalc in H.
  set (c := get_connected_peers p) in *.
  apply without_In in Hr. destruct Hr as [Hrc HrR].
  eapply prefix_bucket_removals_keep_closest; eauto.
  intros HrL. apply HrR.
  destruct (len c <=? max_connections p).
  { injection H as <- <-. destruct HeR. }
  destruct td as [|bt td]; [destruct He|].
  set (L := bucket_removals p (bt :: td) c) in *.
  destruct (0 <? len (without c L) - max_connections p).
  - destruct (sample (without c L) _ g) as [[add g1]|]; simpl in H;
      [|discriminate].
    injection H as <- <-. apply in_or_app. now left.
  - injection H as <- <-. exact HrL.
Qed.

(** The whole step: the gate on the soft maximum, the choice of the
    peers to evict, and the deletion loop. *)
Lemma prefix_remove_excess_total p ap g :
  exists p' R g', remove_excess_connections p ap g = Ok (p', R, g').
Proof.
  unfold remove_excess_connections.
  destruct (len (get_connected_peers p) <=? soft_max_connections p) eqn:E;
    [eauto|].
  apply Z.leb_gt in E.
  assert (Hpos : 0 < len (get_connected_peers p) - max_connections p).
  { unfold soft_max_connections, connection_slack in E. lia. }
  destruct ap as [ap|].
  - destruct (prefix_optimize_total p ap g) as (R & g' & ->). simpl. eauto.
  - rewrite sample_min_Ok by lia.
    destruct (sample_draw _ (get_connected_peers p) g). simpl. eauto.
Qed.

Lemma prefix_remove_excess_count p ap g p' R g' :
  remove_excess_connections p ap g = Ok (p', R, g') ->
  dict_wf (known_peers p) ->
  0 <= max_connections p ->
  len (get_connected_peers p') <= soft_max_connections p /\
  (soft_max_connections p < len (get_connected_peers p) ->
   len (get_connected_peers p') <= max_connections p).
Proof.
  unfold remove_excess_connections. intros H Hwf Hmax.
  pose proof (EvictionFacts.fixed_connected_NoDup p Hwf) as Hnd.
  assert (Hsoft : max_connections p <= soft_max_connections p).
  { unfold soft_max_connections, connection_slack. lia. }
  destruct (len (get_connected_peers p) <=? soft_max_connections p) eqn:E.
  { injection H as <- <- <-. apply Z.leb_le in E. split; [exact E | lia]. }
  apply Z.leb_gt in E.
  assert (Hgoal : len (without (get_connected_peers p) R)
                  <= max_connections p ->
                  p' = with_known_peers p (discard_all (known_peers p) R) ->
                  len (get_connected_peers p') <= soft_max_connections p /\
                  (soft_max_connections p < len (get_connected_peers p) ->
                   len (get_connected_peers p') <= max_connections p)).
  { intros Hc ->. rewrite EvictionFacts.connected_after_discard by assumption.
    split; [lia | auto]. }
  destruct ap as [ap|].
  - destruct (optimize_connections_improved p ap g) as [[R0 g0]|] eqn:Ho;
      simpl in H; [|discriminate].
    injection H as <- <- <-. apply Hgoal; auto.
    eapply prefix_optimize_count; eauto.
  - destruct (sample (get_connected_peers p) _ g) as [[R0 g0]|] eqn:Hs;
      simpl in H; [|discriminate].
    injection H as <- <- <-. apply Hgoal; auto.
    apply sample_inv in Hs. destruct Hs as (_ & _ & Hlen & Hin & Hnd').
    rewrite without_len; auto. lia.
Qed.

End PrefixFacts.

Module StaticFacts.
Import Fixed Static StaticBuckets.

Lemma in_bucket_of p br i x :
  in_bucket p br i x = true <-> bucket_of p br x = Some i.
Proof.
  unfold in_bucket, bucket_of.
  destruct (bucket_index br (get_distance_to_peer p x)) as [j|].
  - rewrite Nat.eqb_eq. split; congruence.
  - split; discriminate.
Qed.

Lemma numbered_keys_NoDup (l : list Z) :
  forall s n,
    NoDup (map (fun it : nat * Z => Some (fst it)) (combine (seq s n) l)).
Proof.
  induction l as [|t l IH]; intros s [|n]; simpl; try constructor.
  - intros Hin. apply in_map_iff in Hin. destruct Hin as [[i t'] [Hi Hin]].
    apply in_combine_l in Hin. apply in_seq in Hin.
    simpl in Hi. injection Hi as ->. lia.
  - apply IH.
Qed.

Lemma segment_tag p br c it x :
  In x (segment p br c it) -> bucket_of p br x = Some (fst it).
Proof.
  unfold segment. intros H. apply bucket_excess_incl in H.
  apply filter_In in H. now apply in_bucket_of.
Qed.

Lemma static_bucket_removals_incl p bt br c x :
  In x (bucket_removals p bt br c) -> In x c.
Proof.
  unfold bucket_removals. intros H. apply in_flat_map in H.
  destruct H as [it [_ H]]. apply bucket_excess_incl in H.
  apply filter_In in H. tauto.
Qed.

Lemma bucket_removals_NoDup p bt br c :
  NoDup c -> NoDup (bucket_removals p bt br c).
Proof.
  intros Hc. unfold bucket_removals.
  apply (flat_map_tagged_NoDup (fun it : nat * Z => Some (fst it))
           (bucket_of p br) (segment p br c)).
  - intros it x _. apply segment_tag.
  - apply numbered_keys_NoDup.
  - intros it _. apply bucket_excess_NoDup. now apply NoDup_filter.
Qed.

Lemma bucket_removals_sorted p bt br c :
  StronglySorted
    (fun e r => bucket_of p br e = bucket_of p br r ->
                get_distance_to_peer p r <= get_distance_to_peer p e)
    (bucket_removals p bt br c).
Proof.
  unfold bucket_removals.
  apply (flat_map_tagged_sorted (fun it : nat * Z => Some (fst it))
           (bucket_of p br) (segment p br c)
           (fun e r => get_distance_to_peer p r <= get_distance_to_peer p e)).
  - intros it x _. apply segment_tag.
  - apply numbered_keys_NoDup.
  - intros it _. apply bucket_excess_descending.
Qed.

Lemma static_bucket_removals_keep_closest p bt br c e r i :
  In e (bucket_removals p bt br c) ->
  In r c ->
  ~ In r (bucket_removals p bt br c) ->
  in_bucket p br i e = true ->
  in_bucket p br i r = true ->
  get_distance_to_peer p r <= get_distance_to_peer p e.
Proof.
  unfold bucket_removals. intros He Hr HrL Hbe Hbr.
  apply in_flat_map in He. destruct He as [it [Hit He]].
  pose proof (segment_tag _ _ _ _ _ He) as Htag.
  apply in_bucket_of in Hbe. assert (Hi : fst it = i) by congruence.
  eapply bucket_excess_keeps_closest; [exact He| |].
  - apply filter_In. rewrite Hi. auto.
  - intros Hr'. apply HrL. apply in_flat_map. exists it. auto.
Qed.

Lemma calculate_None p ap :
  calculate_optimal_distribution p ap = None -> ap = [].
Proof.
  unfold calculate_optimal_distribution. destruct ap; [auto | discriminate].
Qed.

(** [optimize_connections] never raises. *)
Lemma static_optimize_total p ap g :
  exists R g', optimize_connections p ap g = Ok (R, g').
Proof.
  unfold optimize_connections.
  destruct (len ap <=? 1) eqn:E1; [eauto|]. apply Z.leb_gt in E1.
  destruct (len (get_connected_peers p) <=? max_connections p) eqn:E;
    [eauto|].
  apply Z.leb_gt in E.
  destruct (calculate_optimal_distribution p ap) as [[[bt bk] br]|] eqn:Hc.
  - set (L := bucket_removals p bt br (get_connected_peers p)).
    destruct (0 <? len (get_connected_peers p) - max_connections p - len L)
      eqn:E2; [|eauto].
    apply Z.ltb_lt in E2. rewrite sample_min_Ok by lia.
    destruct (sample_draw _ (without (get_connected_peers p) L) g).
    simpl. eauto.
  - apply calculate_None in Hc. subst ap. unfold len in E1. simpl in E1. lia.
Qed.

(** What [optimize_connections] returns when it gets past its gates. *)
Lemma optimize_shape p ap g R g' bt bk br :
  optimize_connections p ap g = Ok (R, g') ->
  calculate_optimal_distribution p ap = Some (bt, bk, br) ->
  1 < len ap ->
  max_connections p < len (get_connected_peers p) ->
  let c := get_connected_peers p in
  let L := bucket_removals p bt br c in
  let excess := len c - max_connections p in
  (0 < excess - len L /\
   exists add,
     sample (without c L) (Z.min (excess - len L) (len (without c L))) g =
       Ok (add, g') /\
     R = firstn (Z.to_nat excess) (L ++ add)) \/
  (excess - len L <= 0 /\ R = firstn (Z.to_nat excess) L).
Proof.
  unfold optimize_connections. intros H Hc H1 H2. rewrite Hc in H.
  destruct (len ap <=? 1) eqn:E1; [apply Z.leb_le in E1; lia|].
  destruct (len (get_connected_peers p) <=? max_connections p) eqn:E;
    [apply Z.leb_le in E; lia|].
  simpl.
  set (c := get_connected_peers p) in *.
  set (L := bucket_removals p bt br c) in *.
  destruct (0 <? len c - max_connections p - len L) eqn:E2.
  - apply Z.ltb_lt in E2. left. split; auto.
    destruct (sample (without c L) _ g) as [[add g1]|] eqn:Hs; simpl in H;
      [|discriminate].
    injection H as <- <-. exists add. auto.
  - apply Z.ltb_ge in E2. right. injection H as <- <-. auto.
Qed.

Lemma firstn_app_all {A : Type} (n : nat) (l1 l2 : list A) :
  (length l1 <= n)%nat -> firstn n (l1 ++ l2) = l1 ++ firstn (n - length l1) l2.
Proof.
  intros H. rewrite firstn_app. rewrite firstn_all2 by assumption.
  reflexivity.
Qed.

(** After the removal of what [optimize_connections] returns for at
    least two known peers, exactly [max_connections] Connected peers are
    left. *)
Lemma static_optimize_count p ap g R g' :
  optimize_connections p ap g = Ok (R, g') ->
  dict_wf (known_peers p) ->
  0 <= max_connections p ->
  1 < len ap ->
  max_connections p < len (get_connected_peers p) ->
  len (without (get_connected_peers p) R) = max_connections p.
Proof.
  intros H Hwf Hmax Hap Hover.
  pose proof (EvictionFacts.fixed_connected_NoDup p Hwf) as Hnd.
  destruct (calculate_optimal_distribution p ap) as [[[bt bk] br]|] eqn:Hc;
    [|apply calculate_None in Hc; subst ap; unfold len in Hap; simpl in Hap;
      lia].
  destruct (optimize_shape _ _ _ _ _ _ _ _ H Hc Hap Hover)
    as [[Hpos [add [Hs ->]]]|[Hneg ->]].
  - set (c := get_connected_peers p) in *.
    set (L := bucket_removals p bt br c) in *.
    assert (HL : NoDup L) by now apply bucket_removals_NoDup.
    assert (HLc : incl L c)
      by (intros x; apply static_bucket_removals_incl).
    pose proof (without_len c L Hnd HL HLc) as Hrem.
    apply sample_inv in Hs. destruct Hs as (_ & _ & Hlen & Hin & Hnd').
    rewrite firstn_all2
      by (rewrite length_app; unfold len in *; lia).
    rewrite without_app, without_len; auto using without_NoDup. lia.
  - set (c := get_connected_peers p) in *.
    set (L := bucket_removals p bt br c) in *.
    assert (HL : NoDup L) by now apply bucket_removals_NoDup.
    rewrite without_len; auto.
    + unfold len. rewrite length_firstn. unfold len in *. lia.
    + now apply firstn_NoDup.
    + intros x Hx. apply firstn_incl in Hx.
      now apply static_bucket_removals_incl in Hx.
Qed.

(** Every peer the per-bucket loop evicts is at least as far as every
    peer of its bucket that stays Connected, whether or not the cut at
    the excess shortens what the loop collected. *)
Lemma static_optimize_keeps_closest p ap g R g' bt bk br e r i :
  optimize_connections p ap g = Ok (R, g') ->
  calculate_optimal_distribution p ap = Some (bt, bk, br) ->
  1 < len ap ->
  max_connections p < len (get_connected_peers p) ->
  In e R ->
  In e (bucket_removals p bt br (get_connected_peers p)) ->
  In r (without (get_connected_peers p) R) ->
  in_bucket p br i e = true ->
  in_bucket p br i r = true ->
  get_distance_to_peer p r <= get_distance_to_peer p e.
Proof.
  intros H Hc Hap Hover HeR HeL Hr Hbe Hbr.
  apply without_In in Hr. destruct Hr as [Hrc HrR].
  destruct (optimize_shape _ _ _ _ _ _ _ _ H Hc Hap Hover)
    as [[Hpos [add [Hs ->]]]|[Hneg ->]].
  - eapply static_bucket_removals_keep_closest; eauto.
    intros HrL. apply HrR.
    rewrite firstn_app_all by (unfold len in *; lia).
    apply in_or_app. now left.
  - set (L := bucket_removals p bt br (get_connected_peers p)) in *.
    destruct (in_dec Z.eq_dec r L) as [HrL|HrL];
      [|eapply static_bucket_removals_keep_closest; eauto].
    set (m := Z.to_nat (len (get_connected_peers p) - max_connections p))
      in *.
    rewrite <- (firstn_skipn m L) in HrL.
    apply in_app_or in HrL. destruct HrL as [HrL|HrL]; [contradiction|].
    pose proof (bucket_removals_sorted p bt br (get_connected_peers p))
      as Hsorted.
    fold L in Hsorted. rewrite <- (firstn_skipn m L) in Hsorted.
    apply (StronglySorted_split _ _ _ e r Hsorted HeR HrL).
    apply in_bucket_of in Hbe, Hbr. congruence.
Qed.

Lemma static_remove_excess_total p ap g :
  exists p' R g', remove_excess_connections p ap g = Ok (p', R, g').
Proof.
  unfold remove_excess_connections.
  destruct (len (get_connected_peers p) <=? soft_max_connections p) eqn:E;
    [eauto|].
  apply Z.leb_gt in E.
  assert (Hpos : 0 < len (get_connected_peers p) - max_connections p).
  { unfold soft_max_connections, connection_slack in E. lia. }
  destruct ap as [ap|].
  - destruct (static_optimize_total p ap g) as (R & g' & ->). simpl. eauto.
  - rewrite sample_min_Ok by lia.
    destruct (sample_draw _ (get_connected_peers p) g). simpl. eauto.
Qed.

Lemma static_remove_excess_count p ap g p' R g' :
  remove_excess_connections p ap g = Ok (p', R, g') ->
  dict_wf (known_peers p) ->
  0 <= max_connections p ->
  (forall l, ap = Some l -> 1 < len l) ->
  len (get_connected_peers p') <= soft_max_connections p /\
  (soft_max_connections p < len (get_connected_peers p) ->
   len (get_connected_peers p') = max_connections p).
Proof.
  unfold remove_excess_connections. intros H Hwf Hmax Hap.
  pose proof (EvictionFacts.fixed_connected_NoDup p Hwf) as Hnd.
  assert (Hsoft : max_connections p + 2 <= soft_max_connections p).
  { unfold soft_max_connections, connection_slack. lia. }
  destruct (len (get_connected_peers p) <=? soft_max_connections p) eqn:E.
  { injection H as <- <- <-. apply Z.leb_le in E. split; [exact E | lia]. }
  apply Z.leb_gt in E.
  assert (Hgoal : len (without (get_connected_peers p) R)
                  = max_connections p ->
                  p' = with_known_peers p (discard_all (known_peers p) R) ->
                  len (get_connected_peers p') <= soft_max_connections p /\
                  (soft_max_connections p < len (get_connected_peers p) ->
                   len (get_connected_peers p') = max_connections p)).
  { intros Hc ->. rewrite EvictionFacts.connected_after_discard by assumption.
    split; [lia | auto]. }
  destruct ap as [ap|].
  - destruct (optimize_connections p ap g) as [[R0 g0]|] eqn:Ho;
      simpl in H; [|discriminate].
    injection H as <- <- <-. apply Hgoal; auto.
    eapply static_optimize_count; eauto. lia.
  - destruct (sample (get_connected_peers p) _ g) as [[R0 g0]|] eqn:Hs;
      simpl in H; [|discriminate].
    injection H as <- <- <-. apply Hgoal; auto.
    apply sample_inv in Hs. destruct Hs as (_ & _ & Hlen & Hin & Hnd').
    rewrite without_len; auto. lia.
Qed.

End StaticFacts.

Lemma without_disjoint l r :
  (forall x, In x r -> ~ In x l) -> without l r = l.
Proof.
  intros H. unfold without. apply forallb_filter_id. apply forallb_forall.
  intros x Hx. apply negb_true_iff. apply mem_false.
  intros Hr. exact (H x Hr Hx).
Qed.

Module GradientFacts.
Import Gradient GradientClasses.

Lemma wf_get_entry {V : Type} (d : dict V) k v :
  dict_wf d -> In (k, v) d -> dict_get d k = Some v.
Proof.
  unfold dict_wf. induction d as [|[k' v'] d IH]; simpl; [tauto|].
  intros Hwf Hin. inversion Hwf as [|? ? Hn Hd]; subst.
  destruct Hin as [Heq|Hin].
  - injection Heq as -> ->. now rewrite Z.eqb_refl.
  - destruct (k' =? k) eqn:E; auto.
    apply Z.eqb_eq in E. subst k'. exfalso. apply Hn.
    apply in_map_iff. exists (k, v). auto.
Qed.

Lemma connected_known p x :
  In x (get_connected_peers p) -> In x (dict_keys (known_peers p)).
Proof.
  unfold get_connected_peers, get_peers_by_state, dict_keys.
  rewrite !in_map_iff. intros [e [He Hin]]. apply filter_In in Hin.
  exists e. tauto.
Qed.

Lemma class_of_cls p x :
  In x (dict_keys (known_peers p)) -> class_of p x = Ok (cls p x).
Proof.
  unfold class_of, cls. intros H.
  destruct (dict_get (known_peers p) x) eqn:E; auto.
  apply dict_get_None_keys in E. contradiction.
Qed.

Lemma class_members_filter p c :
  dict_wf (known_peers p) ->
  class_members p c =
  filter (fun x => cls p x =? c) (get_connected_peers p).
Proof.
  intros Hwf. unfold class_members, get_connected_peers, get_peers_by_state.
  assert (H : forall l,
             incl l (known_peers p) ->
             map fst
               (filter (fun e => PeerState_eqb (state (snd e)) CONNECTED &&
                                 (distance_class (snd e) =? c)) l) =
             filter (fun x => cls p x =? c)
               (map fst
                  (filter (fun e => PeerState_eqb (state (snd e)) CONNECTED)
                          l))).
  { induction l as [|[k v] l IH]; intros Hl; simpl; auto.
    assert (Hcls : cls p k = distance_class v).
    { unfold cls. rewrite (wf_get_entry _ k v Hwf); auto.
      apply Hl. now left. }
    assert (Hl' : incl l (known_peers p))
      by (intros e He; apply Hl; now right).
    destruct (PeerState_eqb (state v) CONNECTED); simpl; auto.
    rewrite Hcls. destruct (distance_class v =? c); simpl;
      rewrite IH by assumption; reflexivity. }
  apply H. apply incl_refl.
Qed.

Lemma gradient_connected_NoDup p :
  dict_wf (known_peers p) -> NoDup (get_connected_peers p).
Proof. apply FixedFacts.NoDup_map_filter. Qed.

Lemma group_add_grouped p l d x :
  grouped p l d -> grouped p (l ++ [x]) (group_add d (cls p x) x).
Proof.
  intros [Hwf Hget]. unfold group_add. split.
  - destruct (dict_get d (cls p x)); now apply dict_set_wf.
  - intros c. rewrite filter_app. simpl.
    destruct (cls p x =? c) eqn:E.
    + apply Z.eqb_eq in E. subst c. specialize (Hget (cls p x)).
      destruct (dict_get d (cls p x)) as [g|];
        rewrite dict_get_set_same;
        destruct (filter (fun y => cls p y =? cls p x) l) as [|y g'];
        try discriminate.
      * injection Hget as ->. reflexivity.
      * reflexivity.
    + apply Z.eqb_neq in E. rewrite app_nil_r.
      destruct (dict_get d (cls p x));
        rewrite dict_get_set_other by assumption; apply Hget.
Qed.

Lemma class_groups_grouped p :
  forall l l0 d groups,
    incl l (dict_keys (known_peers p)) ->
    grouped p l0 d ->
    foldM (fun d0 peer_id =>
             c <- class_of p peer_id ;; Ok (group_add d0 c peer_id))
          l d = Ok groups ->
    grouped p (l0 ++ l) groups.
Proof.
  induction l as [|x l IH]; intros l0 d groups Hl Hd; simpl.
  - intros H. injection H as <-. now rewrite app_nil_r.
  - rewrite class_of_cls by (apply Hl; now left). simpl.
    intros H. change (x :: l) with ([x] ++ l). rewrite app_assoc.
    eapply IH; [|apply group_add_grouped; exact Hd|exact H].
    intros y Hy. apply Hl. now right.
Qed.

Lemma class_groups_Ok p :
  forall l d,
    incl l (dict_keys (known_peers p)) ->
    exists groups,
      foldM (fun d0 peer_id =>
               c <- class_of p peer_id ;; Ok (group_add d0 c peer_id))
            l d = Ok groups.
Proof.
  induction l as [|x l IH]; intros d Hl; simpl; [eauto|].
  rewrite class_of_cls by (apply Hl; now left). simpl.
  apply IH. intros y Hy. apply Hl. now right.
Qed.

Lemma grouped_key p l d c :
  grouped p l d ->
  In c (dict_keys d) ->
  dict_get d c = Some (filter (fun x => cls p x =? c) l) /\
  filter (fun x => cls p x =? c) l <> [].
Proof.
  intros [_ Hget] Hin. specialize (Hget c).
  destruct (filter (fun x => cls p x =? c) l) eqn:E.
  - apply dict_get_None_keys in Hget. contradiction.
  - split; [exact Hget | discriminate].
Qed.

Lemma grouped_not_key p l d c :
  grouped p l d ->
  ~ In c (dict_keys d) ->
  filter (fun x => cls p x =? c) l = [].
Proof.
  intros [_ Hget] Hin. specialize (Hget c).
  apply dict_get_None_keys in Hin. rewrite Hin in Hget.
  destruct (filter (fun x => cls p x =? c) l); [auto | discriminate].
Qed.

End GradientFacts.

Module GradientEviction.
Import Gradient GradientClasses GradientFacts.

Section Loop.
Variables (p : GradientPeer) (groups : dict (list Z)).
Let c := get_connected_peers p.
Let members (k : Z) : list Z := filter (fun x => cls p x =? k) c.
Hypothesis Hgroups : grouped p c groups.
Hypothesis Hc : NoDup c.

Lemma members_In k x : In x (members k) -> In x c /\ cls p x = k.
Proof.
  unfold members. rewrite filter_In, Z.eqb_eq. tauto.
Qed.

(** The loop over the classes [o]: it collects [ex - ex'] peers, each
    listed once, and when it ends with excess to spare every class it
    went through is within its budget. *)
Lemma evict_loop o :
  forall T ex g T' ex' g',
    foldM (evict_class p groups) o (T, ex, g) = Ok (T', ex', g') ->
    0 <= ex ->
    NoDup o ->
    incl o (dict_keys groups) ->
    exists added,
      T' = T ++ added /\
      0 <= ex' /\
      len added = ex - ex' /\
      NoDup added /\
      (forall x, In x added -> In x c /\ In (cls p x) o) /\
      (0 < ex' ->
       forall k, In k o -> len (without (members k) added) <= budget_for p k).
Proof.
  induction o as [|k o IH]; intros T ex g T' ex' g' H Hex Hnd Hincl.
  - simpl in H. injection H as <- <- <-. exists [].
    rewrite app_nil_r. split; [reflexivity|]. split; [lia|].
    split; [unfold len; simpl; lia|]. split; [constructor|].
    split; [intros x [] | intros _ k []].
  - inversion Hnd as [|? ? Hk Hnd']; subst.
    assert (Hincl' : incl o (dict_keys groups))
      by (intros x Hx; apply Hincl; now right).
    destruct (grouped_key p c groups k Hgroups (Hincl k (or_introl eq_refl)))
      as [Hget _].
    fold (members k) in Hget.
    cbn [foldM] in H. unfold evict_class at 1 in H.
    destruct (ex <=? 0) eqn:E0.
    + (* nothing is left to remove *)
      apply Z.leb_le in E0. simpl in H.
      destruct (IH _ _ _ _ _ _ H Hex Hnd' Hincl')
        as (added & HT & Hex' & Hlen & Hnda & Hin & Hfin).
      exists added. repeat split; auto.
      * apply Hin. assumption.
      * right. apply Hin. assumption.
      * intros Hpos. pose proof (len_nonneg added). lia.
    + apply Z.leb_gt in E0. rewrite Hget in H.
      destruct (budget_for p k <? len (members k)) eqn:Eb.
      * (* the class is over its budget *)
        apply Z.ltb_lt in Eb.
        destruct (sample (members k)
                    (Z.min (len (members k) - budget_for p k) ex) g)
          as [[chosen g1]|] eqn:Hs; simpl in H; [|discriminate].
        apply sample_inv in Hs.
        destruct Hs as (Hk0 & _ & Hlenc & Hinc & Hndc).
        specialize (Hndc (NoDup_filter _ Hc)).
        destruct (IH _ _ _ _ _ _ H ltac:(lia) Hnd' Hincl')
          as (added & HT & Hex' & Hlen & Hnda & Hin & Hfin).
        assert (Hdisj : forall x, In x added -> ~ In x (members k)).
        { intros x Hx Hm. apply members_In in Hm. destruct Hm as [_ Hm].
          destruct (Hin x Hx) as [_ Ho]. congruence. }
        exists (chosen ++ added).
        split; [rewrite HT, app_assoc; reflexivity|].
        split; [exact Hex'|].
        split; [rewrite len_app; lia|].
        split; [apply NoDup_app; auto;
                intros x Hx Hx'; exact (Hdisj x Hx' (Hinc x Hx))|].
        split.
        -- intros x Hx. apply in_app_or in Hx. destruct Hx as [Hx|Hx].
           ++ destruct (members_In k x (Hinc x Hx)) as [Hxc Hxk].
              split; auto. left. auto.
           ++ destruct (Hin x Hx). split; auto. now right.
        -- intros Hpos k' [<-|Hk'].
           ++ rewrite without_app.
              rewrite (without_disjoint (without (members k) chosen) added).
              ** rewrite without_len;
                   [|apply NoDup_filter; exact Hc | exact Hndc | exact Hinc].
                 pose proof (len_nonneg added). lia.
              ** intros x Hx Hw. apply without_In in Hw.
                 exact (Hdisj x Hx (proj1 Hw)).
           ++ rewrite without_app.
              rewrite (without_disjoint (members k') chosen); auto.
              intros x Hx Hm. apply members_In in Hm.
              destruct (members_In k x (Hinc x Hx)) as [_ Hxk].
              destruct Hm as [_ Hm]. congruence.
      * (* the class is within its budget *)
        apply Z.ltb_ge in Eb. simpl in H.
        destruct (IH _ _ _ _ _ _ H Hex Hnd' Hincl')
          as (added & HT & Hex' & Hlen & Hnda & Hin & Hfin).
        exists added. repeat split; auto.
        -- apply Hin. assumption.
        -- right. apply Hin. assumption.
        -- intros Hpos k' [<-|Hk']; auto.
           rewrite without_disjoint; auto.
           intros x Hx Hm. apply members_In in Hm. destruct Hm as [_ Hm].
           destruct (Hin x Hx) as [_ Ho]. congruence.
Qed.

End Loop.

(** The eviction step of the gradient peer: the Connected peers that
    are left, overall and class by class, and the two ways the step can
    end. *)
Lemma remove_excess_spec p g p' R g' :
  remove_excess_connections p g = Ok (p', R, g') ->
  dict_wf (known_peers p) ->
  get_connected_peers p' = without (get_connected_peers p) R /\
  (forall k, class_members p' k = without (class_members p k) R) /\
  len (get_connected_peers p') <= len (get_connected_peers p) /\
  (len (get_connected_peers p') <= max_connections p \/
   forall k, class_members p' k <> [] ->
             len (class_members p' k) <= budget_for p k).
Proof.
  unfold remove_excess_connections. intros H Hwf.
  pose proof (gradient_connected_NoDup p Hwf) as Hnd.
  set (c := get_connected_peers p) in *.
  destruct (len c <=? max_connections p) eqn:E.
  { injection H as <- <- <-. apply Z.leb_le in E.
    rewrite without_nil. split; [reflexivity|].
    split; [intros k; now rewrite without_nil|].
    split; [apply Z.le_refl | left; exact E]. }
  apply Z.leb_gt in E.
  destruct (class_groups p c) as [groups|] eqn:Hg; simpl in H; [|discriminate].
  assert (Hgroups : grouped p c groups).
  { apply (class_groups_grouped p c [] [] groups); auto.
    - intros x. apply connected_known.
    - split; [constructor | intros k; reflexivity]. }
  set (order := rev (sort_by (fun k => k) (dict_keys groups))) in *.
  assert (Hperm : Permutation order (dict_keys groups)).
  { subst order. eapply perm_trans; [apply Permutation_sym, Permutation_rev|].
    apply sort_by_perm. }
  destruct (foldM (evict_class p groups) order ([], len c - max_connections p, g))
    as [[[T ex'] g1]|] eqn:Hloop; simpl in H; [|discriminate].
  destruct (delete_all (known_peers p) T) as [kp|] eqn:Hd; simpl in H;
    [|discriminate].
  injection H as <- <- <-.
  apply foldM_dict_del_discard in Hd. subst kp.
  destruct (evict_loop p groups Hgroups Hnd order _ _ _ _ _ _ Hloop)
    as (added & HT & Hex' & Hlen & Hnda & Hin & Hfin).
  { lia. }
  { eapply Permutation_NoDup; [apply Permutation_sym; exact Hperm|].
    apply Hgroups. }
  { intros x Hx. eapply Permutation_in; eauto. }
  simpl in HT. subst added.
  assert (Hconn : get_connected_peers
                    (_update_distance_class_membership
                       (with_known_peers p (discard_all (known_peers p) T))) =
                  without c T).
  { unfold get_connected_peers, get_peers_by_state. simpl.
    now apply filter_discard_all. }
  assert (Hcls : forall k,
             class_members
               (_update_distance_class_membership
                  (with_known_peers p (discard_all (known_peers p) T))) k =
             without (class_members p k) T).
  { intros k. unfold class_members. simpl. now apply filter_discard_all. }
  rewrite Hconn. split; [reflexivity|]. split; [exact Hcls|].
  assert (HlenT : len (without c T) = len c - len T).
  { apply without_len; auto. intros x Hx. apply Hin. exact Hx. }
  split; [pose proof (len_nonneg T); lia|].
  destruct (Z.eq_dec ex' 0) as [->|Hne]; [left; lia|].
  right. intros k Hk. rewrite Hcls in *. subst c.
  rewrite class_members_filter in * by assumption.
  destruct (in_dec Z.eq_dec k order) as [Ho|Ho].
  - apply Hfin; [lia | exact Ho].
  - exfalso. apply Hk.
    rewrite (grouped_not_key p _ groups k Hgroups); [reflexivity|].
    intros Hkeys. apply Ho. eapply Permutation_in;
      [apply Permutation_sym; exact Hperm | exact Hkeys].
Qed.

End GradientEviction.

(* ================================================================= *)
(** ** Degenerate bucket computations *)

Lemma filter_only_self (self : Z) (l : list Z) :
  (forall x, In x l -> x = self) ->
  filter (fun pid => negb (pid =? self)) l = [].
Proof.
  induction l as [|x l IH]; intros H; simpl; auto.
  rewrite (H x (or_introl eq_refl)), Z.eqb_refl. simpl.
  apply IH. intros y Hy. apply H. now right.
Qed.

Module PrefixFallback.
Import Fixed Prefix.

Lemma prefix_calculate_only_self p ap :
  (forall x, In x ap -> x = id p) ->
  calculate_routing_distribution p ap = None.
Proof.
  intros H. unfold calculate_routing_distribution.
  destruct ap as [|a ap]; auto.
  now rewrite (filter_only_self (id p) (a :: ap) H).
Qed.

(** With nothing to bucket, the step removes a random sample of exactly
    the excess over [max_connections]. *)
Lemma prefix_remove_excess_fallback p ap g :
  dict_wf (known_peers p) ->
  0 <= max_connections p ->
  soft_max_connections p < len (get_connected_peers p) ->
  calculate_routing_distribution p ap = None ->
  exists R g',
    sample (get_connected_peers p)
           (len (get_connected_peers p) - max_connections p) g = Ok (R, g') /\
    remove_excess_connections p (Some ap) g =
      Ok (with_known_peers p (discard_all (known_peers p) R), R, g') /\
    len R = len (get_connected_peers p) - max_connections p /\
    len (get_connected_peers
           (with_known_peers p (discard_all (known_peers p) R))) =
      max_connections p.
Proof.
  intros Hwf Hmax Hsoft Hcalc.
  pose proof (EvictionFacts.fixed_connected_NoDup p Hwf) as Hnd.
  assert (Hover : max_connections p < len (get_connected_peers p)).
  { unfold soft_max_connections, connection_slack in Hsoft. lia. }
  destruct (sample (get_connected_peers p)
              (len (get_connected_peers p) - max_connections p) g)
    as [[R g']|] eqn:Hs; [|rewrite sample_Ok in Hs by lia; discriminate].
  exists R, g'. split; [reflexivity|].
  pose proof (sample_inv _ _ _ _ _ Hs) as (_ & _ & Hlen & Hin & Hnd').
  split; [|split; [exact Hlen|]].
  - unfold remove_excess_connections, optimize_connections_improved.
    rewrite Hcalc.
    destruct (len (get_connected_peers p) <=? soft_max_connections p) eqn:E1;
      [apply Z.leb_le in E1; lia|].
    destruct (len (get_connected_peers p) <=? max_connections p) eqn:E2;
      [apply Z.leb_le in E2; lia|].
    rewrite Z.min_l by lia. rewrite Hs. reflexivity.
  - rewrite EvictionFacts.connected_after_discard by assumption.
    rewrite without_len; auto. lia.
Qed.

End PrefixFallback.

Module StaticFallback.
Import Fixed Static StaticBuckets.

Lemma static_calculate_only_self p ap :
  ap <> [] ->
  (forall x, In x ap -> x = id p) ->
  calculate_optimal_distribution p ap = Some ([], [], []).
Proof.
  intros Hne H. unfold calculate_optimal_distribution.
  destruct ap as [|a ap]; [contradiction|].
  now rewrite (filter_only_self (id p) (a :: ap) H).
Qed.

(** At least two entries, none of them another peer: no bucket exists
    and the step removes a random sample of exactly the excess. *)
Lemma static_remove_excess_fallback p ap g :
  dict_wf (known_peers p) ->
  0 <= max_connections p ->
  soft_max_connections p < len (get_connected_peers p) ->
  1 < len ap ->
  (forall x, In x ap -> x = id p) ->
  exists R g',
    sample (get_connected_peers p)
           (len (get_connected_peers p) - max_connections p) g = Ok (R, g') /\
    remove_excess_connections p (Some ap) g =
      Ok (with_known_peers p (discard_all (known_peers p) R), R, g') /\
    len R = len (get_connected_peers p) - max_connections p /\
    len (get_connected_peers
           (with_known_peers p (discard_all (known_peers p) R))) =
      max_connections p.
Proof.
  intros Hwf Hmax Hsoft Hap Hself.
  pose proof (EvictionFacts.fixed_connected_NoDup p Hwf) as Hnd.
  assert (Hover : max_connections p < len (get_connected_peers p)).
  { unfold soft_max_connections, connection_slack in Hsoft. lia. }
  destruct (sample (get_connected_peers p)
              (len (get_connected_peers p) - max_connections p) g)
    as [[R g']|] eqn:Hs; [|rewrite sample_Ok in Hs by lia; discriminate].
  exists R, g'. split; [reflexivity|].
  pose proof (sample_inv _ _ _ _ _ Hs) as (_ & _ & Hlen & Hin & Hnd').
  split; [|split; [exact Hlen|]].
  - unfold remove_excess_connections, optimize_connections.
    rewrite static_calculate_only_self;
      [|intros ->; unfold len in Hap; simpl in Hap; lia | assumption].
    destruct (len (get_connected_peers p) <=? soft_max_connections p) eqn:E1;
      [apply Z.leb_le in E1; lia|].
    destruct (len ap <=? 1) eqn:E0; [apply Z.leb_le in E0; lia|].
    destruct (len (get_connected_peers p) <=? max_connections p) eqn:E2;
      [apply Z.leb_le in E2; lia|].
    unfold bucket_removals. cbn [length seq combine flat_map].
    change (len (@nil Z)) with 0. rewrite Z.sub_0_r.
    destruct (0 <? len (get_connected_peers p) - max_connections p) eqn:E3;
      [|apply Z.ltb_ge in E3; lia].
    rewrite without_nil, Z.min_l by lia. rewrite Hs. cbn [bind app].
    rewrite firstn_all2 by (unfold len in *; lia).
    reflexivity.
  - rewrite EvictionFacts.connected_after_discard by assumption.
    rewrite without_len; auto. lia.
Qed.

(** Fewer than two entries: the step evicts nobody. *)
Lemma remove_excess_short p ap g :
  len ap <= 1 ->
  exists p',
    remove_excess_connections p (Some ap) g = Ok (p', [], g) /\
    known_peers p' = known_peers p.
Proof.
  intros Hap. unfold remove_excess_connections, optimize_connections.
  destruct (len (get_connected_peers p) <=? soft_max_connections p);
    [eauto|].
  apply Z.leb_le in Hap. rewrite Hap. simpl. eauto.
Qed.

End StaticFallback.

Module GradientTotal.
Import Gradient GradientClasses GradientFacts GradientEviction.

Lemma budgets_loop_nonneg classes :
  forall remaining budgets,
    0 <= remaining ->
    (forall k b, dict_get budgets k = Some b -> 0 <= b) ->
    forall k b,
      dict_get (budgets_loop classes remaining budgets) k = Some b -> 0 <= b.
Proof.
  induction classes as [|c classes IH]; intros remaining budgets Hrem Hb;
    simpl; auto.
  set (allocation := if c =? 0 then Z.max 1 (remaining / 3)
                     else Z.max 1 (remaining / 2 ^ c)).
  assert (Hset : forall k b,
             dict_get (dict_set budgets c (Z.min allocation remaining)) k =
               Some b -> 0 <= b).
  { intros k b. destruct (Z.eq_dec c k) as [<-|Hne].
    - rewrite dict_get_set_same. intros H. injection H as <-.
      subst allocation. destruct (c =? 0); lia.
    - rewrite dict_get_set_other by assumption. apply Hb. }
  destruct (Z.max 0 (remaining - allocation) =? 0); auto.
  apply IH; auto. lia.
Qed.

Lemma budget_for_nonneg p k :
  0 <= max_connections p -> 0 <= budget_for p k.
Proof.
  intros H. unfold budget_for, distance_class_budgets,
              _calculate_distance_budgets.
  destruct (dict_get _ k) as [b|] eqn:E; [|lia].
  eapply budgets_loop_nonneg; [| |exact E]; [lia|].
  intros k' b' Hk. discriminate.
Qed.

Lemma evict_loop_total p groups o :
  grouped p (get_connected_peers p) groups ->
  0 <= max_connections p ->
  forall T ex g,
    0 <= ex ->
    incl o (dict_keys groups) ->
    exists r, foldM (evict_class p groups) o (T, ex, g) = Ok r.
Proof.
  intros Hgroups Hmax.
  induction o as [|k o IH]; intros T ex g Hex Hincl; simpl; [eauto|].
  assert (Hincl' : incl o (dict_keys groups))
    by (intros x Hx; apply Hincl; now right).
  destruct (grouped_key p _ groups k Hgroups (Hincl k (or_introl eq_refl)))
    as [Hget _].
  destruct (ex <=? 0) eqn:E0; simpl; [now apply IH|].
  apply Z.leb_gt in E0. rewrite Hget.
  set (members := filter (fun x => cls p x =? k) (get_connected_peers p)).
  pose proof (budget_for_nonneg p k Hmax) as Hb.
  destruct (budget_for p k <? len members) eqn:Eb; simpl; [|now apply IH].
  apply Z.ltb_lt in Eb. rewrite sample_Ok by lia.
  destruct (sample_draw _ members g) as [chosen g1]. simpl.
  apply IH; auto. lia.
Qed.

(** On a peer with one record per key and a non-negative bound, the
    eviction step of the gradient peer does not raise. *)
Lemma gradient_remove_excess_total p g :
  dict_wf (known_peers p) ->
  0 <= max_connections p ->
  exists p' R g', remove_excess_connections p g = Ok (p', R, g').
Proof.
  intros Hwf Hmax. unfold remove_excess_connections.
  pose proof (gradient_connected_NoDup p Hwf) as Hnd.
  destruct (len (get_connected_peers p) <=? max_connections p) eqn:E;
    [eauto|].
  apply Z.leb_gt in E.
  destruct (class_groups_Ok p (get_connected_peers p) [])
    as [groups Hg]; [intros x; apply connected_known|].
  unfold class_groups. rewrite Hg. simpl.
  assert (Hgroups : grouped p (get_connected_peers p) groups).
  { apply (class_groups_grouped p (get_connected_peers p) [] [] groups);
      auto.
    - intros x. apply connected_known.
    - split; [constructor | intros k; reflexivity]. }
  set (order := rev (sort_by (fun k => k) (dict_keys groups))).
  assert (Hperm : Permutation order (dict_keys groups)).
  { subst order. eapply perm_trans; [apply Permutation_sym, Permutation_rev|].
    apply sort_by_perm. }
  assert (Hincl : incl order (dict_keys groups))
    by (intros x Hx; eapply Permutation_in; eauto).
  destruct (evict_loop_total p groups order Hgroups Hmax []
              (len (get_connected_peers p) - max_connections p) g
              ltac:(lia) Hincl) as [[[T ex'] g1] Hloop].
  rewrite Hloop. simpl.
  destruct (evict_loop p groups Hgroups Hnd order _ _ _ _ _ _ Hloop)
    as (added & HT & _ & _ & Hnda & Hin & _); auto; [lia| |].
  { eapply Permutation_NoDup; [apply Permutation_sym; exact Hperm|].
    apply Hgroups. }
  simpl in HT. subst added.
  unfold delete_all. rewrite foldM_dict_del_Ok; auto.
  - simpl. eauto.
  - intros x Hx. apply connected_known. now apply Hin.
Qed.

End GradientTotal.

(* ================================================================= *)
(** ** The degree bound at the end of a round of the fixed simulator *)

Module FixedDegree.
Import Fixed FixedRegistry FixedRounds.

Lemma records_wf_set ps k p :
  records_wf ps -> dict_wf (known_peers p) -> records_wf (dict_set ps k p).
Proof.
  intros Hps Hp k' p'. destruct (Z.eq_dec k k') as [<-|Hne].
  - rewrite dict_get_set_same. intros H. injection H as <-. exact Hp.
  - rewrite dict_get_set_other by assumption. apply Hps.
Qed.

Lemma set_peer_state_wf p d st r :
  dict_wf (known_peers p) -> dict_wf (known_peers (set_peer_state p d st r)).
Proof.
  unfold set_peer_state. intros H.
  destruct (dict_get (known_peers p) d); simpl; now apply dict_set_wf.
Qed.

Lemma update_last_heard_from_wf p d r :
  dict_wf (known_peers p) ->
  dict_wf (known_peers (update_last_heard_from p d r)).
Proof.
  unfold update_last_heard_from. intros H.
  destruct (dict_get (known_peers p) d); simpl; auto.
  now apply dict_set_wf.
Qed.

Lemma add_peer_wf p d st lh :
  dict_wf (known_peers p) -> dict_wf (known_peers (add_peer p d st lh)).
Proof. intros H. unfold add_peer. simpl. now apply dict_set_wf. Qed.

Lemma handle_discovery_wf sim peer d peer' sent :
  handle_discovery sim peer d = (peer', sent) ->
  dict_wf (known_peers peer) -> dict_wf (known_peers peer').
Proof.
  unfold handle_discovery. intros H Hwf. destruct d as [d|].
  - destruct (truthy (Some d) && negb (d =? id peer) &&
              dict_mem (peers sim) d).
    + destruct (get_peer_state peer d) as [[]|]; injection H as <- <-;
        auto using set_peer_state_wf, update_last_heard_from_wf.
    + injection H as <- <-. exact Hwf.
  - injection H as <- <-. exact Hwf.
Qed.

Lemma process_invites_wf p r :
  dict_wf (known_peers p) ->
  dict_wf (known_peers (fst (process_invites p r))).
Proof.
  intros Hwf. rewrite FixedInvites.fixed_process_invites_fst. simpl.
  apply (fold_left_invariant
           (fun acc : Peer * list (Z * PeerState) =>
              dict_wf (known_peers (fst acc)))); auto.
  intros [q sc] inv Hq _. unfold process_invite. simpl in Hq.
  destruct (get_peer_state q (sender_id inv)) as [[]|]; simpl;
    auto using set_peer_state_wf, update_last_heard_from_wf.
Qed.

Lemma remove_excess_wf p g p' R g' :
  remove_excess_connections p g = Ok (p', R, g') ->
  dict_wf (known_peers p) -> dict_wf (known_peers p').
Proof.
  intros H Hwf.
  destruct (FixedFacts.remove_excess_connections_spec _ _ _ _ _ H)
    as (_ & _ & _ & -> & _).
  now apply discard_all_wf.
Qed.

Lemma deliver_record sim s t k :
  record (deliver sim s t) k = record sim k.
Proof.
  unfold record. destruct (Z.eq_dec t k) as [<-|Hne].
  - destruct (dict_get (peers sim) t) as [tp|] eqn:E.
    + rewrite (deliver_get_same _ _ _ _ E). reflexivity.
    + unfold deliver. rewrite E. rewrite E. reflexivity.
  - now rewrite deliver_get_other.
Qed.

Lemma record_wf sim sim' :
  (forall k, record sim' k = record sim k) ->
  records_wf (peers sim) -> records_wf (peers sim').
Proof.
  intros Hrec Hwf k p' Hget. specialize (Hrec k). unfold record in Hrec.
  rewrite Hget in Hrec.
  destruct (dict_get (peers sim) k) as [p|] eqn:E; [|discriminate].
  injection Hrec as -> _. eapply Hwf; eauto.
Qed.

Lemma set_record_other sim key p k :
  key <> k ->
  record (with_peers sim (dict_set (peers sim) key p)) k = record sim k.
Proof.
  intros H. unfold record. simpl. now rewrite dict_get_set_other.
Qed.

Lemma set_record_same sim key p :
  record (with_peers sim (dict_set (peers sim) key p)) key =
  Some (known_peers p, max_connections p).
Proof. unfold record. simpl. now rewrite dict_get_set_same. Qed.

Lemma maintenance_record sim peer g sim' selected g' k :
  maintenance sim peer g = Ok (sim', selected, g') ->
  record sim' k = record sim k.
Proof.
  unfold maintenance. destruct (2 <=? len (get_connected_peers peer)).
  - destruct (sample (get_connected_peers peer) 2 g) as [[sel g1]|];
      simpl; [|discriminate].
    intros H. injection H as <- <- <-.
    apply (fold_left_invariant (fun s => record s k = record sim k)); auto.
    intros s t Hs _. now rewrite deliver_record.
  - intros H. injection H as <- <- <-. reflexivity.
Qed.

Lemma phase1_step_wf sim invites g key sim' invites' g' :
  phase1_step (sim, invites, g) key = Ok (sim', invites', g') ->
  records_wf (peers sim) -> records_wf (peers sim').
Proof.
  unfold phase1_step. intros H Hwf.
  destruct (dict_get (peers sim) key) as [peer|] eqn:Hget.
  - destruct (simulate_mapping_request sim peer g) as [[d g1]|];
      simpl in H; [|discriminate].
    destruct (handle_discovery sim peer d) as [peer' sent] eqn:Hd.
    injection H as <- <- <-. simpl.
    apply records_wf_set; auto.
    eapply handle_discovery_wf; eauto.
  - injection H as <- <- <-. exact Hwf.
Qed.

Lemma phase1_wf sim g sim' invites g' :
  phase1 sim g = Ok (sim', invites, g') ->
  records_wf (peers sim) -> records_wf (peers sim').
Proof.
  unfold phase1. intros H Hwf.
  pose (P := fun acc : NetworkSimulator * list (Z * Z) * Rng =>
               records_wf (peers (fst (fst acc)))).
  change (P (sim', invites, g')).
  eapply (foldM_invariant P phase1_step); [| |exact H]; [|exact Hwf].
  intros [[s i] g0] x [[s' i'] g0'] Hs _ Hstep.
  eapply phase1_step_wf; eauto.
Qed.

Lemma phase2_wf sim invites :
  records_wf (peers sim) -> records_wf (peers (phase2 sim invites)).
Proof.
  intros Hwf. unfold phase2.
  apply (fold_left_invariant (fun s => records_wf (peers s))); auto.
  intros s [a b] Hs _. simpl. eapply record_wf; [|exact Hs].
  intros k. apply deliver_record.
Qed.

(** One step of phase 3: the peer of the step ends within its bound,
    the records and bounds of the others are untouched. *)
Lemma phase3_step_bound sim log g key sim' log' g' :
  phase3_step (sim, log, g) key = Ok (sim', log', g') ->
  records_wf (peers sim) ->
  In key (dict_keys (peers sim)) ->
  records_wf (peers sim') /\
  (exists p', dict_get (peers sim') key = Some p' /\ within_bound p') /\
  (forall k, k <> key -> record sim' k = record sim k).
Proof.
  unfold phase3_step. intros H Hwf Hkey.
  destruct (dict_get (peers sim) key) as [peer|] eqn:Hget;
    [|apply dict_get_None_keys in Hget; contradiction].
  destruct (process_invites peer (round_number sim)) as [peer1 sc] eqn:Hp.
  pose proof (process_invites_wf peer (round_number sim) (Hwf _ _ Hget))
    as Hwf1.
  rewrite Hp in Hwf1. cbn [fst] in Hwf1.
  set (sim1 := with_peers sim (dict_set (peers sim) key peer1)) in *.
  destruct (maintenance sim1 peer1 g) as [[[sim2 sel] g1]|] eqn:Hm;
    simpl in H; [|discriminate].
  pose proof (fun k => maintenance_record _ _ _ _ _ _ k Hm) as Hrec2.
  assert (Hkey2 : record sim2 key =
                  Some (known_peers peer1, max_connections peer1)).
  { rewrite Hrec2. apply set_record_same. }
  unfold record in Hkey2.
  destruct (dict_get (peers sim2) key) as [peer2|] eqn:Hget2;
    [|discriminate].
  injection Hkey2 as Hkp2 Hmax2.
  destruct (remove_excess_connections peer2 g1) as [[[peer3 rem] g2]|]
    eqn:Hr; simpl in H; [|discriminate].
  injection H as <- <- <-.
  assert (Hwf2 : dict_wf (known_peers peer2)) by (now rewrite Hkp2).
  assert (Hothers : forall k, k <> key ->
             record (with_peers sim2 (dict_set (peers sim2) key peer3)) k =
             record sim k).
  { intros k Hne. rewrite set_record_other by auto. rewrite Hrec2.
    subst sim1. now apply set_record_other. }
  split; [|split].
  - intros k p' Hk. simpl in Hk. destruct (Z.eq_dec key k) as [<-|Hne].
    + rewrite dict_get_set_same in Hk. injection Hk as <-.
      eapply remove_excess_wf; eauto.
    + specialize (Hothers k ltac:(auto)). unfold record in Hothers.
      simpl in Hothers. rewrite Hk in Hothers.
      destruct (dict_get (peers sim) k) as [p|] eqn:E; [|discriminate].
      injection Hothers as -> _. eapply Hwf; eauto.
  - exists peer3. simpl. rewrite dict_get_set_same. split; auto.
    unfold within_bound.
    destruct (FixedFacts.remove_excess_connections_spec _ _ _ _ _ Hr)
      as (_ & -> & _).
    eapply EvictionFacts.fixed_remove_excess_count; eauto.
  - exact Hothers.
Qed.

Lemma record_within_bound sim sim' k p p' :
  record sim' k = record sim k ->
  dict_get (peers sim) k = Some p ->
  dict_get (peers sim') k = Some p' ->
  within_bound p -> within_bound p'.
Proof.
  unfold record, within_bound, get_connected_peers, get_peers_by_state.
  intros Hrec Hp Hp'. rewrite Hp, Hp' in Hrec.
  injection Hrec as -> ->. auto.
Qed.

(** The loop of phase 3 over the keys [l], each listed once: the peers
    of [l] end within their bound. *)
Lemma phase3_loop_bound l :
  forall sim log g sim' log' g',
    foldM phase3_step l (sim, log, g) = Ok (sim', log', g') ->
    registry_ok (peers sim) ->
    records_wf (peers sim) ->
    NoDup l ->
    incl l (dict_keys (peers sim)) ->
    records_wf (peers sim') /\
    (forall k, In k l ->
               exists p', dict_get (peers sim') k = Some p' /\
                          within_bound p') /\
    (forall k, ~ In k l -> record sim' k = record sim k).
Proof.
  induction l as [|a l IH]; intros sim log g sim' log' g' H Hok Hwf Hnd Hincl.
  - simpl in H. injection H as <- <- <-.
    split; [exact Hwf|]. split; [intros k []|reflexivity].
  - cbn [foldM] in H.
    destruct (phase3_step (sim, log, g) a) as [[[sim1 log1] g1]|] eqn:Hstep;
      simpl in H; [|discriminate].
    destruct (phase3_step_ok _ _ _ _ _ _ _ Hstep Hok)
      as (Hok1 & _ & _ & Hkeys).
    destruct (phase3_step_bound _ _ _ _ _ _ _ Hstep Hwf
                (Hincl a (or_introl eq_refl)))
      as (Hwf1 & (pa & Hpa & Hbound) & Hothers).
    inversion Hnd as [|? ? Hnotin Hnd']; subst.
    destruct (IH _ _ _ _ _ _ H Hok1 Hwf1 Hnd') as (Hwf' & Hin & Hout).
    { rewrite Hkeys. intros x Hx. apply Hincl. now right. }
    split; [exact Hwf'|]. split.
    + intros k [<-|Hk]; [|auto].
      pose proof (Hout a Hnotin) as Hrec.
      assert (Hget : exists p', dict_get (peers sim') a = Some p').
      { unfold record in Hrec. rewrite Hpa in Hrec.
        destruct (dict_get (peers sim') a); [eauto | discriminate]. }
      destruct Hget as [p' Hp']. exists p'. split; auto.
      eapply record_within_bound; eauto.
    + intros k Hk. rewrite Hout by (intros Hkl; apply Hk; now right).
      apply Hothers. intros ->. apply Hk. now left.
Qed.

(** A round started with one entry per key in the registry and in the
    records of every peer leaves every peer within its bound. *)
Lemma simulate_round_bound sim g sim' g' :
  simulate_round sim g = Ok (sim', g') ->
  dict_wf (peers sim) ->
  registry_ok (peers sim) ->
  records_wf (peers sim) ->
  dict_wf (peers sim') /\
  records_wf (peers sim') /\
  (forall k p, dict_get (peers sim') k = Some p -> within_bound p).
Proof.
  unfold simulate_round. intros H Hkeys Hok Hwf.
  destruct (phase1 sim g) as [[[sim1 invites] g1]|] eqn:H1; simpl in H;
    [|discriminate].
  destruct (phase1_ok _ _ _ _ _ H1 Hok) as (Hok1 & Hinv & _ & _ & Hk1).
  pose proof (phase1_wf _ _ _ _ _ H1 Hwf) as Hwf1.
  destruct (phase2_ok sim1 invites Hok1 Hinv) as (Hok2 & _ & _ & Hk2).
  pose proof (phase2_wf sim1 invites Hwf1) as Hwf2.
  destruct (phase3 (phase2 sim1 invites) g1) as [[[sim3 log] g2]|] eqn:H3;
    simpl in H; [|discriminate].
  injection H as <- <-. simpl.
  destruct (phase3_ok _ _ _ _ _ H3 Hok2) as (_ & _ & _ & Hk3).
  assert (Hnd : NoDup (dict_keys (peers (phase2 sim1 invites))))
    by (rewrite Hk2, Hk1; exact Hkeys).
  destruct (phase3_loop_bound _ _ _ _ _ _ _ H3 Hok2 Hwf2 Hnd (incl_refl _))
    as (Hwf3 & Hin & _).
  split; [unfold dict_wf; rewrite Hk3; exact Hnd|].
  split; [exact Hwf3|].
  intros k p Hget.
  destruct (Hin k) as (p' & Hp' & Hb).
  { rewrite <- Hk3. eapply dict_get_In_keys; eauto. }
  congruence.
Qed.

Lemma initialize_network_wf list_of_set cfg fuel g sim g' :
  _initialize_network list_of_set cfg fuel g = Some (Ok (sim, g')) ->
  dict_wf (peers sim) /\ records_wf (peers sim).
Proof.
  unfold _initialize_network, _generate_peer_ids.
  destruct (generate_loop fuel _ (connected_set_size cfg) [] [] g)
    as [[connected_set g1]|]; [|discriminate].
  generalize (list_of_set connected_set). intros connected_ids.
  destruct (generate_loop fuel _ (candidate_set_size cfg) connected_ids []
              g1) as [[candidate_set g2]|]; [|discriminate].
  generalize (list_of_set candidate_set). intros candidate_ids.
  intros H. injection H as H.
  pose (Q := fun ps : dict Peer => dict_wf ps /\ records_wf ps).
  match type of H with
  | bind (foldM ?f ?l (?ps1, g2)) _ = _ =>
      destruct (foldM f l (ps1, g2)) as [[ps2 g3]|] eqn:Hfold;
      simpl in H; [|discriminate];
      assert (Hps1 : Q ps1)
  end.
  { apply (fold_left_invariant Q).
    - intros ps x [Hk Hr] _. split; [now apply dict_set_wf|].
      apply records_wf_set; auto. unfold connected_member.
      apply (fold_left_invariant (fun p => dict_wf (known_peers p))).
      + intros p y Hp _. destruct (negb (y =? x)); auto using add_peer_wf.
      + constructor.
    - split; [constructor | intros k p Hget; discriminate]. }
  injection H as <- <-. simpl.
  pose (P := fun acc : dict Peer * Rng => Q (fst acc)).
  change (P (ps2, g3)).
  eapply (foldM_invariant P); [| |exact Hfold]; [|exact Hps1].
  intros [ps g0] x [ps' g0'] [Hk Hr] _ Hstep. unfold P, Q in *. simpl in *.
  unfold candidate_member in Hstep.
  destruct (sample connected_ids _ g0) as [[ids g4]|]; simpl in Hstep;
    [|discriminate].
  injection Hstep as <- <-.
  split; [now apply dict_set_wf|].
  apply records_wf_set; auto.
  apply (fold_left_invariant (fun p => dict_wf (known_peers p))).
  - intros p y Hp _. now apply add_peer_wf.
  - constructor.
Qed.

(** After at least one round from the bootstrap, every peer holds at
    most [max_connections] Connected relationships. *)
Lemma run_rounds_bound n :
  forall sim g sim' g',
    run_rounds (S n) sim g = Ok (sim', g') ->
    dict_wf (peers sim) ->
    registry_ok (peers sim) ->
    records_wf (peers sim) ->
    forall k p, dict_get (peers sim') k = Some p -> within_bound p.
Proof.
  induction n as [|n IH]; intros sim g sim' g' H Hk Hok Hwf;
    cbn [run_rounds] in H;
    destruct (simulate_round sim g) as [[sim1 g1]|] eqn:E; simpl in H;
    try discriminate;
    destruct (simulate_round_bound _ _ _ _ E Hk Hok Hwf)
      as (Hk1 & Hwf1 & Hb1);
    pose proof (simulate_round_ok _ _ _ _ E Hok) as Hok1.
  - injection H as <- <-. exact Hb1.
  - eapply IH; eauto.
Qed.

End FixedDegree.

(* ================================================================= *)
(** ** The degree bound after eviction *)

(** C1 as stated fails.  With five Connected relationships and bound 4
    the static and the prefix policy do not evict (the count is within
    their soft maximum, 6); the gradient peer with bound 2 keeps its three
    Connected relationships, no class being over its budget. *)
Lemma soft_limit_exceeds_bound_counterexample :
  Fixed.max_connections slack_peer = 4 /\
  len (Fixed.get_connected_peers slack_peer) = 5 /\
  (forall ap g,
      Static.remove_excess_connections slack_peer ap g =
      Ok (slack_peer, [], g)) /\
  (forall ap g,
      Prefix.remove_excess_connections slack_peer ap g =
      Ok (slack_peer, [], g)) /\
  Gradient.max_connections ring_peer = 2 /\
  (forall g,
      Gradient.remove_excess_connections ring_peer g = Ok (ring_peer, [], g)) /\
  len (Gradient.get_connected_peers ring_peer) = 3.
Proof.
  repeat split.
Qed.

(** C1, amended.  After [remove_excess_connections] (which returns on
    every peer with one record per key and a non-negative bound):
    under the uniform-random policy the Connected count is at most
    [max_connections], and so it is for every peer at the end of every
    round of the fixed simulator run from its bootstrap, in whatever order
    Python lists the sets of generated identifiers; under the static
    and the prefix policy (called with the peer list of the simulator, of
    at least two entries, or with none) it is at most the soft maximum
    [max_connections + connection_slack],
    and at most [max_connections] when the count was above the soft
    maximum; under the gradient policy it has not grown, and it is at most
    [max_connections] or else no distance class holds more Connected peers
    than its budget. *)
Theorem connected_count_after_eviction :
  forall (p : Fixed.Peer) (gp : Gradient.GradientPeer)
         (all_peers : option (list Z)) (g : Rng),
    dict_wf (Fixed.known_peers p) ->
    dict_wf (Gradient.known_peers gp) ->
    0 <= Fixed.max_connections p ->
    0 <= Gradient.max_connections gp ->
    (forall l, all_peers = Some l -> 1 < len l) ->
    (exists p' R g',
        Fixed.remove_excess_connections p g = Ok (p', R, g') /\
        len (Fixed.get_connected_peers p') <= Fixed.max_connections p) /\
    (exists p' R g',
        Static.remove_excess_connections p all_peers g = Ok (p', R, g') /\
        len (Fixed.get_connected_peers p') <= Static.soft_max_connections p /\
        (Static.soft_max_connections p < len (Fixed.get_connected_peers p) ->
         len (Fixed.get_connected_peers p') <= Fixed.max_connections p)) /\
    (exists p' R g',
        Prefix.remove_excess_connections p all_peers g = Ok (p', R, g') /\
        len (Fixed.get_connected_peers p') <= Prefix.soft_max_connections p /\
        (Prefix.soft_max_connections p < len (Fixed.get_connected_peers p) ->
         len (Fixed.get_connected_peers p') <= Fixed.max_connections p)) /\
    (exists gp' R g',
        Gradient.remove_excess_connections gp g = Ok (gp', R, g') /\
        len (Gradient.get_connected_peers gp')
          <= len (Gradient.get_connected_peers gp) /\
        (len (Gradient.get_connected_peers gp')
           <= Gradient.max_connections gp \/
         forall k,
           GradientClasses.class_members gp' k <> [] ->
           len (GradientClasses.class_members gp' k)
             <= Gradient.budget_for gp k)) /\
    (forall list_of_set cfg fuel g0 sim0 g1 n sim g2,
        (forall l, Permutation (list_of_set l) l) ->
        Fixed._initialize_network list_of_set cfg fuel g0
          = Some (Ok (sim0, g1)) ->
        Fixed.run_rounds (S n) sim0 g1 = Ok (sim, g2) ->
        forall k q,
          dict_get (Fixed.peers sim) k = Some q ->
          len (Fixed.get_connected_peers q) <= Fixed.max_connections q).
Proof.
  intros p gp all_peers g Hwf Hgwf Hmax Hgmax Hap.
  split; [|split; [|split; [|split]]];
    [| | | |intros list_of_set cfg fuel g0 sim0 g1 n sim g2 Hlist Hinit Hrun
                   k q Hget;
            destruct (FixedDegree.initialize_network_wf _ _ _ _ _ _ Hinit)
              as [Hk Hr];
            exact (FixedDegree.run_rounds_bound n _ _ _ _ Hrun Hk
                     (FixedBootstrap.initialize_network_ok _ _ _ _ _ _
                        Hlist Hinit)
                     Hr k q Hget)].
  - destruct (EvictionFacts.fixed_remove_excess_total p g Hwf Hmax)
      as (p' & R & g' & H).
    exists p', R, g'. split; [exact H|].
    eapply EvictionFacts.fixed_remove_excess_count; eauto.
  - destruct (StaticFacts.static_remove_excess_total p all_peers g)
      as (p' & R & g' & H).
    exists p', R, g'. split; [exact H|].
    destruct (StaticFacts.static_remove_excess_count _ _ _ _ _ _ H Hwf Hmax Hap)
      as [H1 H2].
    split; [exact H1|]. intros Hover. rewrite (H2 Hover). lia.
  - destruct (PrefixFacts.prefix_remove_excess_total p all_peers g)
      as (p' & R & g' & H).
    exists p', R, g'. split; [exact H|].
    eapply PrefixFacts.prefix_remove_excess_count; eauto.
  - destruct (GradientTotal.gradient_remove_excess_total gp g Hgwf Hgmax)
      as (gp' & R & g' & H).
    exists gp', R, g'. split; [exact H|].
    destruct (GradientEviction.remove_excess_spec _ _ _ _ _ H Hgwf)
      as (_ & _ & H1 & H2).
    auto.
Qed.

Lemma connected_count_after_eviction_witness :
  (exists p' R g',
      Fixed.remove_excess_connections spread_peer pick_rng = Ok (p', R, g') /\
      len (Fixed.get_connected_peers p') <= Fixed.max_connections spread_peer) /\
  len (Fixed.get_connected_peers demo_joiner)
    <= Fixed.max_connections demo_joiner.
Proof.
  assert (Hwf : dict_wf (Fixed.known_peers spread_peer)).
  { unfold dict_wf. simpl. repeat constructor; simpl; lia. }
  assert (Hgwf : dict_wf (Gradient.known_peers ring_peer)).
  { unfold dict_wf. simpl. repeat constructor; simpl; lia. }
  assert (Hmax : 0 <= Fixed.max_connections spread_peer) by (simpl; lia).
  assert (Hgmax : 0 <= Gradient.max_connections ring_peer) by (simpl; lia).
  assert (Hap : forall l, Some spread_all = Some l -> 1 < len l).
  { intros l H. injection H as <-. reflexivity. }
  destruct (connected_count_after_eviction spread_peer ring_peer
              (Some spread_all) pick_rng Hwf Hgwf Hmax Hgmax Hap)
    as (H1 & _ & _ & _ & H5).
  split; [exact H1|].
  apply (H5 insertion_order demo_cfg 40%nat demo_rng
            (fst demo_boot) (snd demo_boot)
            2%nat (fst demo_run) (snd demo_run)) with (k := 15);
    vm_compute; reflexivity.
Defined.

(* ================================================================= *)
(** ** Bucketed eviction keeps the closest peers of a bucket *)

(** C5 as stated fails on its second half.  Peer 0 (bound 4) holds seven
    Connected peers; the eight static buckets have targets 2,1,1,1,1,1,1,1
    and no bucket is over its target, so the three evictions are all drawn
    at random from the Connected peers.  The draw evicts 1, 3 and 5: peer
    2 stays in bucket 0 although peer 1 of the same bucket, which is
    closer, is evicted. *)
Lemma residual_eviction_counterexample :
  exists p' g' bk br,
    Static.optimize_connections spread_peer spread_all pick_rng =
      Ok ([1; 3; 5], g') /\
    Static.remove_excess_connections spread_peer (Some spread_all) pick_rng =
      Ok (p', [1; 3; 5], g') /\
    Fixed.get_connected_peers p' = [2; 9; 17; 33] /\
    Static.calculate_optimal_distribution spread_peer spread_all =
      Some ([2; 1; 1; 1; 1; 1; 1; 1], bk, br) /\
    Static.in_bucket spread_peer br 0 1 = true /\
    Static.in_bucket spread_peer br 0 2 = true /\
    Static.get_distance_to_peer spread_peer 1 <
    Static.get_distance_to_peer spread_peer 2.
Proof.
  eexists _, _, _, _. vm_compute. repeat split; reflexivity.
Qed.

(** C5, amended.  For a peer with more than [max_connections] Connected
    relationships and a bucket computation that yields buckets, the
    bucketed eviction step returns, the Connected count after the removal
    is at most [max_connections], and every peer evicted by the per-bucket
    loop is at least as far from the evicting peer as every peer of the
    same bucket that stays Connected.  Peers evicted by the random
    residual step are not covered. *)
Theorem bucketed_eviction_keeps_closest :
  forall (p : Fixed.Peer) (all_peers : list Z) (g : Rng),
    dict_wf (Fixed.known_peers p) ->
    0 <= Fixed.max_connections p ->
    Fixed.max_connections p < len (Fixed.get_connected_peers p) ->
    1 < len all_peers ->
    (exists R g' bt bk br,
        Static.optimize_connections p all_peers g = Ok (R, g') /\
        Static.calculate_optimal_distribution p all_peers =
          Some (bt, bk, br) /\
        let p' :=
          Fixed.with_known_peers p (discard_all (Fixed.known_peers p) R) in
        len (Fixed.get_connected_peers p') <= Fixed.max_connections p /\
        (forall e r i,
            In e R ->
            In e (Static.bucket_removals p bt br
                    (Fixed.get_connected_peers p)) ->
            In r (Fixed.get_connected_peers p') ->
            Static.in_bucket p br i e = true ->
            Static.in_bucket p br i r = true ->
            Static.get_distance_to_peer p r
              <= Static.get_distance_to_peer p e)) /\
    (exists R g',
        Prefix.optimize_connections_improved p all_peers g = Ok (R, g') /\
        let p' :=
          Fixed.with_known_peers p (discard_all (Fixed.known_peers p) R) in
        len (Fixed.get_connected_peers p') <= Fixed.max_connections p /\
        (forall td bk e r b,
            Prefix.calculate_routing_distribution p all_peers =
              Some (td, bk) ->
            In e R ->
            In e (Prefix.bucket_removals p td
                    (Fixed.get_connected_peers p)) ->
            In r (Fixed.get_connected_peers p') ->
            Prefix.in_bucket p b e = true ->
            Prefix.in_bucket p b r = true ->
            Prefix.get_distance_to_peer p r
              <= Prefix.get_distance_to_peer p e)).
Proof.
  intros p all_peers g Hwf Hmax Hover Hap. split.
  - destruct (StaticFacts.static_optimize_total p all_peers g) as (R & g' & H).
    destruct (Static.calculate_optimal_distribution p all_peers)
      as [[[bt bk] br]|] eqn:Hc;
      [|apply StaticFacts.calculate_None in Hc; subst all_peers;
        unfold len in Hap; simpl in Hap; lia].
    exists R, g', bt, bk, br. split; [exact H|]. split; [reflexivity|].
    cbv zeta. rewrite EvictionFacts.connected_after_discard by assumption.
    split.
    + rewrite (StaticFacts.static_optimize_count _ _ _ _ _ H Hwf Hmax Hap Hover).
      lia.
    + intros e r i HeR HeL Hr Hbe Hbr.
      eapply StaticFacts.static_optimize_keeps_closest; eauto.
  - destruct (PrefixFacts.prefix_optimize_total p all_peers g) as (R & g' & H).
    exists R, g'. split; [exact H|].
    cbv zeta. rewrite EvictionFacts.connected_after_discard by assumption.
    split.
    + eapply PrefixFacts.prefix_optimize_count; eauto.
    + intros td bk e r b Hc HeR HeL Hr Hbe Hbr.
      eapply PrefixFacts.prefix_optimize_keeps_closest; eauto.
Qed.

Lemma bucketed_eviction_keeps_closest_witness :
  exists R g',
    Prefix.optimize_connections_improved spread_peer spread_all pick_rng =
      Ok (R, g') /\
    let p' :=
      Fixed.with_known_peers spread_peer
        (discard_all (Fixed.known_peers spread_peer) R) in
    len (Fixed.get_connected_peers p') <= Fixed.max_connections spread_peer /\
    (forall td bk e r b,
        Prefix.calculate_routing_distribution spread_peer spread_all =
          Some (td, bk) ->
        In e R ->
        In e (Prefix.bucket_removals spread_peer td
                (Fixed.get_connected_peers spread_peer)) ->
        In r (Fixed.get_connected_peers p') ->
        Prefix.in_bucket spread_peer b e = true ->
        Prefix.in_bucket spread_peer b r = true ->
        Prefix.get_distance_to_peer spread_peer r
          <= Prefix.get_distance_to_peer spread_peer e).
Proof.
  refine (proj2 (bucketed_eviction_keeps_closest spread_peer spread_all
                   pick_rng _ _ _ _)).
  - unfold dict_wf. simpl. repeat constructor; simpl; lia.
  - simpl. lia.
  - reflexivity.
  - reflexivity.
Defined.

(* ================================================================= *)
(** ** Degenerate bucket computations fall back to a random sample *)

(** C6 as stated fails.  Peer 0 holds seven Connected peers, above the
    soft maximum 6 of the static policy; called with a single known
    identifier (fewer than two), the static step evicts nobody, where the
    claim has it remove the excess of three. *)
Lemma static_short_list_counterexample :
  Static.soft_max_connections spread_peer
    < len (Fixed.get_connected_peers spread_peer) /\
  len (Fixed.get_connected_peers spread_peer)
    - Fixed.max_connections spread_peer = 3 /\
  (forall g,
      Static.optimize_connections spread_peer [0] g = Ok ([], g)) /\
  (forall g,
      Static.remove_excess_connections spread_peer (Some [0]) g =
      Ok (spread_peer, [], g)).
Proof.
  repeat split.
Qed.

(** C6, amended.  Neither bucketed eviction step ever raises.  When the
    Connected count is above the soft maximum and the bucket computation
    is degenerate, the step removes a random sample of exactly
    [count - max_connections] Connected peers: in the prefix policy
    whenever the computation yields no distribution (no known peer
    besides the peer itself, or zero weights); in the static policy when
    at least two identifiers are passed and none is another peer.  Called
    with fewer than two identifiers, the static policy evicts nobody. *)
Theorem degenerate_buckets_random_fallback :
  forall (p : Fixed.Peer) (all_peers : list Z) (g : Rng),
    dict_wf (Fixed.known_peers p) ->
    0 <= Fixed.max_connections p ->
    (exists p' R g',
        Static.remove_excess_connections p (Some all_peers) g =
        Ok (p', R, g')) /\
    (exists p' R g',
        Prefix.remove_excess_connections p (Some all_peers) g =
        Ok (p', R, g')) /\
    ((forall x, In x all_peers -> x = Fixed.id p) ->
     Prefix.calculate_routing_distribution p all_peers = None) /\
    (Prefix.soft_max_connections p < len (Fixed.get_connected_peers p) ->
     Prefix.calculate_routing_distribution p all_peers = None ->
     exists R g',
       sample (Fixed.get_connected_peers p)
              (len (Fixed.get_connected_peers p) - Fixed.max_connections p)
              g = Ok (R, g') /\
       Prefix.remove_excess_connections p (Some all_peers) g =
         Ok (Fixed.with_known_peers p (discard_all (Fixed.known_peers p) R),
             R, g') /\
       len R = len (Fixed.get_connected_peers p) - Fixed.max_connections p /\
       len (Fixed.get_connected_peers
              (Fixed.with_known_peers p
                 (discard_all (Fixed.known_peers p) R))) =
         Fixed.max_connections p) /\
    (Static.soft_max_connections p < len (Fixed.get_connected_peers p) ->
     1 < len all_peers ->
     (forall x, In x all_peers -> x = Fixed.id p) ->
     exists R g',
       sample (Fixed.get_connected_peers p)
              (len (Fixed.get_connected_peers p) - Fixed.max_connections p)
              g = Ok (R, g') /\
       Static.remove_excess_connections p (Some all_peers) g =
         Ok (Fixed.with_known_peers p (discard_all (Fixed.known_peers p) R),
             R, g') /\
       len R = len (Fixed.get_connected_peers p) - Fixed.max_connections p /\
       len (Fixed.get_connected_peers
              (Fixed.with_known_peers p
                 (discard_all (Fixed.known_peers p) R))) =
         Fixed.max_connections p) /\
    (len all_peers <= 1 ->
     exists p',
       Static.remove_excess_connections p (Some all_peers) g =
         Ok (p', [], g) /\
       Fixed.known_peers p' = Fixed.known_peers p).
Proof.
  intros p all_peers g Hwf Hmax.
  split; [apply StaticFacts.static_remove_excess_total|].
  split; [apply PrefixFacts.prefix_remove_excess_total|].
  split; [apply PrefixFallback.prefix_calculate_only_self|].
  split; [intros; now apply PrefixFallback.prefix_remove_excess_fallback|].
  split; [intros; now apply StaticFallback.static_remove_excess_fallback|].
  apply StaticFallback.remove_excess_short.
Qed.

Lemma degenerate_buckets_random_fallback_witness :
  exists R g',
    sample (Fixed.get_connected_peers spread_peer)
           (len (Fixed.get_connected_peers spread_peer)
            - Fixed.max_connections spread_peer) pick_rng = Ok (R, g') /\
    Static.remove_excess_connections spread_peer (Some [0; 0]) pick_rng =
      Ok (Fixed.with_known_peers spread_peer
            (discard_all (Fixed.known_peers spread_peer) R), R, g') /\
    len R = len (Fixed.get_connected_peers spread_peer)
            - Fixed.max_connections spread_peer /\
    len (Fixed.get_connected_peers
           (Fixed.with_known_peers spread_peer
              (discard_all (Fixed.known_peers spread_peer) R))) =
      Fixed.max_connections spread_peer.
Proof.
  refine (proj1 (proj2 (proj2 (proj2 (proj2
            (degenerate_buckets_random_fallback spread_peer [0; 0] pick_rng
               _ _))))) _ _ _).
  - unfold dict_wf. simpl. repeat constructor; simpl; lia.
  - simpl. lia.
  - reflexivity.
  - reflexivity.
  - intros x [<-|[<-|[]]]; reflexivity.
Defined.

(* ================================================================= *)
(** * Further properties of the simulators *)

(* ================================================================= *)
(** ** The two metrics *)

Lemma lxor_le_add a b : 0 <= a -> 0 <= b -> Z.lxor a b <= a + b.
Proof.
  intros Ha Hb. pose proof (Z.add_lxor_2land a b).
  assert (0 <= Z.land a b) by (apply Z.land_nonneg; auto). lia.
Qed.

Lemma lxor_cancel_r a b c : Z.lxor a c = Z.lxor b c -> a = b.
Proof.
  intros H.
  assert (E : forall x, Z.lxor (Z.lxor x c) c = x).
  { intros x. now rewrite Z.lxor_assoc, Z.lxor_nilpotent, Z.lxor_0_r. }
  rewrite <- (E a), <- (E b). now rewrite H.
Qed.

Lemma lxor_lt_pow2 a b n :
  0 <= n -> 0 <= a < 2 ^ n -> 0 <= b < 2 ^ n -> 0 <= Z.lxor a b < 2 ^ n.
Proof.
  intros Hn Ha Hb.
  assert (H0 : 0 <= Z.lxor a b) by (apply Z.lxor_nonneg; lia).
  split; [exact H0|].
  destruct (Z.eq_dec (Z.lxor a b) 0) as [->|Hne].
  - apply Z.pow_pos_nonneg; lia.
  - assert (Hpos : 0 < n).
    { destruct (Z.eq_dec n 0) as [->|]; [|lia].
      exfalso. apply Hne. replace a with 0 by (simpl in *; lia).
      replace b with 0 by (simpl in *; lia). reflexivity. }
    apply Z.log2_lt_pow2; [lia|].
    pose proof (Z.log2_lxor a b (proj1 Ha) (proj1 Hb)) as Hl.
    assert (Z.log2 a < n).
    { destruct (Z.eq_dec a 0) as [->|]; [simpl; lia|].
      apply Z.log2_lt_pow2; lia. }
    assert (Z.log2 b < n).
    { destruct (Z.eq_dec b 0) as [->|]; [simpl|apply Z.log2_lt_pow2]; lia. }
    lia.
Qed.

(** X1.  [_xor_distance] from a fixed identifier is injective (no two
    peers are at the same distance from a third), it satisfies the
    triangle inequality on non-negative identifiers, and on the
    identifiers of a [bits]-bit address space it stays within
    [0, 2^bits). *)
Theorem xor_distance_metric :
  forall (a b c bits : Z),
    (Fixed._xor_distance a b = Fixed._xor_distance a c -> b = c) /\
    (0 <= a -> 0 <= b -> 0 <= c ->
     Fixed._xor_distance a c
       <= Fixed._xor_distance a b + Fixed._xor_distance b c) /\
    (0 <= bits -> 0 <= a < 2 ^ bits -> 0 <= b < 2 ^ bits ->
     0 <= Fixed._xor_distance a b < 2 ^ bits).
Proof.
  intros a b c bits. unfold Fixed._xor_distance. split; [|split].
  - intros H. rewrite (Z.lxor_comm a b), (Z.lxor_comm a c) in H.
    eapply lxor_cancel_r; eauto.
  - intros Ha Hb Hc.
    replace (Z.lxor a c) with (Z.lxor (Z.lxor a b) (Z.lxor b c)).
    + apply lxor_le_add; apply Z.lxor_nonneg; lia.
    + rewrite Z.lxor_assoc, <- (Z.lxor_assoc b b c), Z.lxor_nilpotent.
      now rewrite Z.lxor_0_l.
  - intros. now apply lxor_lt_pow2.
Qed.

(** X2.  On the identifiers of its address space [_ring_distance] is
    non-negative, at most half the size of the ring, and satisfies the
    triangle inequality. *)
Theorem ring_distance_metric :
  forall (p : Gradient.GradientPeer) (a b c : Z),
    0 <= Gradient.address_space_bits p ->
    0 <= a < 2 ^ Gradient.address_space_bits p ->
    0 <= b < 2 ^ Gradient.address_space_bits p ->
    0 <= c < 2 ^ Gradient.address_space_bits p ->
    0 <= Gradient._ring_distance p a b /\
    2 * Gradient._ring_distance p a b <= Gradient.address_space_size p /\
    Gradient._ring_distance p a c
      <= Gradient._ring_distance p a b + Gradient._ring_distance p b c.
Proof.
  intros p a b c Hbits Ha Hb Hc. unfold Gradient._ring_distance.
  rewrite (address_space_size_pow p Hbits). cbv zeta. lia.
Qed.

Lemma ring_distance_metric_witness :
  0 <= Gradient._ring_distance sample_gradient_peer 3 200 /\
  2 * Gradient._ring_distance sample_gradient_peer 3 200
    <= Gradient.address_space_size sample_gradient_peer /\
  Gradient._ring_distance sample_gradient_peer 3 100
    <= Gradient._ring_distance sample_gradient_peer 3 200
       + Gradient._ring_distance sample_gradient_peer 200 100.
Proof.
  apply (ring_distance_metric sample_gradient_peer 3 200 100); simpl; lia.
Defined.

(* ================================================================= *)
(** ** Records of a peer *)

(** X3.  Writing a record and reading it back: [add_peer] stores the
    state and the round as given; [set_peer_state] stores the state, and
    the round unless the record exists and the round is negative (the
    record then keeps its last-heard round); [update_last_heard_from]
    changes the round of an existing record only and leaves a peer
    without the record as it is.  No other record is touched. *)
Theorem peer_record_round_trip :
  forall (p : Fixed.Peer) (k : Z) (st : PeerState) (r : Z),
    let kp := Fixed.known_peers p in
    dict_get (Fixed.known_peers (Fixed.add_peer p k st r)) k
      = Some (Fixed.mkPeerInfo st r) /\
    Fixed.get_peer_state (Fixed.set_peer_state p k st r) k = Some st /\
    (forall old,
        dict_get kp k = Some old ->
        dict_get (Fixed.known_peers (Fixed.set_peer_state p k st r)) k
          = Some (Fixed.mkPeerInfo st
                    (if 0 <=? r then r else Fixed.last_heard_from old)) /\
        dict_get (Fixed.known_peers (Fixed.update_last_heard_from p k r)) k
          = Some (Fixed.mkPeerInfo (Fixed.state old) r)) /\
    (dict_get kp k = None ->
     dict_get (Fixed.known_peers (Fixed.set_peer_state p k st r)) k
       = Some (Fixed.mkPeerInfo st r) /\
     Fixed.update_last_heard_from p k r = p) /\
    (forall k',
        k' <> k ->
        dict_get (Fixed.known_peers (Fixed.add_peer p k st r)) k'
          = dict_get kp k' /\
        dict_get (Fixed.known_peers (Fixed.set_peer_state p k st r)) k'
          = dict_get kp k' /\
        dict_get (Fixed.known_peers (Fixed.update_last_heard_from p k r)) k'
          = dict_get kp k').
Proof.
  intros p k st r kp. subst kp.
  split; [apply dict_get_set_same|].
  split; [apply FixedInvites.fixed_get_peer_state_set|].
  split; [|split].
  - intros old Hold. unfold Fixed.set_peer_state, Fixed.update_last_heard_from.
    rewrite Hold. simpl. now rewrite !dict_get_set_same.
  - intros Hnone. unfold Fixed.set_peer_state, Fixed.update_last_heard_from.
    rewrite Hnone. simpl. now rewrite dict_get_set_same.
  - intros k' Hne.
    unfold Fixed.add_peer, Fixed.set_peer_state, Fixed.update_last_heard_from.
    destruct (dict_get (Fixed.known_peers p) k); simpl;
      rewrite ?dict_get_set_other by congruence; auto.
Qed.

(** X4.  [find_closest_peer_to_target] returns [None] exactly when no
    known peer is in an admitted state; otherwise it returns an admitted
    known peer that is strictly closer to the target than every other
    admitted one (XOR distances from a target never tie), and the target
    itself when it is known and admitted. *)
Theorem find_closest_peer_is_nearest :
  forall (p : Fixed.Peer) (target : Z) (exclude_states : list PeerState),
    let eligible (x : Z) :=
      exists info,
        In (x, info) (Fixed.known_peers p) /\
        existsb (PeerState_eqb (Fixed.state info)) exclude_states = false in
    (Fixed.find_closest_peer_to_target p target exclude_states = None <->
     forall x, ~ eligible x) /\
    (forall c,
        Fixed.find_closest_peer_to_target p target exclude_states = Some c ->
        eligible c /\
        forall x, eligible x -> x <> c ->
                  Fixed._xor_distance c target < Fixed._xor_distance x target) /\
    (eligible target ->
     0 <= target ->
     (forall x, In x (dict_keys (Fixed.known_peers p)) -> 0 <= x) ->
     Fixed.find_closest_peer_to_target p target exclude_states = Some target).
Proof.
  intros p target ex eligible.
  unfold Fixed.find_closest_peer_to_target.
  set (c0 := filter _ (Fixed.known_peers p)).
  assert (Hel : forall x, In x (map fst c0) <-> eligible x).
  { intros x. unfold c0, eligible. rewrite in_map_iff. split.
    - intros [[k info] [<- Hin]]. apply filter_In in Hin. simpl in *.
      destruct Hin as [Hin Hb]. apply negb_true_iff in Hb. eauto.
    - intros [info [Hin Hb]]. exists (x, info). split; [reflexivity|].
      apply filter_In. simpl. rewrite Hb. auto. }
  assert (Hstrict : forall c,
             min_by (fun pid => Fixed._xor_distance pid target) (map fst c0)
               = Some c ->
             eligible c /\
             forall x, eligible x -> x <> c ->
                       Fixed._xor_distance c target
                         < Fixed._xor_distance x target).
  { intros c Hc. split; [apply Hel; eapply min_by_In; eauto|].
    intros x Hx Hne. apply Hel in Hx.
    pose proof (min_by_least _ _ _ Hc x Hx) as Hle. simpl in Hle.
    destruct (Z.eq_dec (Fixed._xor_distance c target)
                       (Fixed._xor_distance x target)) as [E|]; [|lia].
    exfalso. apply Hne. unfold Fixed._xor_distance in E.
    symmetry. eapply lxor_cancel_r; eauto. }
  split; [|split].
  - split.
    + intros H x Hx. apply min_by_None in H. apply Hel in Hx.
      rewrite H in Hx. destruct Hx.
    + intros H.
      destruct (min_by _ (map fst c0)) as [c|] eqn:E; [|reflexivity].
      exfalso. apply (H c). apply Hel. eapply min_by_In; eauto.
  - exact Hstrict.
  - intros Ht Htarget Hpos.
    destruct (min_by _ (map fst c0)) as [c|] eqn:E.
    + destruct (Hstrict c eq_refl) as [Hc Hlt].
      destruct (Z.eq_dec target c) as [->|Hne]; [reflexivity|].
      specialize (Hlt target Ht Hne).
      unfold Fixed._xor_distance in Hlt. rewrite Z.lxor_nilpotent in Hlt.
      assert (0 <= c).
      { apply Hpos. destruct Hc as [info [Hin _]].
        unfold dict_keys. apply in_map_iff. now exists (c, info). }
      assert (0 <= Z.lxor c target) by (apply Z.lxor_nonneg; lia). lia.
    + apply min_by_None in E. apply Hel in Ht. rewrite E in Ht. destruct Ht.
Qed.

(* ================================================================= *)
(** ** Invite processing *)

Lemma fixed_set_state_other p k s st r :
  k <> s ->
  dict_get (Fixed.known_peers (Fixed.set_peer_state p s st r)) k
    = dict_get (Fixed.known_peers p) k.
Proof.
  intros Hne. unfold Fixed.set_peer_state.
  destruct (dict_get (Fixed.known_peers p) s); simpl;
    rewrite ?dict_get_set_other by congruence; auto.
Qed.

Lemma fixed_update_other p k s r :
  k <> s ->
  dict_get (Fixed.known_peers (Fixed.update_last_heard_from p s r)) k
    = dict_get (Fixed.known_peers p) k.
Proof.
  intros Hne. unfold Fixed.update_last_heard_from.
  destruct (dict_get (Fixed.known_peers p) s); simpl;
    rewrite ?dict_get_set_other by congruence; auto.
Qed.

Lemma fixed_process_invite_other r p sc inv k :
  k <> sender_id inv ->
  dict_get (Fixed.known_peers (fst (Fixed.process_invite r (p, sc) inv))) k
    = dict_get (Fixed.known_peers p) k.
Proof.
  intros Hne. unfold Fixed.process_invite.
  destruct (Fixed.get_peer_state p (sender_id inv)) as [[]|]; simpl;
    auto using fixed_set_state_other, fixed_update_other.
Qed.

Lemma fixed_process_invite_sender r p sc inv :
  let s := sender_id inv in
  Fixed.get_peer_state (fst (Fixed.process_invite r (p, sc) inv)) s =
  match Fixed.get_peer_state p s with
  | Some PENDING => Some CONNECTED
  | Some IDENTIFIED => Some PROSPECT
  | Some CONNECTED => Some CONNECTED
  | Some PROSPECT => Some PROSPECT
  | None => Some PROSPECT
  end.
Proof.
  intros s. unfold Fixed.process_invite. fold s.
  destruct (Fixed.get_peer_state p s) as [[]|] eqn:E; simpl;
    rewrite ?FixedInvites.fixed_get_peer_state_set,
            ?FixedInvites.fixed_get_peer_state_update; auto.
Qed.

Lemma fixed_process_invite_changes r p sc inv :
  exists extra,
    snd (Fixed.process_invite r (p, sc) inv) = sc ++ extra /\
    (length extra <= 1)%nat /\
    forall e, In e extra -> fst e = sender_id inv.
Proof.
  unfold Fixed.process_invite.
  destruct (Fixed.get_peer_state p (sender_id inv)) as [[]|]; simpl;
    try (eexists; split; [reflexivity|]; split; [simpl; lia|];
         intros e [<-|[]]; reflexivity).
  exists []. rewrite app_nil_r. split; [reflexivity|].
  split; [simpl; lia|]. intros e [].
Qed.

Lemma fixed_get_state_get p k :
  Fixed.get_peer_state p k =
  option_map Fixed.state (dict_get (Fixed.known_peers p) k).
Proof.
  unfold Fixed.get_peer_state. now destruct (dict_get _ k).
Qed.

Lemma fixed_process_invite_advance r p sc inv k st :
  Fixed.get_peer_state p k = Some st ->
  exists st',
    Fixed.get_peer_state (fst (Fixed.process_invite r (p, sc) inv)) k
      = Some st' /\
    advanced st st'.
Proof.
  intros H. destruct (Z.eq_dec k (sender_id inv)) as [->|Hne].
  - rewrite fixed_process_invite_sender, H. unfold advanced.
    destruct st; eexists; split; try reflexivity; auto.
  - rewrite fixed_get_state_get, fixed_process_invite_other by assumption.
    rewrite <- fixed_get_state_get, H. exists st. split; [auto|now left].
Qed.

Lemma fixed_fold_process_invite_states r q :
  forall p sc,
    let res := fold_left (Fixed.process_invite r) q (p, sc) in
    (forall k st,
        Fixed.get_peer_state p k = Some st ->
        exists st', Fixed.get_peer_state (fst res) k = Some st' /\
                    advanced st st') /\
    (forall inv,
        In inv q ->
        Fixed.get_peer_state (fst res) (sender_id inv) = Some CONNECTED \/
        Fixed.get_peer_state (fst res) (sender_id inv) = Some PROSPECT) /\
    (forall k,
        (forall inv, In inv q -> sender_id inv <> k) ->
        dict_get (Fixed.known_peers (fst res)) k
          = dict_get (Fixed.known_peers p) k) /\
    (exists extra,
        snd res = sc ++ extra /\
        (length extra <= length q)%nat /\
        forall e, In e extra -> exists inv, In inv q /\ sender_id inv = fst e).
Proof.
  induction q as [|inv q IH]; intros p sc; cbn [fold_left].
  - cbv zeta. simpl. split; [|split; [|split]].
    + intros k st H. exists st. split; [auto|now left].
    + intros inv [].
    + auto.
    + exists []. rewrite app_nil_r. split; [auto|]. split; [simpl; lia|].
      intros e [].
  - destruct (Fixed.process_invite r (p, sc) inv) as [p1 sc1] eqn:E.
    destruct (IH p1 sc1) as (IA & IB & IC & ID). cbv zeta in *.
    assert (E1 : p1 = fst (Fixed.process_invite r (p, sc) inv))
      by now rewrite E.
    assert (E2 : sc1 = snd (Fixed.process_invite r (p, sc) inv))
      by now rewrite E.
    split; [|split; [|split]].
    + intros k st H.
      destruct (fixed_process_invite_advance r p sc inv k st H)
        as (st1 & H1 & A1).
      rewrite <- E1 in H1. destruct (IA k st1 H1) as (st2 & H2 & A2).
      exists st2. split; [exact H2|].
      unfold advanced in *.
      destruct A1 as [->|[[-> ->]|[-> ->]]]; auto;
        destruct A2 as [->|[[? ->]|[? ->]]]; auto; discriminate.
    + intros inv' [<-|Hin]; [|auto].
      pose proof (fixed_process_invite_sender r p sc inv) as Hs.
      cbv zeta in Hs. rewrite <- E1 in Hs.
      assert (Hcp : Fixed.get_peer_state p1 (sender_id inv) = Some CONNECTED \/
                    Fixed.get_peer_state p1 (sender_id inv) = Some PROSPECT).
      { rewrite Hs.
        destruct (Fixed.get_peer_state p (sender_id inv)) as [[]|]; auto. }
      destruct Hcp as [Hc|Hc]; destruct (IA _ _ Hc) as (st2 & H2 & A2);
        unfold advanced in A2;
        destruct A2 as [->|[[? ->]|[? ->]]]; auto; discriminate.
    + intros k Hk. rewrite IC by (intros; apply Hk; now right).
      rewrite E1. apply fixed_process_invite_other.
      intros ->. apply (Hk inv); [now left|reflexivity].
    + destruct ID as (extra & Hsc & Hlen & He).
      destruct (fixed_process_invite_changes r p sc inv)
        as (extra0 & Hsc0 & Hlen0 & He0).
      rewrite <- E2 in Hsc0.
      exists (extra0 ++ extra). split; [|split].
      * rewrite Hsc, Hsc0. now rewrite app_assoc.
      * rewrite length_app. simpl. lia.
      * intros e Hin. apply in_app_or in Hin. destruct Hin as [Hin|Hin].
        -- exists inv. split; [now left|]. symmetry. now apply He0.
        -- destruct (He e Hin) as (inv' & Hin' & Hs'). exists inv'.
           split; [now right|exact Hs'].
Qed.

(** X5.  [process_invites] never forgets and never demotes: a record
    keeps its state or advances (Pending to Connected, Identified to
    Prospect); every sender of a queued invite is held as Connected or
    Prospect afterwards; the records of peers that sent nothing are
    untouched; and the returned list of state changes has at most one
    entry per invite, each for a sender. *)
Theorem process_invites_never_demotes :
  forall (p : Fixed.Peer) (r : Z),
    let p' := fst (Fixed.process_invites p r) in
    let state_changes := snd (Fixed.process_invites p r) in
    (forall k st,
        Fixed.get_peer_state p k = Some st ->
        exists st',
          Fixed.get_peer_state p' k = Some st' /\
          (st' = st \/ (st = PENDING /\ st' = CONNECTED) \/
           (st = IDENTIFIED /\ st' = PROSPECT))) /\
    (forall inv,
        In inv (Fixed.pending_invites p) ->
        Fixed.get_peer_state p' (sender_id inv) = Some CONNECTED \/
        Fixed.get_peer_state p' (sender_id inv) = Some PROSPECT) /\
    (forall k,
        (forall inv, In inv (Fixed.pending_invites p) -> sender_id inv <> k) ->
        dict_get (Fixed.known_peers p') k = dict_get (Fixed.known_peers p) k) /\
    len state_changes <= len (Fixed.pending_invites p) /\
    (forall e,
        In e state_changes ->
        exists inv, In inv (Fixed.pending_invites p) /\ sender_id inv = fst e).
Proof.
  intros p r.
  pose proof (fixed_fold_process_invite_states r (Fixed.pending_invites p)
                p []) as H.
  cbv zeta in *. unfold Fixed.process_invites.
  destruct (fold_left (Fixed.process_invite r) (Fixed.pending_invites p)
              (p, [])) as [p1 sc1].
  simpl in *. destruct H as (HA & HB & HC & extra & -> & Hlen & He).
  split; [exact HA|]. split; [exact HB|]. split; [exact HC|].
  split; [unfold len; lia|exact He].
Qed.

(* ================================================================= *)
(** ** Uniform eviction *)

Section DiscardLookup.
Context {V : Type}.
Implicit Types (d : dict V).

Lemma dict_get_discard_other d k k' :
  k <> k' -> dict_get (dict_discard d k) k' = dict_get d k'.
Proof.
  intros Hne. induction d as [|[k0 v] d IH]; simpl; [reflexivity|].
  destruct (k0 =? k) eqn:E.
  - apply Z.eqb_eq in E. subst k0.
    destruct (k =? k') eqn:E'; [apply Z.eqb_eq in E'; congruence|reflexivity].
  - simpl. now rewrite IH.
Qed.

Lemma dict_get_discard_same d k :
  dict_wf d -> dict_get (dict_discard d k) k = None.
Proof.
  unfold dict_wf. induction d as [|[k0 v] d IH]; simpl; intros Hwf;
    [reflexivity|].
  inversion Hwf as [|? ? Hnotin Hwf']; subst.
  destruct (k0 =? k) eqn:E.
  - apply Z.eqb_eq in E. subst k0. now apply dict_get_None_keys.
  - simpl. rewrite E. auto.
Qed.

Lemma dict_get_discard_all_other d l k :
  ~ In k l -> dict_get (discard_all d l) k = dict_get d k.
Proof.
  unfold discard_all. revert d.
  induction l as [|x l IH]; intros d Hk; simpl; [reflexivity|].
  rewrite IH by (intros H; apply Hk; now right).
  apply dict_get_discard_other. intros ->. apply Hk. now left.
Qed.

Lemma dict_get_discard_all_same d l k :
  dict_wf d -> In k l -> dict_get (discard_all d l) k = None.
Proof.
  unfold discard_all. revert d.
  induction l as [|x l IH]; intros d Hwf Hk; simpl; [destruct Hk|].
  destruct (in_dec Z.eq_dec k l) as [Hin|Hnotin].
  - apply IH; [now apply dict_discard_wf|exact Hin].
  - destruct Hk as [->|Hk]; [|contradiction].
    change (fold_left dict_discard l (dict_discard d k))
      with (discard_all (dict_discard d k) l).
    rewrite dict_get_discard_all_other by assumption.
    now apply dict_get_discard_same.
Qed.

End DiscardLookup.

(** X6.  The uniform policy on a peer with one record per key: within
    the bound it changes nothing and draws nothing; over a non-negative
    bound it deletes exactly [count - max_connections] distinct Connected
    peers, leaves exactly [max_connections] Connected, and touches no
    other record; with a negative bound it raises [ValueError] (the
    sample is larger than the population). *)
Theorem uniform_eviction_exact :
  forall (p : Fixed.Peer) (g : Rng),
    dict_wf (Fixed.known_peers p) ->
    let connected := Fixed.get_connected_peers p in
    (len connected <= Fixed.max_connections p ->
     Fixed.remove_excess_connections p g = Ok (p, [], g)) /\
    (0 <= Fixed.max_connections p < len connected ->
     exists p' R g',
       Fixed.remove_excess_connections p g = Ok (p', R, g') /\
       len R = len connected - Fixed.max_connections p /\
       NoDup R /\
       (forall x, In x R -> In x connected) /\
       Fixed.get_connected_peers p' = without connected R /\
       len (Fixed.get_connected_peers p') = Fixed.max_connections p /\
       (forall k, In k R -> dict_get (Fixed.known_peers p') k = None) /\
       (forall k, ~ In k R ->
                  dict_get (Fixed.known_peers p') k
                    = dict_get (Fixed.known_peers p) k)) /\
    (Fixed.max_connections p < 0 ->
     Fixed.remove_excess_connections p g = Raise ValueError).
Proof.
  intros p g Hwf connected. subst connected.
  unfold Fixed.remove_excess_connections.
  pose proof (len_nonneg (Fixed.get_connected_peers p)) as Hlen.
  split; [|split].
  - intros H. apply Z.leb_le in H. now rewrite H.
  - intros [Hmax Hover].
    destruct (len (Fixed.get_connected_peers p) <=? Fixed.max_connections p)
      eqn:E; [apply Z.leb_le in E; lia|].
    destruct (sample (Fixed.get_connected_peers p)
                (len (Fixed.get_connected_peers p) - Fixed.max_connections p)
                g) as [[R0 g']|e] eqn:Hs;
      [|rewrite sample_Ok in Hs by lia; discriminate].
    cbn [bind].
    apply sample_inv in Hs. destruct Hs as (_ & _ & HlenR & Hin & Hnd).
    specialize (Hnd (EvictionFacts.fixed_connected_NoDup p Hwf)).
    assert (Hkeys : incl R0 (dict_keys (Fixed.known_peers p))).
    { intros x Hx. apply Hin in Hx.
      eapply FixedFacts.get_peers_by_state_keys; eauto. }
    rewrite (EvictionFacts.delete_all_Ok _ _ Hwf Hnd Hkeys). simpl.
    exists (Fixed.with_known_peers p (discard_all (Fixed.known_peers p) R0)),
           R0, g'.
    split; [reflexivity|]. split; [exact HlenR|]. split; [exact Hnd|].
    split; [exact Hin|].
    rewrite EvictionFacts.connected_after_discard by assumption.
    split; [reflexivity|].
    split.
    + rewrite without_len by
        (auto using EvictionFacts.fixed_connected_NoDup; intros x Hx; auto).
      lia.
    + simpl. split.
      * intros k Hk. now apply dict_get_discard_all_same.
      * intros k Hk. now apply dict_get_discard_all_other.
  - intros Hneg.
    destruct (len (Fixed.get_connected_peers p) <=? Fixed.max_connections p)
      eqn:E; [apply Z.leb_le in E; lia|].
    unfold sample.
    assert (H : (len (Fixed.get_connected_peers p)
                 <? len (Fixed.get_connected_peers p)
                    - Fixed.max_connections p) = true)
      by (apply Z.ltb_lt; lia).
    rewrite H, orb_true_r. reflexivity.
Qed.

Lemma uniform_eviction_exact_witness :
  exists p' R g',
    Fixed.remove_excess_connections spread_peer pick_rng = Ok (p', R, g') /\
    len R = 3 /\
    len (Fixed.get_connected_peers p') = 4.
Proof.
  assert (Hwf : dict_wf (Fixed.known_peers spread_peer)).
  { unfold dict_wf. simpl. repeat constructor; simpl; lia. }
  destruct (proj1 (proj2 (uniform_eviction_exact spread_peer pick_rng Hwf)))
    as (p' & R & g' & H & HR & _ & _ & _ & Hc & _).
  { vm_compute. split; [discriminate|reflexivity]. }
  exists p', R, g'. split; [exact H|]. split; [exact HR|exact Hc].
Defined.

(* ================================================================= *)
(** ** The report of the network state *)

Lemma fold_dict_set_get_wf {A V : Type} (f : Z -> A -> V) (d : dict A) :
  dict_wf d ->
  forall acc k,
    dict_get
      (fold_left (fun states e => dict_set states (fst e) (f (fst e) (snd e)))
                 d acc) k =
    match dict_get d k with
    | Some a => Some (f k a)
    | None => dict_get acc k
    end.
Proof.
  unfold dict_wf. induction d as [|[k0 a0] d IH]; intros Hwf acc k;
    simpl; [reflexivity|].
  inversion Hwf as [|? ? Hnotin Hwf']; subst.
  rewrite IH by assumption.
  destruct (k0 =? k) eqn:E.
  - apply Z.eqb_eq in E. subst k0.
    assert (Hn : dict_get d k = None) by now apply dict_get_None_keys.
    rewrite Hn. apply dict_get_set_same.
  - apply Z.eqb_neq in E.
    destruct (dict_get d k); [reflexivity|].
    now apply dict_get_set_other.
Qed.

Lemma states_partition (p : Fixed.Peer) :
  len (Fixed.get_peers_by_state p CONNECTED)
  + len (Fixed.get_peers_by_state p PROSPECT)
  + len (Fixed.get_peers_by_state p PENDING)
  + len (Fixed.get_peers_by_state p IDENTIFIED)
  = len (Fixed.known_peers p).
Proof.
  unfold Fixed.get_peers_by_state, len. rewrite !length_map.
  set (c st := length (filter (fun e : Z * Fixed.PeerInfo =>
                                 PeerState_eqb (Fixed.state (snd e)) st)
                              (Fixed.known_peers p))).
  enough (H : (c CONNECTED + c PROSPECT + c PENDING + c IDENTIFIED
               = length (Fixed.known_peers p))%nat).
  { fold (c CONNECTED) (c PROSPECT) (c PENDING) (c IDENTIFIED). lia. }
  unfold c. clear c.
  induction (Fixed.known_peers p) as [|[k [st lh]] kp IH]; [reflexivity|].
  destruct st; simpl in *; lia.
Qed.

(** X7.  In the report of [get_network_state] every registered peer has
    an entry; its state breakdown adds up to the number of known peers,
    its Connected entry is the connected count, its type is [connected]
    exactly for the members of the connected set; and every known peer is
    listed under exactly one state. *)
Theorem network_state_breakdown :
  forall (sim : Fixed.NetworkSimulator) (k : Z) (p : Fixed.Peer),
    dict_wf (Fixed.peers sim) ->
    dict_get (Fixed.peers sim) k = Some p ->
    exists rep,
      dict_get (FixedReport.peer_states (FixedReport.get_network_state sim)) k
        = Some rep /\
      FixedReport.total_known rep = len (Fixed.known_peers p) /\
      fold_right Z.add 0 (map snd (FixedReport.state_breakdown rep))
        = FixedReport.total_known rep /\
      In (CONNECTED, FixedReport.connected_count rep)
         (FixedReport.state_breakdown rep) /\
      (FixedReport.type rep = FixedReport.connected <->
       In k (Fixed.connected_set sim)) /\
      (dict_wf (Fixed.known_peers p) ->
       forall x,
         In x (dict_keys (Fixed.known_peers p)) ->
         exists st,
           In x (Fixed.get_peers_by_state p st) /\
           forall st', In x (Fixed.get_peers_by_state p st') -> st' = st).
Proof.
  intros sim k p Hwf Hget.
  exists (FixedReport.peer_report sim k p).
  split.
  { unfold FixedReport.get_network_state. simpl.
    rewrite (fold_dict_set_get_wf (FixedReport.peer_report sim)) by assumption.
    now rewrite Hget. }
  unfold FixedReport.peer_report. simpl.
  split; [reflexivity|].
  split; [pose proof (states_partition p); lia|].
  split; [now left|].
  split.
  { destruct (mem k (Fixed.connected_set sim)) eqn:E.
    - apply mem_In in E. split; auto.
    - apply mem_false in E. split; [discriminate|contradiction]. }
  intros Hkp x Hx.
  unfold dict_keys in Hx. apply in_map_iff in Hx.
  destruct Hx as [[x' info] [Hx Hin]]. simpl in Hx. subst x'.
  exists (Fixed.state info). split.
  - unfold Fixed.get_peers_by_state. apply in_map_iff.
    exists (x, info). split; [reflexivity|]. apply filter_In.
    split; [exact Hin|]. simpl. now destruct (Fixed.state info).
  - intros st' Hst'. unfold Fixed.get_peers_by_state in Hst'.
    apply in_map_iff in Hst'. destruct Hst' as [[x' info'] [Hx' Hin']].
    simpl in Hx'. subst x'. apply filter_In in Hin'.
    destruct Hin' as [Hin' Hb]. simpl in Hb.
    assert (info' = info).
    { pose proof (GradientFacts.wf_get_entry _ _ _ Hkp Hin) as H1.
      pose proof (GradientFacts.wf_get_entry _ _ _ Hkp Hin') as H2.
      congruence. }
    subst info'. destruct (Fixed.state info), st'; simpl in Hb;
      try discriminate; reflexivity.
Qed.

Lemma network_state_breakdown_witness :
  exists rep,
    dict_get (FixedReport.peer_states (FixedReport.get_network_state trio_sim))
             1 = Some rep /\
    FixedReport.total_known rep = 2 /\
    fold_right Z.add 0 (map snd (FixedReport.state_breakdown rep)) = 2.
Proof.
  destruct (network_state_breakdown trio_sim 1 (trio_member 1 2 3))
    as (rep & H1 & H2 & H3 & _).
  - unfold dict_wf. simpl. repeat constructor; simpl; lia.
  - reflexivity.
  - exists rep. split; [exact H1|]. rewrite H3, H2. split; reflexivity.
Defined.

(* ================================================================= *)
(** ** Discovery and dispatch *)

(** X8.  The self-initiated transition on a discovery [d]: nothing
    happens (no record changes, no invite) when [d] is [None], [0], the
    peer's own identifier, or not registered, and also when [d] is held
    as Pending; otherwise an unknown or Identified [d] becomes Pending, a
    Prospect becomes Connected, a Connected one has its last-heard round
    set to the current round, and exactly one invite to [d] is queued.
    No record of another peer is touched. *)
Theorem self_initiated_transition_table :
  forall (sim : Fixed.NetworkSimulator) (peer : Fixed.Peer) (d : Z),
    let res := Fixed.handle_discovery sim peer (Some d) in
    let fires :=
      d <> 0 /\ d <> Fixed.id peer /\ dict_mem (Fixed.peers sim) d = true in
    Fixed.handle_discovery sim peer None = (peer, []) /\
    (~ fires -> res = (peer, [])) /\
    (Fixed.get_peer_state peer d = Some PENDING -> res = (peer, [])) /\
    (fires ->
     (Fixed.get_peer_state peer d = None \/
      Fixed.get_peer_state peer d = Some IDENTIFIED ->
      Fixed.get_peer_state (fst res) d = Some PENDING /\
      snd res = [(Fixed.id peer, d)]) /\
     (Fixed.get_peer_state peer d = Some PROSPECT ->
      Fixed.get_peer_state (fst res) d = Some CONNECTED /\
      snd res = [(Fixed.id peer, d)]) /\
     (Fixed.get_peer_state peer d = Some CONNECTED ->
      dict_get (Fixed.known_peers (fst res)) d
        = Some (Fixed.mkPeerInfo CONNECTED (Fixed.round_number sim)) /\
      snd res = [(Fixed.id peer, d)])) /\
    (forall k,
        k <> d ->
        dict_get (Fixed.known_peers (fst res)) k
          = dict_get (Fixed.known_peers peer) k).
Proof.
  intros sim peer d res fires. subst res fires.
  unfold Fixed.handle_discovery, truthy.
  split; [reflexivity|].
  split.
  { intros Hn.
    destruct (d =? 0) eqn:E0; [reflexivity|].
    destruct (d =? Fixed.id peer) eqn:E1; [reflexivity|].
    destruct (dict_mem (Fixed.peers sim) d) eqn:E2; [|reflexivity].
    exfalso. apply Hn. apply Z.eqb_neq in E0, E1. auto. }
  split.
  { intros Hp. rewrite Hp.
    now destruct (negb (d =? 0) && negb (d =? Fixed.id peer) &&
                  dict_mem (Fixed.peers sim) d). }
  split.
  { intros (H0 & H1 & H2).
    apply Z.eqb_neq in H0, H1. rewrite H0, H1, H2. simpl.
    split; [|split].
    - intros [H|H]; rewrite H; simpl;
        now rewrite FixedInvites.fixed_get_peer_state_set.
    - intros H. rewrite H. simpl.
      now rewrite FixedInvites.fixed_get_peer_state_set.
    - intros H. rewrite H. simpl. split; [|reflexivity].
      unfold Fixed.update_last_heard_from.
      unfold Fixed.get_peer_state in H.
      destruct (dict_get (Fixed.known_peers peer) d) as [info|];
        [|discriminate].
      injection H as H. simpl. rewrite dict_get_set_same. now rewrite H. }
  intros k Hne.
  destruct (negb (d =? 0) && negb (d =? Fixed.id peer) &&
            dict_mem (Fixed.peers sim) d); [|reflexivity].
  destruct (Fixed.get_peer_state peer d) as [[]|]; simpl;
    auto using fixed_set_state_other, fixed_update_other.
Qed.

Lemma phase2_app sim a b :
  Fixed.phase2 sim (a ++ b) = Fixed.phase2 (Fixed.phase2 sim a) b.
Proof. unfold Fixed.phase2. apply fold_left_app. Qed.

Lemma deliver_mem sim s t k :
  dict_mem (Fixed.peers (Fixed.deliver sim s t)) k
    = dict_mem (Fixed.peers sim) k.
Proof.
  destruct (dict_mem (Fixed.peers sim) k) eqn:E.
  - apply dict_mem_keys. rewrite FixedRounds.deliver_keys.
    now apply dict_mem_keys.
  - destruct (dict_mem (Fixed.peers (Fixed.deliver sim s t)) k) eqn:E';
      [|reflexivity].
    apply dict_mem_keys in E'. rewrite FixedRounds.deliver_keys in E'.
    apply dict_mem_keys in E'. congruence.
Qed.

Lemma inbox_unregistered sim k :
  dict_mem (Fixed.peers sim) k = false -> FixedRegistry.inbox sim k = [].
Proof.
  unfold dict_mem, FixedRegistry.inbox.
  now destruct (dict_get (Fixed.peers sim) k).
Qed.

(** X9.  Phase 2 delivers in order: the queue of a registered peer grows
    by the invites addressed to it, in the order they were queued and
    stamped with the current round; an invite to an identifier that is
    not registered is dropped; no relationship record, bound or
    registration changes. *)
Theorem dispatch_delivers_in_order :
  forall (sim : Fixed.NetworkSimulator) (invites : list (Z * Z)) (k : Z),
    let sim' := Fixed.phase2 sim invites in
    FixedRegistry.inbox sim' k =
      FixedRegistry.inbox sim k ++
      (if dict_mem (Fixed.peers sim) k
       then map (fun sr => mkInvite (fst sr) (Fixed.round_number sim))
                (filter (fun sr => snd sr =? k) invites)
       else []) /\
    FixedRegistry.record sim' k = FixedRegistry.record sim k /\
    dict_keys (Fixed.peers sim') = dict_keys (Fixed.peers sim) /\
    Fixed.round_number sim' = Fixed.round_number sim.
Proof.
  intros sim invites k. cbv zeta. revert sim.
  induction invites as [|[s t] invites IH]; intros sim.
  - simpl. split; [|auto].
    destruct (dict_mem (Fixed.peers sim) k); now rewrite app_nil_r.
  - change (Fixed.phase2 sim ((s, t) :: invites))
      with (Fixed.phase2 (Fixed.deliver sim s t) invites).
    destruct (IH (Fixed.deliver sim s t)) as (I1 & I2 & I3 & I4).
    rewrite I1, I2, I3, I4.
    rewrite deliver_mem, FixedRounds.deliver_round, FixedRounds.deliver_keys,
      FixedDegree.deliver_record.
    split; [|auto].
    cbn [filter snd]. destruct (t =? k) eqn:E.
    + apply Z.eqb_eq in E. subst t.
      destruct (dict_mem (Fixed.peers sim) k) eqn:Em.
      * rewrite FixedMaintenance.deliver_inbox_same by assumption.
        simpl. now rewrite <- app_assoc.
      * rewrite !app_nil_r.
        rewrite !inbox_unregistered; auto. now rewrite deliver_mem.
    + apply Z.eqb_neq in E.
      now rewrite FixedMaintenance.deliver_inbox_other.
Qed.

(* ================================================================= *)
(** ** Bootstrap *)

Lemma randint_range lo hi g :
  lo <= hi -> lo <= fst (randint lo hi g) <= hi.
Proof.
  intros H. unfold randint.
  pose proof (randbelow_lt (Z.to_nat (hi - lo + 1)) g) as Hlt.
  destruct (randbelow (Z.to_nat (hi - lo + 1)) g) as [x g']. simpl in *.
  assert ((x < Z.to_nat (hi - lo + 1))%nat) by (apply Hlt; lia). lia.
Qed.

Lemma generate_loop_spec fuel max_id count exclude :
  0 <= max_id ->
  forall generated g l g',
    Fixed.generate_loop fuel max_id count exclude generated g = Some (l, g') ->
    NoDup generated ->
    (forall x, In x generated -> 0 <= x <= max_id /\ ~ In x exclude) ->
    len generated <= Z.max 0 count ->
    NoDup l /\
    (forall x, In x l -> 0 <= x <= max_id /\ ~ In x exclude) /\
    len l = Z.max 0 count.
Proof.
  intros Hmax.
  induction fuel as [|fuel IH]; intros generated g l g';
    cbn [Fixed.generate_loop].
  - destruct (len generated <? count) eqn:E; [discriminate|].
    intros H Hnd Hin Hlen. injection H as <- <-.
    apply Z.ltb_ge in E. pose proof (len_nonneg generated). 
    split; [auto|]. split; [auto|lia].
  - destruct (len generated <? count) eqn:E.
    + apply Z.ltb_lt in E.
      pose proof (randint_range 0 max_id g Hmax) as Hr.
      destruct (randint 0 max_id g) as [peer_id g1]. simpl in Hr.
      destruct (negb (mem peer_id exclude) && negb (mem peer_id generated))
        eqn:Ef.
      * intros H Hnd Hin Hlen.
        apply andb_prop in Ef. destruct Ef as [E1 E2].
        apply negb_true_iff in E1, E2. apply mem_false in E1, E2.
        eapply IH; eauto.
        -- apply NoDup_app; [auto|repeat constructor; intros []|].
           intros x Hx [<-|[]]. contradiction.
        -- intros x Hx. apply in_app_or in Hx.
           destruct Hx as [Hx|[<-|[]]]; auto.
        -- rewrite len_app. unfold len at 2. simpl. lia.
      * intros H Hnd Hin Hlen. eapply IH; eauto.
    + intros H Hnd Hin Hlen. injection H as <- <-.
      apply Z.ltb_ge in E. pose proof (len_nonneg generated).
      split; [auto|]. split; [auto|lia].
Qed.

(** X10.  [_generate_peer_ids], when its loop ends: the identifiers are
    pairwise distinct, there are exactly [count] of them (none for a
    non-positive [count]), each lies in [0, 2^address_space_bits - 1] and
    none is in [exclude]; this in whatever order the set is listed. *)
Theorem generated_ids_fresh_and_distinct :
  forall (list_of_set : list Z -> list Z) (cfg : SimulationConfig)
         (fuel : nat) (count : Z) (exclude : list Z) (g : Rng)
         (ids : list Z) (g' : Rng),
    (forall l, Permutation (list_of_set l) l) ->
    0 <= address_space_bits cfg ->
    Fixed._generate_peer_ids list_of_set cfg fuel count exclude g
      = Some (ids, g') ->
    NoDup ids /\
    len ids = Z.max 0 count /\
    (forall x, In x ids ->
               0 <= x < 2 ^ address_space_bits cfg /\ ~ In x exclude).
Proof.
  intros los cfg fuel count exclude g ids g' Hperm Hbits.
  unfold Fixed._generate_peer_ids.
  destruct (Fixed.generate_loop fuel _ count exclude [] g)
    as [[generated g1]|] eqn:E; [|discriminate].
  intros H. injection H as <- <-.
  assert (Hpow : Z.shiftl 1 (address_space_bits cfg)
                 = 2 ^ address_space_bits cfg).
  { rewrite Z.shiftl_mul_pow2 by lia. lia. }
  rewrite Hpow in E.
  assert (Hpos : 0 < 2 ^ address_space_bits cfg)
    by (apply Z.pow_pos_nonneg; lia).
  assert (Hm : 0 <= 2 ^ address_space_bits cfg - 1) by lia.
  destruct (generate_loop_spec _ _ _ _ Hm _ _ _ _ E)
    as (Hnd & Hin & Hlen).
  - constructor.
  - intros x [].
  - unfold len. simpl. lia.
  - split; [|split].
    + eapply Permutation_NoDup; [symmetry; apply Hperm|exact Hnd].
    + unfold len in *. rewrite (Permutation_length (Hperm generated)). exact Hlen.
    + intros x Hx. apply (Permutation_in _ (Hperm generated)) in Hx.
      destruct (Hin x Hx). split; [lia|auto].
Qed.

Lemma generated_ids_fresh_and_distinct_witness :
  exists ids,
    option_map fst
      (Fixed._generate_peer_ids insertion_order demo_cfg 40 4 [] demo_rng)
      = Some ids /\
    NoDup ids /\ len ids = 4.
Proof.
  destruct (Fixed._generate_peer_ids insertion_order demo_cfg 40 4 [] demo_rng)
    as [[ids g']|] eqn:E.
  - exists ids. split; [reflexivity|].
    destruct (generated_ids_fresh_and_distinct insertion_order demo_cfg 40 4
                [] demo_rng ids g') as (H1 & H2 & _).
    + intros l. apply Permutation_refl.
    + simpl. lia.
    + exact E.
    + split; [exact H1|exact H2].
  - vm_compute in E. discriminate.
Defined.

Lemma dict_set_absent {V : Type} (d : dict V) k v :
  ~ In k (dict_keys d) -> dict_set d k v = d ++ [(k, v)].
Proof.
  induction d as [|[k0 v0] d IH]; simpl; intros H; [reflexivity|].
  destruct (k0 =? k) eqn:E.
  - apply Z.eqb_eq in E. subst. exfalso. apply H. now left.
  - rewrite IH; [reflexivity|]. intros Hin. apply H. now right.
Qed.

Lemma fold_left_filter {A B : Type} (c : B -> bool) (f : A -> B -> A) l :
  forall a,
    fold_left (fun x b => if c b then f x b else x) l a
    = fold_left f (filter c l) a.
Proof.
  induction l as [|b l IH]; intros a; simpl; [reflexivity|].
  destruct (c b); simpl; apply IH.
Qed.

Lemma fold_add_peer_fresh st lh l :
  forall p0,
    NoDup l ->
    (forall x, In x l -> ~ In x (dict_keys (Fixed.known_peers p0))) ->
    let p := fold_left (fun peer x => Fixed.add_peer peer x st lh) l p0 in
    Fixed.known_peers p
      = Fixed.known_peers p0 ++ map (fun x => (x, Fixed.mkPeerInfo st lh)) l /\
    Fixed.id p = Fixed.id p0 /\
    Fixed.max_connections p = Fixed.max_connections p0 /\
    Fixed.pending_invites p = Fixed.pending_invites p0.
Proof.
  induction l as [|x l IH]; intros p0 Hnd Hfresh; simpl.
  - now rewrite app_nil_r.
  - inversion Hnd as [|? ? Hx Hnd']; subst.
    destruct (IH (Fixed.add_peer p0 x st lh) Hnd') as (H1 & H2 & H3 & H4).
    { intros y Hy. rewrite FixedFacts.add_peer_keys.
      intros [->|Hin]; [contradiction|].
      apply (Hfresh y); [now right|exact Hin]. }
    cbv zeta in *. rewrite H1, H2, H3, H4. simpl.
    rewrite dict_set_absent by (apply Hfresh; now left).
    rewrite <- app_assoc. auto.
Qed.

Lemma connected_member_shape cfg ids k :
  NoDup ids ->
  let p := Fixed.connected_member cfg ids k in
  Fixed.id p = k /\
  Fixed.max_connections p = max_connections_per_peer cfg /\
  Fixed.pending_invites p = [] /\
  Fixed.known_peers p
    = map (fun o => (o, Fixed.mkPeerInfo CONNECTED 0))
          (filter (fun o => negb (o =? k)) ids).
Proof.
  intros Hnd. unfold Fixed.connected_member.
  rewrite (fold_left_filter (fun o => negb (o =? k))
             (fun peer o => Fixed.add_peer peer o CONNECTED 0)).
  destruct (fold_add_peer_fresh CONNECTED 0
              (filter (fun o => negb (o =? k)) ids)
              (Fixed.new_peer k (max_connections_per_peer cfg)))
    as (H1 & H2 & H3 & H4).
  - now apply NoDup_filter.
  - intros x _ [].
  - cbv zeta in *. rewrite H1, H2, H3, H4. simpl. auto.
Qed.

Lemma candidate_member_shape cfg ids k g p g' :
  Fixed.candidate_member cfg ids k g = Ok (p, g') ->
  NoDup ids ->
  Fixed.id p = k /\
  Fixed.max_connections p = max_connections_per_peer cfg /\
  Fixed.pending_invites p = [] /\
  exists chosen,
    Fixed.known_peers p
      = map (fun o => (o, Fixed.mkPeerInfo IDENTIFIED (-1))) chosen /\
    NoDup chosen /\
    incl chosen ids /\
    len chosen = Z.min (initial_identified_peers cfg) (len ids).
Proof.
  unfold Fixed.candidate_member. intros H Hnd.
  destruct (sample ids _ g) as [[chosen g1]|] eqn:E; simpl in H;
    [|discriminate].
  injection H as <- <-.
  apply sample_inv in E. destruct E as (_ & _ & Hlen & Hin & Hnd').
  destruct (fold_add_peer_fresh IDENTIFIED (-1) chosen
              (Fixed.new_peer k (max_connections_per_peer cfg)))
    as (H1 & H2 & H3 & H4); [auto | intros x _ []|].
  cbv zeta in *. rewrite H1, H2, H3, H4. simpl.
  split; [auto|]. split; [auto|]. split; [auto|].
  exists chosen. split; [auto|]. split; [auto|]. split; [exact Hin|exact Hlen].
Qed.

Lemma fold_dict_set_fresh {V : Type} (f : Z -> V) l :
  forall d,
    NoDup l ->
    (forall x, In x l -> ~ In x (dict_keys d)) ->
    fold_left (fun ps x => dict_set ps x (f x)) l d
    = d ++ map (fun x => (x, f x)) l.
Proof.
  induction l as [|x l IH]; intros d Hnd Hfresh; simpl.
  - now rewrite app_nil_r.
  - inversion Hnd as [|? ? Hx Hnd']; subst.
    rewrite IH; auto.
    + rewrite dict_set_absent by (apply Hfresh; now left).
      now rewrite <- app_assoc.
    + intros y Hy. rewrite dict_keys_set_In.
      intros [->|Hin]; [contradiction|].
      apply (Hfresh y); [now right|exact Hin].
Qed.

Lemma foldM_candidates cfg ids l :
  forall ps g ps' g',
    foldM (fun (acc : dict Fixed.Peer * Rng) peer_id =>
             let (ps0, g0) := acc in
             '(peer, g1) <- Fixed.candidate_member cfg ids peer_id g0 ;;
             Ok (dict_set ps0 peer_id peer, g1))
          l (ps, g) = Ok (ps', g') ->
    NoDup l ->
    (forall x, In x l -> ~ In x (dict_keys ps)) ->
    exists members,
      ps' = ps ++ members /\
      map fst members = l /\
      forall k p, In (k, p) members ->
                  exists g0 g1, Fixed.candidate_member cfg ids k g0 = Ok (p, g1).
Proof.
  induction l as [|x l IH]; intros ps g ps' g' H Hnd Hfresh; simpl in H.
  - injection H as <- <-. exists []. rewrite app_nil_r.
    split; [auto|]. split; [auto|]. intros k p [].
  - inversion Hnd as [|? ? Hx Hnd']; subst.
    destruct (Fixed.candidate_member cfg ids x g) as [[peer g1]|] eqn:E;
      simpl in H; [|discriminate].
    apply IH in H; auto.
    + destruct H as (members & -> & Hm & Hall).
      rewrite dict_set_absent by (apply Hfresh; now left).
      exists ((x, peer) :: members). rewrite <- app_assoc.
      split; [reflexivity|]. split; [simpl; now rewrite Hm|].
      intros k p [Heq|Hin]; [|eauto].
      injection Heq as <- <-. eauto.
    + intros y Hy. rewrite dict_keys_set_In.
      intros [->|Hin]; [contradiction|].
      apply (Hfresh y); [now right|exact Hin].
Qed.

Lemma generate_peer_ids_inv list_of_set cfg fuel count exclude g ids g' :
  (forall l, Permutation (list_of_set l) l) ->
  0 <= address_space_bits cfg ->
  Fixed._generate_peer_ids list_of_set cfg fuel count exclude g
    = Some (ids, g') ->
  NoDup ids /\ len ids = Z.max 0 count /\
  (forall x, In x ids -> ~ In x exclude).
Proof.
  intros Hperm Hbits. unfold Fixed._generate_peer_ids.
  destruct (Fixed.generate_loop fuel _ count exclude [] g)
    as [[generated g1]|] eqn:E; [|discriminate].
  intros H. injection H as <- <-.
  assert (Hpos : 0 < 2 ^ address_space_bits cfg)
    by (apply Z.pow_pos_nonneg; lia).
  assert (Hm : 0 <= Z.shiftl 1 (address_space_bits cfg) - 1).
  { rewrite Z.shiftl_mul_pow2 by lia. lia. }
  destruct (generate_loop_spec _ _ _ _ Hm _ _ _ _ E) as (Hnd & Hin & Hlen).
  - constructor.
  - intros x [].
  - unfold len. simpl. lia.
  - split; [|split].
    + eapply Permutation_NoDup; [symmetry; apply Hperm|exact Hnd].
    + unfold len in *. rewrite (Permutation_length (Hperm generated)).
      exact Hlen.
    + intros x Hx. apply (Permutation_in _ (Hperm generated)) in Hx.
      now destruct (Hin x Hx).
Qed.

Lemma initialize_network_shape :
  forall (list_of_set : list Z -> list Z) (cfg : SimulationConfig)
         (fuel : nat) (g : Rng) (sim : Fixed.NetworkSimulator) (g' : Rng),
    (forall l, Permutation (list_of_set l) l) ->
    0 <= address_space_bits cfg ->
    Fixed._initialize_network list_of_set cfg fuel g = Some (Ok (sim, g')) ->
    Fixed.config sim = cfg /\
    Fixed.round_number sim = 0 /\
    dict_keys (Fixed.peers sim)
      = Fixed.connected_set sim ++ Fixed.candidate_set sim /\
    NoDup (Fixed.connected_set sim ++ Fixed.candidate_set sim) /\
    len (Fixed.connected_set sim) = Z.max 0 (connected_set_size cfg) /\
    len (Fixed.candidate_set sim) = Z.max 0 (candidate_set_size cfg) /\
    (forall k,
        In k (Fixed.connected_set sim) ->
        exists p,
          dict_get (Fixed.peers sim) k = Some p /\
          Fixed.id p = k /\
          Fixed.max_connections p = max_connections_per_peer cfg /\
          Fixed.pending_invites p = [] /\
          Fixed.known_peers p
            = map (fun o => (o, Fixed.mkPeerInfo CONNECTED 0))
                  (filter (fun o => negb (o =? k)) (Fixed.connected_set sim))) /\
    (forall k,
        In k (Fixed.candidate_set sim) ->
        exists p chosen,
          dict_get (Fixed.peers sim) k = Some p /\
          Fixed.id p = k /\
          Fixed.max_connections p = max_connections_per_peer cfg /\
          Fixed.pending_invites p = [] /\
          Fixed.known_peers p
            = map (fun o => (o, Fixed.mkPeerInfo IDENTIFIED (-1))) chosen /\
          NoDup chosen /\
          incl chosen (Fixed.connected_set sim) /\
          len chosen
            = Z.min (initial_identified_peers cfg)
                    (len (Fixed.connected_set sim))).
Proof.
  intros los cfg fuel g sim g' Hperm Hbits. unfold Fixed._initialize_network.
  destruct (Fixed._generate_peer_ids los cfg fuel (connected_set_size cfg) [] g)
    as [[connected_ids g1]|] eqn:E1; [|discriminate].
  destruct (Fixed._generate_peer_ids los cfg fuel (candidate_set_size cfg)
              connected_ids g1) as [[candidate_ids g2]|] eqn:E2;
    [|discriminate].
  destruct (generate_peer_ids_inv _ _ _ _ _ _ _ _ Hperm Hbits E1)
    as (Hnd1 & Hlen1 & _).
  destruct (generate_peer_ids_inv _ _ _ _ _ _ _ _ Hperm Hbits E2)
    as (Hnd2 & Hlen2 & Hex).
  rewrite (fold_dict_set_fresh (Fixed.connected_member cfg connected_ids))
    by (auto; intros x _ []).
  simpl app.
  intros H. injection H as H. revert H.
  match goal with
  | |- bind ?c _ = _ -> _ => destruct c as [[ps2 g3]|] eqn:Hfold
  end; intros H; simpl in H; [|discriminate].
  injection H as <- <-. simpl.
  assert (Hkeys1 :
            dict_keys (map (fun x => (x, Fixed.connected_member cfg connected_ids x))
                           connected_ids) = connected_ids).
  { unfold dict_keys. rewrite map_map. simpl. apply map_id. }
  apply foldM_candidates in Hfold; auto.
  2: { intros x Hx. rewrite Hkeys1. now apply Hex. }
  destruct Hfold as (members & -> & Hm & Hall).
  assert (Hnd : NoDup (connected_ids ++ candidate_ids)).
  { apply NoDup_app; auto. intros x Hx Hx'. apply (Hex x Hx' Hx). }
  assert (Hkeys : dict_keys
                    (map (fun x => (x, Fixed.connected_member cfg connected_ids x))
                         connected_ids ++ members)
                  = connected_ids ++ candidate_ids).
  { unfold dict_keys in *. rewrite map_app. now rewrite Hkeys1, Hm. }
  assert (Hwf : dict_wf
                  (map (fun x => (x, Fixed.connected_member cfg connected_ids x))
                       connected_ids ++ members)).
  { unfold dict_wf. now rewrite Hkeys. }
  split; [reflexivity|]. split; [reflexivity|].
  split; [exact Hkeys|]. split; [exact Hnd|].
  split; [exact Hlen1|]. split; [exact Hlen2|].
  split.
  - intros k Hk.
    exists (Fixed.connected_member cfg connected_ids k).
    split.
    + apply GradientFacts.wf_get_entry; [exact Hwf|].
      apply in_or_app. left. apply in_map_iff. now exists k.
    + apply connected_member_shape. exact Hnd1.
  - intros k Hk.
    assert (Hin : In k (map fst members)) by now rewrite Hm.
    apply in_map_iff in Hin. destruct Hin as [[k' p] [Hk' Hin]].
    simpl in Hk'. subst k'.
    destruct (Hall k p Hin) as (g0 & g4 & Hc).
    destruct (candidate_member_shape _ _ _ _ _ _ Hc Hnd1)
      as (H1 & H2 & H3 & chosen & H4 & H5 & H6 & H7).
    exists p, chosen.
    split.
    + apply GradientFacts.wf_get_entry; [exact Hwf|].
      apply in_or_app. now right.
    + auto 10.
Qed.


(** X11.  The network right after [_initialize_network]: the registry
    lists the established members, then the joining ones, without
    repetition and in the configured numbers; the round counter is 0 and
    every queue is empty; an established member holds exactly the other
    established members, each Connected and heard from in round 0 (so
    the established members are mutually Connected); a joining member
    holds [min(initial_identified_peers, number of established members)]
    distinct established members, each Identified and never heard from. *)
Theorem bootstrap_structure :
  forall (list_of_set : list Z -> list Z) (cfg : SimulationConfig)
         (fuel : nat) (g : Rng) (sim : Fixed.NetworkSimulator) (g' : Rng),
    (forall l, Permutation (list_of_set l) l) ->
    0 <= address_space_bits cfg ->
    Fixed._initialize_network list_of_set cfg fuel g = Some (Ok (sim, g')) ->
    Fixed.config sim = cfg /\
    Fixed.round_number sim = 0 /\
    dict_keys (Fixed.peers sim)
      = Fixed.connected_set sim ++ Fixed.candidate_set sim /\
    NoDup (Fixed.connected_set sim ++ Fixed.candidate_set sim) /\
    len (Fixed.connected_set sim) = Z.max 0 (connected_set_size cfg) /\
    len (Fixed.candidate_set sim) = Z.max 0 (candidate_set_size cfg) /\
    (forall k,
        In k (Fixed.connected_set sim) ->
        exists p,
          dict_get (Fixed.peers sim) k = Some p /\
          Fixed.id p = k /\
          Fixed.max_connections p = max_connections_per_peer cfg /\
          Fixed.pending_invites p = [] /\
          Fixed.known_peers p
            = map (fun o => (o, Fixed.mkPeerInfo CONNECTED 0))
                  (filter (fun o => negb (o =? k)) (Fixed.connected_set sim))) /\
    (forall k,
        In k (Fixed.candidate_set sim) ->
        exists p chosen,
          dict_get (Fixed.peers sim) k = Some p /\
          Fixed.id p = k /\
          Fixed.max_connections p = max_connections_per_peer cfg /\
          Fixed.pending_invites p = [] /\
          Fixed.known_peers p
            = map (fun o => (o, Fixed.mkPeerInfo IDENTIFIED (-1))) chosen /\
          NoDup chosen /\
          incl chosen (Fixed.connected_set sim) /\
          len chosen
            = Z.min (initial_identified_peers cfg)
                    (len (Fixed.connected_set sim))).
Proof.
  intros los cfg fuel g sim g' Hperm Hbits Hinit.
  exact (initialize_network_shape los cfg fuel g sim g' Hperm Hbits Hinit).
Qed.

Lemma bootstrap_structure_witness :
  Fixed.round_number (fst demo_boot) = 0 /\
  len (Fixed.connected_set (fst demo_boot)) = 4 /\
  len (Fixed.candidate_set (fst demo_boot)) = 2.
Proof.
  destruct (bootstrap_structure insertion_order demo_cfg 40 demo_rng
              (fst demo_boot) (snd demo_boot))
    as (_ & H1 & _ & _ & H2 & H3 & _).
  - intros l. apply Permutation_refl.
  - simpl. lia.
  - vm_compute. reflexivity.
  - split; [exact H1|]. split; [exact H2|exact H3].
Defined.

(* ================================================================= *)
(** ** What a round keeps *)

Module FixedFrame.
Import Fixed FixedRegistry.

Lemma identity_set_same sim key p :
  identity (with_peers sim (dict_set (peers sim) key p)) key
    = Some (id p, max_connections p).
Proof. unfold identity. simpl. now rewrite dict_get_set_same. Qed.

Lemma identity_set_other sim key p k :
  key <> k ->
  identity (with_peers sim (dict_set (peers sim) key p)) k = identity sim k.
Proof.
  intros H. unfold identity. simpl. now rewrite dict_get_set_other.
Qed.

Lemma identity_set_keep sim key p p' k :
  dict_get (peers sim) key = Some p ->
  id p' = id p -> max_connections p' = max_connections p ->
  identity (with_peers sim (dict_set (peers sim) key p')) k = identity sim k.
Proof.
  intros Hget Hid Hmax. destruct (Z.eq_dec key k) as [<-|Hne].
  - rewrite identity_set_same. unfold identity. rewrite Hget. simpl.
    now rewrite Hid, Hmax.
  - now apply identity_set_other.
Qed.

Lemma deliver_identity sim s t k :
  identity (deliver sim s t) k = identity sim k.
Proof.
  unfold deliver. destruct (dict_get (peers sim) t) as [tp|] eqn:E;
    [|reflexivity].
  eapply identity_set_keep; eauto.
Qed.

Lemma handle_discovery_max sim peer d :
  max_connections (fst (handle_discovery sim peer d)) = max_connections peer.
Proof.
  unfold handle_discovery. destruct d as [d|]; [|reflexivity].
  destruct (truthy (Some d) && negb (d =? id peer) && dict_mem (peers sim) d);
    [|reflexivity].
  destruct (get_peer_state peer d) as [[]|]; simpl;
    auto using FixedFacts.set_peer_state_max,
               FixedFacts.update_last_heard_from_max.
Qed.

Lemma phase1_step_identity sim invites g key sim' invites' g' k :
  phase1_step (sim, invites, g) key = Ok (sim', invites', g') ->
  identity sim' k = identity sim k.
Proof.
  unfold phase1_step. intros H.
  destruct (dict_get (peers sim) key) as [peer|] eqn:Hget.
  - destruct (simulate_mapping_request sim peer g) as [[d g1]|];
      simpl in H; [|discriminate].
    pose proof (handle_discovery_max sim peer d) as Hmax.
    destruct (handle_discovery sim peer d) as [peer' sent] eqn:Hd.
    destruct (FixedRounds.handle_discovery_spec _ _ _ _ _ Hd) as (Hid & _).
    injection H as <- <- <-.
    eapply identity_set_keep; eauto.
  - injection H as <- <- <-. reflexivity.
Qed.

Lemma foldM_frame {A B C : Type} (f : A -> B -> res A) (m : A -> C) l :
  (forall a x a', f a x = Ok a' -> m a' = m a) ->
  forall a a', foldM f l a = Ok a' -> m a' = m a.
Proof.
  intros Hf. induction l as [|x l IH]; intros a a' H; simpl in H.
  - now injection H as <-.
  - destruct (f a x) as [a1|] eqn:E; simpl in H; [|discriminate].
    rewrite (IH _ _ H). eapply Hf; eauto.
Qed.

Lemma phase1_identity sim g sim' invites g' k :
  phase1 sim g = Ok (sim', invites, g') -> identity sim' k = identity sim k.
Proof.
  unfold phase1. intros H.
  apply (foldM_frame phase1_step
           (fun a : NetworkSimulator * list (Z * Z) * Rng =>
              identity (fst (fst a)) k)) in H; [exact H|].
  intros [[s i] g0] x [[s' i'] g0'] Hs. simpl.
  eapply phase1_step_identity; eauto.
Qed.

Lemma phase2_identity sim invites k :
  identity (phase2 sim invites) k = identity sim k.
Proof.
  unfold phase2.
  apply (fold_left_invariant (fun s => identity s k = identity sim k));
    [|reflexivity].
  intros s sr Hs _. now rewrite deliver_identity.
Qed.

Lemma maintenance_identity sim peer g sim' selected g' k :
  maintenance sim peer g = Ok (sim', selected, g') ->
  identity sim' k = identity sim k.
Proof.
  unfold maintenance. destruct (2 <=? len (get_connected_peers peer)).
  - destruct (sample (get_connected_peers peer) 2 g) as [[sel g1]|];
      simpl; [|discriminate].
    intros H. injection H as <- <- <-.
    apply (fold_left_invariant (fun s => identity s k = identity sim k)); auto.
    intros s t Hs _. now rewrite deliver_identity.
  - intros H. injection H as <- <- <-. reflexivity.
Qed.

Lemma phase3_step_identity sim log g key sim' log' g' k :
  phase3_step (sim, log, g) key = Ok (sim', log', g') ->
  identity sim' k = identity sim k.
Proof.
  unfold phase3_step. intros H.
  destruct (dict_get (peers sim) key) as [peer|] eqn:Hget;
    [|injection H as <- <- <-; reflexivity].
  pose proof (FixedFacts.process_invites_spec peer (round_number sim)) as Hp.
  destruct (process_invites peer (round_number sim)) as [peer1 sc].
  cbv zeta in Hp. cbn [fst] in Hp. destruct Hp as (Hid1 & Hmax1 & _).
  set (sim1 := with_peers sim (dict_set (peers sim) key peer1)) in *.
  assert (H1 : forall k0, identity sim1 k0 = identity sim k0).
  { intros k0. eapply identity_set_keep; eauto. }
  destruct (maintenance sim1 peer1 g) as [[[sim2 sel] g1]|] eqn:Hm;
    simpl in H; [|discriminate].
  pose proof (fun k0 => maintenance_identity _ _ _ _ _ _ k0 Hm) as H2.
  destruct (dict_get (peers sim2) key) as [peer2|] eqn:Hget2.
  - destruct (remove_excess_connections peer2 g1) as [[[peer3 rem] g2]|]
      eqn:Hr; simpl in H; [|discriminate].
    injection H as <- <- <-.
    destruct (FixedFacts.remove_excess_connections_spec _ _ _ _ _ Hr)
      as (Hid3 & Hmax3 & _).
    rewrite (identity_set_keep sim2 key peer2 peer3 k Hget2 Hid3 Hmax3).
    now rewrite H2, H1.
  - injection H as <- <- <-. now rewrite H2, H1.
Qed.

Lemma phase3_identity sim g sim' log g' k :
  phase3 sim g = Ok (sim', log, g') -> identity sim' k = identity sim k.
Proof.
  unfold phase3. intros H.
  apply (foldM_frame phase3_step
           (fun a : NetworkSimulator * list (Z * list Invite) * Rng =>
              identity (fst (fst a)) k)) in H; [exact H|].
  intros [[s i] g0] x [[s' i'] g0'] Hs. simpl.
  eapply phase3_step_identity; eauto.
Qed.

Lemma frame_set sim key p p' :
  dict_get (peers sim) key = Some p ->
  frame (with_peers sim (dict_set (peers sim) key p')) = frame sim.
Proof.
  intros H. unfold frame. simpl.
  rewrite dict_keys_set_present by (eapply dict_get_In_keys; eauto).
  reflexivity.
Qed.

Lemma deliver_same_frame sim s t : frame (deliver sim s t) = frame sim.
Proof.
  unfold deliver. destruct (dict_get (peers sim) t) as [tp|] eqn:E;
    [|reflexivity].
  eapply frame_set; eauto.
Qed.

Lemma phase1_same_frame sim g sim' invites g' :
  phase1 sim g = Ok (sim', invites, g') -> frame sim' = frame sim.
Proof.
  unfold phase1. intros H.
  apply (foldM_frame phase1_step
           (fun a : NetworkSimulator * list (Z * Z) * Rng =>
              frame (fst (fst a)))) in H; [exact H|].
  intros [[s i] g0] x [[s' i'] g0'] Hs. simpl.
  unfold phase1_step in Hs.
  destruct (dict_get (peers s) x) as [peer|] eqn:Hget.
  - destruct (simulate_mapping_request s peer g0) as [[d g2]|];
      simpl in Hs; [|discriminate].
    destruct (handle_discovery s peer d) as [peer' sent].
    injection Hs as <- <- <-. eapply frame_set; eauto.
  - now injection Hs as <- <- <-.
Qed.

Lemma phase2_same_frame sim invites : frame (phase2 sim invites) = frame sim.
Proof.
  unfold phase2.
  apply (fold_left_invariant (fun s => frame s = frame sim)); [|reflexivity].
  intros s sr Hs _. now rewrite deliver_same_frame.
Qed.

Lemma maintenance_same_frame sim peer g sim' selected g' :
  maintenance sim peer g = Ok (sim', selected, g') -> frame sim' = frame sim.
Proof.
  unfold maintenance. destruct (2 <=? len (get_connected_peers peer)).
  - destruct (sample (get_connected_peers peer) 2 g) as [[sel g1]|];
      simpl; [|discriminate].
    intros H. injection H as <- <- <-.
    apply (fold_left_invariant (fun s => frame s = frame sim)); auto.
    intros s t Hs _. now rewrite deliver_same_frame.
  - intros H. injection H as <- <- <-. reflexivity.
Qed.

Lemma phase3_same_frame sim g sim' log g' :
  phase3 sim g = Ok (sim', log, g') -> frame sim' = frame sim.
Proof.
  unfold phase3. intros H.
  apply (foldM_frame phase3_step
           (fun a : NetworkSimulator * list (Z * list Invite) * Rng =>
              frame (fst (fst a)))) in H; [exact H|].
  intros [[s i] g0] key [[s' i'] g0'] Hs. simpl.
  unfold phase3_step in Hs.
  destruct (dict_get (peers s) key) as [peer|] eqn:Hget;
    [|now injection Hs as <- <- <-].
  destruct (process_invites peer (round_number s)) as [peer1 sc].
  assert (H1 : frame (with_peers s (dict_set (peers s) key peer1)) = frame s)
    by (eapply frame_set; eauto).
  assert (R1 : round_number (with_peers s (dict_set (peers s) key peer1))
               = round_number s) by reflexivity.
  destruct (maintenance _ peer1 g0) as [[[sim2 sel] g1]|] eqn:Hm;
    simpl in Hs; [|discriminate].
  apply maintenance_same_frame in Hm.
  destruct (dict_get (peers sim2) key) as [peer2|] eqn:Hget2.
  - destruct (remove_excess_connections peer2 g1) as [[[peer3 rem] g2]|];
      simpl in Hs; [|discriminate].
    injection Hs as <- <- <-.
    rewrite (frame_set sim2 key peer2 peer3 Hget2). congruence.
  - injection Hs as <- <- <-. congruence.
Qed.

(** One round: what it keeps of the simulator. *)
Lemma simulate_round_frame sim g sim' g' :
  Fixed.simulate_round sim g = Ok (sim', g') ->
  Fixed.config sim' = Fixed.config sim /\
  Fixed.connected_set sim' = Fixed.connected_set sim /\
  Fixed.candidate_set sim' = Fixed.candidate_set sim /\
  dict_keys (Fixed.peers sim') = dict_keys (Fixed.peers sim) /\
  Fixed.round_number sim' = Fixed.round_number sim + 1 /\
  forall k, identity sim' k = identity sim k.
Proof.
  unfold simulate_round. intros H.
  destruct (phase1 sim g) as [[[sim1 inv] g1]|] eqn:H1; simpl in H;
    [|discriminate].
  destruct (phase3 (phase2 sim1 inv) g1) as [[[sim3 log] g2]|] eqn:H3;
    simpl in H; [|discriminate].
  injection H as <- <-.
  pose proof (phase1_same_frame _ _ _ _ _ H1) as F1.
  pose proof (phase2_same_frame sim1 inv) as F2.
  pose proof (phase3_same_frame _ _ _ _ _ H3) as F3.
  rewrite F2, F1 in F3. unfold frame in F3.
  injection F3 as E1 E2 E3 E4 E5. simpl.
  split; [exact E1|]. split; [exact E2|]. split; [exact E3|].
  split; [exact E5|]. split; [now rewrite E4|].
  intros k. unfold identity at 1. simpl.
  change (identity sim3 k = identity sim k).
  rewrite (phase3_identity _ _ _ _ _ k H3), phase2_identity.
  eapply phase1_identity; eauto.
Qed.

(** X12.  A round keeps the network what it is: the configuration, the
    two sets and the registered identifiers (with their order) are
    unchanged, no peer changes its identifier or its bound, and the round
    counter goes up by exactly one; after [n] rounds it is up by [n]. *)
Theorem round_keeps_the_registry :
  forall (n : nat) (sim : Fixed.NetworkSimulator) (g : Rng)
         (sim' : Fixed.NetworkSimulator) (g' : Rng),
    (Fixed.simulate_round sim g = Ok (sim', g') ->
     Fixed.config sim' = Fixed.config sim /\
     Fixed.connected_set sim' = Fixed.connected_set sim /\
     Fixed.candidate_set sim' = Fixed.candidate_set sim /\
     dict_keys (Fixed.peers sim') = dict_keys (Fixed.peers sim) /\
     Fixed.round_number sim' = Fixed.round_number sim + 1 /\
     forall k, identity sim' k = identity sim k) /\
    (Fixed.run_rounds n sim g = Ok (sim', g') ->
     Fixed.config sim' = Fixed.config sim /\
     Fixed.connected_set sim' = Fixed.connected_set sim /\
     Fixed.candidate_set sim' = Fixed.candidate_set sim /\
     dict_keys (Fixed.peers sim') = dict_keys (Fixed.peers sim) /\
     Fixed.round_number sim' = Fixed.round_number sim + Z.of_nat n /\
     forall k, identity sim' k = identity sim k).
Proof.
  pose proof simulate_round_frame as Hround.
  intros n sim g sim' g'. split; [apply Hround|].
  revert sim g. induction n as [|n IH]; intros sim g H.
  - simpl in H. injection H as <- <-. rewrite Z.add_0_r. auto 10.
  - cbn [run_rounds] in H.
    destruct (simulate_round sim g) as [[sim1 g1]|] eqn:E; simpl in H;
      [|discriminate].
    destruct (Hround _ _ _ _ E) as (A1 & A2 & A3 & A4 & A5 & A6).
    destruct (IH _ _ H) as (B1 & B2 & B3 & B4 & B5 & B6).
    rewrite B1, B2, B3, B4, B5, A1, A2, A3, A4, A5.
    do 4 (split; [reflexivity|]). split; [lia|].
    intros k. now rewrite B6, A6.
Qed.

End FixedFrame.

(* ================================================================= *)
(** ** Rounds never raise *)

Module FixedTotal.
Import Fixed FixedRegistry.

Lemma foldM_total {A B : Type} (P : A -> Prop) (f : A -> B -> res A) l :
  (forall a x, P a -> In x l -> exists a', f a x = Ok a' /\ P a') ->
  forall a, P a -> exists a', foldM f l a = Ok a' /\ P a'.
Proof.
  induction l as [|x l IH]; intros Hf a Ha; simpl.
  - eauto.
  - destruct (Hf a x Ha (or_introl eq_refl)) as (a1 & E & Ha1).
    rewrite E. simpl. apply IH; auto.
    intros a0 y H0 Hy. apply Hf; auto. now right.
Qed.

Lemma bounds_identity sim sim' :
  (forall k, identity sim' k = identity sim k) ->
  bounds_nonneg (peers sim) -> bounds_nonneg (peers sim').
Proof.
  intros H Hb k p' Hk. specialize (H k). unfold identity in H.
  rewrite Hk in H. simpl in H.
  destruct (dict_get (peers sim) k) as [p|] eqn:E; [|discriminate].
  simpl in H. injection H as _ ->. eapply Hb; eauto.
Qed.

Lemma phase1_total sim g :
  exists sim' invites g', phase1 sim g = Ok (sim', invites, g').
Proof.
  unfold phase1.
  destruct (foldM_total (fun _ => True) phase1_step (dict_keys (peers sim)))
    with (a := (sim, @nil (Z * Z), g)) as ([[s i] g'] & H & _); [|auto|eauto].
  intros [[s i] g0] x _ _. unfold phase1_step.
  destruct (dict_get (peers s) x) as [peer|]; [|eauto].
  destruct (FixedLookup.simulate_mapping_request_nonzero s peer g0)
    as (r & g1 & -> & _).
  simpl. destruct (handle_discovery s peer r). eauto.
Qed.

Lemma maintenance_total sim peer g :
  exists sim' selected g', maintenance sim peer g = Ok (sim', selected, g').
Proof.
  unfold maintenance.
  destruct (2 <=? len (get_connected_peers peer)) eqn:E; [|eauto].
  apply Z.leb_le in E. rewrite sample_Ok by lia.
  destruct (sample_draw _ _ g). simpl. eauto.
Qed.

Lemma phase3_step_total sim log g key :
  records_wf (peers sim) ->
  bounds_nonneg (peers sim) ->
  exists sim' log' g', phase3_step (sim, log, g) key = Ok (sim', log', g').
Proof.
  intros Hwf Hb. unfold phase3_step.
  destruct (dict_get (peers sim) key) as [peer|] eqn:Hget; [|eauto].
  pose proof (FixedDegree.process_invites_wf peer (round_number sim)
                (Hwf _ _ Hget)) as Hwf1.
  pose proof (FixedFacts.process_invites_spec peer (round_number sim)) as Hp.
  destruct (process_invites peer (round_number sim)) as [peer1 sc].
  cbv zeta in Hp. cbn [fst] in Hp, Hwf1. destruct Hp as (_ & Hmax1 & _).
  set (sim1 := with_peers sim (dict_set (peers sim) key peer1)).
  destruct (maintenance_total sim1 peer1 g) as (sim2 & sel & g1 & Hm).
  rewrite Hm. simpl.
  assert (Hkey2 : record sim2 key =
                  Some (known_peers peer1, max_connections peer1)).
  { rewrite (FixedDegree.maintenance_record _ _ _ _ _ _ key Hm).
    apply FixedDegree.set_record_same. }
  unfold record in Hkey2.
  destruct (dict_get (peers sim2) key) as [peer2|]; [|discriminate].
  injection Hkey2 as Hkp2 Hmax2.
  destruct (EvictionFacts.fixed_remove_excess_total peer2 g1)
    as (p3 & R & g2 & ->).
  - now rewrite Hkp2.
  - rewrite Hmax2, Hmax1. eapply Hb; eauto.
  - simpl. eauto.
Qed.

Lemma phase3_total sim g :
  records_wf (peers sim) ->
  bounds_nonneg (peers sim) ->
  exists sim' log g',
    phase3 sim g = Ok (sim', log, g') /\
    records_wf (peers sim') /\ bounds_nonneg (peers sim').
Proof.
  intros Hwf Hb. unfold phase3.
  destruct (foldM_total
              (fun a : NetworkSimulator * list (Z * list Invite) * Rng =>
                 records_wf (peers (fst (fst a))) /\
                 bounds_nonneg (peers (fst (fst a))))
              phase3_step (dict_keys (peers sim)))
    with (a := (sim, @nil (Z * list Invite), g))
    as ([[s l] g'] & H & H1 & H2); [|auto|eauto 10].
  intros [[s l] g0] key [Hs1 Hs2] _. simpl in Hs1, Hs2.
  destruct (phase3_step_total s l g0 key Hs1 Hs2) as (s' & l' & g1 & E).
  exists (s', l', g1). split; [exact E|]. simpl. split.
  - destruct (in_dec Z.eq_dec key (dict_keys (peers s))) as [Hin|Hnotin].
    + eapply FixedDegree.phase3_step_bound; eauto.
    + apply dict_get_None_keys in Hnotin. unfold phase3_step in E.
      rewrite Hnotin in E. now injection E as <- <- <-.
  - eapply bounds_identity; [|exact Hs2].
    intros k. eapply FixedFrame.phase3_step_identity; eauto.
Qed.

Lemma simulate_round_total sim g :
  records_wf (peers sim) ->
  bounds_nonneg (peers sim) ->
  exists sim' g',
    simulate_round sim g = Ok (sim', g') /\
    records_wf (peers sim') /\ bounds_nonneg (peers sim').
Proof.
  intros Hwf Hb. unfold simulate_round.
  destruct (phase1_total sim g) as (sim1 & inv & g1 & H1).
  rewrite H1. simpl.
  destruct (phase3_total (phase2 sim1 inv) g1) as (s3 & l & g2 & H3 & W & B).
  - apply FixedDegree.phase2_wf. eapply FixedDegree.phase1_wf; eauto.
  - eapply bounds_identity; [|exact Hb].
    intros k. rewrite FixedFrame.phase2_identity.
    eapply FixedFrame.phase1_identity; eauto.
  - rewrite H3. simpl. eauto.
Qed.

Lemma run_rounds_total n :
  forall sim g,
    records_wf (peers sim) ->
    bounds_nonneg (peers sim) ->
    exists sim' g', run_rounds n sim g = Ok (sim', g').
Proof.
  induction n as [|n IH]; intros sim g Hwf Hb; cbn [run_rounds]; [eauto|].
  destruct (simulate_round_total sim g Hwf Hb) as (s1 & g1 & -> & W & B).
  simpl. now apply IH.
Qed.

Lemma records_wf_Forall ps :
  Forall (fun e : Z * Peer => dict_wf (known_peers (snd e))) ps ->
  records_wf ps.
Proof.
  intros H k p Hget. apply dict_get_In in Hget.
  rewrite Forall_forall in H. apply (H _ Hget).
Qed.

Lemma bounds_nonneg_Forall ps :
  Forall (fun e : Z * Peer => 0 <= max_connections (snd e)) ps ->
  bounds_nonneg ps.
Proof.
  intros H k p Hget. apply dict_get_In in Hget.
  rewrite Forall_forall in H. apply (H _ Hget).
Qed.

(** X13.  The simulation never raises once every bound is non-negative:
    from a registry whose peers hold one record per key and have
    non-negative bounds, a round returns and leaves such a registry, and
    so does any number of rounds; in particular any run from a bootstrap
    with a non-negative [max_connections_per_peer]. *)
Theorem rounds_never_raise :
  forall (n : nat) (sim : Fixed.NetworkSimulator) (g : Rng),
    FixedRegistry.records_wf (Fixed.peers sim) ->
    bounds_nonneg (Fixed.peers sim) ->
    (exists sim' g',
        Fixed.simulate_round sim g = Ok (sim', g') /\
        FixedRegistry.records_wf (Fixed.peers sim') /\
        bounds_nonneg (Fixed.peers sim')) /\
    (exists sim' g', Fixed.run_rounds n sim g = Ok (sim', g')) /\
    (forall list_of_set cfg fuel g0 sim0 g1,
        (forall l, Permutation (list_of_set l) l) ->
        0 <= address_space_bits cfg ->
        0 <= max_connections_per_peer cfg ->
        Fixed._initialize_network list_of_set cfg fuel g0
          = Some (Ok (sim0, g1)) ->
        exists sim' g', Fixed.run_rounds n sim0 g1 = Ok (sim', g')).
Proof.
  intros n sim g Hwf Hb.
  split; [now apply simulate_round_total|].
  split; [now apply run_rounds_total|].
  intros los cfg fuel g0 sim0 g1 Hperm Hbits Hmax Hinit.
  apply run_rounds_total.
  - now destruct (FixedDegree.initialize_network_wf _ _ _ _ _ _ Hinit).
  - destruct (initialize_network_shape _ _ _ _ _ _ Hperm Hbits Hinit)
      as (_ & _ & Hkeys & _ & _ & _ & Hc & Hj).
    intros k p Hget.
    assert (Hin : In k (dict_keys (peers sim0)))
      by (eapply dict_get_In_keys; eauto).
    rewrite Hkeys in Hin. apply in_app_or in Hin. destruct Hin as [Hin|Hin].
    + destruct (Hc k Hin) as (p0 & Hp0 & _ & Hm & _).
      rewrite Hget in Hp0. injection Hp0 as <-. lia.
    + destruct (Hj k Hin) as (p0 & ch & Hp0 & _ & Hm & _).
      rewrite Hget in Hp0. injection Hp0 as <-. lia.
Qed.

Lemma rounds_never_raise_witness :
  exists sim' g', Fixed.run_rounds 2 trio_sim zero_rng = Ok (sim', g').
Proof.
  refine (proj1 (proj2 (rounds_never_raise 2 trio_sim zero_rng _ _))).
  - apply records_wf_Forall.
    repeat constructor; simpl; unfold dict_wf; simpl;
      repeat constructor; simpl; lia.
  - apply bounds_nonneg_Forall. repeat constructor; simpl; lia.
Defined.

End FixedTotal.

(* ================================================================= *)
(** ** Distance classes and their budgets *)

Module GradientClassFacts.
Import Gradient.

Lemma max_distance_classes_bits p :
  0 <= address_space_bits p -> max_distance_classes p = address_space_bits p + 1.
Proof.
  intros H. unfold max_distance_classes.
  rewrite (address_space_size_pow p H). now rewrite Z.log2_pow2.
Qed.

(** Below [2^47] the float logarithm is exact, whatever the rounding. *)
Lemma get_distance_class_small round_up p d :
  0 <= d < 2 ^ 47 ->
  _get_distance_class round_up p d
  = Ok (if d =? 0 then 0
        else Z.min (Z.log2 d + 1) (max_distance_classes p - 1)).
Proof.
  intros Hd. unfold _get_distance_class, int_log2.
  destruct (d =? 0) eqn:E; [reflexivity|]. apply Z.eqb_neq in E.
  destruct (d <=? 0) eqn:E1; [apply Z.leb_le in E1; lia|].
  destruct (d <? 2 ^ 47) eqn:E2; [reflexivity|].
  apply Z.ltb_ge in E2. lia.
Qed.

(** X14.  The distance class of a peer with a [bits]-bit address space
    ([bits >= 0]), on distances below [2^47], whatever the rounding of
    the float logarithm: there are [bits + 1] classes; the class of
    such a distance is computed without an exception; distance 0 is
    class 0; every class lies in [0, bits]; the class never decreases
    when the distance grows; and below the last class, class [c >= 1]
    holds exactly the distances in [2^(c-1), 2^c). *)
Theorem distance_class_is_logarithmic :
  forall (round_up : Z -> bool) (p : GradientPeer) (d d' c : Z),
    0 <= address_space_bits p ->
    0 <= d <= d' ->
    d' < 2 ^ 47 ->
    max_distance_classes p = address_space_bits p + 1 /\
    _get_distance_class round_up p 0 = Ok 0 /\
    exists cd cd',
      _get_distance_class round_up p d = Ok cd /\
      _get_distance_class round_up p d' = Ok cd' /\
      0 <= cd <= address_space_bits p /\
      cd <= cd' /\
      (1 <= c < address_space_bits p ->
       (_get_distance_class round_up p d = Ok c
        <-> 2 ^ (c - 1) <= d < 2 ^ c)).
Proof.
  intros round_up p d d' c Hbits Hd Hd'.
  pose proof (max_distance_classes_bits p Hbits) as Hm.
  split; [exact Hm|]. split; [reflexivity|].
  rewrite (get_distance_class_small round_up p d) by lia.
  rewrite (get_distance_class_small round_up p d') by lia.
  eexists _, _. split; [reflexivity|]. split; [reflexivity|].
  rewrite Hm.
  assert (Hl : forall x, 0 <= Z.log2 x) by (intros; apply Z.log2_nonneg).
  split; [|split].
  - destruct (d =? 0); [lia|]. pose proof (Hl d). lia.
  - destruct (d =? 0) eqn:E; destruct (d' =? 0) eqn:E'.
    + lia.
    + pose proof (Hl d'). lia.
    + apply Z.eqb_eq in E'. apply Z.eqb_neq in E. lia.
    + pose proof (Z.log2_le_mono d d' (proj2 Hd)). lia.
  - intros Hc. destruct (d =? 0) eqn:E.
    + apply Z.eqb_eq in E. subst d.
      assert (0 < 2 ^ (c - 1)) by (apply Z.pow_pos_nonneg; lia).
      split; [intros H0; injection H0 as H0; lia|lia].
    + apply Z.eqb_neq in E. assert (Hpos : 0 < d) by lia.
      pose proof (Z.log2_spec d Hpos) as [Hlo Hhi].
      replace (Z.succ (Z.log2 d)) with (Z.log2 d + 1) in Hhi by lia.
      split.
      * intros H. injection H as H.
        assert (Z.log2 d + 1 = c) by lia.
        replace (c - 1) with (Z.log2 d) by lia. rewrite <- H0. lia.
      * intros [H1 H2]. f_equal.
        assert (Z.log2 d = c - 1).
        { apply Z.log2_unique; [lia|].
          replace (Z.succ (c - 1)) with c by lia. lia. }
        lia.
Qed.

Lemma distance_class_is_logarithmic_witness :
  exists cd cd',
    _get_distance_class never_up sample_gradient_peer 5 = Ok cd /\
    _get_distance_class never_up sample_gradient_peer 100 = Ok cd' /\
    cd <= cd' /\
    (_get_distance_class never_up sample_gradient_peer 5 = Ok 3
     <-> 2 ^ (3 - 1) <= 5 < 2 ^ 3).
Proof.
  destruct (distance_class_is_logarithmic never_up sample_gradient_peer
              5 100 3)
    as (_ & _ & cd & cd' & H1 & H2 & _ & H3 & H4).
  - simpl. lia.
  - lia.
  - lia.
  - exists cd, cd'. split; [exact H1|]. split; [exact H2|].
    split; [exact H3|]. apply H4. simpl. lia.
Defined.

Lemma budgets_loop_spec classes :
  forall remaining budgets,
    0 <= remaining ->
    NoDup classes ->
    (forall c, In c classes -> 0 <= c /\ ~ In c (dict_keys budgets)) ->
    exists added,
      budgets_loop classes remaining budgets = budgets ++ added /\
      (exists rest, classes = map fst added ++ rest) /\
      (forall c0 rest0,
          classes = c0 :: rest0 ->
          exists tl,
            added = (c0, Z.min (if c0 =? 0 then Z.max 1 (remaining / 3)
                                else Z.max 1 (remaining / 2 ^ c0))
                               remaining) :: tl) /\
      (forall b, In b (map snd added) ->
                 0 <= b /\ (1 <= remaining -> 1 <= b)) /\
      fold_right Z.add 0 (map snd added) <= remaining.
Proof.
  induction classes as [|c classes IH]; intros rem budgets Hrem Hnd Hfresh;
    cbn [budgets_loop].
  - exists []. rewrite app_nil_r. split; [auto|]. split; [now exists []|].
    split; [discriminate|]. split; [intros b []|simpl; lia].
  - inversion Hnd as [|? ? Hc Hnd']; subst.
    destruct (Hfresh c (or_introl eq_refl)) as [Hc0 Hcfresh].
    set (allocation := if c =? 0 then Z.max 1 (rem / 3)
                       else Z.max 1 (rem / 2 ^ c)).
    assert (Hdiv : 0 <= (if c =? 0 then rem / 3 else rem / 2 ^ c) <= rem).
    { destruct (c =? 0).
      - split; [apply Z.div_pos; lia|].
        apply Z.div_le_upper_bound; lia.
      - assert (0 < 2 ^ c) by (apply Z.pow_pos_nonneg; lia).
        split; [apply Z.div_pos; lia|].
        apply Z.div_le_upper_bound; nia. }
    assert (Halloc : 1 <= allocation /\ (1 <= rem -> allocation <= rem)).
    { unfold allocation. destruct (c =? 0); lia. }
    rewrite (dict_set_absent budgets c _ Hcfresh).
    destruct (Z.max 0 (rem - allocation) =? 0) eqn:E.
    + apply Z.eqb_eq in E.
      exists [(c, Z.min allocation rem)].
      split; [reflexivity|]. split; [now exists classes|].
      split; [intros c0 rest0 Hc0r; injection Hc0r as <- <-; now exists []|].
      split; [intros b [<-|[]]; cbn [snd]; lia|cbn [map snd fold_right]; lia].
    + apply Z.eqb_neq in E.
      destruct (IH (Z.max 0 (rem - allocation))
                  (budgets ++ [(c, Z.min allocation rem)]))
        as (added & -> & [rest Hrest] & _ & Hb & Hsum); [lia|auto| |].
      * intros c' Hc'. split; [apply Hfresh; now right|].
        unfold dict_keys. rewrite map_app, in_app_iff. simpl.
        intros [Hin|[<-|[]]]; [|contradiction].
        apply (proj2 (Hfresh c' (or_intror Hc'))). exact Hin.
      * exists ((c, Z.min allocation rem) :: added).
        rewrite <- app_assoc. split; [reflexivity|].
        split; [exists rest; simpl; now rewrite Hrest|].
        split; [intros c0 rest0 Hc0r; injection Hc0r as <- <-;
                now exists added|].
        split.
        -- intros b [<-|Hin]; [cbn [snd]; lia|].
           destruct (Hb b Hin) as [H1 H2]. split; [lia|]. intros _.
           apply H2. lia.
        -- cbn [map snd fold_right]. lia.
Qed.

Lemma firstn_seq_prefix n : forall a m,
  (n <= m)%nat -> firstn n (seq a m) = seq a n.
Proof.
  induction n as [|n IH]; intros a m H; [reflexivity|].
  destruct m as [|m]; [lia|]. simpl. f_equal. apply IH. lia.
Qed.

Lemma range_spec n x : In x (range n) <-> 0 <= x < n.
Proof.
  unfold range. rewrite in_map_iff. split.
  - intros [i [<- Hi]]. apply in_seq in Hi. lia.
  - intros H. exists (Z.to_nat x). split; [lia|]. apply in_seq. lia.
Qed.

Lemma range_NoDup n : NoDup (range n).
Proof.
  unfold range. apply Finite.Injective_map_NoDup; [|apply seq_NoDup].
  intros a b H. lia.
Qed.

(** X15.  The per-class budgets of a peer with a non-negative bound and
    a non-negative number of address bits: class 0 always has a budget;
    the classes with a budget are the first ones, without gap and
    without repetition; no budget is negative, and each is at least 1
    when the bound is at least 1; together the budgets do not exceed
    [5 * max_connections]. *)
Theorem distance_budgets_within_total :
  forall (p : GradientPeer),
    0 <= max_connections p ->
    0 <= address_space_bits p ->
    let budgets := _calculate_distance_budgets p in
    dict_get budgets 0
      = Some (Z.min (Z.max 1 (max_connections p * 5 / 3))
                    (max_connections p * 5)) /\
    dict_keys budgets = range (len budgets) /\
    len budgets <= address_space_bits p + 1 /\
    (forall c b, dict_get budgets c = Some b ->
                 0 <= b /\ (1 <= max_connections p -> 1 <= b)) /\
    fold_right Z.add 0 (map snd budgets) <= max_connections p * 5.
Proof.
  intros p Hmax Hbits budgets. subst budgets.
  unfold _calculate_distance_budgets.
  rewrite (max_distance_classes_bits p Hbits).
  destruct (budgets_loop_spec (range (address_space_bits p + 1))
              (max_connections p * 5) [])
    as (added & E & [rest Hrest] & Hne & Hb & Hsum);
    [lia|apply range_NoDup| |].
  { intros c Hc. apply range_spec in Hc. split; [lia|intros []]. }
  rewrite E. simpl app.
  assert (Hkeys : dict_keys added = range (len added)).
  { unfold dict_keys, range in *. unfold len. rewrite Nat2Z.id.
    assert (Hlen : (length added <= Z.to_nat (address_space_bits p + 1))%nat).
    { apply (f_equal (@length Z)) in Hrest.
      rewrite length_map, length_seq, length_app, length_map in Hrest. lia. }
    apply (f_equal (firstn (length added))) in Hrest.
    rewrite firstn_app, length_map, Nat.sub_diag in Hrest.
    rewrite (firstn_all2 (map fst added)) in Hrest
      by (rewrite length_map; lia).
    simpl in Hrest. rewrite app_nil_r in Hrest. rewrite <- Hrest.
    rewrite firstn_map. f_equal.
    now rewrite firstn_seq_prefix. }
  split; [|split; [exact Hkeys|split; [|split; [|exact Hsum]]]].
  - unfold range in Hne.
    destruct (Z.to_nat (address_space_bits p + 1)) as [|n] eqn:En; [lia|].
    destruct (Hne _ _ eq_refl) as [tl ->]. reflexivity.
  - apply (f_equal (@length Z)) in Hrest. unfold range in Hrest.
    rewrite length_map, length_seq, length_app, length_map in Hrest.
    unfold len. lia.
  - intros c b Hget. apply dict_get_In in Hget.
    destruct (Hb b) as [H1 H2].
    { apply in_map_iff. now exists (c, b). }
    split; [exact H1|]. intros Hm. apply H2. lia.
Qed.

Lemma distance_budgets_within_total_witness :
  dict_get (_calculate_distance_budgets ring_peer) 0 = Some 3 /\
  fold_right Z.add 0 (map snd (_calculate_distance_budgets ring_peer)) <= 10.
Proof.
  destruct (distance_budgets_within_total ring_peer) as (H0 & _ & _ & _ & H).
  - vm_compute. discriminate.
  - vm_compute. discriminate.
  - split; [exact H0|exact H].
Defined.

End GradientClassFacts.

(* ================================================================= *)
(** ** The class lists of a gradient peer *)

Module GradientClassLists.
Import Gradient GradientClasses.

Lemma group_add_lists f d c x :
  lists_of f d ->
  lists_of (fun c' => if c' =? c then f c' ++ [x] else f c') (group_add d c x).
Proof.
  intros H c'. unfold group_add.
  destruct (c' =? c) eqn:E.
  - apply Z.eqb_eq in E. subst c'. specialize (H c).
    destruct (dict_get d c) as [l|]; rewrite dict_get_set_same.
    + destruct (f c) as [|y l']; [discriminate|]. injection H as ->.
      reflexivity.
    + destruct (f c) as [|y l']; [reflexivity|discriminate].
  - apply Z.eqb_neq in E.
    destruct (dict_get d c) as [l|]; rewrite dict_get_set_other by congruence;
      apply H.
Qed.

Lemma membership_fold entries :
  forall f d,
    lists_of f d ->
    lists_of
      (fun c => f c ++
                map fst (filter (fun e : Z * PeerInfo =>
                                   PeerState_eqb (state (snd e)) CONNECTED &&
                                   (distance_class (snd e) =? c)) entries))
      (fold_left
         (fun d0 (e : Z * PeerInfo) =>
            if PeerState_eqb (state (snd e)) CONNECTED
            then group_add d0 (distance_class (snd e)) (fst e)
            else d0)
         entries d).
Proof.
  induction entries as [|e entries IH]; intros f d H; simpl.
  - intros c. rewrite app_nil_r. apply H.
  - destruct (PeerState_eqb (state (snd e)) CONNECTED) eqn:Es.
    + intros c.
      rewrite (IH _ _ (group_add_lists f d (distance_class (snd e)) (fst e) H) c).
      simpl. rewrite (Z.eqb_sym c).
      destruct (distance_class (snd e) =? c); simpl;
        now rewrite <- ?app_assoc.
    + simpl. apply IH, H.
Qed.

Lemma update_membership_consistent p :
  classes_consistent (_update_distance_class_membership p).
Proof.
  intros c. unfold _update_distance_class_membership. simpl.
  rewrite (membership_fold (known_peers p) (fun _ => []) []);
    [reflexivity|intros c'; reflexivity].
Qed.

Lemma class_members_ext p q :
  (forall c, class_members q c = class_members p c) ->
  distance_classes q = distance_classes p ->
  classes_consistent p -> classes_consistent q.
Proof.
  intros Hm Hd H c. rewrite Hd, Hm. apply H.
Qed.

Lemma filter_set_same_key {V : Type} (t : V -> bool) (d : dict V) k v v' :
  dict_get d k = Some v -> t v' = t v ->
  map fst (filter (fun e => t (snd e)) (dict_set d k v'))
  = map fst (filter (fun e => t (snd e)) d).
Proof.
  induction d as [|[k0 v0] d IH]; simpl; intros Hget Ht; [discriminate|].
  destruct (k0 =? k) eqn:E.
  - injection Hget as ->. simpl. rewrite Ht.
    destruct (t v); reflexivity.
  - simpl. destruct (t v0); simpl; now rewrite IH.
Qed.

Lemma update_last_heard_members p k r c :
  class_members (update_last_heard_from p k r) c = class_members p c.
Proof.
  unfold update_last_heard_from, class_members.
  destruct (dict_get (known_peers p) k) as [info|] eqn:E; [|reflexivity].
  simpl.
  apply (filter_set_same_key
           (fun i => PeerState_eqb (state i) CONNECTED &&
                     (distance_class i =? c)) _ _ info); auto.
Qed.

Lemma update_last_heard_consistent p k r :
  classes_consistent p -> classes_consistent (update_last_heard_from p k r).
Proof.
  apply class_members_ext.
  - intros c. apply update_last_heard_members.
  - unfold update_last_heard_from.
    now destruct (dict_get (known_peers p) k).
Qed.

Lemma add_peer_inv round_up p k st r p' :
  add_peer round_up p k st r = Ok p' ->
  exists c,
    _get_distance_class round_up p (_ring_distance p (id p) k) = Ok c /\
    p' = _update_distance_class_membership
           (with_known_peers p
              (dict_set (known_peers p) k (mkPeerInfo st r c))).
Proof.
  unfold add_peer.
  destruct (_get_distance_class round_up p (_ring_distance p (id p) k))
    as [c|e]; cbn [bind]; [|discriminate].
  intros H. injection H as <-. eauto.
Qed.

Lemma set_peer_state_inv round_up p k st r p' :
  set_peer_state round_up p k st r = Ok p' ->
  exists c q,
    _get_distance_class round_up p (_ring_distance p (id p) k) = Ok c /\
    p' = _update_distance_class_membership q /\
    exists info,
      dict_get (known_peers q) k = Some info /\
      state info = st /\ distance_class info = c.
Proof.
  unfold set_peer_state.
  destruct (_get_distance_class round_up p (_ring_distance p (id p) k))
    as [c|e]; cbn [bind]; [|discriminate].
  intros H. injection H as <-. exists c. eexists. split; [reflexivity|].
  split; [reflexivity|].
  destruct (dict_get (known_peers p) k);
    cbn [known_peers with_known_peers]; rewrite dict_get_set_same;
    eexists; repeat split.
Qed.

Lemma process_invite_consistent round_up r p sc inv p' sc' :
  classes_consistent p ->
  process_invite round_up r (p, sc) inv = Ok (p', sc') ->
  classes_consistent p'.
Proof.
  intros H. unfold process_invite.
  destruct (get_peer_state p (sender_id inv)) as [[]|];
    try (destruct (set_peer_state round_up p (sender_id inv) _ r)
           as [p1|] eqn:E; cbn [bind]; [|discriminate];
         intros H1; injection H1 as <- <-;
         destruct (set_peer_state_inv _ _ _ _ _ _ E) as (c & q & _ & -> & _);
         apply update_membership_consistent).
  - intros H1. injection H1 as <- <-.
    now apply update_last_heard_consistent.
  - intros H1. injection H1 as <- <-. exact H.
Qed.

(** X16.  The class lists of a gradient peer stay consistent with its
    records, whatever the rounding of the float logarithm.  A fresh
    peer is consistent.  [add_peer] and [set_peer_state] return exactly
    when the ring distance of the peer they record is not negative, and
    raise [ValueError] when it is; when they return, the peer is
    consistent whatever it was, and the record carries the state given
    and is filed under the class of that ring distance.
    [update_last_heard_from] and [receive_invite] keep a consistent
    peer consistent, and so do [process_invites] and
    [remove_excess_connections] whenever they return. *)
Theorem distance_classes_stay_consistent :
  forall (round_up : Z -> bool) (p : GradientPeer) (k : Z)
         (st : PeerState) (r : Z) (inv : Invite) (g : Rng) (m bits : Z),
    classes_consistent (new_peer k m bits) /\
    (forall p',
        add_peer round_up p k st r = Ok p' ->
        classes_consistent p' /\
        exists info,
          dict_get (known_peers p') k = Some info /\
          state info = st /\
          _get_distance_class round_up p (_ring_distance p (id p) k)
          = Ok (distance_class info)) /\
    (forall p',
        set_peer_state round_up p k st r = Ok p' ->
        classes_consistent p' /\
        exists info,
          dict_get (known_peers p') k = Some info /\
          state info = st /\
          _get_distance_class round_up p (_ring_distance p (id p) k)
          = Ok (distance_class info)) /\
    (0 <= _ring_distance p (id p) k ->
     (exists p', add_peer round_up p k st r = Ok p') /\
     (exists p', set_peer_state round_up p k st r = Ok p')) /\
    (_ring_distance p (id p) k < 0 ->
     add_peer round_up p k st r = Raise ValueError /\
     set_peer_state round_up p k st r = Raise ValueError) /\
    (classes_consistent p ->
     classes_consistent (update_last_heard_from p k r) /\
     classes_consistent (receive_invite p inv) /\
     (forall p' sc,
         process_invites round_up p r = Ok (p', sc) ->
         classes_consistent p') /\
     forall p' R g',
       remove_excess_connections p g = Ok (p', R, g') ->
       classes_consistent p').
Proof.
  intros round_up p k st r inv g m bits.
  split; [intros c; reflexivity|].
  split.
  { intros p' H. destruct (add_peer_inv _ _ _ _ _ _ H) as (c & Hc & ->).
    split; [apply update_membership_consistent|].
    eexists. cbn. rewrite dict_get_set_same.
    split; [reflexivity|]. split; [reflexivity|]. exact Hc. }
  split.
  { intros p' H.
    destruct (set_peer_state_inv _ _ _ _ _ _ H)
      as (c & q & Hc & -> & info & Hi & Hs & Hd).
    split; [apply update_membership_consistent|].
    exists info. split; [exact Hi|]. split; [exact Hs|]. now rewrite Hd. }
  split.
  { intros Hd.
    destruct (GradientInvites.get_distance_class_Ok round_up p _ Hd)
      as [c Hc].
    unfold add_peer, set_peer_state. rewrite Hc. cbn [bind]. eauto. }
  split.
  { intros Hd. unfold add_peer, set_peer_state.
    rewrite (GradientInvites.get_distance_class_negative round_up p _ Hd).
    split; reflexivity. }
  intros H.
  split; [now apply update_last_heard_consistent|].
  split; [exact H|].
  split.
  - intros p' sc. unfold process_invites.
    destruct (foldM (process_invite round_up r) (pending_invites p) (p, []))
      as [[a sc1]|] eqn:E; cbn [bind]; [|discriminate].
    intros H1. injection H1 as <- <-.
    assert (Ha : classes_consistent a).
    { apply (foldM_invariant
               (fun x : GradientPeer * list (Z * PeerState) =>
                  classes_consistent (fst x))
               (process_invite round_up r) (pending_invites p))
        with (a := (p, [])) (a' := (a, sc1)); auto.
      intros [a0 s0] x [a1 s1] Ha0 _ Hstep. cbn [fst] in *.
      eapply process_invite_consistent; eauto. }
    intros c. apply Ha.
  - intros p' R g'. unfold remove_excess_connections.
    destruct (len (get_connected_peers p) <=? max_connections p).
    + intros E. injection E as <- <- <-. exact H.
    + destruct (class_groups p (get_connected_peers p)) as [groups|];
        simpl; [|discriminate].
      destruct (foldM _ _ _) as [[[T ex] g1]|]; simpl; [|discriminate].
      destruct (delete_all (known_peers p) T) as [kp|]; simpl;
        [|discriminate].
      intros E. injection E as <- <- <-.
      apply update_membership_consistent.
Qed.

End GradientClassLists.

(* ================================================================= *)
(** ** Where the greedy lookup stops *)

Lemma fixed_search_fixpoint ps t s :
  forall k, Fixed.search ps 1 s t = s -> Fixed.search ps k s t = s.
Proof.
  intros k H. destruct k as [|k]; [reflexivity|].
  simpl in *.
  destruct (dict_get ps s) as [cur|]; [|reflexivity].
  destruct (min_by _ _) as [c|]; [|reflexivity].
  destruct (_ <=? _) eqn:E; [reflexivity|].
  apply Z.leb_gt in E. subst c. lia.
Qed.

Lemma fixed_search_compose ps t n :
  forall m s,
    Fixed.search ps (n + m) s t = Fixed.search ps m (Fixed.search ps n s t) t.
Proof.
  induction n as [|n IH]; intros m s; [reflexivity|].
  pose proof (fixed_search_fixpoint ps t s) as Hstop.
  change (S n + m)%nat with (S (n + m)).
  simpl.
  destruct (dict_get ps s) as [cur|] eqn:Hcur.
  2:{ symmetry. apply Hstop. simpl. now rewrite Hcur. }
  destruct (min_by (fun pid => Fixed._xor_distance pid t)
              (Fixed.get_connected_peers cur)) as [c|] eqn:Hmin.
  2:{ symmetry. apply Hstop. simpl. now rewrite Hcur, Hmin. }
  destruct (Fixed._xor_distance s t <=? Fixed._xor_distance c t) eqn:E.
  - symmetry. apply Hstop. simpl. now rewrite Hcur, Hmin, E.
  - apply IH.
Qed.

Lemma fixed_search_stable ps t r :
  Fixed.search ps 1 r t = r <->
  (forall cur b,
      dict_get ps r = Some cur ->
      In b (Fixed.get_connected_peers cur) ->
      Fixed._xor_distance r t <= Fixed._xor_distance b t).
Proof.
  simpl. split.
  - intros H cur b Hcur Hb. rewrite Hcur in H.
    destruct (min_by (fun pid => Fixed._xor_distance pid t)
                (Fixed.get_connected_peers cur)) as [c|] eqn:Hmin.
    + pose proof (min_by_least _ _ _ Hmin b Hb) as Hle. simpl in Hle.
      destruct (Fixed._xor_distance r t <=? Fixed._xor_distance c t) eqn:E.
      * apply Z.leb_le in E. lia.
      * apply Z.leb_gt in E. subst c. lia.
    + apply min_by_None in Hmin. rewrite Hmin in Hb. destruct Hb.
  - intros H. destruct (dict_get ps r) as [cur|] eqn:Hcur; [|reflexivity].
    destruct (min_by (fun pid => Fixed._xor_distance pid t)
                (Fixed.get_connected_peers cur)) as [c|] eqn:Hmin;
      [|reflexivity].
    pose proof (H cur c eq_refl (min_by_In _ _ _ Hmin)) as Hle.
    apply Z.leb_le in Hle. now rewrite Hle.
Qed.

Lemma fixed_search_nearest ps t s :
  Fixed.search ps 1 s t = s \/
  exists cur,
    dict_get ps s = Some cur /\
    In (Fixed.search ps 1 s t) (Fixed.get_connected_peers cur) /\
    forall b, In b (Fixed.get_connected_peers cur) ->
              Fixed._xor_distance (Fixed.search ps 1 s t) t
              <= Fixed._xor_distance b t.
Proof.
  simpl.
  destruct (dict_get ps s) as [cur|] eqn:Hcur; [|now left].
  destruct (min_by (fun pid => Fixed._xor_distance pid t)
              (Fixed.get_connected_peers cur)) as [c|] eqn:Hmin; [|now left].
  destruct (Fixed._xor_distance s t <=? Fixed._xor_distance c t);
    [now left|].
  right. exists cur. split; [reflexivity|]. split.
  - eapply min_by_In; eauto.
  - intros b Hb. exact (min_by_least _ _ _ Hmin b Hb).
Qed.

Lemma gradient_search_fixpoint ps t s :
  forall k, Gradient.search ps 1 s t = s -> Gradient.search ps k s t = s.
Proof.
  intros k H. destruct k as [|k]; [reflexivity|].
  simpl in *.
  destruct (dict_get ps s) as [cur|]; [|reflexivity].
  destruct (min_by _ _) as [c|]; [|reflexivity].
  destruct (_ <=? _) eqn:E; [reflexivity|].
  apply Z.leb_gt in E. subst c. lia.
Qed.

Lemma gradient_search_compose ps t n :
  forall m s,
    Gradient.search ps (n + m) s t
    = Gradient.search ps m (Gradient.search ps n s t) t.
Proof.
  induction n as [|n IH]; intros m s; [reflexivity|].
  pose proof (gradient_search_fixpoint ps t s) as Hstop.
  change (S n + m)%nat with (S (n + m)).
  simpl.
  destruct (dict_get ps s) as [cur|] eqn:Hcur.
  2:{ symmetry. apply Hstop. simpl. now rewrite Hcur. }
  destruct (min_by (fun pid => Gradient._ring_distance cur pid t)
              (Gradient.get_connected_peers cur)) as [c|] eqn:Hmin.
  2:{ symmetry. apply Hstop. simpl. now rewrite Hcur, Hmin. }
  destruct (Gradient._ring_distance cur s t
            <=? Gradient._ring_distance cur c t) eqn:E.
  - symmetry. apply Hstop. simpl. now rewrite Hcur, Hmin, E.
  - apply IH.
Qed.

Lemma gradient_search_stable ps t r :
  Gradient.search ps 1 r t = r <->
  (forall cur b,
      dict_get ps r = Some cur ->
      In b (Gradient.get_connected_peers cur) ->
      Gradient._ring_distance cur r t <= Gradient._ring_distance cur b t).
Proof.
  simpl. split.
  - intros H cur b Hcur Hb. rewrite Hcur in H.
    destruct (min_by (fun pid => Gradient._ring_distance cur pid t)
                (Gradient.get_connected_peers cur)) as [c|] eqn:Hmin.
    + pose proof (min_by_least _ _ _ Hmin b Hb) as Hle. simpl in Hle.
      destruct (Gradient._ring_distance cur r t
                <=? Gradient._ring_distance cur c t) eqn:E.
      * apply Z.leb_le in E. lia.
      * apply Z.leb_gt in E. subst c. lia.
    + apply min_by_None in Hmin. rewrite Hmin in Hb. destruct Hb.
  - intros H. destruct (dict_get ps r) as [cur|] eqn:Hcur; [|reflexivity].
    destruct (min_by (fun pid => Gradient._ring_distance cur pid t)
                (Gradient.get_connected_peers cur)) as [c|] eqn:Hmin;
      [|reflexivity].
    pose proof (H cur c eq_refl (min_by_In _ _ _ Hmin)) as Hle.
    apply Z.leb_le in Hle. now rewrite Hle.
Qed.

Lemma gradient_search_nearest ps t s :
  Gradient.search ps 1 s t = s \/
  exists cur,
    dict_get ps s = Some cur /\
    In (Gradient.search ps 1 s t) (Gradient.get_connected_peers cur) /\
    forall b, In b (Gradient.get_connected_peers cur) ->
              Gradient._ring_distance cur (Gradient.search ps 1 s t) t
              <= Gradient._ring_distance cur b t.
Proof.
  simpl.
  destruct (dict_get ps s) as [cur|] eqn:Hcur; [|now left].
  destruct (min_by (fun pid => Gradient._ring_distance cur pid t)
              (Gradient.get_connected_peers cur)) as [c|] eqn:Hmin;
    [|now left].
  destruct (Gradient._ring_distance cur s t
            <=? Gradient._ring_distance cur c t);
    [now left|].
  right. exists cur. split; [reflexivity|]. split.
  - eapply min_by_In; eauto.
  - intros b Hb. exact (min_by_least _ _ _ Hmin b Hb).
Qed.

(** X17.  Where the greedy lookup stops.  A lookup with a budget of
    [a + b] hops is the lookup with [b] hops started where the one with
    [a] hops ended; one more hop leaves a node in place exactly when none
    of the peers it holds as Connected is strictly closer to the target
    (an unregistered node, or one without Connected peers, is such a
    node), and such a node is the answer for every budget; otherwise the
    hop goes to a Connected peer that is at least as close to the target
    as every other Connected peer.  So a lookup whose answer a larger
    budget would not change has ended on a local minimum.  All of this
    holds for the lookup of the fixed simulator, with the XOR distance,
    and for the lookup of the gradient simulator, with the ring
    distances as the current node measures them. *)
Theorem lookup_stops_at_local_minimum :
  forall (sim : Fixed.NetworkSimulator) (gps : dict Gradient.GradientPeer)
         (s t a b : Z),
    let flookup := Fixed._recursive_search_with_hop_limit sim in
    let glookup := Gradient._gradient_recursive_search gps in
    (0 <= a -> 0 <= b ->
     flookup s t (a + b) = flookup (flookup s t a) t b /\
     glookup s t (a + b) = glookup (glookup s t a) t b) /\
    (flookup s t 1 = s <->
     forall cur c,
       dict_get (Fixed.peers sim) s = Some cur ->
       In c (Fixed.get_connected_peers cur) ->
       Fixed._xor_distance s t <= Fixed._xor_distance c t) /\
    (glookup s t 1 = s <->
     forall cur c,
       dict_get gps s = Some cur ->
       In c (Gradient.get_connected_peers cur) ->
       Gradient._ring_distance cur s t <= Gradient._ring_distance cur c t) /\
    (flookup s t 1 = s -> flookup s t a = s) /\
    (glookup s t 1 = s -> glookup s t a = s) /\
    (flookup s t 1 = s \/
     exists cur,
       dict_get (Fixed.peers sim) s = Some cur /\
       In (flookup s t 1) (Fixed.get_connected_peers cur) /\
       forall c, In c (Fixed.get_connected_peers cur) ->
                 Fixed._xor_distance (flookup s t 1) t
                 <= Fixed._xor_distance c t) /\
    (glookup s t 1 = s \/
     exists cur,
       dict_get gps s = Some cur /\
       In (glookup s t 1) (Gradient.get_connected_peers cur) /\
       forall c, In c (Gradient.get_connected_peers cur) ->
                 Gradient._ring_distance cur (glookup s t 1) t
                 <= Gradient._ring_distance cur c t) /\
    (0 <= a -> flookup s t (a + 1) = flookup s t a ->
     forall cur c,
       dict_get (Fixed.peers sim) (flookup s t a) = Some cur ->
       In c (Fixed.get_connected_peers cur) ->
       Fixed._xor_distance (flookup s t a) t <= Fixed._xor_distance c t) /\
    (0 <= a -> glookup s t (a + 1) = glookup s t a ->
     forall cur c,
       dict_get gps (glookup s t a) = Some cur ->
       In c (Gradient.get_connected_peers cur) ->
       Gradient._ring_distance cur (glookup s t a) t
       <= Gradient._ring_distance cur c t).
Proof.
  intros sim gps s t a b flookup glookup.
  unfold flookup, glookup, Fixed._recursive_search_with_hop_limit,
    Gradient._gradient_recursive_search.
  change (Z.to_nat 1) with 1%nat.
  split.
  { intros Ha Hb. rewrite Z2Nat.inj_add by lia.
    split; [apply fixed_search_compose|apply gradient_search_compose]. }
  split; [apply fixed_search_stable|].
  split; [apply gradient_search_stable|].
  split; [apply fixed_search_fixpoint|].
  split; [apply gradient_search_fixpoint|].
  split; [apply fixed_search_nearest|].
  split; [apply gradient_search_nearest|].
  split.
  - intros Ha H.
    rewrite Z2Nat.inj_add in H by lia. change (Z.to_nat 1) with 1%nat in H.
    rewrite fixed_search_compose in H.
    now apply fixed_search_stable.
  - intros Ha H.
    rewrite Z2Nat.inj_add in H by lia. change (Z.to_nat 1) with 1%nat in H.
    rewrite gradient_search_compose in H.
    now apply gradient_search_stable.
Qed.

(* ================================================================= *)
(** ** Where the answer of a lookup comes from *)

Module FixedAnswer.
Import Fixed FixedWalk.

Lemma walk_responses_filter sim target starts :
  walk_responses sim target starts
  = filter (fun r => negb (r =? 0))
      (map (fun s => _recursive_search_with_hop_limit sim s target 10) starts).
Proof.
  unfold walk_responses.
  enough (H : forall acc,
             fold_left
               (fun responses start_id =>
                  let response :=
                    _recursive_search_with_hop_limit sim start_id target 10 in
                  if truthy (Some response) then responses ++ [response]
                  else responses) starts acc
             = acc ++ filter (fun r => negb (r =? 0))
                        (map (fun s =>
                                _recursive_search_with_hop_limit sim s target 10)
                             starts))
    by apply (H []).
  induction starts as [|s starts IH]; intros acc; simpl.
  - now rewrite app_nil_r.
  - rewrite IH.
    destruct (negb (_recursive_search_with_hop_limit sim s target 10 =? 0));
      [now rewrite <- app_assoc|reflexivity].
Qed.

Lemma starting_points_spec sim peer target g starts g' :
  starting_points sim peer target g = Ok (starts, g') ->
  len starts <= 3 /\
  (forall s, In s starts ->
             In s (get_all_known_peers peer) /\
             dict_mem (peers sim) s = true) /\
  (NoDup (get_all_known_peers peer) -> NoDup starts) /\
  (forall c, find_closest_peer_to_target peer target [] = Some c ->
             c <> 0 -> dict_mem (peers sim) c = true ->
             exists rest, starts = c :: rest).
Proof.
  unfold starting_points.
  set (closest := find_closest_peer_to_target peer target []).
  set (first := match closest with
                | Some c => if truthy closest && dict_mem (peers sim) c
                            then [c] else []
                | None => []
                end).
  set (avail := filter (fun pid => differs pid closest &&
                                   dict_mem (peers sim) pid)
                       (get_all_known_peers peer)).
  assert (Hfirst : len first <= 1 /\
                   (forall s, In s first ->
                              closest = Some s /\
                              In s (get_all_known_peers peer) /\
                              dict_mem (peers sim) s = true) /\
                   (forall c, closest = Some c -> c <> 0 ->
                              dict_mem (peers sim) c = true -> first = [c])).
  { subst first. destruct closest as [c|] eqn:Hc.
    - destruct (truthy (Some c) && dict_mem (peers sim) c) eqn:E.
      + apply andb_prop in E. destruct E as [_ E].
        split; [unfold len; simpl; lia|]. split.
        * intros s [<-|[]]. repeat split; auto.
          subst closest. unfold find_closest_peer_to_target in Hc.
          apply min_by_In in Hc. apply in_map_iff in Hc.
          destruct Hc as [e [<- He]]. apply filter_In in He.
          unfold get_all_known_peers, dict_keys. apply in_map, He.
        * intros c' Hc' _ _. now injection Hc' as <-.
      + split; [unfold len; simpl; lia|]. split; [intros s []|].
        intros c' Hc' Hnz Hm. injection Hc' as <-.
        simpl in E. apply Z.eqb_neq in Hnz. rewrite Hnz, Hm in E.
        discriminate.
    - split; [unfold len; simpl; lia|]. split; [intros s []|].
      discriminate. }
  destruct Hfirst as (Hlen & Hin & Hhead).
  assert (Havail : forall s, In s avail ->
                             closest <> Some s /\
                             In s (get_all_known_peers peer) /\
                             dict_mem (peers sim) s = true).
  { intros s Hs. subst avail. apply filter_In in Hs.
    destruct Hs as [Hs E]. apply andb_prop in E. destruct E as [E1 E2].
    repeat split; auto. intros Hc. rewrite Hc in E1. simpl in E1.
    rewrite Z.eqb_refl in E1. discriminate. }
  destruct (0 <? Z.min 2 (len avail)) eqn:E.
  - destruct (sample avail (Z.min 2 (len avail)) g) as [[xs g1]|] eqn:Hs;
      simpl; [|discriminate].
    intros H. injection H as <- <-.
    apply sample_inv in Hs. destruct Hs as (_ & _ & Hl & Hxs & Hnd).
    split; [rewrite len_app; lia|].
    split.
    { intros s Hs. apply in_app_or in Hs. destruct Hs as [Hs|Hs].
      - apply Hin in Hs. tauto.
      - apply Hxs, Havail in Hs. tauto. }
    split.
    { intros Hk. apply NoDup_app.
      - destruct first as [|a [|b l]]; [constructor| |].
        + constructor; [intros []|constructor].
        + unfold len in Hlen. simpl in Hlen. lia.
      - apply Hnd. subst avail. now apply NoDup_filter.
      - intros s Hs1 Hs2. apply Hin in Hs1. apply Hxs, Havail in Hs2.
        tauto. }
    intros c Hc Hnz Hm. rewrite (Hhead c Hc Hnz Hm). simpl. eauto.
  - intros H. injection H as <- <-.
    split; [lia|]. split; [intros s Hs; apply Hin in Hs; tauto|].
    split.
    { intros _. destruct first as [|a [|b l]]; [constructor| |].
      + constructor; [intros []|constructor].
      + unfold len in Hlen. simpl in Hlen. lia. }
    intros c Hc Hnz Hm. rewrite (Hhead c Hc Hnz Hm). eauto.
Qed.

Lemma min_by_Some f x l : exists y, min_by f (x :: l) = Some y.
Proof.
  simpl. destruct (min_by f l) as [z|]; [destruct (f x <=? f z)|]; eauto.
Qed.

(** X18.  A lookup never raises, and its answer comes from what the
    requester knows.  With [target] the identifier drawn for the lookup:
    the answer is [None] when the requester knows no registered peer;
    an answer [x] is not 0 and is reached by a walk of at most 10 hops
    towards [target] from a registered peer the requester knows; and when
    the closest known peer [c] is registered and neither it nor the end
    of its walk is 0, there is an answer, at most as far from [target]
    as [c]. *)
Theorem lookup_answer_provenance :
  forall (sim : NetworkSimulator) (peer : Peer) (g : Rng),
    let max_id := Z.shiftl 1 (address_space_bits (config sim)) - 1 in
    let target := fst (randint 0 max_id g) in
    exists r g',
      simulate_mapping_request sim peer g = Ok (r, g') /\
      (0 <= max_id -> 0 <= target <= max_id) /\
      ((forall k, In k (get_all_known_peers peer) ->
                  dict_mem (peers sim) k = false) ->
       r = None) /\
      (forall x,
          r = Some x ->
          x <> 0 /\
          exists start n,
            In start (get_all_known_peers peer) /\
            dict_mem (peers sim) start = true /\
            (n <= 10)%nat /\
            walk (peers sim) target n start x) /\
      (forall c,
          find_closest_peer_to_target peer target [] = Some c ->
          c <> 0 ->
          dict_mem (peers sim) c = true ->
          _recursive_search_with_hop_limit sim c target 10 <> 0 ->
          exists x,
            r = Some x /\
            _xor_distance x target <= _xor_distance c target).
Proof.
  intros sim peer g max_id target.
  unfold simulate_mapping_request. fold max_id.
  pose proof (randint_range 0 max_id g) as Hrange. fold target in Hrange.
  subst target.
  destruct (randint 0 max_id g) as [target g1]. cbn [fst] in *.
  destruct (FixedLookup.starting_points_Ok sim peer target g1)
    as (starts & g2 & Hst).
  rewrite Hst. cbn [bind].
  apply starting_points_spec in Hst.
  destruct Hst as (_ & Hin & _ & Hhead).
  destruct starts as [|s0 starts].
  - eexists _, _. split; [reflexivity|]. split; [exact Hrange|].
    split; [reflexivity|]. split; [discriminate|].
    intros c Hc Hnz Hm _. destruct (Hhead c Hc Hnz Hm) as [rest Hr].
    discriminate.
  - eexists _, _. split; [reflexivity|]. split; [exact Hrange|].
    split.
    { intros Hnone. destruct (Hin s0 (or_introl eq_refl)) as [Hk Hm].
      rewrite (Hnone s0 Hk) in Hm. discriminate. }
    split.
    { intros x Hx. apply min_by_In in Hx.
      rewrite walk_responses_filter in Hx. apply filter_In in Hx.
      destruct Hx as [Hx Hnz]. apply negb_true_iff, Z.eqb_neq in Hnz.
      split; [exact Hnz|].
      apply in_map_iff in Hx. destruct Hx as [start [<- Hs]].
      destruct (Hin start Hs) as [Hk Hm].
      destruct (FixedSearch.xor_search_walk (peers sim) target 10 start)
        as [n [Hn Hw]].
      exists start, n. repeat split; auto. }
    intros c Hc Hnz Hm Hr.
    destruct (Hhead c Hc Hnz Hm) as [rest Heq].
    injection Heq as -> ->.
    rewrite walk_responses_filter. cbn [map filter].
    apply Z.eqb_neq in Hr. rewrite Hr. cbn [negb].
    match goal with
    | |- context [min_by ?f (?a :: ?l)] =>
        destruct (min_by_Some f a l) as [y Hy]; rewrite Hy;
        pose proof (min_by_least f _ _ Hy a (or_introl eq_refl)) as Hle
    end.
    exists y. split; [reflexivity|]. cbn beta in Hle.
    destruct (FixedSearch.xor_search_walk (peers sim) target 10 c)
      as [n [_ Hw]].
    apply FixedSearch.xor_walk_distance in Hw.
    unfold _recursive_search_with_hop_limit in Hle.
    change (Z.to_nat 10) with 10%nat in Hle. lia.
Qed.

End FixedAnswer.

(* ================================================================= *)
(** ** The buckets of the prefix policy *)

Module PrefixBuckets.
Import Fixed Prefix.

Lemma land_pow2_testbit v n :
  0 <= n -> (Z.land v (Z.shiftl 1 n) =? 0) = negb (Z.testbit v n).
Proof.
  intros Hn. rewrite Z.shiftl_1_l.
  destruct (Z.testbit v n) eqn:E; simpl.
  - apply Z.eqb_neq. intros H.
    assert (F : Z.testbit (Z.land v (2 ^ n)) n = true)
      by (rewrite Z.land_spec, E, Z.pow2_bits_true; auto).
    rewrite H, Z.bits_0 in F. discriminate.
  - apply Z.eqb_eq. apply Z.bits_inj'. intros m Hm.
    rewrite Z.land_spec, Z.bits_0, Z.pow2_bits_eqb by lia.
    destruct (n =? m) eqn:Enm.
    + apply Z.eqb_eq in Enm. subst m. rewrite E. reflexivity.
    + apply andb_false_r.
Qed.

Lemma clz_from_log2 n :
  forall v, 0 < v < 2 ^ Z.of_nat n ->
            clz_from n v = Z.of_nat n - 1 - Z.log2 v.
Proof.
  induction n as [|n IH]; intros v Hv.
  - simpl in Hv. lia.
  - cbn [clz_from]. rewrite land_pow2_testbit by lia. rewrite negb_involutive.
    assert (Hlog : Z.log2 v < Z.of_nat (S n))
      by (apply Z.log2_lt_pow2; lia).
    destruct (Z.testbit v (Z.of_nat n)) eqn:E.
    + assert (~ Z.log2 v < Z.of_nat n).
      { intros Hlt. rewrite Z.bits_above_log2 in E by lia. discriminate. }
      lia.
    + assert (Z.log2 v <> Z.of_nat n).
      { intros Heq. rewrite <- Heq, Z.bit_log2 in E by lia. discriminate. }
      rewrite IH; [lia|]. split; [lia|].
      apply Z.log2_lt_pow2; lia.
Qed.

Lemma count_leading_zeros_log2 v :
  0 < v < 2 ^ 32 -> _count_leading_zeros v = 31 - Z.log2 v.
Proof.
  intros Hv. unfold _count_leading_zeros.
  destruct (v =? 0) eqn:E; [apply Z.eqb_eq in E; lia|].
  rewrite (clz_from_log2 32) by (simpl; lia). reflexivity.
Qed.

Lemma xor_distance_32 a x :
  0 <= a < 2 ^ 32 -> 0 <= x < 2 ^ 32 -> a <> x ->
  0 < _xor_distance a x < 2 ^ 32.
Proof.
  intros Ha Hx Hne. unfold _xor_distance.
  assert (H0 : 0 <= Z.lxor a x) by (apply Z.lxor_nonneg; lia).
  assert (Hnz : Z.lxor a x <> 0) by (rewrite Z.lxor_eq_0_iff; exact Hne).
  split; [lia|].
  apply Z.log2_lt_pow2; [lia|].
  destruct (Z.lt_ge_cases (Z.log2 (Z.lxor a x)) 32) as [|Hge]; [assumption|].
  exfalso.
  pose proof (Z.bit_log2 (Z.lxor a x) ltac:(lia)) as Hb.
  rewrite Z.lxor_spec in Hb.
  assert (Ba : Z.testbit a (Z.log2 (Z.lxor a x)) = false).
  { destruct (Z.eq_dec a 0) as [->|]; [apply Z.bits_0|].
    apply Z.bits_above_log2; [lia|].
    assert (Z.log2 a < 32) by (apply Z.log2_lt_pow2; lia). lia. }
  assert (Bx : Z.testbit x (Z.log2 (Z.lxor a x)) = false).
  { destruct (Z.eq_dec x 0) as [->|]; [apply Z.bits_0|].
    apply Z.bits_above_log2; [lia|].
    assert (Z.log2 x < 32) by (apply Z.log2_lt_pow2; lia). lia. }
  rewrite Ba, Bx in Hb. discriminate.
Qed.

Lemma log2_lxor_prefix a x j :
  0 <= a -> 0 <= x -> 0 <= j ->
  (0 < Z.lxor a x /\ Z.log2 (Z.lxor a x) = j) <->
  ((forall i, j < i -> Z.testbit a i = Z.testbit x i) /\
   Z.testbit a j <> Z.testbit x j).
Proof.
  intros Ha Hx Hj.
  assert (H0 : 0 <= Z.lxor a x) by (apply Z.lxor_nonneg; lia).
  split.
  - intros [Hpos <-]. split.
    + intros i Hi.
      pose proof (Z.bits_above_log2 (Z.lxor a x) i H0 Hi) as Hb.
      rewrite Z.lxor_spec in Hb.
      destruct (Z.testbit a i), (Z.testbit x i); auto; discriminate.
    + pose proof (Z.bit_log2 (Z.lxor a x) Hpos) as Hb.
      rewrite Z.lxor_spec in Hb.
      destruct (Z.testbit a _), (Z.testbit x _); auto; discriminate.
  - intros [Hhigh Hbit].
    assert (Hb : Z.testbit (Z.lxor a x) j = true).
    { rewrite Z.lxor_spec.
      destruct (Z.testbit a j), (Z.testbit x j); auto; congruence. }
    assert (Hnz : Z.lxor a x <> 0).
    { intros E. rewrite E, Z.bits_0 in Hb. discriminate. }
    split; [lia|].
    destruct (Z.lt_trichotomy (Z.log2 (Z.lxor a x)) j) as [Hlt|[Heq|Hgt]];
      auto.
    + rewrite Z.bits_above_log2 in Hb by lia. discriminate.
    + pose proof (Z.bit_log2 (Z.lxor a x) ltac:(lia)) as Hb'.
      rewrite Z.lxor_spec, (Hhigh _ Hgt), xorb_nilpotent in Hb'.
      discriminate.
Qed.

(** X19.  The buckets of the prefix policy are the buckets of a common
    prefix.  For 32-bit identifiers: [_count_leading_zeros] of a non-zero
    distance [d] is [31 - log2 d] (and 32 for 0); a peer is in no bucket
    of itself; another peer [x] is in bucket [k] exactly when [k] is in
    [0, 31] and its XOR distance lies in [2^(31-k), 2^(32-k)), that is
    when the two identifiers agree on every bit above bit [31 - k] and
    differ at bit [31 - k]; so every other peer is in exactly one
    bucket. *)
Theorem prefix_bucket_is_common_prefix :
  forall (p : Peer) (x : Z),
    0 <= id p < 2 ^ 32 ->
    0 <= x < 2 ^ 32 ->
    let d := get_distance_to_peer p x in
    _count_leading_zeros 0 = 32 /\
    (x = id p -> forall k, in_bucket p k x = false) /\
    (x <> id p ->
     _count_leading_zeros d = 31 - Z.log2 d /\
     (forall k,
         in_bucket p k x = true <->
         0 <= k <= 31 /\ 2 ^ (31 - k) <= d < 2 ^ (32 - k)) /\
     (forall k,
         in_bucket p k x = true <->
         0 <= k <= 31 /\
         (forall i, 31 - k < i -> Z.testbit (id p) i = Z.testbit x i) /\
         Z.testbit (id p) (31 - k) <> Z.testbit x (31 - k)) /\
     exists k, forall k', in_bucket p k' x = true <-> k' = k).
Proof.
  intros p x Hp Hx d. subst d. unfold get_distance_to_peer.
  split; [reflexivity|]. split.
  { intros -> k. unfold in_bucket, get_distance_to_peer, _xor_distance.
    now rewrite Z.lxor_nilpotent. }
  intros Hne.
  pose proof (xor_distance_32 (id p) x Hp Hx ltac:(congruence)) as Hd.
  pose proof (count_leading_zeros_log2 _ Hd) as Hclz.
  assert (Hlog : 0 <= Z.log2 (_xor_distance (id p) x) < 32).
  { split; [apply Z.log2_nonneg|]. apply Z.log2_lt_pow2; lia. }
  assert (Hin : forall k,
             in_bucket p k x = true <->
             k = 31 - Z.log2 (_xor_distance (id p) x)).
  { intros k. unfold in_bucket, prefix_len, get_distance_to_peer.
    rewrite Hclz.
    destruct (_xor_distance (id p) x =? 0) eqn:E;
      [apply Z.eqb_eq in E; lia|].
    cbn [negb andb]. rewrite Z.eqb_eq. lia. }
  split; [exact Hclz|]. split; [|split].
  - intros k. rewrite Hin. split.
    + intros ->. split; [lia|].
      replace (31 - (31 - Z.log2 (_xor_distance (id p) x)))
        with (Z.log2 (_xor_distance (id p) x)) by lia.
      replace (32 - (31 - Z.log2 (_xor_distance (id p) x)))
        with (Z.succ (Z.log2 (_xor_distance (id p) x))) by lia.
      apply Z.log2_spec. lia.
    + intros [Hk Hr].
      assert (Z.log2 (_xor_distance (id p) x) = 31 - k); [|lia].
      apply Z.log2_unique; [lia|].
      replace (Z.succ (31 - k)) with (32 - k) by lia. exact Hr.
  - intros k. rewrite Hin. unfold _xor_distance in *. split.
    + intros ->. split; [lia|].
      apply log2_lxor_prefix; lia.
    + intros [Hk Hbits].
      apply log2_lxor_prefix in Hbits; lia.
  - exists (31 - Z.log2 (_xor_distance (id p) x)). exact Hin.
Qed.

Lemma prefix_bucket_is_common_prefix_witness :
  in_bucket (new_peer 5 4) 30 6 = true.
Proof.
  destruct (prefix_bucket_is_common_prefix (new_peer 5 4) 6)
    as (_ & _ & H).
  - vm_compute. split; [discriminate|reflexivity].
  - vm_compute. split; [discriminate|reflexivity].
  - destruct (H ltac:(discriminate)) as (_ & Hk & _).
    apply Hk. vm_compute. repeat split; first [discriminate|reflexivity].
Defined.

End PrefixBuckets.

(* ================================================================= *)
(** ** The shape of the static buckets *)

Module StaticShape.
Import Fixed Static StaticBuckets.

Lemma nth_map_default {A B : Type} (f : A -> B) (l : list A) i d a :
  (i < length l)%nat -> nth i (map f l) d = f (nth i l a).
Proof.
  intros H. rewrite (nth_indep _ d (f a)) by (rewrite length_map; exact H).
  apply map_nth.
Qed.

Lemma len_range n : 0 <= n -> len (range n) = n.
Proof.
  intros H. unfold len, range. rewrite length_map, length_seq. lia.
Qed.

Lemma nth_error_range n i :
  (i < Z.to_nat n)%nat -> nth_error (range n) i = Some (Z.of_nat i).
Proof.
  intros H. unfold range.
  rewrite nth_error_map, nth_error_seq.
  destruct (Nat.ltb_spec i (Z.to_nat n)); [reflexivity|lia].
Qed.

Lemma bucket_index_first br d :
  forall i a b,
    nth_error br i = Some (a, b) -> a <= d <= b ->
    exists j, bucket_index br d = Some j /\ (j <= i)%nat.
Proof.
  induction br as [|[lo hi] br IH]; intros i a b Hn Hd.
  - destruct i; discriminate.
  - cbn [bucket_index].
    destruct ((lo <=? d) && (d <=? hi)) eqn:E.
    + exists O. split; [reflexivity|lia].
    + destruct i as [|i].
      * simpl in Hn. injection Hn as -> ->.
        apply andb_false_iff in E. destruct E as [E|E];
          [apply Z.leb_gt in E|apply Z.leb_gt in E]; lia.
      * destruct (IH i a b Hn Hd) as [j [Hj Hle]].
        exists (S j). rewrite Hj. split; [reflexivity|lia].
Qed.

Lemma bucket_index_lt br d :
  forall i, bucket_index br d = Some i -> (i < length br)%nat.
Proof.
  induction br as [|[lo hi] br IH]; intros i H; [discriminate|].
  cbn [bucket_index] in H.
  destruct ((lo <=? d) && (d <=? hi)).
  - injection H as <-. simpl. lia.
  - destruct (bucket_index br d) as [j|]; [|discriminate].
    injection H as <-. specialize (IH j eq_refl). simpl. lia.
Qed.

Lemma fold_max_ge ds :
  forall d0 y, y <= d0 \/ In y ds -> y <= fold_left Z.max ds d0.
Proof.
  induction ds as [|d ds IH]; intros d0 y H; simpl.
  - destruct H as [H|[]]. exact H.
  - apply IH. destruct H as [H|[H|H]];
      [left; lia|left; subst; lia|right; exact H].
Qed.

Lemma ranges_cover M n d k :
  0 <= d -> Z.of_nat k <= n - 1 ->
  d <= snd (bucket_range M n (Z.of_nat k)) ->
  exists i,
    (i <= k)%nat /\
    fst (bucket_range M n (Z.of_nat i)) <= d
    <= snd (bucket_range M n (Z.of_nat i)).
Proof.
  intros Hd. induction k as [|k IH]; intros Hk Hle.
  - exists O. split; [lia|]. split; [simpl; lia|exact Hle].
  - destruct (Z.le_gt_cases d (snd (bucket_range M n (Z.of_nat k))))
      as [Hin|Hout].
    + destruct (IH ltac:(lia) Hin) as [i [Hi Hr]].
      exists i. split; [lia|exact Hr].
    + exists (S k). split; [lia|]. split; [|exact Hle].
      unfold bucket_range in *. cbn [fst snd] in *.
      destruct (Z.of_nat (S k) =? 0) eqn:E0; [apply Z.eqb_eq in E0; lia|].
      destruct (Z.of_nat k =? n - 1) eqn:E1; [apply Z.eqb_eq in E1; lia|].
      replace (Z.of_nat (S k) - n + 1) with (Z.of_nat k - n + 2) by lia.
      lia.
Qed.

Lemma ranges_top M n :
  1 <= n ->
  snd (bucket_range M n (Z.max 0 (n - 2))) = M.
Proof.
  intros Hn. unfold bucket_range. cbn [snd].
  destruct (Z.max 0 (n - 2) =? n - 1) eqn:E; [reflexivity|].
  apply Z.eqb_neq in E.
  replace (Z.max 0 (n - 2) - n + 2) with 0 by lia.
  reflexivity.
Qed.

(** Every distance within [0, M] falls in a bucket, and not in the last
    one when there are two buckets or more. *)
Lemma bucket_index_cover M n d :
  1 <= n -> 0 <= d <= M ->
  exists i,
    bucket_index (map (bucket_range M n) (range n)) d = Some i /\
    Z.of_nat i <= Z.max 0 (n - 2).
Proof.
  intros Hn Hd.
  destruct (ranges_cover M n d (Z.to_nat (Z.max 0 (n - 2))))
    as [i [Hi Hr]]; try lia.
  { rewrite Z2Nat.id by lia. rewrite ranges_top; lia. }
  destruct (bucket_index_first (map (bucket_range M n) (range n)) d i
              (fst (bucket_range M n (Z.of_nat i)))
              (snd (bucket_range M n (Z.of_nat i)))) as [j [Hj Hle]].
  - assert (Hlt : (i < Z.to_nat n)%nat) by (clear Hr; lia).
    rewrite nth_error_map, (nth_error_range n i Hlt).
    cbn [option_map]. now rewrite <- surjective_pairing.
  - exact Hr.
  - exists j. split; [exact Hj|lia].
Qed.

Lemma bucket_index_not_last M n d :
  2 <= n -> 0 <= d ->
  bucket_index (map (bucket_range M n) (range n)) d
  <> Some (Z.to_nat (n - 1)).
Proof.
  intros Hn Hd H.
  destruct (Z.le_gt_cases d M) as [Hle|Hgt].
  - destruct (bucket_index_cover M n d ltac:(lia) ltac:(lia))
      as [i [Hi Hb]].
    rewrite Hi in H. injection H as ->. lia.
  - assert (G : forall br i,
               bucket_index br d = Some i ->
               exists a b, nth_error br i = Some (a, b) /\ a <= d <= b).
    { induction br as [|[lo hi] br IH]; intros i Hbi; [discriminate|].
      cbn [bucket_index] in Hbi.
      destruct ((lo <=? d) && (d <=? hi)) eqn:E.
      - injection Hbi as <-. exists lo, hi. split; [reflexivity|].
        apply andb_prop in E. destruct E as [E1 E2].
        apply Z.leb_le in E1, E2. lia.
      - destruct (bucket_index br d) as [j|]; [|discriminate].
        injection Hbi as <-. exact (IH j eq_refl). }
    destruct (G _ _ H) as (a & b & Hnth & Hr).
    rewrite nth_error_map, nth_error_range in Hnth by lia.
    simpl in Hnth. unfold bucket_range in Hnth.
    rewrite Z2Nat.id in Hnth by lia.
    rewrite Z.eqb_refl in Hnth. injection Hnth as <- <-. lia.
Qed.

(** X20.  The shape of the static buckets, for non-negative identifiers.
    When [calculate_optimal_distribution] yields buckets there are
    [min(8, number of other peers)] of them, each with a target of at
    least 1; every other peer is filed in exactly one bucket, the one
    its distance finds first in [bucket_ranges]; and with two buckets or
    more the last bucket receives no peer at all, whether from
    [all_peers] or from the Connected peers that [optimize_connections]
    files with the same ranges. *)
Theorem static_buckets_cover_all_but_last :
  forall (p : Peer) (all_peers : list Z)
         (bt : list Z) (bk : list (list Z)) (br : list (Z * Z)),
    0 <= id p ->
    (forall x, In x all_peers -> 0 <= x) ->
    calculate_optimal_distribution p all_peers = Some (bt, bk, br) ->
    let others := filter (fun pid => negb (pid =? id p)) all_peers in
    let n := Z.min 8 (len others) in
    len bt = n /\ len bk = n /\ len br = n /\
    (forall t, In t bt -> 1 <= t) /\
    (forall x, In x others ->
               exists i, bucket_of p br x = Some i /\ Z.of_nat i < n) /\
    (forall i x,
        In x (nth i bk []) <-> In x others /\ bucket_of p br x = Some i) /\
    (2 <= n ->
     forall x, 0 <= x -> bucket_of p br x <> Some (Z.to_nat (n - 1))).
Proof.
  intros p all_peers bt bk br Hid Hall H.
  unfold calculate_optimal_distribution in H.
  destruct all_peers as [|a0 rest]; [discriminate|].
  remember (a0 :: rest) as all_peers eqn:Hap. clear Hap a0 rest.
  intros others n. fold others in H.
  set (distances := sort_by (get_distance_to_peer p) others) in H.
  assert (Hperm : Permutation distances others) by apply sort_by_perm.
  assert (Hlen : len distances = len others).
  { unfold len. now rewrite (Permutation_length Hperm). }
  rewrite Hlen in H. fold n in H.
  set (M := match map (get_distance_to_peer p) distances with
            | [] => 1
            | d :: ds => fold_left Z.max ds d
            end) in H.
  injection H as <- <- <-.
  assert (Hn0 : 0 <= n) by (pose proof (len_nonneg others); lia).
  assert (Hdist : forall x, 0 <= x -> 0 <= get_distance_to_peer p x).
  { intros x Hx. unfold get_distance_to_peer, _xor_distance.
    apply Z.lxor_nonneg. lia. }
  assert (HM : forall x, In x others -> get_distance_to_peer p x <= M).
  { intros x Hx. subst M.
    assert (Hin : In (get_distance_to_peer p x)
                     (map (get_distance_to_peer p) distances)).
    { apply in_map. eapply Permutation_in; [apply Permutation_sym|];
        eauto. }
    destruct (map (get_distance_to_peer p) distances) as [|d ds];
      [destruct Hin|]. apply fold_max_ge.
    destruct Hin as [<-|Hin]; [left; lia|now right]. }
  assert (Hoth : forall x, In x others -> 0 <= x).
  { intros x Hx. apply Hall. subst others. apply filter_In in Hx. tauto. }
  assert (Hcov : forall x, In x others ->
                 exists i, bucket_of p (map (bucket_range M n) (range n)) x
                           = Some i /\ Z.of_nat i < n).
  { intros x Hx.
    assert (1 <= n).
    { subst n. destruct others; [destruct Hx|].
      unfold len. simpl length. lia. }
    destruct (bucket_index_cover M n (get_distance_to_peer p x))
      as [i [Hi Hb]]; auto.
    exists i. split; [exact Hi|lia]. }
  assert (Hnth : forall i, (i < Z.to_nat n)%nat ->
             forall x,
               In x (nth i (map (fun i0 =>
                                   filter (in_bucket p
                                             (map (bucket_range M n) (range n))
                                             (Z.to_nat i0)) distances)
                                (range n)) [])
               <-> In x others /\
                   bucket_of p (map (bucket_range M n) (range n)) x = Some i).
  { intros i Hi x.
    rewrite (nth_map_default _ _ _ _ 0)
      by (unfold range; rewrite length_map, length_seq; exact Hi).
    rewrite filter_In, StaticFacts.in_bucket_of.
    unfold range at 2.
    rewrite (nth_map_default _ _ _ _ O) by (rewrite length_seq; exact Hi).
    rewrite seq_nth by exact Hi.
    rewrite Nat2Z.id. simpl.
    split; intros [Hx Hb]; split; auto.
    - eapply Permutation_in; eauto.
    - eapply Permutation_in; [apply Permutation_sym|]; eauto. }
  split; [unfold len; rewrite !length_map; apply len_range, Hn0|].
  split; [unfold len; rewrite !length_map; apply len_range, Hn0|].
  split; [unfold len; rewrite !length_map; apply len_range, Hn0|].
  split.
  { intros t Ht. apply in_map_iff in Ht. destruct Ht as [w [<- _]]. lia. }
  split; [exact Hcov|].
  split.
  { intros i x.
    destruct (Nat.lt_ge_cases i (Z.to_nat n)) as [Hi|Hi]; [now apply Hnth|].
    rewrite nth_overflow
      by (rewrite length_map; unfold range;
          now rewrite length_map, length_seq).
    split; [intros []|]. intros [_ Hb].
    apply bucket_index_lt in Hb. rewrite length_map in Hb.
    unfold range in Hb. rewrite length_map, length_seq in Hb. lia. }
  intros Hn x Hx. apply bucket_index_not_last; auto.
Qed.

Lemma static_buckets_cover_all_but_last_witness :
  exists bt bk br,
    calculate_optimal_distribution spread_peer spread_all
    = Some (bt, bk, br) /\
    len br = 8 /\
    bucket_of spread_peer br 128 <> Some 7%nat.
Proof.
  destruct (calculate_optimal_distribution spread_peer spread_all)
    as [[[bt bk] br]|] eqn:E; [|vm_compute in E; discriminate].
  destruct (static_buckets_cover_all_but_last spread_peer spread_all
              bt bk br) as (_ & _ & Hbr & _ & _ & _ & Hlast).
  - vm_compute. discriminate.
  - intros x Hx. simpl in Hx.
    repeat (destruct Hx as [<-|Hx]; [lia|]). destruct Hx.
  - exact E.
  - exists bt, bk, br. split; [reflexivity|]. split; [exact Hbr|].
    apply (Hlast ltac:(vm_compute; discriminate) 128 ltac:(lia)).
Defined.

End StaticShape.

(* ================================================================= *)
(** ** What an eviction forgets *)

Lemma discard_all_forgets {V : Type} (kp : dict V) (connected R : list Z) :
  dict_wf kp ->
  (forall x, In x R -> In x connected) ->
  forgets kp (discard_all kp R) connected R.
Proof.
  intros Hwf Hin. split.
  - intros x Hx. split; [auto|]. now apply dict_get_discard_all_same.
  - intros k Hk. now apply dict_get_discard_all_other.
Qed.

Lemma forgets_nothing {V : Type} (kp : dict V) (connected : list Z) :
  forgets kp kp connected [].
Proof.
  split; [intros x []|reflexivity].
Qed.

Lemma static_optimize_incl p ap g R g' :
  Static.optimize_connections p ap g = Ok (R, g') ->
  forall x, In x R -> In x (Fixed.get_connected_peers p).
Proof.
  unfold Static.optimize_connections. cbv zeta.
  destruct (len ap <=? 1); [intros H; injection H as <- <-; intros x []|].
  destruct (len (Fixed.get_connected_peers p) <=? Fixed.max_connections p);
    [intros H; injection H as <- <-; intros x []|].
  destruct (Static.calculate_optimal_distribution p ap)
    as [[[bt bk] br]|].
  - destruct (0 <? _).
    + destruct (sample _ _ g) as [[add g1]|] eqn:Hs; cbn [bind]; [|discriminate].
      intros H. injection H as <- <-. intros x Hx.
      apply firstn_incl in Hx. apply in_app_or in Hx.
      destruct Hx as [Hx|Hx].
      * eapply StaticFacts.static_bucket_removals_incl; eauto.
      * apply sample_inv in Hs. destruct Hs as (_ & _ & _ & Hin & _).
        apply Hin, without_In in Hx. tauto.
    + intros H. injection H as <- <-. intros x Hx.
      apply firstn_incl in Hx.
      eapply StaticFacts.static_bucket_removals_incl; eauto.
  - intros H x Hx. apply sample_inv in H.
    destruct H as (_ & _ & _ & Hin & _). auto.
Qed.

Lemma prefix_optimize_incl p ap g R g' :
  Prefix.optimize_connections_improved p ap g = Ok (R, g') ->
  forall x, In x R -> In x (Fixed.get_connected_peers p).
Proof.
  unfold Prefix.optimize_connections_improved. cbv zeta.
  destruct (len (Fixed.get_connected_peers p) <=? Fixed.max_connections p);
    [intros H; injection H as <- <-; intros x []|].
  assert (Hfb : sample (Fixed.get_connected_peers p)
                  (Z.min (len (Fixed.get_connected_peers p)
                          - Fixed.max_connections p)
                         (len (Fixed.get_connected_peers p))) g
                = Ok (R, g') ->
                forall x, In x R -> In x (Fixed.get_connected_peers p)).
  { intros H x Hx. apply sample_inv in H.
    destruct H as (_ & _ & _ & Hin & _). auto. }
  destruct (Prefix.calculate_routing_distribution p ap) as [[td bk]|];
    [|exact Hfb].
  destruct td as [|t td]; [exact Hfb|]. clear Hfb.
  destruct (0 <? _).
  - destruct (sample _ _ g) as [[add g1]|] eqn:Hs; cbn [bind]; [|discriminate].
    intros H. injection H as <- <-. intros x Hx.
    apply (in_app_or (Prefix.bucket_removals p (t :: td) _) add) in Hx.
    destruct Hx as [Hx|Hx].
    + apply (PrefixFacts.prefix_bucket_removals_incl p (t :: td)); exact Hx.
    + apply sample_inv in Hs. destruct Hs as (_ & _ & _ & Hin & _).
      apply Hin, without_In in Hx. tauto.
  - intros H. injection H as <- <-. intros x Hx.
    apply (PrefixFacts.prefix_bucket_removals_incl p (t :: td)); exact Hx.
Qed.

(** X21.  An eviction forgets Connected peers and nothing else.  For a
    peer holding one record per key, under the static, the prefix and the
    gradient policy alike: every peer of the returned list was Connected
    and has no record afterwards (it is forgotten, not demoted), every
    other record is exactly as it was, and the peer keeps its identifier,
    its bound and its queue of invites. *)
Theorem eviction_forgets_only_connected :
  forall (p : Fixed.Peer) (gp : Gradient.GradientPeer)
         (ap : option (list Z)) (g : Rng),
    dict_wf (Fixed.known_peers p) ->
    dict_wf (Gradient.known_peers gp) ->
    (forall p' R g',
        Static.remove_excess_connections p ap g = Ok (p', R, g') ->
        forgets (Fixed.known_peers p) (Fixed.known_peers p')
                (Fixed.get_connected_peers p) R /\
        Fixed.id p' = Fixed.id p /\
        Fixed.max_connections p' = Fixed.max_connections p /\
        Fixed.pending_invites p' = Fixed.pending_invites p) /\
    (forall p' R g',
        Prefix.remove_excess_connections p ap g = Ok (p', R, g') ->
        forgets (Fixed.known_peers p) (Fixed.known_peers p')
                (Fixed.get_connected_peers p) R /\
        Fixed.id p' = Fixed.id p /\
        Fixed.max_connections p' = Fixed.max_connections p /\
        Fixed.pending_invites p' = Fixed.pending_invites p) /\
    (forall gp' R g',
        Gradient.remove_excess_connections gp g = Ok (gp', R, g') ->
        forgets (Gradient.known_peers gp) (Gradient.known_peers gp')
                (Gradient.get_connected_peers gp) R /\
        Gradient.id gp' = Gradient.id gp /\
        Gradient.max_connections gp' = Gradient.max_connections gp /\
        Gradient.address_space_bits gp' = Gradient.address_space_bits gp /\
        Gradient.pending_invites gp' = Gradient.pending_invites gp).
Proof.
  intros p gp ap g Hwf Hgwf. split; [|split].
  - intros p' R g'. unfold Static.remove_excess_connections.
    destruct (_ <=? _).
    { intros H. injection H as <- <- <-.
      split; [apply forgets_nothing|auto]. }
    match goal with
    | |- bind ?c _ = _ -> _ => destruct c as [[R0 g0]|] eqn:Hr
    end; simpl; [|discriminate].
    intros H. injection H as <- <- <-. simpl.
    split; [|auto]. apply discard_all_forgets; auto.
    destruct ap as [l|].
    + eapply static_optimize_incl; eauto.
    + apply sample_inv in Hr. tauto.
  - intros p' R g'. unfold Prefix.remove_excess_connections.
    destruct (_ <=? _).
    { intros H. injection H as <- <- <-.
      split; [apply forgets_nothing|auto]. }
    match goal with
    | |- bind ?c _ = _ -> _ => destruct c as [[R0 g0]|] eqn:Hr
    end; simpl; [|discriminate].
    intros H. injection H as <- <- <-. simpl.
    split; [|auto]. apply discard_all_forgets; auto.
    destruct ap as [l|].
    + eapply prefix_optimize_incl; eauto.
    + apply sample_inv in Hr. tauto.
  - intros gp' R g'. unfold Gradient.remove_excess_connections.
    pose proof (GradientFacts.gradient_connected_NoDup gp Hgwf) as Hnd.
    set (c := Gradient.get_connected_peers gp) in *.
    destruct (len c <=? Gradient.max_connections gp) eqn:E.
    { intros H. injection H as <- <- <-.
      split; [apply forgets_nothing|auto]. }
    apply Z.leb_gt in E.
    destruct (Gradient.class_groups gp c) as [groups|] eqn:Hg; simpl;
      [|discriminate].
    assert (Hgroups : GradientClasses.grouped gp c groups).
    { apply (GradientFacts.class_groups_grouped gp c [] [] groups); auto.
      - intros x. apply GradientFacts.connected_known.
      - split; [constructor | intros k; reflexivity]. }
    set (order := rev (sort_by (fun k => k) (dict_keys groups))).
    assert (Hperm : Permutation order (dict_keys groups)).
    { subst order.
      eapply perm_trans; [apply Permutation_sym, Permutation_rev|].
      apply sort_by_perm. }
    destruct (foldM (Gradient.evict_class gp groups) order
                ([], len c - Gradient.max_connections gp, g))
      as [[[T ex'] g1]|] eqn:Hloop; simpl; [|discriminate].
    destruct (Gradient.delete_all (Gradient.known_peers gp) T)
      as [kp|] eqn:Hd; simpl; [|discriminate].
    intros H. injection H as <- <- <-. simpl.
    apply foldM_dict_del_discard in Hd. subst kp.
    split; [|auto].
    destruct (GradientEviction.evict_loop gp groups Hgroups Hnd order
                _ _ _ _ _ _ Hloop)
      as (added & HT & _ & _ & _ & Hin & _).
    { lia. }
    { eapply Permutation_NoDup; [apply Permutation_sym; exact Hperm|].
      apply Hgroups. }
    { intros x Hx. eapply Permutation_in; eauto. }
    simpl in HT. subst added.
    apply discard_all_forgets; auto.
    intros x Hx. apply Hin. exact Hx.
Qed.

Lemma eviction_forgets_only_connected_witness :
  exists p' R g',
    Static.remove_excess_connections spread_peer (Some spread_all) pick_rng
    = Ok (p', R, g') /\
    R <> [] /\
    forgets (Fixed.known_peers spread_peer) (Fixed.known_peers p')
            (Fixed.get_connected_peers spread_peer) R.
Proof.
  destruct (Static.remove_excess_connections spread_peer (Some spread_all)
              pick_rng) as [[[p' R] g']|] eqn:E;
    [|vm_compute in E; discriminate].
  destruct (eviction_forgets_only_connected spread_peer ring_peer
              (Some spread_all) pick_rng) as (H & _ & _).
  - vm_compute. repeat constructor; simpl; intuition discriminate.
  - vm_compute. repeat constructor; simpl; intuition discriminate.
  - exists p', R, g'. split; [reflexivity|]. split.
    + vm_compute in E. injection E as _ <- _. discriminate.
    + apply (H p' R g' E).
Defined.

(* ================================================================= *)
(** ** What a recorded round says *)

Module FixedRoundMetrics.
Import Fixed FixedMetrics.

Lemma bump_count c st st' :
  map fst c = all_states ->
  map fst (bump c st) = all_states /\
  count_of (bump c st) st'
  = count_of c st' + (if PeerState_eqb st st' then 1 else 0).
Proof.
  intros H.
  destruct c as [|[k1 v1] [|[k2 v2] [|[k3 v3] [|[k4 v4] [|e c]]]]];
    try discriminate.
  unfold all_states in H. simpl in H.
  injection H as -> -> -> ->.
  split.
  - destruct st; reflexivity.
  - destruct st, st'; unfold count_of; simpl; lia.
Qed.

Lemma bump_fold_count kp :
  forall c st',
    map fst c = all_states ->
    let c' := fold_left (fun sc (e : Z * PeerInfo) => bump sc (state (snd e)))
                        kp c in
    map fst c' = all_states /\
    count_of c' st'
    = count_of c st'
      + len (filter (fun e : Z * PeerInfo => PeerState_eqb (state (snd e)) st')
                    kp).
Proof.
  induction kp as [|e kp IH]; intros c st' Hc; cbn [fold_left].
  - split; [exact Hc|]. unfold len. simpl. lia.
  - destruct (bump_count c (state (snd e)) st' Hc) as [Hk Hcount].
    destruct (IH (bump c (state (snd e))) st' Hk) as [Hk' Hcount'].
    split; [exact Hk'|]. cbv zeta in Hcount'. rewrite Hcount', Hcount.
    cbn [filter]. destruct (PeerState_eqb (state (snd e)) st');
      unfold len; simpl length; lia.
Qed.

Lemma record_peers_spec r cands l :
  forall a,
    map fst (acc_state_counts a) = all_states ->
    let a' := fold_left (record_peer r cands) l a in
    connection_counts a'
    = connection_counts a
      ++ map (fun p => len (get_connected_peers p)) l /\
    acc_total a'
    = acc_total a
      + fold_right Z.add 0 (map (fun p => len (get_connected_peers p)) l) /\
    map fst (acc_state_counts a') = all_states /\
    (forall st,
        count_of (acc_state_counts a') st
        = count_of (acc_state_counts a) st
          + fold_right Z.add 0
              (map (fun p => len (get_peers_by_state p st)) l)) /\
    acc_candidates a <= acc_candidates a' <= acc_candidates a + len l.
Proof.
  induction l as [|p l IH]; intros a Ha; cbn [fold_left].
  - cbn [map fold_right]. rewrite app_nil_r.
    repeat split; auto; try lia. unfold len. simpl. lia.
  - set (a1 := record_peer r cands a p).
    assert (Hk1 : map fst (acc_state_counts a1) = all_states).
    { subst a1. unfold record_peer. simpl.
      apply (bump_fold_count (known_peers p) _ CONNECTED Ha). }
    destruct (IH a1 Hk1) as (Hcc & Htot & Hk & Hst & Hcand).
    cbv zeta in *. rewrite Hcc, Htot. split; [|split; [|split; [|split]]].
    + subst a1. unfold record_peer. simpl. now rewrite <- app_assoc.
    + subst a1. unfold record_peer. simpl. lia.
    + exact Hk.
    + intros st. rewrite Hst. subst a1. unfold record_peer. simpl.
      destruct (bump_fold_count (known_peers p) _ st Ha) as [_ ->].
      unfold get_peers_by_state. cbn [map fold_right].
      unfold len. rewrite length_map. lia.
    + assert (acc_candidates a <= acc_candidates a1 <= acc_candidates a + 1).
      { subst a1. unfold record_peer. simpl.
        destruct (mem (id p) cands && _); lia. }
      unfold len in *. simpl length. lia.
Qed.

Lemma mean_Int data z :
  data <> [] -> mean data = Int z -> z * len data = fold_right Z.add 0 data.
Proof.
  intros Hne. unfold mean.
  destruct (fold_right Z.add 0 data mod len data =? 0) eqn:E;
    [|discriminate].
  intros H. injection H as <-. apply Z.eqb_eq in E.
  assert (len data <> 0).
  { unfold len. destruct data; [congruence|]. simpl. lia. }
  pose proof (Z_div_mod_eq_full (fold_right Z.add 0 data) (len data)). lia.
Qed.

(** X22.  What [record_round] writes down agrees with the registry it
    reads.  The call appends exactly one entry, numbered as asked; its
    [connection_distribution] lists the Connected count of every
    registered peer, in the order of the registry; [total_connections]
    is the sum of that list and equals the count of Connected records in
    [state_counts]; [state_counts] has the four states, each with the
    number of records in that state over all peers; [candidates_connected]
    lies between 0 and the number of peers; an integer average times the
    number of peers is the total; and the set of candidates and the list
    of connection changes are left as they were. *)
Theorem round_metrics_consistent :
  forall (m : SimulationMetrics) (r : Z) (ps : dict Peer),
    exists rm,
      round_data (record_round m r ps) = round_data m ++ [rm] /\
      round rm = r /\
      connection_distribution rm
      = map (fun e => len (get_connected_peers (snd e))) ps /\
      total_connections rm
      = fold_right Z.add 0 (connection_distribution rm) /\
      total_connections rm = count_of (state_counts rm) CONNECTED /\
      map fst (state_counts rm) = all_states /\
      (forall st,
          count_of (state_counts rm) st
          = fold_right Z.add 0
              (map (fun e => len (get_peers_by_state (snd e) st)) ps)) /\
      0 <= candidates_connected rm <= len ps /\
      (forall z, avg_connections rm = Int z ->
                 z * len ps = total_connections rm) /\
      candidate_ids (record_round m r ps) = candidate_ids m /\
      connection_changes (record_round m r ps) = connection_changes m.
Proof.
  intros m r ps. unfold record_round.
  set (a0 := mkAcc [] 0 (map (fun st => (st, 0)) all_states) 0
                   (peer_connection_history m) (entry_times m)).
  destruct (record_peers_spec r (candidate_ids m) (map snd ps) a0
              eq_refl) as (Hcc & Htot & Hk & Hst & Hcand).
  cbv zeta in *.
  set (a := fold_left (record_peer r (candidate_ids m)) (map snd ps) a0)
    in *.
  subst a0. cbn [connection_counts acc_total acc_candidates
                 acc_state_counts app] in *.
  rewrite map_map in Hcc, Htot.
  assert (Hstates : forall st,
             count_of (acc_state_counts a) st
             = fold_right Z.add 0
                 (map (fun e : Z * Peer =>
                         len (get_peers_by_state (snd e) st)) ps)).
  { intros st. rewrite Hst, map_map.
    destruct st; reflexivity. }
  assert (Hlen : len (map snd ps) = len ps)
    by (unfold len; now rewrite length_map).
  rewrite Hlen in Hcand.
  assert (Hrm : exists avg,
             match connection_counts a with
             | [] => mkRound r (acc_total a) (Int 0) [] (acc_state_counts a)
                             (acc_candidates a)
             | _ :: _ => mkRound r (acc_total a) (mean (connection_counts a))
                                 (connection_counts a) (acc_state_counts a)
                                 (acc_candidates a)
             end
             = mkRound r (acc_total a) avg (connection_counts a)
                       (acc_state_counts a) (acc_candidates a) /\
             forall z, avg = Int z -> z * len ps = acc_total a).
  { destruct (connection_counts a) as [|c0 cc] eqn:Ecc.
    - exists (Int 0). split; [reflexivity|].
      intros z Hz. injection Hz as <-.
      destruct ps; [|discriminate]. rewrite Htot. reflexivity.
    - exists (mean (c0 :: cc)). split; [reflexivity|].
      intros z Hz. apply mean_Int in Hz; [|discriminate].
      rewrite Htot, <- Hcc, <- Hz, Hcc. unfold len.
      now rewrite length_map. }
  destruct Hrm as (avg & -> & Havg).
  eexists. split; [cbn [round_data]; reflexivity|].
  cbn [round total_connections connection_distribution state_counts
         candidates_connected avg_connections candidate_ids
         connection_changes].
  split; [reflexivity|].
  split; [exact Hcc|].
  split; [rewrite Hcc; lia|].
  split; [rewrite Hstates; unfold get_connected_peers in Htot; lia|].
  split; [exact Hk|].
  split; [exact Hstates|].
  split; [lia|].
  split; [exact Havg|].
  split; reflexivity.
Qed.

End FixedRoundMetrics.

(* ================================================================= *)
(** ** When a candidate is recorded as entered *)

Module FixedEntryTimes.
Import Fixed FixedMetrics.

Lemma record_peers_entry r cands c l :
  forall a,
    dict_get (acc_entry_times (fold_left (record_peer r cands) l a)) c
    = match dict_get (acc_entry_times a) c with
      | Some r0 => Some r0
      | None =>
          if mem c cands &&
             existsb (fun p => (id p =? c) &&
                               (0 <? len (get_connected_peers p))) l
          then Some r else None
      end.
Proof.
  induction l as [|p l IH]; intros a; cbn [fold_left existsb].
  - rewrite andb_false_r. now destruct (dict_get (acc_entry_times a) c).
  - rewrite IH. unfold record_peer at 1. cbn [acc_entry_times].
    destruct (id p =? c) eqn:Eid.
    + apply Z.eqb_eq in Eid. subst c. unfold dict_mem.
      destruct (dict_get (acc_entry_times a) (id p)) as [r0|] eqn:Eget.
      * cbn [negb]. rewrite andb_false_r, Eget. reflexivity.
      * cbn [negb]. rewrite andb_true_r.
        destruct (mem (id p) cands) eqn:Em; cbn [andb].
        -- destruct (0 <? len (get_connected_peers p)); cbn [orb].
           ++ now rewrite dict_get_set_same.
           ++ now rewrite Eget.
        -- now rewrite Eget.
    + cbn [andb orb].
      destruct (mem (id p) cands && (0 <? len (get_connected_peers p))
                && negb (dict_mem (acc_entry_times a) (id p))).
      * rewrite dict_get_set_other by (apply Z.eqb_neq; exact Eid).
        reflexivity.
      * reflexivity.
Qed.

Lemma existsb_map_snd {A B : Type} (f : B -> bool) (l : list (A * B)) :
  existsb f (map snd l) = existsb (fun e => f (snd e)) l.
Proof.
  induction l as [|e l IH]; simpl; [reflexivity|now rewrite IH].
Qed.

Lemma record_round_entry m r ps c :
  dict_get (entry_times (record_round m r ps)) c
  = match dict_get (entry_times m) c with
    | Some r0 => Some r0
    | None =>
        if mem c (candidate_ids m) && has_connection c ps then Some r
        else None
    end.
Proof.
  unfold record_round. cbn [entry_times].
  rewrite record_peers_entry. cbn [acc_entry_times].
  unfold has_connection.
  now rewrite (existsb_map_snd
                 (fun p => (id p =? c) && (0 <? len (get_connected_peers p)))).
Qed.

Lemma record_round_frame m r ps :
  candidate_ids (record_round m r ps) = candidate_ids m /\
  map round (round_data (record_round m r ps))
  = map round (round_data m) ++ [r].
Proof.
  unfold record_round. cbn [candidate_ids round_data].
  split; [reflexivity|]. rewrite map_app. cbn [map].
  now destruct (connection_counts _).
Qed.

(** X23.  [entry_times] holds, for a candidate, the number of the first
    recorded round in which it had a Connected peer.  Over any sequence
    of calls of [record_round]: an entry that is there stays as it is;
    a peer that is no candidate never gets one; a candidate without an
    entry gets the number of the first call in which a registered peer
    with its identifier holds a Connected peer, and none when there is no
    such call.  The recorded rounds are numbered as the calls were, in
    order, and [record_entry] does not overwrite an entry either. *)
Theorem entry_time_is_first_connection :
  forall (m : SimulationMetrics) (calls : list (Z * dict Peer)) (c r : Z),
    dict_get (entry_times (record_all m calls)) c
    = match dict_get (entry_times m) c with
      | Some r0 => Some r0
      | None =>
          if mem c (candidate_ids m)
          then option_map fst
                 (find (fun call => has_connection c (snd call)) calls)
          else None
      end /\
    map round (round_data (record_all m calls))
    = map round (round_data m) ++ map fst calls /\
    candidate_ids (record_all m calls) = candidate_ids m /\
    dict_get (entry_times (record_entry m c r)) c
    = match dict_get (entry_times m) c with
      | Some r0 => Some r0
      | None => Some r
      end.
Proof.
  intros m calls c r. split; [|split; [|split]].
  - revert m. induction calls as [|[r1 ps] calls IH]; intros m.
    + simpl. destruct (dict_get (entry_times m) c); [reflexivity|].
      now destruct (mem c (candidate_ids m)).
    + unfold record_all in *. cbn [fold_left fst snd find].
      rewrite IH, record_round_entry.
      destruct (record_round_frame m r1 ps) as [-> _].
      destruct (dict_get (entry_times m) c); [reflexivity|].
      destruct (mem c (candidate_ids m)); [|reflexivity].
      cbn [andb]. now destruct (has_connection c ps).
  - revert m. induction calls as [|[r1 ps] calls IH]; intros m.
    + simpl. now rewrite app_nil_r.
    + unfold record_all in *. cbn [fold_left fst snd map].
      rewrite IH. destruct (record_round_frame m r1 ps) as [_ ->].
      now rewrite <- app_assoc.
  - revert m. induction calls as [|[r1 ps] calls IH]; intros m.
    + reflexivity.
    + unfold record_all in *. cbn [fold_left fst snd].
      rewrite IH. apply record_round_frame.
  - unfold record_entry, dict_mem.
    destruct (dict_get (entry_times m) c) as [r0|] eqn:E.
    + now rewrite E.
    + cbn [entry_times]. now rewrite dict_get_set_same.
Qed.

End FixedEntryTimes.

(* ================================================================= *)
(** ** The rounds a run records *)

Module FixedRunMetrics.
Import Fixed FixedRegistry FixedMetrics.

(** The bounds of the registered peers, in the order of the registry. *)
Lemma bounds_by_key (ps' : dict Peer) :
  forall ps,
    dict_keys ps' = dict_keys ps ->
    dict_wf ps ->
    (forall k, option_map max_connections (dict_get ps' k)
               = option_map max_connections (dict_get ps k)) ->
    map (fun e => max_connections (snd e)) ps'
    = map (fun e => max_connections (snd e)) ps.
Proof.
  induction ps' as [|[k' p'] ps' IH]; intros [|[k p] ps] Hk Hwf Hget;
    try discriminate; [reflexivity|].
  simpl in Hk. injection Hk as -> Hk.
  unfold dict_wf in Hwf. simpl in Hwf.
  inversion Hwf as [|? ? Hnin Hnd]; subst.
  cbn [map snd]. f_equal.
  - specialize (Hget k). simpl in Hget. rewrite Z.eqb_refl in Hget.
    now injection Hget.
  - apply IH; auto. intros k0.
    destruct (Z.eq_dec k k0) as [<-|Hne].
    + assert (dict_get ps k = None) by (now apply dict_get_None_keys).
      assert (dict_get ps' k = None)
        by (apply dict_get_None_keys; now rewrite Hk).
      congruence.
    + specialize (Hget k0). simpl in Hget.
      apply Z.eqb_neq in Hne. now rewrite Hne in Hget.
Qed.

Lemma distribution_within_bounds (ps : dict Peer) :
  dict_wf ps ->
  (forall k p, dict_get ps k = Some p -> within_bound p) ->
  Forall2 (fun count bound => 0 <= count <= bound)
    (map (fun e => len (get_connected_peers (snd e))) ps)
    (map (fun e => max_connections (snd e)) ps).
Proof.
  induction ps as [|[k p] ps IH]; intros Hwf Hb; [constructor|].
  unfold dict_wf in Hwf. simpl in Hwf.
  inversion Hwf as [|? ? Hnin Hnd]; subst.
  cbn [map snd]. constructor.
  - split; [apply len_nonneg|].
    apply (Hb k p). simpl. now rewrite Z.eqb_refl.
  - apply IH; auto. intros k0 p0 Hget. apply (Hb k0 p0).
    simpl. destruct (k =? k0) eqn:E; [|exact Hget].
    apply Z.eqb_eq in E. subst k0. apply dict_get_In_keys in Hget.
    contradiction.
Qed.

Lemma record_round_new m r ps :
  exists rm,
    round_data (record_round m r ps) = round_data m ++ [rm] /\
    round rm = r /\
    connection_distribution rm
    = map (fun e => len (get_connected_peers (snd e))) ps.
Proof.
  destruct (FixedRoundMetrics.record_peers_spec r (candidate_ids m)
              (map snd ps)
              (mkAcc [] 0 (map (fun st => (st, 0)) all_states) 0
                     (peer_connection_history m) (entry_times m))
              eq_refl) as (Hcc & _).
  cbv zeta in Hcc. cbn [connection_counts app] in Hcc.
  rewrite map_map in Hcc.
  unfold record_round. cbn [round_data].
  eexists. split; [reflexivity|].
  destruct (connection_counts _) as [|c0 cc] eqn:E; cbn [round
    connection_distribution]; split; auto.
Qed.

Lemma run_rounds_recorded n :
  forall sim m g sim' m' g',
    FixedMetrics.run_rounds n sim m g = Ok (sim', m', g') ->
    dict_wf (peers sim) ->
    registry_ok (peers sim) ->
    records_wf (peers sim) ->
    Fixed.run_rounds n sim g = Ok (sim', g') /\
    exists new,
      round_data m' = round_data m ++ new /\
      map round new
      = map (fun i => round_number sim + Z.of_nat i) (seq 0 n) /\
      forall rm,
        In rm new ->
        Forall2 (fun count bound => 0 <= count <= bound)
          (connection_distribution rm)
          (map (fun e => max_connections (snd e)) (peers sim)).
Proof.
  induction n as [|n IH]; intros sim m g sim' m' g' H Hk Hok Hwf.
  - simpl in H. injection H as <- <- <-. split; [reflexivity|].
    exists []. rewrite app_nil_r. repeat split; auto. intros rm [].
  - cbn [FixedMetrics.run_rounds] in H. unfold FixedMetrics.simulate_round in H.
    destruct (Fixed.simulate_round sim g) as [[sim1 g1]|] eqn:E;
      cbn [bind] in H; [|discriminate].
    destruct (FixedDegree.simulate_round_bound _ _ _ _ E Hk Hok Hwf)
      as (Hk1 & Hwf1 & Hb1).
    pose proof (FixedRounds.simulate_round_ok _ _ _ _ E Hok) as Hok1.
    destruct (FixedFrame.simulate_round_frame _ _ _ _ E)
      as (_ & _ & _ & Hkeys & Hround & Hid).
    destruct (IH _ _ _ _ _ _ H Hk1 Hok1 Hwf1)
      as (Hrun & new & Hdata & Hrounds & Hnew).
    split; [cbn [Fixed.run_rounds]; rewrite E; exact Hrun|].
    destruct (record_round_new m (round_number sim1 - 1) (peers sim1))
      as (rm1 & Hrm & Hr1 & Hd1).
    assert (Hbounds : map (fun e => max_connections (snd e)) (peers sim1)
                      = map (fun e => max_connections (snd e)) (peers sim)).
    { apply bounds_by_key; auto. intros k.
      specialize (Hid k). unfold identity in Hid.
      destruct (dict_get (peers sim1) k), (dict_get (peers sim) k);
        simpl in *; congruence. }
    exists (rm1 :: new). split; [|split].
    + rewrite Hdata, Hrm, <- app_assoc. reflexivity.
    + cbn [map seq]. rewrite Hr1, Hrounds, <- seq_shift, map_map.
      f_equal; [lia|]. apply map_ext. intros i. lia.
    + intros rm [<-|Hin].
      * rewrite Hd1, <- Hbounds.
        now apply distribution_within_bounds.
      * rewrite <- Hbounds. now apply Hnew.
Qed.

(** X24.  Every recorded round respects the bounds.  A run of [n] rounds
    from a registry that holds every peer once, under its own identifier
    and with one record per key, simulates exactly as it does without the
    metrics, and appends [n] entries numbered from the starting round on;
    in each of them [connection_distribution] has one count per
    registered peer, in registry order, each between 0 and the
    [max_connections] of that peer.  [run_simulation] is the run of
    [simulation_rounds] rounds. *)
Theorem recorded_rounds_respect_bounds :
  forall (n : nat) (sim : NetworkSimulator) (m : SimulationMetrics)
         (g : Rng) (sim' : NetworkSimulator) (m' : SimulationMetrics)
         (g' : Rng),
    dict_wf (peers sim) ->
    registry_ok (peers sim) ->
    records_wf (peers sim) ->
    (FixedMetrics.run_rounds n sim m g = Ok (sim', m', g') ->
     Fixed.run_rounds n sim g = Ok (sim', g') /\
     exists new,
       round_data m' = round_data m ++ new /\
       map round new
       = map (fun i => round_number sim + Z.of_nat i) (seq 0 n) /\
       forall rm,
         In rm new ->
         Forall2 (fun count bound => 0 <= count <= bound)
           (connection_distribution rm)
           (map (fun e => max_connections (snd e)) (peers sim))) /\
    (run_simulation sim m g = Ok (sim', m', g') ->
     len (round_data m')
     = len (round_data m) + Z.max 0 (simulation_rounds (config sim))).
Proof.
  intros n sim m g sim' m' g' Hk Hok Hwf. split.
  - intros H. eapply run_rounds_recorded; eauto.
  - unfold run_simulation. intros H.
    destruct (run_rounds_recorded _ _ _ _ _ _ _ H Hk Hok Hwf)
      as (_ & new & -> & Hrounds & _).
    rewrite len_app. f_equal.
    apply (f_equal (@length Z)) in Hrounds.
    rewrite !length_map, length_seq in Hrounds.
    unfold len. rewrite Hrounds. lia.
Qed.

Lemma recorded_rounds_respect_bounds_witness :
  exists sim' m' g',
    FixedMetrics.run_rounds 1 trio_sim new_metrics zero_rng
    = Ok (sim', m', g') /\
    map round (round_data m') = [7].
Proof.
  destruct (FixedMetrics.run_rounds 1 trio_sim new_metrics zero_rng)
    as [[[sim' m'] g']|] eqn:E; [|vm_compute in E; discriminate].
  destruct (recorded_rounds_respect_bounds 1 trio_sim new_metrics zero_rng
              sim' m' g') as [H _].
  - unfold dict_wf. simpl. repeat constructor; simpl; lia.
  - apply registry_okb_sound. vm_compute. reflexivity.
  - apply FixedTotal.records_wf_Forall.
    repeat constructor; simpl; unfold dict_wf; simpl;
      repeat constructor; simpl; lia.
  - destruct (H E) as (_ & new & Hd & Hr & _).
    exists sim', m', g'. split; [reflexivity|].
    rewrite Hd. simpl. rewrite Hr. reflexivity.
Defined.

End FixedRunMetrics.

(* ================================================================= *)
(** ** The rounds of the two bucketed simulators *)

Module BucketedRounds.
Import Fixed FixedRegistry.

Lemma bucketed_maintenance sim peer g :
  Bucketed.maintenance sim peer g = Fixed.maintenance sim peer g.
Proof.
  unfold Bucketed.maintenance, Fixed.maintenance.
  destruct (2 <=? len (get_connected_peers peer)) eqn:E; [|reflexivity].
  apply Z.leb_le in E. now rewrite Z.min_l by exact E.
Qed.

Section Policy.

Variable evict : Peer -> option (list Z) -> Rng -> res (Peer * list Z * Rng).
Variable soft : Peer -> Z.
Variable ids : list Z.

Hypothesis evict_ok :
  forall p g,
    dict_wf (known_peers p) -> 0 <= max_connections p ->
    exists p' R g',
      evict p (Some ids) g = Ok (p', R, g') /\
      dict_wf (known_peers p') /\
      id p' = id p /\
      max_connections p' = max_connections p /\
      len (get_connected_peers p') <= soft p'.

Hypothesis soft_of_bound :
  forall p p', max_connections p' = max_connections p -> soft p' = soft p.

(** One step of phase 3 returns; the peer of the step ends within its
    soft bound, the records and bounds of the others are untouched. *)
Lemma bucketed_step sim g key :
  records_wf (peers sim) ->
  bounds_nonneg (peers sim) ->
  In key (dict_keys (peers sim)) ->
  exists sim' g',
    Bucketed.phase3_step evict ids (sim, g) key = Ok (sim', g') /\
    frame sim' = frame sim /\
    (forall k, identity sim' k = identity sim k) /\
    (exists p', dict_get (peers sim') key = Some p' /\
                dict_wf (known_peers p') /\
                len (get_connected_peers p') <= soft p') /\
    (forall k, k <> key -> record sim' k = record sim k).
Proof.
  intros Hwf Hb Hkey. unfold Bucketed.phase3_step.
  destruct (dict_get (peers sim) key) as [peer|] eqn:Hget;
    [|apply dict_get_None_keys in Hget; contradiction].
  pose proof (FixedFacts.process_invites_spec peer (round_number sim)) as Hp.
  pose proof (FixedDegree.process_invites_wf peer (round_number sim)
                (Hwf _ _ Hget)) as Hwf1.
  destruct (process_invites peer (round_number sim)) as [peer1 sc].
  cbv zeta in Hp. cbn [fst] in Hp, Hwf1. destruct Hp as (Hid1 & Hmax1 & _).
  set (sim1 := with_peers sim (dict_set (peers sim) key peer1)).
  rewrite bucketed_maintenance.
  destruct (FixedTotal.maintenance_total sim1 peer1 g)
    as (sim2 & sel & g1 & Hm).
  rewrite Hm. cbn [bind].
  pose proof (fun k => FixedDegree.maintenance_record _ _ _ _ _ _ k Hm)
    as Hrec2.
  pose proof (fun k => FixedFrame.maintenance_identity _ _ _ _ _ _ k Hm)
    as Hid2.
  pose proof (FixedFrame.maintenance_same_frame _ _ _ _ _ _ Hm) as Hf2.
  assert (Hkey2 : record sim2 key
                  = Some (known_peers peer1, max_connections peer1)).
  { rewrite Hrec2. apply FixedDegree.set_record_same. }
  unfold record in Hkey2.
  destruct (dict_get (peers sim2) key) as [peer2|] eqn:Hget2;
    [|discriminate].
  injection Hkey2 as Hkp2 Hmax2.
  destruct (evict_ok peer2 g1) as (peer3 & R & g2 & He & Hwf3 & Hid3 & Hmax3
                                   & Hsoft).
  { now rewrite Hkp2. }
  { rewrite Hmax2, Hmax1. eapply Hb; eauto. }
  rewrite He. cbn [bind].
  eexists _, _. split; [reflexivity|].
  split; [|split; [|split]].
  - rewrite (FixedFrame.frame_set sim2 key peer2 peer3 Hget2), Hf2.
    subst sim1. apply (FixedFrame.frame_set sim key peer peer1 Hget).
  - intros k.
    rewrite (FixedFrame.identity_set_keep sim2 key peer2 peer3 k Hget2)
      by auto.
    rewrite Hid2. subst sim1.
    apply (FixedFrame.identity_set_keep sim key peer peer1 k Hget); auto.
  - exists peer3. cbn [peers with_peers]. rewrite dict_get_set_same.
    auto.
  - intros k Hne. rewrite FixedDegree.set_record_other by auto.
    rewrite Hrec2. subst sim1. now apply FixedDegree.set_record_other.
Qed.

Lemma bucketed_loop l :
  forall sim g,
    records_wf (peers sim) ->
    bounds_nonneg (peers sim) ->
    NoDup l ->
    incl l (dict_keys (peers sim)) ->
    exists sim' g',
      foldM (Bucketed.phase3_step evict ids) l (sim, g) = Ok (sim', g') /\
      frame sim' = frame sim /\
      (forall k, identity sim' k = identity sim k) /\
      records_wf (peers sim') /\
      (forall k, In k l ->
                 exists p', dict_get (peers sim') k = Some p' /\
                            len (get_connected_peers p') <= soft p') /\
      (forall k, ~ In k l -> record sim' k = record sim k).
Proof.
  induction l as [|a l IH]; intros sim g Hwf Hb Hnd Hincl.
  - exists sim, g. split; [reflexivity|]. repeat split; auto.
    intros k [].
  - destruct (bucketed_step sim g a Hwf Hb (Hincl a (or_introl eq_refl)))
      as (sim1 & g1 & Hstep & Hf1 & Hid1 & (pa & Hpa & Hwfa & Hsa) & Hoth).
    cbn [foldM]. rewrite Hstep. cbn [bind].
    inversion Hnd as [|? ? Hnotin Hnd']; subst.
    assert (Hwf1 : records_wf (peers sim1)).
    { intros k p Hk. destruct (Z.eq_dec k a) as [->|Hne].
      - rewrite Hpa in Hk. now injection Hk as <-.
      - specialize (Hoth k Hne). unfold record in Hoth. rewrite Hk in Hoth.
        destruct (dict_get (peers sim) k) as [p0|] eqn:E; [|discriminate].
        injection Hoth as -> _. eapply Hwf; eauto. }
    assert (Hb1 : bounds_nonneg (peers sim1))
      by (eapply FixedTotal.bounds_identity; eauto).
    assert (Hkeys1 : dict_keys (peers sim1) = dict_keys (peers sim)).
    { unfold frame in Hf1. now injection Hf1. }
    destruct (IH sim1 g1 Hwf1 Hb1 Hnd') as
      (sim' & g' & Hloop & Hf & Hid & Hwf' & Hin & Hout).
    { rewrite Hkeys1. intros x Hx. apply Hincl. now right. }
    exists sim', g'. split; [exact Hloop|].
    split; [congruence|].
    split; [intros k; now rewrite Hid|].
    split; [exact Hwf'|]. split.
    + intros k [<-|Hk]; [|auto].
      pose proof (Hout a Hnotin) as Hrec. unfold record in Hrec.
      rewrite Hpa in Hrec.
      destruct (dict_get (peers sim') a) as [p'|]; [|discriminate].
      injection Hrec as Hkp Hmax. exists p'. split; [reflexivity|].
      rewrite (soft_of_bound pa p' Hmax).
      unfold get_connected_peers, get_peers_by_state in *.
      now rewrite Hkp.
    + intros k Hk. rewrite Hout by (intros Hkl; apply Hk; now right).
      apply Hoth. intros ->. apply Hk. now left.
Qed.

Lemma bucketed_round sim g :
  ids = dict_keys (peers sim) ->
  dict_wf (peers sim) ->
  records_wf (peers sim) ->
  bounds_nonneg (peers sim) ->
  exists sim' g',
    Bucketed.simulate_round evict sim g = Ok (sim', g') /\
    dict_keys (peers sim') = dict_keys (peers sim) /\
    round_number sim' = round_number sim + 1 /\
    (forall k, identity sim' k = identity sim k) /\
    records_wf (peers sim') /\
    all_within soft (peers sim').
Proof.
  intros Hids Hk Hwf Hb. unfold Bucketed.simulate_round. rewrite <- Hids.
  destruct (FixedTotal.phase1_total sim g) as (sim1 & inv & g1 & H1).
  rewrite H1. cbn [bind].
  pose proof (FixedFrame.phase1_same_frame _ _ _ _ _ H1) as F1.
  pose proof (FixedFrame.phase2_same_frame sim1 inv) as F2.
  set (sim2 := phase2 sim1 inv) in *.
  assert (Hid2 : forall k, identity sim2 k = identity sim k).
  { intros k. subst sim2. rewrite FixedFrame.phase2_identity.
    eapply FixedFrame.phase1_identity; eauto. }
  assert (Hkeys2 : dict_keys (peers sim2) = dict_keys (peers sim)).
  { rewrite F1 in F2. unfold frame in F2. now injection F2. }
  destruct (bucketed_loop (dict_keys (peers sim2)) sim2 g1)
    as (sim3 & g2 & H3 & F3 & Hid3 & Hwf3 & Hin & _).
  { subst sim2. apply FixedDegree.phase2_wf.
    eapply FixedDegree.phase1_wf; eauto. }
  { eapply FixedTotal.bounds_identity; eauto. }
  { rewrite Hkeys2. exact Hk. }
  { intros x Hx. exact Hx. }
  rewrite H3. cbn [bind].
  eexists _, _. split; [reflexivity|]. cbn [peers round_number].
  rewrite Hids.
  rewrite F2, F1 in F3. unfold frame in F3.
  injection F3 as E1 E2 E3 E4 E5.
  split; [exact E5|]. split; [now rewrite E4|].
  split.
  { intros k. unfold identity at 1. cbn [peers].
    change (identity sim3 k = identity sim k). now rewrite Hid3. }
  split; [exact Hwf3|].
  intros k p Hget.
  destruct (Hin k) as (p' & Hp' & Hs).
  { rewrite Hkeys2, <- E5. eapply dict_get_In_keys; eauto. }
  rewrite Hget in Hp'. now injection Hp' as <-.
Qed.

End Policy.

(** X25.  The rounds of the two bucketed simulators.  From a registry
    that holds every peer once, with one record per key and a
    non-negative bound, a round of [ImprovedDistanceSimulator] never
    raises, keeps the registered identifiers, their order and every
    bound, moves the round counter up by one, and leaves every peer with
    at most [soft_max_connections] Connected peers; so does a round of
    [DistanceOptimizedSimulator] when two peers or more are registered. *)
Theorem bucketed_rounds_within_soft_bound :
  forall (sim : NetworkSimulator) (g : Rng),
    dict_wf (peers sim) ->
    records_wf (peers sim) ->
    bounds_nonneg (peers sim) ->
    (exists sim' g',
        prefix_simulate_round sim g = Ok (sim', g') /\
        dict_keys (peers sim') = dict_keys (peers sim) /\
        round_number sim' = round_number sim + 1 /\
        (forall k, identity sim' k = identity sim k) /\
        records_wf (peers sim') /\
        all_within Prefix.soft_max_connections (peers sim')) /\
    (1 < len (peers sim) ->
     exists sim' g',
       static_simulate_round sim g = Ok (sim', g') /\
       dict_keys (peers sim') = dict_keys (peers sim) /\
       round_number sim' = round_number sim + 1 /\
       (forall k, identity sim' k = identity sim k) /\
       records_wf (peers sim') /\
       all_within Static.soft_max_connections (peers sim')).
Proof.
  intros sim g Hk Hwf Hb. split.
  - apply (bucketed_round Prefix.remove_excess_connections
             Prefix.soft_max_connections (dict_keys (peers sim))); auto.
    + intros p g0 Hp Hmax.
      destruct (PrefixFacts.prefix_remove_excess_total p
                  (Some (dict_keys (peers sim))) g0) as (p' & R & g' & He).
      exists p', R, g'. split; [exact He|].
      destruct (PrefixFacts.prefix_remove_excess_count _ _ _ _ _ _ He Hp Hmax)
        as [Hc _].
      revert He. unfold Prefix.remove_excess_connections.
      destruct (_ <=? _).
      { intros H. injection H as <- <- <-. auto. }
      match goal with
      | |- bind ?c _ = _ -> _ => destruct c as [[R0 g1]|]
      end; cbn [bind]; [|discriminate].
      intros H. injection H as <- <- <-. cbn [known_peers with_known_peers
        id max_connections]. repeat split; auto.
      now apply discard_all_wf.
    + intros p p' H. unfold Prefix.soft_max_connections,
        Prefix.connection_slack. now rewrite H.
  - intros Hlen.
    apply (bucketed_round Static.remove_excess_connections
             Static.soft_max_connections (dict_keys (peers sim))); auto.
    + intros p g0 Hp Hmax.
      destruct (StaticFacts.static_remove_excess_total p
                  (Some (dict_keys (peers sim))) g0) as (p' & R & g' & He).
      exists p', R, g'. split; [exact He|].
      destruct (StaticFacts.static_remove_excess_count _ _ _ _ _ _ He Hp Hmax)
        as [Hc _].
      { intros l Hl. injection Hl as <-. unfold dict_keys, len in *.
        now rewrite length_map. }
      revert He. unfold Static.remove_excess_connections.
      destruct (_ <=? _).
      { intros H. injection H as <- <- <-. auto. }
      match goal with
      | |- bind ?c _ = _ -> _ => destruct c as [[R0 g1]|]
      end; cbn [bind]; [|discriminate].
      intros H. injection H as <- <- <-. cbn [known_peers with_known_peers
        id max_connections]. repeat split; auto.
      now apply discard_all_wf.
    + intros p p' H. unfold Static.soft_max_connections,
        Static.connection_slack. now rewrite H.
Qed.

Lemma bucketed_rounds_within_soft_bound_witness :
  exists sim' g',
    static_simulate_round trio_sim zero_rng = Ok (sim', g') /\
    all_within Static.soft_max_connections (peers sim').
Proof.
  destruct (bucketed_rounds_within_soft_bound trio_sim zero_rng) as [_ Hs].
  - unfold dict_wf. simpl. repeat constructor; simpl; lia.
  - apply FixedTotal.records_wf_Forall.
    repeat constructor; simpl; unfold dict_wf; simpl;
      repeat constructor; simpl; lia.
  - apply FixedTotal.bounds_nonneg_Forall. repeat constructor; simpl; lia.
  - destruct Hs as (sim' & g' & H & _ & _ & _ & _ & Hw).
    + vm_compute. reflexivity.
    + exists sim', g'. split; [exact H|exact Hw].
Defined.

End BucketedRounds.

(* ================================================================= *)
(** ** The closest known peer of a gradient peer *)

Module GradientClosest.
Import Gradient GradientChoice.

Lemma class_candidates_allowed p ex c x :
  In x (class_candidates p ex c) ->
  In x (map fst (filter (fun e => allowed ex (snd e)) (known_peers p))).
Proof.
  unfold class_candidates. rewrite !in_map_iff.
  intros [e [He Hin]]. exists e. split; [exact He|].
  apply filter_In in Hin. destruct Hin as [Hin Hc].
  apply andb_prop in Hc. apply filter_In. tauto.
Qed.

Lemma adjacent_candidates_class p ex tdc offsets :
  adjacent_candidates p ex tdc offsets = [] \/
  exists o,
    In o offsets /\
    0 <= tdc + o < max_distance_classes p /\
    adjacent_candidates p ex tdc offsets = class_candidates p ex (tdc + o).
Proof.
  induction offsets as [|o offsets IH]; [now left|].
  cbn [adjacent_candidates].
  destruct ((0 <=? tdc + o) && (tdc + o <? max_distance_classes p)) eqn:E.
  - destruct (class_candidates p ex (tdc + o)) as [|c cs] eqn:Ec.
    + destruct IH as [IH|[o' [Ho' IH]]]; [now left|].
      right. exists o'. split; [now right|exact IH].
    + right. exists o. split; [now left|].
      apply andb_prop in E. destruct E as [E1 E2].
      apply Z.leb_le in E1. apply Z.ltb_lt in E2.
      split; [lia|]. now rewrite Ec.
  - destruct IH as [IH|[o' [Ho' IH]]]; [now left|].
    right. exists o'. split; [now right|exact IH].
Qed.

Lemma adjacent_candidates_none p ex tdc offsets :
  (forall o, In o offsets ->
             class_candidates p ex (tdc + o) = [] \/
             ~ 0 <= tdc + o < max_distance_classes p) ->
  adjacent_candidates p ex tdc offsets = [].
Proof.
  induction offsets as [|o offsets IH]; intros H; [reflexivity|].
  cbn [adjacent_candidates].
  destruct ((0 <=? tdc + o) && (tdc + o <? max_distance_classes p)) eqn:E.
  - destruct (H o (or_introl eq_refl)) as [->|Hout].
    + apply IH. intros o' Ho'. apply H. now right.
    + apply andb_prop in E. destruct E as [E1 E2].
      apply Z.leb_le in E1. apply Z.ltb_lt in E2. lia.
  - apply IH. intros o' Ho'. apply H. now right.
Qed.

Lemma min_by_nonempty f l : l <> [] -> exists x, min_by f l = Some x.
Proof.
  destruct l as [|a l]; [congruence|]. intros _. simpl.
  destruct (min_by f l) as [y|]; [destruct (f a <=? f y)|]; eauto.
Qed.

Lemma adjacent_candidates_first p ex tdc before :
  forall o after,
    (forall o', In o' before ->
                class_candidates p ex (tdc + o') = [] \/
                ~ 0 <= tdc + o' < max_distance_classes p) ->
    0 <= tdc + o < max_distance_classes p ->
    class_candidates p ex (tdc + o) <> [] ->
    adjacent_candidates p ex tdc (before ++ o :: after)
    = class_candidates p ex (tdc + o).
Proof.
  induction before as [|b before IH]; intros o after Hb Hr Hne;
    cbn [app adjacent_candidates].
  - replace ((0 <=? tdc + o) && (tdc + o <? max_distance_classes p))
      with true
      by (symmetry; apply andb_true_intro; split;
          [apply Z.leb_le|apply Z.ltb_lt]; lia).
    destruct (class_candidates p ex (tdc + o)); [congruence|reflexivity].
  - destruct ((0 <=? tdc + b) && (tdc + b <? max_distance_classes p)) eqn:E.
    + destruct (Hb b (or_introl eq_refl)) as [->|Hout].
      * apply IH; auto. intros o' Ho'. apply Hb. now right.
      * apply andb_prop in E. destruct E as [E1 E2].
        apply Z.leb_le in E1. apply Z.ltb_lt in E2. lia.
    + apply IH; auto. intros o' Ho'. apply Hb. now right.
Qed.

(** X26.  The gradient peer picks its closest peer class first,
    whatever the rounding of the float logarithm.  A target at a
    negative ring distance from the peer raises [ValueError]; any other
    target gives a result.  With [eligible] the known peers in a state
    that is not excluded, and [tdc] the distance class of the target:
    the result is [None] exactly when there is no eligible peer, and
    otherwise an eligible peer.  When an eligible peer is recorded in
    class [tdc], the answer is the nearest of those to the target on the
    ring, whatever peers other classes hold.  When none is, the answer
    is the nearest of the eligible peers of the first class, in the
    order [tdc + 1], [tdc - 1], [tdc + 2], [tdc - 2], that lies within
    the range of the classes and holds an eligible peer.  When none of
    these does, the answer is the nearest of all eligible peers. *)
Theorem gradient_closest_prefers_the_class :
  forall (round_up : Z -> bool) (p : GradientPeer) (target : Z)
         (ex : list PeerState),
    let eligible :=
      map fst (filter (fun e => allowed ex (snd e)) (known_peers p)) in
    let dist := fun pid => _ring_distance p pid target in
    (_ring_distance p (id p) target < 0 ->
     find_closest_peer_to_target round_up p target ex = Raise ValueError) /\
    (0 <= _ring_distance p (id p) target ->
     exists tdc ans,
       _get_distance_class round_up p (_ring_distance p (id p) target)
       = Ok tdc /\
       find_closest_peer_to_target round_up p target ex = Ok ans /\
       (ans = None <-> eligible = []) /\
       (forall x, ans = Some x -> In x eligible) /\
       (class_candidates p ex tdc <> [] ->
        exists x,
          ans = Some x /\
          In x (class_candidates p ex tdc) /\
          forall y, In y (class_candidates p ex tdc) -> dist x <= dist y) /\
       (class_candidates p ex tdc = [] ->
        forall before o after,
          [1; -1; 2; -2] = before ++ o :: after ->
          (forall o', In o' before ->
                      class_candidates p ex (tdc + o') = [] \/
                      ~ 0 <= tdc + o' < max_distance_classes p) ->
          0 <= tdc + o < max_distance_classes p ->
          class_candidates p ex (tdc + o) <> [] ->
          exists x,
            ans = Some x /\
            In x (class_candidates p ex (tdc + o)) /\
            forall y, In y (class_candidates p ex (tdc + o)) ->
                      dist x <= dist y) /\
       (class_candidates p ex tdc = [] ->
        (forall o, In o [1; -1; 2; -2] ->
                   class_candidates p ex (tdc + o) = [] \/
                   ~ 0 <= tdc + o < max_distance_classes p) ->
        ans = min_by dist eligible /\
        forall x, ans = Some x ->
                  forall y, In y eligible -> dist x <= dist y)).
Proof.
  intros round_up p target ex eligible dist. split.
  { intros Hd. unfold find_closest_peer_to_target.
    now rewrite (GradientInvites.get_distance_class_negative
                   round_up p _ Hd). }
  intros Hd.
  destruct (GradientInvites.get_distance_class_Ok round_up p _ Hd)
    as [tdc Htdc].
  exists tdc. eexists. split; [exact Htdc|].
  unfold find_closest_peer_to_target. rewrite Htdc. cbn [bind].
  split; [reflexivity|].
  fold eligible. fold dist.
  set (own := class_candidates p ex tdc).
  set (adj := adjacent_candidates p ex tdc [1; -1; 2; -2]).
  assert (Hown : forall x, In x own -> In x eligible)
    by (intros x; apply class_candidates_allowed).
  assert (Hadj : forall x, In x adj -> In x eligible).
  { intros x Hx. subst adj.
    destruct (adjacent_candidates_class p ex tdc [1; -1; 2; -2])
      as [E|[o [_ [_ E]]]]; rewrite E in Hx; [destruct Hx|].
    eapply class_candidates_allowed; eauto. }
  split; [|split; [|split; [|split]]].
  - destruct own as [|a l] eqn:Eown.
    + destruct adj as [|b l'] eqn:Eadj.
      * split; [apply min_by_None|intros ->; reflexivity].
      * split.
        -- intros H. apply min_by_None in H. discriminate.
        -- intros E. specialize (Hadj b (or_introl eq_refl)).
           rewrite E in Hadj. destruct Hadj.
    + split.
      * intros H. apply min_by_None in H. discriminate.
      * intros E. specialize (Hown a (or_introl eq_refl)).
        rewrite E in Hown. destruct Hown.
  - intros x Hx. apply min_by_In in Hx.
    destruct own as [|a l]; [destruct adj as [|b l']|]; auto.
  - intros Hne. destruct own as [|a l] eqn:Eown; [congruence|].
    destruct (min_by_nonempty dist (a :: l) ltac:(discriminate)) as [x Hx].
    exists x. split; [exact Hx|]. split.
    + eapply min_by_In; eauto.
    + intros y Hy. exact (min_by_least dist _ _ Hx y Hy).
  - intros Hempty before o after Hsplit Hbefore Hrange Hne.
    rewrite Hempty.
    assert (E : adj = class_candidates p ex (tdc + o)).
    { subst adj. rewrite Hsplit.
      now apply adjacent_candidates_first. }
    rewrite E.
    destruct (class_candidates p ex (tdc + o)) as [|a l] eqn:Ec;
      [congruence|].
    destruct (min_by_nonempty dist (a :: l) ltac:(discriminate)) as [x Hx].
    exists x. split; [exact Hx|]. split.
    + eapply min_by_In; eauto.
    + intros y Hy. exact (min_by_least dist _ _ Hx y Hy).
  - intros Hempty Hnone. rewrite Hempty.
    assert (E : adj = [])
      by (subst adj; now apply adjacent_candidates_none).
    rewrite E. split; [reflexivity|].
    intros x Hx y Hy. exact (min_by_least dist _ _ Hx y Hy).
Qed.

End GradientClosest.

(* ================================================================= *)
(** ** The maintenance targets of a gradient peer *)

Module GradientTargets.
Import Gradient GradientClasses GradientMaintenance.

Lemma pick_diverse_step p sel used x info :
  dict_get (known_peers p) x = Some info ->
  pick_diverse p (sel, used) x
  = if negb (mem (distance_class info) used) && (len sel <? 2)
    then Ok (sel ++ [x], used ++ [distance_class info])
    else Ok (sel, used).
Proof.
  intros H. unfold pick_diverse. now rewrite H.
Qed.

Lemma pick_diverse_full p a b used l :
  (forall x, In x l -> In x (dict_keys (known_peers p))) ->
  foldM (pick_diverse p) l ([a; b], used) = Ok ([a; b], used).
Proof.
  induction l as [|x l IH]; intros Hk; [reflexivity|].
  cbn [foldM].
  destruct (dict_get (known_peers p) x) as [info|] eqn:E.
  - rewrite (pick_diverse_step _ _ _ _ _ E).
    change (len [a; b] <? 2) with false.
    rewrite andb_false_r. cbn [bind]. apply IH.
    intros y Hy. apply Hk. now right.
  - apply dict_get_None_keys in E. exfalso. apply E, Hk. now left.
Qed.

Lemma pick_diverse_second p c1 l :
  (forall x, In x l -> In x (dict_keys (known_peers p))) ->
  exists used,
    foldM (pick_diverse p) l ([c1], [cls p c1])
    = Ok (c1 :: match find (fun x => negb (cls p x =? cls p c1)) l with
                | Some x => [x]
                | None => []
                end, used).
Proof.
  induction l as [|x l IH]; intros Hk; [eexists; reflexivity|].
  cbn [foldM find].
  destruct (dict_get (known_peers p) x) as [info|] eqn:E.
  - assert (Hcls : distance_class info = cls p x)
      by (unfold cls; now rewrite E).
    rewrite (pick_diverse_step _ _ _ _ _ E), Hcls.
    change (len [c1] <? 2) with true. rewrite andb_true_r.
    unfold mem. cbn [existsb]. rewrite orb_false_r.
    destruct (cls p x =? cls p c1); cbn [negb bind app].
    + apply IH. intros y Hy. apply Hk. now right.
    + eexists. apply pick_diverse_full.
      intros y Hy. apply Hk. now right.
  - apply dict_get_None_keys in E. exfalso. apply E, Hk. now left.
Qed.

Lemma choice_nonempty (l : list Z) g :
  l <> [] -> exists x, fst (choice l g) = Some x /\ In x l.
Proof.
  intros Hne. unfold choice.
  pose proof (randbelow_lt (length l) g) as Hlt.
  destruct (randbelow (length l) g) as [i g']. cbn [fst] in *.
  assert (Hi : (i < length l)%nat).
  { apply Hlt. destruct l; [congruence|simpl; lia]. }
  destruct (nth_error l i) as [x|] eqn:E.
  - exists x. split; [reflexivity|]. eapply nth_error_In; eauto.
  - apply nth_error_None in E. lia.
Qed.

(** X27.  The maintenance targets of a gradient peer.  A peer with
    fewer than two Connected peers selects nobody.  A peer holding one
    record per key and the Connected peers [c1 :: rest], [rest] not
    empty, never fails and selects exactly two of them: [c1] first; then
    the first peer of [rest] recorded in another distance class than
    [c1], without any random draw, and when all are in the class of
    [c1], one peer of [rest] picked by [random.choice].  Two turns of the
    filling loop are always enough. *)
Theorem gradient_maintenance_targets :
  forall (p : GradientPeer) (g : Rng) (c1 : Z) (rest : list Z)
         (fuel : nat),
    (len (get_connected_peers p) < 2 ->
     maintenance_targets fuel p g = Some (inl ([], g))) /\
    (dict_wf (known_peers p) ->
     get_connected_peers p = c1 :: rest ->
     rest <> [] ->
     (2 <= fuel)%nat ->
     match find (fun x => negb (cls p x =? cls p c1)) rest with
     | Some x =>
         maintenance_targets fuel p g = Some (inl ([c1; x], g)) /\
         In x rest /\ cls p x <> cls p c1
     | None =>
         exists x,
           choice rest g = (Some x, snd (choice rest g)) /\
           In x rest /\ x <> c1 /\ cls p x = cls p c1 /\
           maintenance_targets fuel p g
           = Some (inl ([c1; x], snd (choice rest g)))
     end).
Proof.
  intros p g c1 rest fuel. split.
  { intros H. unfold maintenance_targets.
    destruct (2 <=? len (get_connected_peers p)) eqn:E; [|reflexivity].
    apply Z.leb_le in E. lia. }
  intros Hwf Hc Hrest Hfuel.
  pose proof (GradientFacts.gradient_connected_NoDup p Hwf) as Hnd.
  rewrite Hc in Hnd. inversion Hnd as [|? ? Hnotin Hnd']; subst.
  assert (Hknown : forall x, In x (c1 :: rest) ->
                             In x (dict_keys (known_peers p))).
  { intros x Hx. apply GradientFacts.connected_known. now rewrite Hc. }
  assert (Hlen : 2 <= len (c1 :: rest)).
  { unfold len. destruct rest; [congruence|]. simpl length. lia. }
  unfold maintenance_targets. rewrite Hc.
  destruct (2 <=? len (c1 :: rest)) eqn:E; [|apply Z.leb_gt in E; lia].
  cbn [foldM].
  destruct (dict_get (known_peers p) c1) as [info1|] eqn:E1.
  2:{ apply dict_get_None_keys in E1. exfalso.
      apply E1, Hknown. now left. }
  rewrite (pick_diverse_step _ _ _ _ _ E1).
  change (len (@nil Z) <? 2) with true.
  cbn [mem existsb negb andb app bind].
  replace (distance_class info1) with (cls p c1)
    by (unfold cls; now rewrite E1).
  destruct (pick_diverse_second p c1 rest) as [used Hpick].
  { intros x Hx. apply Hknown. now right. }
  rewrite Hpick.
  destruct fuel as [|[|fuel]]; try lia.
  destruct (find (fun x => negb (cls p x =? cls p c1)) rest) as [x|] eqn:Ef.
  - apply find_some in Ef. destruct Ef as [Hx Hne].
    apply negb_true_iff, Z.eqb_neq in Hne.
    split; [reflexivity|]. split; assumption.
  - cbn [fill].
    change (len [c1] <? 2) with true.
    assert (Hlt : (len [c1] <? len (c1 :: rest)) = true).
    { apply Z.ltb_lt. unfold len in *. simpl length in *. lia. }
    rewrite Hlt. cbn [andb].
    assert (Hrem : filter (fun x => negb (mem x [c1])) (c1 :: rest) = rest).
    { cbn [filter]. assert (Hm : mem c1 [c1] = true)
        by (apply mem_In; now left).
      rewrite Hm. cbn [negb].
      apply forallb_filter_id. apply forallb_forall.
      intros y Hy. apply negb_true_iff, mem_false.
      intros [->|[]]. contradiction. }
    rewrite Hrem.
    destruct (choice_nonempty rest g Hrest) as [x [Hx Hin]].
    destruct (choice rest g) as [o g'] eqn:Ech. cbn [fst snd] in *.
    subst o. exists x. split; [reflexivity|]. split; [exact Hin|].
    split; [intros ->; contradiction|]. split.
    + pose proof (find_none _ _ Ef x Hin) as Hn.
      apply negb_false_iff, Z.eqb_eq in Hn. exact Hn.
    + cbn [app]. change (len [c1; x] <? 2) with false. reflexivity.
Qed.

Lemma gradient_maintenance_targets_witness :
  maintenance_targets 2 ring_peer zero_rng = Some (inl ([9; 12], zero_rng)).
Proof.
  destruct (gradient_maintenance_targets ring_peer zero_rng 9 [11; 12] 2%nat)
    as [_ H].
  assert (Hwf : dict_wf (known_peers ring_peer))
    by (vm_compute; repeat constructor; simpl; intuition discriminate).
  specialize (H Hwf eq_refl ltac:(discriminate) (le_n 2)).
  vm_compute in H. vm_compute. tauto.
Defined.

End GradientTargets.

(* ================================================================= *)
(** ** The peers a joining member starts with *)

Module GradientJoiners.
Import Gradient GradientBootstrap.

(** Identifiers of the address space are at a ring distance that is not
    negative. *)
Lemma ring_distance_in_range p a b :
  0 <= address_space_bits p ->
  0 <= a < 2 ^ address_space_bits p ->
  0 <= b < 2 ^ address_space_bits p ->
  0 <= _ring_distance p a b.
Proof.
  intros Hb Ha Hb'. unfold _ring_distance.
  rewrite (address_space_size_pow p Hb). lia.
Qed.

Lemma add_peer_frame round_up p x st lh p1 :
  add_peer round_up p x st lh = Ok p1 ->
  id p1 = id p /\
  max_connections p1 = max_connections p /\
  address_space_bits p1 = address_space_bits p /\
  pending_invites p1 = pending_invites p.
Proof.
  intros H.
  destruct (GradientClassLists.add_peer_inv _ _ _ _ _ _ H) as (c & _ & ->).
  repeat split.
Qed.

Lemma ring_distance_same_bits p q a b :
  address_space_bits q = address_space_bits p ->
  _ring_distance q a b = _ring_distance p a b.
Proof.
  intros H. unfold _ring_distance, address_space_size. now rewrite H.
Qed.

Lemma get_distance_class_bits round_up p q d :
  address_space_bits q = address_space_bits p ->
  _get_distance_class round_up q d = _get_distance_class round_up p d.
Proof.
  intros H.
  unfold _get_distance_class, max_distance_classes, address_space_size.
  now rewrite H.
Qed.

Lemma gradient_fold_add_fresh round_up st lh l :
  forall p0,
    NoDup l ->
    (forall x, In x l -> ~ In x (dict_keys (known_peers p0))) ->
    (forall x, In x l -> 0 <= _ring_distance p0 (id p0) x) ->
    exists (class_of_id : Z -> Z) p,
      foldM (fun peer x => add_peer round_up peer x st lh) l p0 = Ok p /\
      (forall x, In x l ->
                 _get_distance_class round_up p0
                   (_ring_distance p0 (id p0) x) = Ok (class_of_id x)) /\
      known_peers p
      = known_peers p0
        ++ map (fun x => (x, mkPeerInfo st lh (class_of_id x))) l /\
      id p = id p0 /\
      max_connections p = max_connections p0 /\
      address_space_bits p = address_space_bits p0 /\
      pending_invites p = pending_invites p0.
Proof.
  intros p0 Hnd Hfresh Hpos.
  exists (fun x =>
            match _get_distance_class round_up p0
                    (_ring_distance p0 (id p0) x) with
            | Ok c => c
            | Raise _ => 0
            end).
  assert (Hcls : forall x, In x l ->
               _get_distance_class round_up p0
                 (_ring_distance p0 (id p0) x)
               = Ok (match _get_distance_class round_up p0
                             (_ring_distance p0 (id p0) x) with
                     | Ok c => c
                     | Raise _ => 0
                     end)).
  { intros x Hx.
    destruct (GradientInvites.get_distance_class_Ok round_up p0 _
                (Hpos x Hx)) as [c ->]. reflexivity. }
  set (cls := fun x => match _get_distance_class round_up p0
                               (_ring_distance p0 (id p0) x) with
                       | Ok c => c
                       | Raise _ => 0
                       end) in *.
  assert (G : forall l1 p1,
             NoDup l1 ->
             (forall x, In x l1 -> In x l) ->
             (forall x, In x l1 -> ~ In x (dict_keys (known_peers p1))) ->
             id p1 = id p0 ->
             address_space_bits p1 = address_space_bits p0 ->
             exists p,
               foldM (fun peer x => add_peer round_up peer x st lh) l1 p1
               = Ok p /\
               known_peers p
               = known_peers p1
                 ++ map (fun x => (x, mkPeerInfo st lh (cls x))) l1 /\
               id p = id p1 /\
               max_connections p = max_connections p1 /\
               address_space_bits p = address_space_bits p1 /\
               pending_invites p = pending_invites p1).
  { induction l1 as [|x l1 IH]; intros p1 Hnd1 Hsub Hfr Hid Hbits;
      cbn [foldM map].
    - exists p1. rewrite app_nil_r. repeat split.
    - inversion Hnd1 as [|? ? Hnin Hnd1']; subst.
      assert (Hc : _get_distance_class round_up p1
                     (_ring_distance p1 (id p1) x) = Ok (cls x)).
      { rewrite (get_distance_class_bits round_up p0 p1 _ Hbits).
        rewrite (ring_distance_same_bits p0 p1 _ _ Hbits), Hid.
        apply Hcls, Hsub. now left. }
      unfold add_peer at 1. rewrite Hc. cbn [bind].
      set (p2 := _update_distance_class_membership
                   (with_known_peers p1
                      (dict_set (known_peers p1) x
                                (mkPeerInfo st lh (cls x))))).
      assert (H2 : known_peers p2
                   = known_peers p1 ++ [(x, mkPeerInfo st lh (cls x))]).
      { subst p2. cbn [known_peers _update_distance_class_membership
                       with_known_peers].
        apply dict_set_absent. apply Hfr. now left. }
      destruct (IH p2 Hnd1') as (p & Hf & Hk & Hi & Hm & Hb & Hq).
      { intros y Hy. apply Hsub. now right. }
      { intros y Hy. rewrite H2. unfold dict_keys.
        rewrite map_app, in_app_iff.
        intros [Hin|[<-|[]]]; [|contradiction].
        apply (Hfr y); [now right|exact Hin]. }
      { exact Hid. }
      { exact Hbits. }
      exists p. split; [exact Hf|].
      rewrite Hk, H2, <- app_assoc. cbn [app].
      rewrite Hi, Hm, Hb, Hq. repeat split. }
  destruct (G l p0 Hnd (fun x H => H) Hfresh eq_refl eq_refl)
    as (p & Hf & Hk & Hi & Hm & Hb & Hq).
  exists p. repeat split; auto.
Qed.

(** The first recorded peer at a negative ring distance makes the loop
    raise. *)
Lemma gradient_fold_add_negative round_up st lh l :
  forall p0,
    (exists x, In x l /\ _ring_distance p0 (id p0) x < 0) ->
    foldM (fun peer x => add_peer round_up peer x st lh) l p0
    = Raise ValueError.
Proof.
  induction l as [|y l IH]; intros p0 [x [Hin Hneg]]; [destruct Hin|].
  cbn [foldM].
  destruct (Z.lt_ge_cases (_ring_distance p0 (id p0) y) 0) as [Hy|Hy].
  - unfold add_peer.
    now rewrite (GradientInvites.get_distance_class_negative
                   round_up p0 _ Hy).
  - destruct Hin as [->|Hin]; [lia|].
    destruct (add_peer round_up p0 y st lh) as [p1|e] eqn:E.
    + cbn [bind]. apply IH. exists x. split; [exact Hin|].
      destruct (add_peer_frame _ _ _ _ _ _ E) as (Hi & _ & Hb & _).
      now rewrite (ring_distance_same_bits p0 p1 _ _ Hb), Hi.
    + exfalso. unfold add_peer in E.
      destruct (GradientInvites.get_distance_class_Ok round_up p0 _ Hy)
        as [c Hc].
      rewrite Hc in E. discriminate.
Qed.

Lemma NoDup_app_disjoint {A : Type} (l1 l2 : list A) x :
  NoDup (l1 ++ l2) -> In x l1 -> In x l2 -> False.
Proof.
  induction l1 as [|a l1 IH]; simpl; intros H H1 H2; [destruct H1|].
  inversion H as [|? ? Hn Hd]; subst.
  destruct H1 as [->|H1]; [|eauto].
  apply Hn, in_or_app. now right.
Qed.

Lemma sorted_head_least (f : Z -> Z) (l : list Z) n x y :
  StronglySorted (fun a b => f a <= f b) l ->
  In x (firstn n l) -> In y l -> ~ In y (firstn n l) -> f x <= f y.
Proof.
  intros Hs Hx Hy Hny.
  rewrite <- (firstn_skipn n l) in Hs, Hy.
  apply in_app_or in Hy. destruct Hy as [Hy|Hy]; [contradiction|].
  eapply (StronglySorted_split (fun a b => f a <= f b)); eauto.
Qed.

(** X28.  The peers a joining member of the gradient simulator starts
    with, whatever the rounding of the float logarithm.  With
    [n = min(initial_identified_peers, number of established peers)]:
    for [n <= 0] building the member raises [ValueError] (the distant
    share is negative); for [n >= 1] it raises [ValueError] when some
    established peer lies at a negative ring distance from it; for
    [n >= 1], distinct established identifiers and no negative ring
    distance, as with identifiers of the address space, it returns a
    peer that knows exactly [n] distinct established peers, each
    Identified, never heard from and filed under the class of its ring
    distance, with no Connected peer; among them are the
    [max(1, 2n // 3)] established peers nearest to it on the ring, so no
    established peer it does not know is nearer than those. *)
Theorem gradient_joiner_knows_its_nearest :
  forall (round_up : Z -> bool) (cfg : SimulationConfig)
         (connected_ids : list Z) (peer_id : Z) (g : Rng),
    let n := Z.min (initial_identified_peers cfg) (len connected_ids) in
    let p0 := fresh_member cfg peer_id in
    let dist := fun cid => _ring_distance p0 peer_id cid in
    (n <= 0 ->
     candidate_member round_up cfg connected_ids peer_id g
     = Raise ValueError) /\
    (1 <= n ->
     (exists x, In x connected_ids /\ dist x < 0) ->
     candidate_member round_up cfg connected_ids peer_id g
     = Raise ValueError) /\
    (1 <= n ->
     NoDup connected_ids ->
     (forall x, In x connected_ids -> 0 <= dist x) ->
     exists peer g',
       candidate_member round_up cfg connected_ids peer_id g
       = Ok (peer, g') /\
       id peer = peer_id /\
       dict_wf (known_peers peer) /\
       len (known_peers peer) = n /\
       (forall k, In k (dict_keys (known_peers peer)) ->
                  In k connected_ids) /\
       (forall k info,
           dict_get (known_peers peer) k = Some info ->
           exists c,
             _get_distance_class round_up p0 (dist k) = Ok c /\
             info = mkPeerInfo IDENTIFIED (-1) c) /\
       get_connected_peers peer = [] /\
       exists close,
         len close = Z.max 1 (n * 2 / 3) /\
         (forall x, In x close -> In x (dict_keys (known_peers peer))) /\
         (forall x y, In x close -> In y connected_ids ->
                      ~ In y close -> dist x <= dist y)).
Proof.
  intros round_up cfg connected_ids peer_id g n p0 dist.
  unfold candidate_member. fold p0. fold n. fold dist.
  set (sorted := sort_by dist connected_ids).
  set (close_count := Z.max 1 (n * 2 / 3)).
  assert (Hperm : Permutation sorted connected_ids) by apply sort_by_perm.
  assert (Hlen : len sorted = len connected_ids).
  { unfold len. now rewrite (Permutation_length Hperm). }
  assert (Hshape : 1 <= n ->
            1 <= close_count <= n /\
            n <= len sorted /\
            len (firstn (Z.to_nat close_count) sorted) = close_count /\
            len (skipn (Z.to_nat close_count) sorted)
            = len sorted - close_count).
  { intros Hn.
    assert (Hcc : 1 <= close_count <= n).
    { subst close_count. split; [lia|].
      apply Z.max_lub; [lia|]. apply Z.div_le_upper_bound; lia. }
    assert (Hnlen : n <= len sorted) by (rewrite Hlen; subst n; lia).
    split; [exact Hcc|]. split; [exact Hnlen|].
    unfold len in *. rewrite length_firstn, length_skipn. lia. }
  split; [|split].
  - intros Hn. unfold sample.
    assert (E : (Z.min (n - close_count)
                   (len (skipn (Z.to_nat close_count) sorted)) <? 0) = true).
    { apply Z.ltb_lt. subst close_count. lia. }
    rewrite E. reflexivity.
  - intros Hn [x [Hx Hneg]].
    destruct (Hshape Hn) as (Hcc & Hnlen & Hclose & Hpool).
    rewrite sample_Ok by lia.
    destruct (sample_draw _ _ g) as [distant g'].
    cbn [bind].
    rewrite gradient_fold_add_negative; [reflexivity|].
    change (id p0) with peer_id. fold dist.
    destruct sorted as [|h rest] eqn:Es.
    { apply Permutation_nil in Hperm.
      rewrite Hperm in Hx. destruct Hx. }
    exists h. split.
    + destruct (Z.to_nat close_count) as [|k] eqn:Ek; [lia|].
      cbn [firstn app]. now left.
    + assert (Hs : StronglySorted (fun a b => dist a <= dist b) (h :: rest)).
      { rewrite <- Es. apply sort_by_sorted. }
      assert (Hin : In x (h :: rest)).
      { eapply Permutation_in; [apply Permutation_sym|]; eauto. }
      inversion Hs as [|? ? _ Hall]; subst.
      destruct Hin as [->|Hin]; [exact Hneg|].
      rewrite Forall_forall in Hall. specialize (Hall x Hin).
      eapply Z.le_lt_trans; [exact Hall|exact Hneg].
  - intros Hn Hnd Hpos.
    destruct (Hshape Hn) as (Hcc & Hnlen & Hclose & Hpool).
    set (close := firstn (Z.to_nat close_count) sorted) in *.
    set (pool := skipn (Z.to_nat close_count) sorted) in *.
    assert (Hmin : Z.min (n - close_count) (len pool) = n - close_count)
      by lia.
    rewrite Hmin.
    destruct (sample pool (n - close_count) g) as [[distant g']|e] eqn:Hs;
      [|rewrite sample_Ok in Hs by lia; discriminate].
    cbn [bind].
    apply sample_inv in Hs.
    destruct Hs as (_ & _ & Hdl & Hdin & Hdnd).
    assert (Hsnd : NoDup sorted).
    { eapply Permutation_NoDup; [apply Permutation_sym|]; eauto. }
    assert (Hsplit : NoDup (close ++ pool)).
    { subst close pool. now rewrite firstn_skipn. }
    assert (Hids : NoDup (close ++ distant)).
    { apply NoDup_app.
      - eapply NoDup_app_remove_r; eauto.
      - apply Hdnd. eapply NoDup_app_remove_l; eauto.
      - intros x Hx1 Hx2. apply Hdin in Hx2.
        exact (NoDup_app_disjoint _ _ _ Hsplit Hx1 Hx2). }
    assert (Hsub : forall k, In k (close ++ distant) -> In k connected_ids).
    { intros k Hin.
      eapply Permutation_in; [exact Hperm|].
      apply in_app_or in Hin. destruct Hin as [Hin|Hin].
      - subst close. eapply firstn_incl; eauto.
      - apply Hdin in Hin. subst pool.
        rewrite <- (firstn_skipn (Z.to_nat close_count) sorted).
        apply in_or_app. now right. }
    destruct (gradient_fold_add_fresh round_up IDENTIFIED (-1)
                (close ++ distant) p0 Hids)
      as (cls & peer & Hfold & Hcls & Hk & Hid & _).
    { intros x _ []. }
    { intros x Hx. apply Hpos, Hsub, Hx. }
    rewrite Hfold. cbn [bind].
    change (known_peers p0) with (@nil (Z * PeerInfo)) in Hk.
    cbn [app] in Hk.
    eexists _, _. split; [reflexivity|].
    assert (Hkeys : dict_keys (known_peers peer) = close ++ distant).
    { rewrite Hk. unfold dict_keys. rewrite map_map. cbn [fst].
      apply map_id. }
    split; [exact Hid|].
    split; [unfold dict_wf; now rewrite Hkeys|].
    split.
    { rewrite Hk. unfold len. rewrite length_map, length_app.
      unfold len in *. lia. }
    split.
    { intros k Hin. rewrite Hkeys in Hin. now apply Hsub. }
    split.
    { intros k info Hget. apply dict_get_In in Hget. rewrite Hk in Hget.
      apply in_map_iff in Hget. destruct Hget as [x [Hx Hin]].
      injection Hx as -> <-. exists (cls k). split; [|reflexivity].
      apply (Hcls k Hin). }
    split.
    { unfold get_connected_peers, get_peers_by_state. rewrite Hk.
      assert (Hnone : forall (c : Z -> Z) (l : list Z),
                 filter (fun e : Z * PeerInfo =>
                           PeerState_eqb (state (snd e)) CONNECTED)
                        (map (fun x => (x, mkPeerInfo IDENTIFIED (-1) (c x)))
                             l) = [])
        by (intros c l; induction l as [|x l IH]; [reflexivity|exact IH]).
      now rewrite Hnone. }
    exists close. split; [exact Hclose|]. split.
    { intros x Hx. rewrite Hkeys. apply in_or_app. now left. }
    intros x y Hx Hy Hny.
    apply (sorted_head_least dist sorted (Z.to_nat close_count)); auto.
    + apply sort_by_sorted.
    + eapply Permutation_in; [apply Permutation_sym|]; eauto.
Qed.

Lemma gradient_joiner_knows_its_nearest_witness :
  exists peer g',
    candidate_member never_up demo_cfg [1; 5; 9; 13] 6 zero_rng
    = Ok (peer, g') /\
    len (known_peers peer) = 2 /\
    In 5 (dict_keys (known_peers peer)).
Proof.
  destruct (gradient_joiner_knows_its_nearest never_up demo_cfg
              [1; 5; 9; 13] 6 zero_rng) as (_ & _ & H).
  destruct H as (peer & g' & Hc & _ & _ & Hlen & _).
  - vm_compute. discriminate.
  - repeat constructor; simpl; intuition discriminate.
  - intros x Hx. simpl in Hx.
    destruct Hx as [<-|[<-|[<-|[<-|[]]]]]; vm_compute; discriminate.
  - exists peer, g'. split; [exact Hc|]. split; [exact Hlen|].
    vm_compute in Hc. injection Hc as <- _. vm_compute. tauto.
Defined.

End GradientJoiners.

(* ================================================================= *)
(** ** The established members of the gradient simulator *)

Module GradientEstablished.
Import Gradient GradientClasses GradientBootstrap.

Lemma connected_records_members (c : Z -> Z) (k : Z) (l : list Z) :
  map fst
    (filter (fun e : Z * PeerInfo =>
               PeerState_eqb (state (snd e)) CONNECTED &&
               (distance_class (snd e) =? k))
            (map (fun x => (x, mkPeerInfo CONNECTED 0 (c x))) l))
  = filter (fun x => c x =? k) l.
Proof.
  induction l as [|x l IH]; [reflexivity|].
  cbn [map filter state distance_class snd PeerState_eqb andb].
  destruct (c x =? k); cbn [map fst]; now rewrite IH.
Qed.

Lemma connected_records_all (c : Z -> Z) (l : list Z) :
  map fst
    (filter (fun e : Z * PeerInfo => PeerState_eqb (state (snd e)) CONNECTED)
            (map (fun x => (x, mkPeerInfo CONNECTED 0 (c x))) l))
  = l.
Proof.
  induction l as [|x l IH]; [reflexivity|].
  cbn [map filter state snd PeerState_eqb fst]. now rewrite IH.
Qed.

Lemma foldM_filter {A B : Type} (c : B -> bool) (f : A -> B -> res A) l :
  forall a,
    foldM (fun x b => if c b then f x b else Ok x) l a
    = foldM f (filter c l) a.
Proof.
  induction l as [|b l IH]; intros a; cbn [foldM filter]; [reflexivity|].
  destruct (c b); cbn [foldM bind]; [|apply IH].
  destruct (f a b); cbn [bind]; [apply IH|reflexivity].
Qed.

(** X29.  An established member of the gradient simulator, whatever the
    rounding of the float logarithm.  Built from distinct established
    identifiers, none of the others at a negative ring distance from
    it, as with identifiers of the address space, it knows exactly the
    other established peers, in their order and never itself, each
    Connected, heard from in round 0 and filed under the class of its
    ring distance; its class lists are consistent with these records:
    every other established peer is listed exactly under its class, in
    order, and no class is listed empty.  When one of the others lies at
    a negative ring distance, building the member raises
    [ValueError]. *)
Theorem gradient_established_member :
  forall (round_up : Z -> bool) (cfg : SimulationConfig)
         (connected_ids : list Z) (peer_id : Z),
    NoDup connected_ids ->
    let others := filter (fun x => negb (x =? peer_id)) connected_ids in
    let p0 := fresh_member cfg peer_id in
    let dist := fun x => _ring_distance p0 peer_id x in
    ((exists x, In x others /\ dist x < 0) ->
     connected_member round_up cfg connected_ids peer_id
     = Raise ValueError) /\
    ((forall x, In x others -> 0 <= dist x) ->
     exists (class_of_id : Z -> Z) peer,
       connected_member round_up cfg connected_ids peer_id = Ok peer /\
       (forall x, In x others ->
                  _get_distance_class round_up p0 (dist x)
                  = Ok (class_of_id x)) /\
       id peer = peer_id /\
       dict_keys (known_peers peer) = others /\
       ~ In peer_id (dict_keys (known_peers peer)) /\
       get_connected_peers peer = others /\
       (forall k info,
           dict_get (known_peers peer) k = Some info ->
           info = mkPeerInfo CONNECTED 0 (class_of_id k)) /\
       classes_consistent peer /\
       (forall c,
           dict_get (distance_classes peer) c
           = match filter (fun x => class_of_id x =? c) others with
             | [] => None
             | l => Some l
             end)).
Proof.
  intros round_up cfg connected_ids peer_id Hnd others p0 dist.
  assert (Hfold : connected_member round_up cfg connected_ids peer_id
                  = foldM (fun q x => add_peer round_up q x CONNECTED 0)
                          others p0).
  { subst others. unfold connected_member. fold p0.
    apply (foldM_filter (fun x => negb (x =? peer_id))
             (fun q x => add_peer round_up q x CONNECTED 0)). }
  rewrite Hfold. split.
  { intros Hneg. now apply GradientJoiners.gradient_fold_add_negative. }
  intros Hpos.
  assert (Hond : NoDup others) by (subst others; now apply NoDup_filter).
  destruct (GradientJoiners.gradient_fold_add_fresh round_up CONNECTED 0
              others p0 Hond)
    as (class_of_id & peer & Hf & Hcls & Hk & Hid & _).
  { intros x _ []. }
  { exact Hpos. }
  exists class_of_id, peer. split; [exact Hf|]. split; [exact Hcls|].
  change (known_peers p0) with (@nil (Z * PeerInfo)) in Hk.
  cbn [app] in Hk.
  assert (Hkeys : dict_keys (known_peers peer) = others).
  { rewrite Hk. unfold dict_keys. rewrite map_map. apply map_id. }
  assert (Hcons : classes_consistent peer).
  { apply (foldM_invariant (fun q => classes_consistent q)
             (fun q x => add_peer round_up q x CONNECTED 0) others)
      with (a := p0) (a' := peer); [| |exact Hf].
    - intros q x q' _ _ E.
      destruct (GradientClassLists.add_peer_inv _ _ _ _ _ _ E)
        as (c & _ & ->).
      apply GradientClassLists.update_membership_consistent.
    - intros c. reflexivity. }
  split; [exact Hid|]. split; [exact Hkeys|]. split.
  { rewrite Hkeys. subst others. rewrite filter_In, Z.eqb_refl.
    intros [_ H]. discriminate. }
  split.
  { unfold get_connected_peers, get_peers_by_state. rewrite Hk.
    apply connected_records_all. }
  split.
  { intros k info Hget. apply dict_get_In in Hget. rewrite Hk in Hget.
    apply in_map_iff in Hget. destruct Hget as [x [Hx _]].
    now injection Hx as -> <-. }
  split; [exact Hcons|].
  intros c. rewrite (Hcons c). unfold class_members. rewrite Hk.
  now rewrite connected_records_members.
Qed.

Lemma gradient_established_member_witness :
  exists peer,
    connected_member never_up demo_cfg [1; 5; 9; 13] 5 = Ok peer /\
    get_connected_peers peer = [1; 9; 13].
Proof.
  destruct (gradient_established_member never_up demo_cfg [1; 5; 9; 13] 5)
    as (_ & H).
  - repeat constructor; simpl; intuition discriminate.
  - destruct H as (c & peer & Hf & _ & _ & _ & _ & H & _).
    + intros x Hx. simpl in Hx.
      destruct Hx as [<-|[<-|[<-|[]]]]; vm_compute; discriminate.
    + exists peer. split; [exact Hf|exact H].
Defined.

End GradientEstablished.

(* ================================================================= *)
(** ** The lookup of the gradient simulator *)

Module GradientAnswer.
Import Gradient GradientChoice GradientLookup GradientWalk.

Lemma class_starts_spec ps peer closest tdc offsets :
  forall g,
    exists starts g',
      class_starts ps peer closest tdc offsets g = Ok (starts, g') /\
      len starts <= 2 /\
      forall s, In s starts ->
                dict_mem ps s = true /\
                closest <> Some s /\
                exists o members,
                  In o offsets /\
                  dict_get (distance_classes peer) (tdc + o) = Some members /\
                  In s members.
Proof.
  induction offsets as [|o offsets IH]; intros g; cbn [class_starts].
  - exists [], g. split; [reflexivity|]. split; [unfold len; simpl; lia|].
    intros s [].
  - assert (Hrest : exists starts g',
               class_starts ps peer closest tdc offsets g = Ok (starts, g') /\
               len starts <= 2 /\
               forall s, In s starts ->
                         dict_mem ps s = true /\
                         closest <> Some s /\
                         exists o0 members,
                           In o0 (o :: offsets) /\
                           dict_get (distance_classes peer) (tdc + o0)
                           = Some members /\
                           In s members).
    { destruct (IH g) as (starts & g' & H & Hl & Hin).
      exists starts, g'. split; [exact H|]. split; [exact Hl|].
      intros s Hs. destruct (Hin s Hs) as (Hm & Hc & o0 & ms & Ho & Hg & Hi).
      repeat split; auto. exists o0, ms. repeat split; auto. now right. }
    destruct (dict_get (distance_classes peer) (tdc + o)) as [members|] eqn:E;
      [|exact Hrest].
    set (avail := filter (fun pid => differs pid closest && dict_mem ps pid)
                         members).
    destruct (0 <? Z.min 2 (len avail)) eqn:Epos; [|exact Hrest].
    apply Z.ltb_lt in Epos.
    destruct (sample avail (Z.min 2 (len avail)) g) as [[xs g']|e] eqn:Hs;
      [|rewrite sample_Ok in Hs by lia; discriminate].
    apply sample_inv in Hs. destruct Hs as (_ & _ & Hl & Hin & _).
    exists xs, g'. split; [reflexivity|]. split; [lia|].
    intros s Hsx. apply Hin in Hsx. subst avail. apply filter_In in Hsx.
    destruct Hsx as [Hmem Hc]. apply andb_prop in Hc. destruct Hc as [Hd Hm].
    split; [exact Hm|]. split.
    + intros Heq. rewrite Heq in Hd. simpl in Hd.
      rewrite Z.eqb_refl in Hd. discriminate.
    + exists o, members. split; [now left|]. split; assumption.
Qed.

Lemma gradient_walk_responses_filter ps target starts :
  walk_responses ps target starts
  = filter (fun r => negb (r =? 0))
      (map (fun s => _gradient_recursive_search ps s target 10) starts).
Proof.
  unfold walk_responses.
  enough (H : forall acc,
             fold_left
               (fun responses start_id =>
                  let response :=
                    _gradient_recursive_search ps start_id target 10 in
                  if truthy (Some response) then responses ++ [response]
                  else responses) starts acc
             = acc ++ filter (fun r => negb (r =? 0))
                        (map (fun s =>
                                _gradient_recursive_search ps s target 10)
                             starts))
    by apply (H []).
  induction starts as [|s starts IH]; intros acc; simpl.
  - now rewrite app_nil_r.
  - rewrite IH.
    destruct (negb (_gradient_recursive_search ps s target 10 =? 0));
      [now rewrite <- app_assoc|reflexivity].
Qed.

Lemma class_starts_first ps peer closest tdc before :
  forall o after members g,
    (forall o', In o' before ->
                match dict_get (distance_classes peer) (tdc + o') with
                | None => True
                | Some ms =>
                    filter (fun pid => differs pid closest && dict_mem ps pid)
                           ms = []
                end) ->
    dict_get (distance_classes peer) (tdc + o) = Some members ->
    filter (fun pid => differs pid closest && dict_mem ps pid) members
    <> [] ->
    class_starts ps peer closest tdc (before ++ o :: after) g
    = sample
        (filter (fun pid => differs pid closest && dict_mem ps pid) members)
        (Z.min 2
           (len (filter (fun pid => differs pid closest && dict_mem ps pid)
                        members))) g.
Proof.
  induction before as [|b before IH]; intros o after members g Hb Hm Hne;
    cbn [app class_starts].
  - rewrite Hm.
    set (avail := filter _ members) in *.
    destruct avail as [|a l]; [congruence|].
    replace (0 <? Z.min 2 (len (a :: l))) with true; [reflexivity|].
    symmetry. apply Z.ltb_lt. unfold len. cbn [length]. lia.
  - pose proof (Hb b (or_introl eq_refl)) as H.
    destruct (dict_get (distance_classes peer) (tdc + b)) as [ms|].
    + rewrite H. cbn [len length Z.of_nat Z.min Z.compare Z.ltb].
      apply IH; auto. intros o' Ho'. apply Hb. now right.
    + apply IH; auto. intros o' Ho'. apply Hb. now right.
Qed.

Lemma class_starts_none ps peer closest tdc offsets g :
  (forall o', In o' offsets ->
              match dict_get (distance_classes peer) (tdc + o') with
              | None => True
              | Some ms =>
                  filter (fun pid => differs pid closest && dict_mem ps pid)
                         ms = []
              end) ->
  class_starts ps peer closest tdc offsets g = Ok ([], g).
Proof.
  induction offsets as [|b offsets IH]; intros Hb; cbn [class_starts];
    [reflexivity|].
  pose proof (Hb b (or_introl eq_refl)) as H.
  destruct (dict_get (distance_classes peer) (tdc + b)) as [ms|].
  - rewrite H. cbn [len length Z.of_nat Z.min Z.compare Z.ltb].
    apply IH. intros o' Ho'. apply Hb. now right.
  - apply IH. intros o' Ho'. apply Hb. now right.
Qed.

(** X30.  The lookup of the gradient simulator, whatever the rounding
    of the float logarithm.  A target at a negative ring distance from
    the requester raises [ValueError].  Otherwise the starting points
    are, in this order: the closest known peer, exactly when there is
    one, it is not 0 and it is registered; then the peers sampled,
    [min(2, number available)] of them, from the first class list,
    among those of the target's class, the next and the previous one in
    this order, that exists and offers a registered peer other than the
    closest; when no such list exists nothing is sampled and the
    generator is left as it was.  So there are at most three starting
    points, all registered.  With a requester that is registered the
    lookup never raises; an answer is never 0 and is the end of a
    gradient walk of at most 10 hops from one of the starting points.
    With a requester that is not registered it raises [KeyError] as soon
    as there is a response to compare. *)
Theorem gradient_lookup_provenance :
  forall (round_up : Z -> bool) (ps : dict GradientPeer)
         (cfg : SimulationConfig) (peer : GradientPeer) (g : Rng),
    let target := fst (randint 0 (max_id cfg) g) in
    let g1 := snd (randint 0 (max_id cfg) g) in
    (_ring_distance peer (id peer) target < 0 ->
     simulate_mapping_request round_up ps cfg peer g = Raise ValueError) /\
    (0 <= _ring_distance peer (id peer) target ->
     exists closest tdc first cs g2,
       let available := fun members =>
         filter (fun pid => differs pid closest && dict_mem ps pid)
                members in
       find_closest_peer_to_target round_up peer target [] = Ok closest /\
       _get_distance_class round_up peer
         (_ring_distance peer (id peer) target) = Ok tdc /\
       starting_points round_up ps peer target g1 = Ok (first ++ cs, g2) /\
       (first = [] \/ exists c, first = [c]) /\
       (forall c, first = [c] <->
                  closest = Some c /\ c <> 0 /\ dict_mem ps c = true) /\
       (forall before o after members,
           [0; 1; -1] = before ++ o :: after ->
           (forall o', In o' before ->
                       match dict_get (distance_classes peer) (tdc + o')
                       with
                       | None => True
                       | Some ms => available ms = []
                       end) ->
           dict_get (distance_classes peer) (tdc + o) = Some members ->
           available members <> [] ->
           sample (available members)
                  (Z.min 2 (len (available members))) g1 = Ok (cs, g2) /\
           len cs = Z.min 2 (len (available members)) /\
           (forall s, In s cs -> In s (available members))) /\
       ((forall o', In o' [0; 1; -1] ->
                    match dict_get (distance_classes peer) (tdc + o') with
                    | None => True
                    | Some ms => available ms = []
                    end) ->
        cs = [] /\ g2 = g1) /\
       len (first ++ cs) <= 3 /\
       (forall s, In s (first ++ cs) -> dict_mem ps s = true) /\
       (dict_mem ps (id peer) = true ->
        exists r,
          simulate_mapping_request round_up ps cfg peer g = Ok (r, g2) /\
          (first ++ cs = [] -> r = None) /\
          forall x,
            r = Some x ->
            x <> 0 /\
            exists start n,
              In start (first ++ cs) /\ (n <= 10)%nat /\
              walk ps target n start x) /\
       (dict_mem ps (id peer) = false ->
        walk_responses ps target (first ++ cs) <> [] ->
        simulate_mapping_request round_up ps cfg peer g = Raise KeyError)).
Proof.
  intros round_up ps cfg peer g target g1.
  unfold simulate_mapping_request.
  destruct (randint 0 (max_id cfg) g) as [t gr] eqn:Er.
  cbn [fst snd] in target, g1. subst target g1.
  unfold starting_points. split.
  { intros Hd. unfold find_closest_peer_to_target.
    now rewrite (GradientInvites.get_distance_class_negative
                   round_up peer _ Hd). }
  intros Hd.
  destruct (GradientInvites.get_distance_class_Ok round_up peer _ Hd)
    as [tdc Htdc].
  assert (Hclosest : exists closest,
             find_closest_peer_to_target round_up peer t [] = Ok closest).
  { unfold find_closest_peer_to_target. rewrite Htdc. cbn [bind]. eauto. }
  destruct Hclosest as [closest Hclosest].
  rewrite Hclosest, Htdc. cbn [bind].
  destruct (class_starts_spec ps peer closest tdc [0; 1; -1] gr)
    as (cs & g2 & Hcs & Hcl & Hcin).
  rewrite Hcs. cbn [bind].
  set (first := match closest with
                | Some c => if truthy closest && dict_mem ps c then [c]
                            else []
                | None => []
                end).
  assert (Hfirst : len first <= 1 /\
                   (first = [] \/ exists c, first = [c]) /\
                   (forall c, first = [c] <->
                              closest = Some c /\ c <> 0 /\
                              dict_mem ps c = true)).
  { subst first. destruct closest as [c|].
    - cbn [truthy].
      destruct (c =? 0) eqn:E0; cbn [negb andb];
        [|destruct (dict_mem ps c) eqn:Em].
      + apply Z.eqb_eq in E0. split; [unfold len; simpl; lia|].
        split; [now left|]. intros c'. split; [discriminate|].
        intros (H1 & H2 & _). congruence.
      + apply Z.eqb_neq in E0. split; [unfold len; simpl; lia|].
        split; [right; eauto|]. intros c'. split.
        * intros H. injection H as <-. auto.
        * intros (H1 & _). now injection H1 as <-.
      + split; [unfold len; simpl; lia|].
        split; [now left|]. intros c'. split; [discriminate|].
        intros (H1 & _ & H3). injection H1 as <-. congruence.
    - split; [unfold len; simpl; lia|]. split; [now left|].
      intros c'. split; [discriminate|]. intros (H1 & _). discriminate. }
  destruct Hfirst as (Hfl & Hshape & Hfin).
  exists closest, tdc, first, cs, g2. cbv zeta.
  split; [reflexivity|]. split; [reflexivity|]. split; [reflexivity|].
  split; [exact Hshape|]. split; [exact Hfin|].
  split.
  { intros before o after members Hsplit Hbefore Hm Hne.
    rewrite Hsplit in Hcs.
    rewrite (class_starts_first ps peer closest tdc before o after members
               gr Hbefore Hm Hne) in Hcs.
    split; [exact Hcs|].
    apply sample_inv in Hcs. destruct Hcs as (_ & _ & Hl & Hin & _).
    split; [exact Hl|exact Hin]. }
  split.
  { intros Hnone.
    rewrite (class_starts_none ps peer closest tdc [0; 1; -1] gr Hnone)
      in Hcs.
    injection Hcs as <- <-. split; reflexivity. }
  split; [rewrite len_app; lia|].
  assert (Hstarts : forall s, In s (first ++ cs) -> dict_mem ps s = true).
  { intros s Hs. apply in_app_or in Hs. destruct Hs as [Hs|Hs].
    - destruct Hshape as [E|[c E]]; rewrite E in Hs; [destruct Hs|].
      destruct Hs as [<-|[]]. apply (Hfin c) in E. tauto.
    - apply Hcin in Hs. tauto. }
  split; [exact Hstarts|].
  assert (Hresp : forall x,
             In x (walk_responses ps t (first ++ cs)) ->
             x <> 0 /\
             exists start n,
               In start (first ++ cs) /\ (n <= 10)%nat /\
               walk ps t n start x).
  { intros x Hx. rewrite gradient_walk_responses_filter in Hx.
    apply filter_In in Hx. destruct Hx as [Hx Hnz].
    apply negb_true_iff, Z.eqb_neq in Hnz. split; [exact Hnz|].
    apply in_map_iff in Hx. destruct Hx as [start [<- Hs]].
    destruct (GradientSearch.ring_search_walk ps t 10 start) as [n [Hn Hw]].
    exists start, n. repeat split; auto. }
  split.
  - intros Hreg. unfold dict_mem in Hreg.
    destruct (dict_get ps (id peer)) as [self_peer|]; [|discriminate].
    destruct (first ++ cs) as [|s0 ss] eqn:Est.
    + exists None. split; [reflexivity|]. split; [reflexivity|discriminate].
    + destruct (walk_responses ps t (s0 :: ss)) as [|r0 rs] eqn:Ew.
      * exists None. split; [reflexivity|]. split; [discriminate|discriminate].
      * eexists. split; [reflexivity|]. split; [discriminate|].
        intros x Hx. apply min_by_In in Hx. now apply Hresp.
  - intros Hreg Hne. unfold dict_mem in Hreg.
    destruct (dict_get ps (id peer)) as [self_peer|]; [discriminate|].
    destruct (first ++ cs) as [|s0 ss] eqn:Est.
    + exfalso. apply Hne. reflexivity.
    + destruct (walk_responses ps t (s0 :: ss)) as [|r0 rs];
        [congruence|reflexivity].
Qed.

End GradientAnswer.
